(** * golang-yaml: scanner, parser, emitter and merger of the v1 package

    A shallow embedding of the Go sources (v1/lexer/scanner.go,
    v1/parser/parser.go, v1/ast, v1/encoder.go, v1/merge.go) together with
    the properties that the specification states about them.

    Conventions.
    - A Go [string] or [[]byte] is a [string] (a list of 8-bit characters).
    - A Go [int] is a [Z]; every increment is written with its 64-bit
      wrap-around ([incr]).  Indices into slices are [nat].
    - Go maps are [gmap]s; slices are lists.
    - Pointers to AST nodes are locations of an explicit heap (module
      [Heap]); functions that only read a tree work on its pure image
      (type [Node]). *)

From Stdlib Require Import ZArith Ascii String List Lia Bool.
From stdpp Require Import gmap strings list.

Open Scope Z_scope.

#[global] Set Warnings "-clear-no-such-hyp".

(** ** Machine integers *)

Definition wrap64 (z : Z) : Z := (z + 2 ^ 63) mod 2 ^ 64 - 2 ^ 63.
Definition incr (z : Z) : Z := wrap64 (z + 1).
Definition decr (z : Z) : Z := wrap64 (z - 1).

(** ** Bytes and strings *)

Definition LF : ascii := "010"%char.
Definition CR : ascii := "013"%char.
Definition TAB : ascii := "009"%char.
Definition DQ : ascii := "034"%char.
Definition NUL : ascii := "000"%char.

Definition code (c : ascii) : Z := Z.of_nat (nat_of_ascii c).
Definition byte_of (z : Z) : ascii := ascii_of_nat (Z.to_nat z).

Definition str1 (c : ascii) : string := String c EmptyString.
Definition nl : string := str1 LF.

Definition nonempty (s : string) : bool := negb (String.eqb s "").

(** [err == nil] for a call modelled as an [option]. *)
Definition accepts {A} (o : option A) : bool :=
  match o with Some _ => true | None => false end.

(** [bytes.Buffer.WriteByte] *)
Definition WriteByte (buf : string) (c : ascii) : string := buf +:+ str1 c.

Fixpoint bytes (s : string) : list ascii :=
  match s with EmptyString => [] | String c r => c :: bytes r end.

Fixpoint of_bytes (l : list ascii) : string :=
  match l with [] => EmptyString | c :: r => String c (of_bytes r) end.

Definition in_range (lo hi : Z) (c : ascii) : bool :=
  (lo <=? code c) && (code c <=? hi).

Fixpoint mem_ascii (c : ascii) (l : list ascii) : bool :=
  match l with [] => false | d :: r => Ascii.eqb c d || mem_ascii c r end.

Definition HasPrefix (s p : string) : bool := String.prefix p s.

Fixpoint Contains (s sub : string) : bool :=
  String.prefix sub s ||
  match s with EmptyString => false | String _ r => Contains r sub end.

Definition HasSuffix (s p : string) : bool :=
  let n := String.length s in let k := String.length p in
  (k <=? n)%nat && String.eqb (String.substring (n - k) k s) p.

(** [strings.ContainsAny(s, chars)] for a set of ASCII [chars]: a byte of
    [s] below 0x80 is a rune of its own, and no other rune is in [chars]. *)
Fixpoint ContainsAny (s : string) (chars : list ascii) : bool :=
  match s with
  | EmptyString => false
  | String c r => mem_ascii c chars || ContainsAny r chars
  end.

(** [strings.TrimRight(s, cutset)] for a cutset of one ASCII byte. *)
Fixpoint TrimRight1 (s : string) (c : ascii) : string :=
  match s with
  | EmptyString => EmptyString
  | String d r =>
      match TrimRight1 r c with
      | EmptyString => if Ascii.eqb d c then EmptyString else str1 d
      | r' => String d r'
      end
  end.

Fixpoint last_byte (s : string) : option ascii :=
  match s with
  | EmptyString => None
  | String c r => match r with EmptyString => Some c | _ => last_byte r end
  end.

(** The string ends with a newline. *)
Definition ends_LF (s : string) : bool :=
  match last_byte s with Some c => Ascii.eqb c LF | None => false end.

(** [k] newlines. *)
Fixpoint repeatLF (k : nat) : string :=
  match k with O => EmptyString | S k' => String LF (repeatLF k') end.

(** [strings.ReplaceAll(s, old, new)] for a one-byte [old]. *)
Fixpoint ReplaceAll1 (s : string) (old : ascii) (new : string) : string :=
  match s with
  | EmptyString => EmptyString
  | String d r =>
      (if Ascii.eqb d old then new else str1 d) +:+ ReplaceAll1 r old new
  end.

(** [strings.Split(s, "\n")] *)
Fixpoint SplitLF (s : string) : list string :=
  match s with
  | EmptyString => [EmptyString]
  | String d r =>
      if Ascii.eqb d LF then EmptyString :: SplitLF r
      else match SplitLF r with
           | [] => [str1 d]
           | l :: ls => String d l :: ls
           end
  end.

(** Upper-case ASCII letters to lower case, every other byte unchanged.
    [strings.ToLower] agrees with it on every string whose result is
    compared with a constant made of ASCII letters other than [i] and [k]
    (the only ASCII letters that a rune above U+007F lowers to). *)
Definition lower_ascii (c : ascii) : ascii :=
  if in_range 65 90 c then byte_of (code c + 32) else c.

Fixpoint ToLower (s : string) : string :=
  match s with
  | EmptyString => EmptyString
  | String c r => String (lower_ascii c) (ToLower r)
  end.

(** *** White space

    [strings.TrimSpace] removes the runes of [unicode.IsSpace] from both
    ends; below are their UTF-8 encodings (U+0009..U+000D, U+0020, U+0085,
    U+00A0, U+1680, U+2000..U+200A, U+2028, U+2029, U+202F, U+205F,
    U+3000). *)

Definition utf8_3 (a b c : Z) : list ascii := [byte_of a; byte_of b; byte_of c].

Definition spaceRunes : list (list ascii) :=
  map (fun z => [byte_of z]) [9; 10; 11; 12; 13; 32] ++
  [[byte_of 194; byte_of 133]; [byte_of 194; byte_of 160];
   utf8_3 225 154 128] ++
  map (fun z => utf8_3 226 128 z)
      [128; 129; 130; 131; 132; 133; 134; 135; 136; 137; 138; 168; 169; 175] ++
  [utf8_3 226 129 159; utf8_3 227 128 128].

Fixpoint strip_prefix (p l : list ascii) : option (list ascii) :=
  match p, l with
  | [], _ => Some l
  | c :: p', d :: l' => if Ascii.eqb c d then strip_prefix p' l' else None
  | _ :: _, [] => None
  end.

Fixpoint strip_any (ps : list (list ascii)) (l : list ascii)
  : option (list ascii) :=
  match ps with
  | [] => None
  | p :: ps' =>
      match strip_prefix p l with
      | Some r => Some r
      | None => strip_any ps' l
      end
  end.

Fixpoint trim_left (fuel : nat) (ps : list (list ascii)) (l : list ascii)
  : list ascii :=
  match fuel with
  | O => l
  | S f => match strip_any ps l with
           | Some r => trim_left f ps r
           | None => l
           end
  end.

Definition TrimSpace (s : string) : string :=
  let l := trim_left (String.length s) spaceRunes (bytes s) in
  let r := trim_left (List.length l) (map (@rev ascii) spaceRunes) (rev l) in
  of_bytes (rev r).

(** [unicode.IsSpace], [unicode.IsLetter] and [unicode.IsDigit] applied to
    [rune(b)] for a byte [b], that is on U+0000..U+00FF. *)
Definition IsSpace_byte (c : ascii) : bool :=
  in_range 9 13 c || in_range 32 32 c || in_range 133 133 c
  || in_range 160 160 c.

Definition IsDigit_byte (c : ascii) : bool := in_range 48 57 c.

Definition IsLetter_byte (c : ascii) : bool :=
  in_range 65 90 c || in_range 97 122 c || in_range 170 170 c
  || in_range 181 181 c || in_range 186 186 c || in_range 192 214 c
  || in_range 216 246 c || in_range 248 255 c.

(** *** UTF-8

    [utf8.DecodeRuneInString]: the rune at the head of a byte string and its
    width; an invalid or truncated encoding is [RuneError] of width 1. *)

Definition RuneError : Z := 65533.

Definition cont (c : ascii) : bool := in_range 128 191 c.

Definition DecodeRune (l : list ascii) : Z * nat :=
  match l with
  | [] => (RuneError, O)
  | b0 :: r =>
      let c0 := code b0 in
      if c0 <? 128 then (c0, 1%nat)
      else if in_range 194 223 b0 then
        match r with
        | b1 :: _ =>
            if cont b1 then ((c0 - 192) * 64 + (code b1 - 128), 2%nat)
            else (RuneError, 1%nat)
        | _ => (RuneError, 1%nat)
        end
      else if in_range 224 239 b0 then
        match r with
        | b1 :: b2 :: _ =>
            let lo := if c0 =? 224 then 160 else 128 in
            let hi := if c0 =? 237 then 159 else 191 in
            if in_range lo hi b1 && cont b2 then
              ((c0 - 224) * 4096 + (code b1 - 128) * 64 + (code b2 - 128),
               3%nat)
            else (RuneError, 1%nat)
        | _ => (RuneError, 1%nat)
        end
      else if in_range 240 244 b0 then
        match r with
        | b1 :: b2 :: b3 :: _ =>
            let lo := if c0 =? 240 then 144 else 128 in
            let hi := if c0 =? 244 then 143 else 191 in
            if in_range lo hi b1 && cont b2 && cont b3 then
              ((c0 - 240) * 262144 + (code b1 - 128) * 4096
               + (code b2 - 128) * 64 + (code b3 - 128), 4%nat)
            else (RuneError, 1%nat)
        | _ => (RuneError, 1%nat)
        end
      else (RuneError, 1%nat)
  end.

(** ** Library facts taken as parameters

    Some facts about the Go standard library are not determined by the
    repository: which runes above U+007F are decimal digits and which runes
    above U+00FF are printable (both depend on the Unicode version of the
    toolchain), and the arithmetic of [float64] with its parser and
    printer. *)

Class GoStd := {
  IsDigit_high : Z -> bool;
  IsPrint_high : Z -> bool;
  float64 : Type;
  (** [strconv.ParseFloat(s, 64)], [None] when it returns an error *)
  ParseFloat : string -> option float64;
  (** [strconv.FormatFloat(f, 'g', -1, 64)] *)
  FormatFloat : float64 -> string;
  IsNaN : float64 -> bool;
  (** [math.IsInf(f, 1)] and [math.IsInf(f, -1)] *)
  IsInfPos : float64 -> bool;
  IsInfNeg : float64 -> bool;
  (** [math.Inf(1)], [math.Inf(-1)] and [math.NaN()] *)
  InfPos : float64;
  InfNeg : float64;
  NaN : float64
}.

Definition IsDigit `{GoStd} (r : Z) : bool :=
  if r <? 128 then (48 <=? r) && (r <=? 57) else IsDigit_high r.

(** [strconv.IsPrint] *)
Definition IsPrint `{GoStd} (r : Z) : bool :=
  if r <? 256 then
    ((32 <=? r) && (r <? 127)) || ((161 <=? r) && negb (r =? 173))
  else IsPrint_high r.

(** ** Results of calls that can fail

    [Err] is a returned error, [Panic] a run-time panic (a nil dereference),
    [OutOfFuel] says that the bound on the recursion depth given to the model
    was too small. *)
Inductive result (A : Type) :=
| Ok (a : A)
| Err (msg : string)
| Panic (msg : string)
| OutOfFuel.
Arguments Ok {A} _.
Arguments Err {A} _.
Arguments Panic {A} _.
Arguments OutOfFuel {A}.

Definition rbind {A B} (r : result A) (k : A -> result B) : result B :=
  match r with
  | Ok a => k a
  | Err m => Err m
  | Panic m => Panic m
  | OutOfFuel => OutOfFuel
  end.

Definition nilDeref {A} : result A :=
  Panic "invalid memory address or nil pointer dereference".

(** *** Stateful calls that can fail

    A call returns its result together with the state in which it ended:
    a call that fails has still run up to the failure, and what it did to
    the state until then stays done. *)

Definition M (T A : Type) : Type := T -> result A * T.

Definition mret {T A} (a : A) : M T A := fun s => (Ok a, s).

Definition mbind {T A B} (m : M T A) (k : A -> M T B) : M T B :=
  fun s => match m s with
           | (Ok a, s') => k a s'
           | (Err e, s') => (Err e, s')
           | (Panic e, s') => (Panic e, s')
           | (OutOfFuel, s') => (OutOfFuel, s')
           end.

Definition mfail {T A} (r : result A) : M T A := fun s => (r, s).

Definition mget {T A} (f : T -> A) : M T A := fun s => (Ok (f s), s).
Definition mmodify {T} (f : T -> T) : M T unit := fun s => (Ok tt, f s).

Notation "'let*' x ':=' m 'in' k" := (mbind m (fun x => k))
  (at level 10, x pattern, m at level 200, k at level 200).
Notation "m1 '>>' m2" := (mbind m1 (fun _ => m2))
  (at level 100, m2 at level 200, right associativity).

(** A loop over the elements of a slice, with their indices. *)
Fixpoint forEach {T A} (l : list A) (i : nat) (body : nat -> A -> M T unit)
  : M T unit :=
  match l with
  | [] => mret tt
  | x :: r => body i x >> forEach r (S i) body
  end.

Fixpoint mapM {T A B} (f : A -> M T B) (l : list A) : M T (list B) :=
  match l with
  | [] => mret []
  | x :: r => let* y := f x in let* ys := mapM f r in mret (y :: ys)
  end.

(** Decimal digits of a natural number ([%d]). *)
Definition digit (n : nat) : ascii := ascii_of_nat (48 + n).

Fixpoint itoa_loop (fuel n : nat) (acc : string) : string :=
  match fuel with
  | O => acc
  | S f =>
      let acc' := String (digit (n mod 10)) acc in
      if (n <? 10)%nat then acc' else itoa_loop f (n / 10) acc'
  end.

Definition itoa (n : nat) : string := itoa_loop (S n) n "".

(** [strconv.FormatInt(z, 10)] *)
Definition FormatInt (z : Z) : string :=
  if z <? 0 then "-" +:+ itoa (Z.to_nat (- z)) else itoa (Z.to_nat z).

(** [strconv.ParseInt(s, base, 64)] for a base of 2, 8, 10 or 16: an
    optional sign and at least one digit of the base, no underscores, and a
    value that fits in 64 bits; [None] when it returns an error. *)
Definition digit_val (c : ascii) : option Z :=
  if in_range 48 57 c then Some (code c - 48)
  else if in_range 97 122 c then Some (code c - 97 + 10)
  else if in_range 65 90 c then Some (code c - 65 + 10)
  else None.

Fixpoint parse_digits (base : Z) (s : string) (acc : Z) : option Z :=
  match s with
  | EmptyString => Some acc
  | String c r =>
      match digit_val c with
      | Some d => if d <? base then parse_digits base r (acc * base + d)
                  else None
      | None => None
      end
  end.

Definition ParseInt (s : string) (base : Z) : option Z :=
  let (neg, body) :=
    match s with
    | String c r => if Ascii.eqb c "+" then (false, r)
                    else if Ascii.eqb c "-" then (true, r)
                    else (false, s)
    | EmptyString => (false, s)
    end in
  match body with
  | EmptyString => None
  | _ =>
      match parse_digits base body 0 with
      | Some un =>
          if neg then (if un <=? 2 ^ 63 then Some (- un) else None)
          else (if un <? 2 ^ 63 then Some un else None)
      | None => None
      end
  end.

(** Decimal numerals [[+-]digits[.digits]]. *)
Fixpoint all_digits (s : string) : bool :=
  match s with
  | EmptyString => true
  | String c r => in_range 48 57 c && all_digits r
  end.

Fixpoint split_dot (s : string) : string * option string :=
  match s with
  | EmptyString => (EmptyString, None)
  | String c r =>
      if Ascii.eqb c "." then (EmptyString, Some r)
      else let (a, b) := split_dot r in (String c a, b)
  end.

Definition decimal (s : string) : bool :=
  let body := match s with
              | String c r => if Ascii.eqb c "+" || Ascii.eqb c "-" then r
                              else s
              | EmptyString => s
              end in
  match split_dot body with
  | (a, None) => negb (String.eqb a "") && all_digits a
  | (a, Some b) => negb (String.eqb a "") && all_digits a
                   && negb (String.eqb b "") && all_digits b
  end.

(** An interpretation of the parameters used to run the model on ASCII
    inputs: no rune above U+007F is a digit, every rune above U+00FF is
    printable, and a float is the text of a decimal numeral. *)
Definition asciiStd : GoStd :=
  {| IsDigit_high := fun _ => false;
     IsPrint_high := fun _ => true;
     float64 := string;
     ParseFloat := fun s => if decimal s then Some s else None;
     FormatFloat := fun f => f;
     IsNaN := fun f => String.eqb f "NaN";
     IsInfPos := fun f => String.eqb f "+Inf";
     IsInfNeg := fun f => String.eqb f "-Inf";
     InfPos := "+Inf";
     InfNeg := "-Inf";
     NaN := "NaN" |}.
(** * The scanner (v1/lexer) *)

Module lexer.

Inductive TokenType :=
| TokenEOF | TokenNewLine | TokenIndent | TokenDedent | TokenDocumentStart
| TokenDocumentEnd | TokenKey | TokenValue | TokenString | TokenNumber
| TokenBoolean | TokenNull | TokenSequenceStart | TokenSequenceItem
| TokenMappingStart | TokenAnchor | TokenAlias | TokenTag | TokenComment
| TokenLiteralBlock | TokenFoldedBlock | TokenFlowSequenceStart
| TokenFlowSequenceEnd | TokenFlowMappingStart | TokenFlowMappingEnd
| TokenFlowEntry | TokenError.

#[global] Instance TokenType_eq_dec : EqDecision TokenType.
Proof. solve_decision. Defined.

Definition is_type (a b : TokenType) : bool := bool_decide (a = b).

(** [TokenType.String] *)
Definition TokenType_String (t : TokenType) : string :=
  match t with
  | TokenEOF => "EOF" | TokenNewLine => "NewLine" | TokenIndent => "Indent"
  | TokenDedent => "Dedent" | TokenDocumentStart => "DocumentStart"
  | TokenDocumentEnd => "DocumentEnd" | TokenKey => "Key"
  | TokenValue => "Value" | TokenString => "String"
  | TokenNumber => "Number" | TokenBoolean => "Boolean"
  | TokenNull => "Null" | TokenSequenceStart => "SequenceStart"
  | TokenSequenceItem => "SequenceItem"
  | TokenMappingStart => "MappingStart" | TokenAnchor => "Anchor"
  | TokenAlias => "Alias" | TokenTag => "Tag" | TokenComment => "Comment"
  | TokenLiteralBlock => "LiteralBlock" | TokenFoldedBlock => "FoldedBlock"
  | TokenFlowSequenceStart => "FlowSequenceStart"
  | TokenFlowSequenceEnd => "FlowSequenceEnd"
  | TokenFlowMappingStart => "FlowMappingStart"
  | TokenFlowMappingEnd => "FlowMappingEnd"
  | TokenFlowEntry => "FlowEntry" | TokenError => "Error"
  end.

Record Token := mkToken {
  Type_ : TokenType;
  Value : string;
  Line : Z;
  Column : Z;
  Offset : Z
}.

(** The scanner's fields.  [reader] holds the bytes that the
    [bufio.Reader] has not handed out yet; [buffer] grows by one byte per
    [fillBuffer].  [indentStack] is never read and is left out. *)
Record Scanner := mkScanner {
  reader : list ascii;
  buffer : list ascii;
  position : nat;
  line : Z;
  column : Z;
  offset : Z;
  inFlow : Z;
  tokens : list Token;
  tokenIndex : nat
}.

Definition NewScanner (r : string) : Scanner :=
  {| reader := bytes r; buffer := []; position := O; line := 1; column := 1;
     offset := 0; inFlow := 0; tokens := []; tokenIndex := O |}.

Definition set_input (s : Scanner) (r b : list ascii) : Scanner :=
  {| reader := r; buffer := b; position := position s; line := line s;
     column := column s; offset := offset s; inFlow := inFlow s;
     tokens := tokens s; tokenIndex := tokenIndex s |}.

Definition set_pos (s : Scanner) (p : nat) (l c o : Z) : Scanner :=
  {| reader := reader s; buffer := buffer s; position := p; line := l;
     column := c; offset := o; inFlow := inFlow s;
     tokens := tokens s; tokenIndex := tokenIndex s |}.

Definition set_inFlow (s : Scanner) (n : Z) : Scanner :=
  {| reader := reader s; buffer := buffer s; position := position s;
     line := line s; column := column s; offset := offset s; inFlow := n;
     tokens := tokens s; tokenIndex := tokenIndex s |}.

Definition set_tokens (s : Scanner) (ts : list Token) (i : nat) : Scanner :=
  {| reader := reader s; buffer := buffer s; position := position s;
     line := line s; column := column s; offset := offset s;
     inFlow := inFlow s; tokens := ts; tokenIndex := i |}.

(** *** A state monad over the scanner *)

Definition St (A : Type) : Type := Scanner -> A * Scanner.

Definition ret {A} (a : A) : St A := fun s => (a, s).

Definition bind {A B} (m : St A) (k : A -> St B) : St B :=
  fun s => let (a, s') := m s in k a s'.

Declare Scope st_scope.
Delimit Scope st_scope with st.
Notation "x <- m ;; k" := (bind m (fun x => k))
  (at level 100, m at next level, right associativity) : st_scope.
Notation "m ;;; k" := (bind m (fun _ => k))
  (at level 100, right associativity) : st_scope.
Open Scope st_scope.

Definition get {A} (f : Scanner -> A) : St A := fun s => (f s, s).
Definition modify (f : Scanner -> Scanner) : St unit := fun s => (tt, f s).

(** Short-circuit [&&] and [||] over conditions that fill the buffer. *)
Definition andM (a b : St bool) : St bool :=
  x <- a ;; if x then b else ret false.
Definition orM (a b : St bool) : St bool :=
  x <- a ;; if x then ret true else b.
Definition notM (a : St bool) : St bool := x <- a ;; ret (negb x).

(** A [for cond { body }] loop: [step] evaluates the condition and, when it
    holds, the body; it answers whether the loop goes on. *)
Fixpoint while {S : Type} (fuel : nat) (step : S -> bool * S) (s : S) : S :=
  match fuel with
  | O => s
  | Datatypes.S f => let (go, s') := step s in
                     if go then while f step s' else s'
  end.

(** The bytes that a scan can still consume: every loop of the scanner
    consumes one of them per round, so this many rounds and one more are
    enough. *)
Definition remaining (s : Scanner) : nat :=
  (List.length (buffer s) - position s + List.length (reader s))%nat.

(** *** Reading *)

Definition fillBuffer : St bool := fun s =>
  match reader s with
  | [] => (false, s)
  | b :: r => (true, set_input s r (buffer s ++ [b]))
  end.

Definition at_index (l : list ascii) (i : nat) : ascii :=
  match l !! i with Some c => c | None => NUL end.

Definition peek : St ascii := fun s =>
  let s1 := if (List.length (buffer s) <=? position s)%nat
            then (fillBuffer s).2 else s in
  (at_index (buffer s1) (position s1), s1).

Definition fill_through (off : nat) : Scanner -> bool * Scanner :=
  fun s =>
    if (List.length (buffer s) <=? position s + off)%nat
    then fillBuffer s else (false, s).

Definition peekAhead (off : nat) : St ascii := fun s =>
  let s1 := while (S (List.length (reader s))) (fill_through off) s in
  (at_index (buffer s1) (position s1 + off), s1).

Definition advance : St unit := fun s =>
  if (position s <? List.length (buffer s))%nat
  then (tt, set_pos s (S (position s)) (line s) (incr (column s))
                    (incr (offset s)))
  else (tt, s).

Definition isEOF : St bool := fun s =>
  if (List.length (buffer s) <=? position s)%nat
  then let (ok, s') := fillBuffer s in (negb ok, s')
  else (false, s).

Definition isEOFAt (off : nat) : St bool := fun s =>
  let s1 := while (S (List.length (reader s))) (fill_through off) s in
  ((List.length (buffer s1) <=? position s1 + off)%nat, s1).

Definition newline : St unit := fun s =>
  (tt, set_pos s (position s) (incr (line s)) 1 (offset s)).

Definition makeToken (t : TokenType) (value : string) : St Token := fun s =>
  ({| Type_ := t; Value := value; Line := line s; Column := column s;
      Offset := offset s |}, s).

Definition tokenAt (start : Token) (t : TokenType) (value : string) : Token :=
  {| Type_ := t; Value := value; Line := Line start; Column := Column start;
     Offset := Offset start |}.

Definition is_char (c d : ascii) : bool := Ascii.eqb c d.

Definition peek_is (c : ascii) : St bool := ch <- peek ;; ret (is_char ch c).
Definition peek_isnt (c : ascii) : St bool := notM (peek_is c).


Definition whileM {A : Type} (fuel : nat) (step : A -> St (bool * A)) (a : A)
  : St A :=
  fun s =>
    while fuel
      (fun st : A * Scanner =>
         let '((go, a'), s') := step (fst st) (snd st) in (go, (a', s')))
      (a, s).

(** [for !s.isEOF() && s.peek() != '\n' { buf.WriteByte(s.peek()); s.advance() }] *)
Definition read_line_step (buf : string) : St (bool * string) :=
  go <- andM (notM isEOF) (peek_isnt LF) ;;
  if go then (ch <- peek ;; advance ;;; ret (true, WriteByte buf ch))
  else ret (false, buf).

Definition read_line (buf : string) : St string := fun s =>
  whileM (S (remaining s)) read_line_step buf s.

(** *** The scan functions *)

Definition scanComment : St Token :=
  startPos <- makeToken TokenComment "" ;;
  advance ;;;
  comment <- read_line "" ;;
  ret (tokenAt startPos TokenComment (TrimSpace comment)).

Definition scanNewline : St Token :=
  token <- makeToken TokenNewLine nl ;;
  advance ;;; newline ;;; ret token.

Definition scanDocumentStart : St Token :=
  token <- makeToken TokenDocumentStart "---" ;;
  advance ;;; advance ;;; advance ;;; ret token.

Definition scanDocumentEnd : St Token :=
  token <- makeToken TokenDocumentEnd "..." ;;
  advance ;;; advance ;;; advance ;;; ret token.

Definition scanSequenceItem : St Token :=
  token <- makeToken TokenSequenceItem "-" ;;
  advance ;;; advance ;;; ret token.

Definition scanFlowSequenceStart : St Token :=
  token <- makeToken TokenFlowSequenceStart "[" ;;
  advance ;;;
  modify (fun s => set_inFlow s (incr (inFlow s))) ;;;
  ret token.

Definition scanFlowSequenceEnd : St Token :=
  token <- makeToken TokenFlowSequenceEnd "]" ;;
  advance ;;;
  modify (fun s => if 0 <? inFlow s then set_inFlow s (decr (inFlow s))
                   else s) ;;;
  ret token.

Definition scanFlowMappingStart : St Token :=
  token <- makeToken TokenFlowMappingStart "{" ;;
  advance ;;;
  modify (fun s => set_inFlow s (incr (inFlow s))) ;;;
  ret token.

Definition scanFlowMappingEnd : St Token :=
  token <- makeToken TokenFlowMappingEnd "}" ;;
  advance ;;;
  modify (fun s => if 0 <? inFlow s then set_inFlow s (decr (inFlow s))
                   else s) ;;;
  ret token.

Definition scanFlowEntry : St Token :=
  token <- makeToken TokenFlowEntry "," ;;
  advance ;;; ret token.

Definition scanKey : St Token :=
  token <- makeToken TokenKey ":" ;;
  advance ;;; ret token.

Definition scanChompingIndicator : St string :=
  ch <- peek ;;
  if is_char ch "+" || is_char ch "-" then (advance ;;; ret (str1 ch))
  else ret "".

Definition applyChomping (value chomping : string) : string :=
  if String.eqb chomping "-" then TrimRight1 value LF
  else if negb (String.eqb chomping "+") then TrimRight1 value LF +:+ nl
  else value.

Definition skipWhitespace : St unit := fun s =>
  whileM (S (remaining s))
    (fun _ : unit =>
       go <- andM (notM isEOF) (orM (peek_is " ") (peek_is TAB)) ;;
       if go then (advance ;;; ret (true, tt)) else ret (false, tt))
    tt s.

Definition skipToEndOfLine : St unit := fun s =>
  whileM (S (remaining s))
    (fun _ : unit =>
       go <- andM (notM isEOF) (peek_isnt LF) ;;
       if go then (advance ;;; ret (true, tt)) else ret (false, tt))
    tt s.

(** [countIndent] looks only at the bytes already in the buffer. *)
Fixpoint count_spaces (l : list ascii) : Z :=
  match l with
  | c :: r => if is_char c " " then wrap64 (1 + count_spaces r) else 0
  | [] => 0
  end.

Definition countIndent : St Z :=
  get (fun s => count_spaces (drop (position s) (buffer s))).

Definition skipIndent (count : Z) : St unit := fun s =>
  let (_, s') :=
    whileM (S (remaining s))
      (fun i : Z =>
         go <- andM (ret (i <? count)) (andM (notM isEOF) (peek_is " ")) ;;
         if go then (advance ;;; ret (true, incr i)) else ret (false, i))
      0 s in
  (tt, s').

(** [if !s.isEOF() && s.peek() == '\n' { s.advance(); s.line++; s.column = 1 }] *)
Definition consume_newline : St unit :=
  go <- andM (notM isEOF) (peek_is LF) ;;
  if go then (advance ;;; newline) else ret tt.

Definition literal_step (baseIndent : Z) (content : string)
  : St (bool * string) :=
  more <- notM isEOF ;;
  if negb more then ret (false, content) else
  indent <- countIndent ;;
  brk <- andM (ret (indent <? baseIndent)) (peek_isnt LF) ;;
  if brk then ret (false, content) else
  skipIndent indent ;;;
  content <- read_line content ;;
  more <- notM isEOF ;;
  if more then (advance ;;; newline ;;; ret (true, WriteByte content LF))
  else ret (true, content).

(** The header of a block scalar, after the [|] or [>]: the chomping
    indicator, the rest of the header line and its newline. *)
Definition blockHeader : St string :=
  advance ;;;
  chomping <- scanChompingIndicator ;;
  skipToEndOfLine ;;;
  consume_newline ;;;
  ret chomping.

Definition literalContent : St string :=
  baseIndent <- countIndent ;;
  (fun s => whileM (S (remaining s)) (literal_step baseIndent) "" s).

Definition scanLiteralBlock : St Token :=
  startPos <- makeToken TokenLiteralBlock "" ;;
  chomping <- blockHeader ;;
  content <- literalContent ;;
  ret (tokenAt startPos TokenLiteralBlock (applyChomping content chomping)).

Definition folded_step (baseIndent : Z) (st : string * bool)
  : St (bool * (string * bool)) :=
  let (content, lastWasEmpty) := st in
  more <- notM isEOF ;;
  if negb more then ret (false, st) else
  indent <- countIndent ;;
  brk <- andM (ret (indent <? baseIndent)) (peek_isnt LF) ;;
  if brk then ret (false, st) else
  skipIndent indent ;;;
  lineEmpty <- peek_is LF ;;
  st' <- (if negb lineEmpty then
            content <- read_line (if nonempty content && negb lastWasEmpty
                                  then WriteByte content " " else content) ;;
            ret (content, false)
          else
            ret (if nonempty content then WriteByte content LF else content,
                 true)) ;;
  consume_newline ;;;
  ret (true, st').

Definition foldedContent : St string :=
  baseIndent <- countIndent ;;
  st <- (fun s => whileM (S (remaining s)) (folded_step baseIndent)
                    ("", false) s) ;;
  ret (fst st).

Definition scanFoldedBlock : St Token :=
  startPos <- makeToken TokenFoldedBlock "" ;;
  chomping <- blockHeader ;;
  content <- foldedContent ;;
  ret (tokenAt startPos TokenFoldedBlock (applyChomping content chomping)).

Definition single_step (str : string) : St (bool * string) :=
  more <- notM isEOF ;;
  if negb more then ret (false, str) else
  ch <- peek ;;
  if is_char ch "'" then
    nx <- peekAhead 1 ;;
    if is_char nx "'" then (advance ;;; advance ;;; ret (true, WriteByte str "'"))
    else (advance ;;; ret (false, str))
  else
    advance ;;;
    (if is_char ch LF then newline else ret tt) ;;;
    ret (true, WriteByte str ch).

Definition scanSingleQuotedString : St Token :=
  startPos <- makeToken TokenString "" ;;
  advance ;;;
  str <- (fun s => whileM (S (remaining s)) single_step "" s) ;;
  ret (tokenAt startPos TokenString str).

Definition unescape (escape : ascii) : ascii :=
  if is_char escape "n" then LF
  else if is_char escape "t" then TAB
  else if is_char escape "r" then CR
  else if is_char escape "\" then "\"%char
  else if is_char escape DQ then DQ
  else if is_char escape "0" then NUL
  else if is_char escape "a" then "007"%char
  else if is_char escape "b" then "008"%char
  else if is_char escape "v" then "011"%char
  else if is_char escape "f" then "012"%char
  else if is_char escape "e" then "027"%char
  else escape.

Definition double_step (str : string) : St (bool * string) :=
  more <- notM isEOF ;;
  if negb more then ret (false, str) else
  ch <- peek ;;
  if is_char ch DQ then (advance ;;; ret (false, str))
  else if is_char ch "\" then
    advance ;;;
    more <- notM isEOF ;;
    if more then (escape <- peek ;; advance ;;;
                  ret (true, WriteByte str (unescape escape)))
    else ret (true, str)
  else
    advance ;;;
    (if is_char ch LF then newline else ret tt) ;;;
    ret (true, WriteByte str ch).

Definition scanDoubleQuotedString : St Token :=
  startPos <- makeToken TokenString "" ;;
  advance ;;;
  str <- (fun s => whileM (S (remaining s)) double_step "" s) ;;
  ret (tokenAt startPos TokenString str).

Definition isAnchorChar (ch : ascii) : bool :=
  IsLetter_byte ch || IsDigit_byte ch || is_char ch "_" || is_char ch "-".

Definition read_while (p : ascii -> bool) (buf : string) : St string :=
  fun s =>
    whileM (S (remaining s))
      (fun buf : string =>
         go <- andM (notM isEOF) (ch <- peek ;; ret (p ch)) ;;
         if go then (ch <- peek ;; advance ;;; ret (true, WriteByte buf ch))
         else ret (false, buf))
      buf s.

Definition scanAnchor : St Token :=
  startPos <- makeToken TokenAnchor "" ;;
  advance ;;;
  anchor <- read_while isAnchorChar "" ;;
  ret (tokenAt startPos TokenAnchor anchor).

Definition scanAlias : St Token :=
  startPos <- makeToken TokenAlias "" ;;
  advance ;;;
  alias <- read_while isAnchorChar "" ;;
  ret (tokenAt startPos TokenAlias alias).

Definition scanTag : St Token :=
  startPos <- makeToken TokenTag "" ;;
  advance ;;;
  bang <- peek_is "!" ;;
  tag <- (if bang then (advance ;;; ret "!") else ret "") ;;
  tag <- read_while (fun ch => negb (IsSpace_byte ch)) tag ;;
  ret (tokenAt startPos TokenTag tag).

(** [ch == ':' && (peekAhead(1) == ' ' || peekAhead(1) == '\n' || isEOFAt(1))] *)
Definition key_ahead (ch : ascii) : St bool :=
  andM (ret (is_char ch ":"))
       (orM (nx <- peekAhead 1 ;; ret (is_char nx " "))
            (orM (nx <- peekAhead 1 ;; ret (is_char nx LF)) (isEOFAt 1))).

Definition scalar_step (scalar : string) : St (bool * string) :=
  more <- notM isEOF ;;
  if negb more then ret (false, scalar) else
  ch <- peek ;;
  stop <- key_ahead ch ;;
  if stop then ret (false, scalar) else
  if is_char ch LF || is_char ch "#" then ret (false, scalar) else
  depth <- get inFlow ;;
  if (0 <? depth) && (is_char ch "," || is_char ch "}" || is_char ch "]")
  then ret (false, scalar)
  else (advance ;;; ret (true, WriteByte scalar ch)).

Section Classify.
Context `{GoStd}.

(** [for i, ch := range value]: [first] says [i == 0] and [prev] is
    [value[i-1]]. *)
Fixpoint isNumber_loop (fuel : nat) (first : bool) (prev : ascii)
  (l : list ascii) : bool :=
  match fuel, l with
  | S f, _ :: _ =>
      let (ch, w) := DecodeRune l in
      let eqc c := ch =? code c in
      if negb (IsDigit ch) && negb (eqc "."%char) && negb (eqc "-"%char) && negb (eqc "+"%char)
         && negb (eqc "e"%char) && negb (eqc "E"%char) && negb (eqc "_"%char)
      then false
      else if (eqc "-"%char || eqc "+"%char) && negb first
              && negb (is_char prev "e") && negb (is_char prev "E")
      then false
      else isNumber_loop f false (at_index l (w - 1)) (drop w l)
  | _, _ => true
  end.

Definition isNumber (value : string) : bool :=
  if (String.length value =? 0)%nat then false
  else if String.eqb value ".inf" || String.eqb value "-.inf"
          || String.eqb value "+.inf" || String.eqb value ".nan" then true
  else if HasPrefix value "0x" || HasPrefix value "0o" || HasPrefix value "0b"
  then true
  else isNumber_loop (String.length value) true NUL (bytes value).

Definition detectScalarType (value : string) : TokenType :=
  if String.eqb value "null" || String.eqb value "~" || String.eqb value ""
  then TokenNull
  else
    let lower := ToLower value in
    if String.eqb lower "true" || String.eqb lower "false"
       || String.eqb lower "yes" || String.eqb lower "no"
       || String.eqb lower "on" || String.eqb lower "off"
    then TokenBoolean
    else if isNumber value then TokenNumber
    else TokenString.

Definition scanScalar : St Token :=
  startPos <- makeToken TokenString "" ;;
  scalar <- (fun s => whileM (S (remaining s)) scalar_step "" s) ;;
  let value := TrimSpace scalar in
  ret (tokenAt startPos (detectScalarType value) value).

Definition scanNext : St Token :=
  skipWhitespace ;;;
  eof <- isEOF ;;
  if eof then makeToken TokenEOF "" else
  ch <- peek ;;
  if is_char ch "#" then scanComment else
  if is_char ch LF then scanNewline else
  ds <- andM (get (fun s => column s =? 1))
          (andM (ret (is_char ch "-"))
             (andM (nx <- peekAhead 1 ;; ret (is_char nx "-"))
                   (nx <- peekAhead 2 ;; ret (is_char nx "-")))) ;;
  if ds then scanDocumentStart else
  de <- andM (get (fun s => column s =? 1))
          (andM (ret (is_char ch "."))
             (andM (nx <- peekAhead 1 ;; ret (is_char nx "."))
                   (nx <- peekAhead 2 ;; ret (is_char nx ".")))) ;;
  if de then scanDocumentEnd else
  si <- andM (ret (is_char ch "-")) (nx <- peekAhead 1 ;; ret (is_char nx " ")) ;;
  if si then scanSequenceItem else
  if is_char ch "[" then scanFlowSequenceStart else
  if is_char ch "]" then scanFlowSequenceEnd else
  if is_char ch "{" then scanFlowMappingStart else
  if is_char ch "}" then scanFlowMappingEnd else
  fe <- andM (ret (is_char ch ",")) (get (fun s => 0 <? inFlow s)) ;;
  if fe then scanFlowEntry else
  k <- key_ahead ch ;;
  if k then scanKey else
  if is_char ch "|" then scanLiteralBlock else
  if is_char ch ">" then scanFoldedBlock else
  if is_char ch "'" then scanSingleQuotedString else
  if is_char ch DQ then scanDoubleQuotedString else
  if is_char ch "&" then scanAnchor else
  if is_char ch "*" then scanAlias else
  if is_char ch "!" then scanTag else
  scanScalar.

(** [Scan] never returns a non-nil error, so the model returns the token. *)
Definition Scan : St Token := fun s =>
  if (tokenIndex s <? List.length (tokens s))%nat then
    match tokens s !! tokenIndex s with
    | Some token => (token, set_tokens s (tokens s) (S (tokenIndex s)))
    | None => scanNext s
    end
  else scanNext s.

Definition PushBack (token : Token) : St unit := fun s =>
  (tt, set_tokens s (token :: drop (tokenIndex s) (tokens s)) O).

(** All tokens of an input, for experiments: scan until [TokenEOF]. *)
Fixpoint scan_all (fuel : nat) (s : Scanner) : list Token :=
  match fuel with
  | O => []
  | S f => let (t, s') := Scan s in
           t :: (if is_type (Type_ t) TokenEOF then [] else scan_all f s')
  end.

(** A client of the scanner calls [Scan] and [PushBack] in any order. *)
Inductive call := CallScan | CallPushBack (t : Token).

Definition do_call (c : call) (s : Scanner) : Scanner :=
  match c with
  | CallScan => (Scan s).2
  | CallPushBack t => (PushBack t s).2
  end.

Definition run (calls : list call) (s : Scanner) : Scanner :=
  fold_left (fun s c => do_call c s) calls s.

End Classify.

(** The depth after a token of type [t] was scanned at depth [f]. *)
Definition flow_after (t : TokenType) (f : Z) : Z :=
  match t with
  | TokenFlowSequenceStart | TokenFlowMappingStart => f + 1
  | TokenFlowSequenceEnd | TokenFlowMappingEnd => if 0 <? f then f - 1 else f
  | _ => f
  end.

End lexer.

(** * The node tree (v1/ast) *)

Module ast.

Inductive NodeKind :=
| DocumentNode | ScalarNode | MappingNode | SequenceNode | AliasNode.

#[global] Instance NodeKind_eq_dec : EqDecision NodeKind.
Proof. solve_decision. Defined.

(** [NodeKind] has no [String] method: [%v] prints the number. *)
Definition NodeKind_show (k : NodeKind) : string :=
  match k with
  | DocumentNode => "0" | ScalarNode => "1" | MappingNode => "2"
  | SequenceNode => "3" | AliasNode => "4"
  end.

Record Position := mkPosition { PLine : Z; PColumn : Z; POffset : Z }.

Record Comment := mkComment {
  HeadComment : string;
  LineComment : string;
  FootComment : string;
  KeyComment : string;
  ValueComment : string
}.

Definition noComment : Comment := mkComment "" "" "" "" "".

Record baseNode := mkBase {
  tag : string;
  comment : Comment;
  anchor : string;
  pos : Position
}.

(** The zero value of [baseNode]. *)
Definition base0 : baseNode := mkBase "" noComment "" (mkPosition 0 0 0).

Definition set_tag (b : baseNode) (t : string) : baseNode :=
  mkBase t (comment b) (anchor b) (pos b).
Definition set_comment (b : baseNode) (c : Comment) : baseNode :=
  mkBase (tag b) c (anchor b) (pos b).

Inductive ScalarStyle :=
| PlainStyle | SingleQuotedStyle | DoubleQuotedStyle | LiteralStyle
| FoldedStyle | TaggedStyle.

Inductive CollectionStyle := BlockStyle | FlowStyle.

#[global] Instance ScalarStyle_eq_dec : EqDecision ScalarStyle.
Proof. solve_decision. Defined.
#[global] Instance CollectionStyle_eq_dec : EqDecision CollectionStyle.
Proof. solve_decision. Defined.

Record Entry (N : Type) := mkEntry {
  Key : option N;
  Value : option N;
  EComment : Comment
}.
Arguments mkEntry {N} _ _ _.
Arguments Key {N} _.
Arguments Value {N} _.
Arguments EComment {N} _.

(** A tree as a value: what a [Node] interface value denotes when the
    identity of the pointers does not matter.  [None] is a nil interface
    (or a nil [*MappingEntry]). *)
#[warnings="-register-all"]
Inductive Node :=
| Document (b : baseNode) (Content : list (option Node))
| Scalar (b : baseNode) (Value : string) (Style : ScalarStyle)
| Mapping (b : baseNode) (Content : list (option (Entry Node)))
          (Style : CollectionStyle)
| Sequence (b : baseNode) (Content : list (option Node))
           (Style : CollectionStyle)
| Alias (b : baseNode) (Identifier : string).

Abbreviation MappingEntry := (Entry Node).

Definition Kind (n : Node) : NodeKind :=
  match n with
  | Document _ _ => DocumentNode
  | Scalar _ _ _ => ScalarNode
  | Mapping _ _ _ => MappingNode
  | Sequence _ _ _ => SequenceNode
  | Alias _ _ => AliasNode
  end.

Definition base (n : Node) : baseNode :=
  match n with
  | Document b _ | Scalar b _ _ | Mapping b _ _ | Sequence b _ _
  | Alias b _ => b
  end.

Definition with_base (n : Node) (b : baseNode) : Node :=
  match n with
  | Document _ c => Document b c
  | Scalar _ v s => Scalar b v s
  | Mapping _ c s => Mapping b c s
  | Sequence _ c s => Sequence b c s
  | Alias _ i => Alias b i
  end.

Definition Tag (n : Node) : string := tag (base n).
Definition GetComment (n : Node) : Comment := comment (base n).
Definition SetComment (n : Node) (c : Comment) : Node :=
  with_base n (set_comment (base n) c).
Definition SetTag (n : Node) (t : string) : Node :=
  with_base n (set_tag (base n) t).

Definition NewDocument : Node := Document base0 [].
Definition NewScalar (value : string) : Node := Scalar base0 value PlainStyle.
Definition NewMapping : Node := Mapping base0 [] BlockStyle.
Definition NewSequence : Node := Sequence base0 [] BlockStyle.
Definition NewAlias (identifier : string) : Node := Alias base0 identifier.

(** [Clone]: the copy has the fields of the original and clones of its
    children; nil children and nil entries stay nil. *)
Fixpoint Clone (n : Node) : Node :=
  match n with
  | Document b c => Document b (map (option_map Clone) c)
  | Scalar b v s => Scalar b v s
  | Mapping b c s =>
      Mapping b
        (map (option_map
                (fun e : Entry Node =>
                   mkEntry (option_map Clone (Key e))
                           (option_map Clone (Value e)) (EComment e))) c) s
  | Sequence b c s => Sequence b (map (option_map Clone) c) s
  | Alias b i => Alias b i
  end.

(** The number of nested levels, a bound on every recursion over a tree. *)
Fixpoint depth (n : Node) : nat :=
  match n with
  | Document _ c | Sequence _ c _ =>
      S (foldr (fun o m => Nat.max (match o with Some x => depth x | None => O end) m)
               O c)
  | Mapping _ c _ =>
      S (foldr (fun o m =>
                  Nat.max
                    (match o with
                     | Some e =>
                         Nat.max
                           (match Key e with Some x => depth x | None => O end)
                           (match Value e with Some x => depth x | None => O end)
                     | None => O
                     end) m) O c)
  | Scalar _ _ _ | Alias _ _ => 1%nat
  end.

End ast.

(** * The emitter (v1/encoder.go) *)

Module yaml.
Import ast.

Section Package.
Context `{GoStd}.

Record Encoder := mkEncoder { indent : Z }.

Definition NewEncoder : Encoder := mkEncoder 2.

(** [writeIndent]: [spaces] blanks, none when [spaces] is not positive. *)
Definition writeIndent (spaces : Z) : string :=
  of_bytes (repeat " "%char (Z.to_nat spaces)).

(** *** [strconv.Quote], the [%q] verb *)

Definition hexdigit (z : Z) : ascii :=
  if z <? 10 then byte_of (48 + z) else byte_of (87 + z).

Fixpoint hex (digits : nat) (z : Z) : string :=
  match digits with
  | O => EmptyString
  | S d => hex d (z / 16) +:+ str1 (hexdigit (z mod 16))
  end.

Definition escapeRune (r : Z) (raw : list ascii) : string :=
  if (r =? 34) || (r =? 92) then String "\" (str1 (byte_of r))
  else if IsPrint r then of_bytes raw
  else if r =? 7 then "\a" else if r =? 8 then "\b"
  else if r =? 12 then "\f" else if r =? 10 then "\n"
  else if r =? 13 then "\r" else if r =? 9 then "\t"
  else if r =? 11 then "\v"
  else if (r <? 32) || (r =? 127) then "\x" +:+ hex 2 r
  else if r <? 65536 then "\u" +:+ hex 4 r
  else "\U" +:+ hex 8 r.

Fixpoint quote_loop (fuel : nat) (l : list ascii) : string :=
  match fuel, l with
  | S f, b :: _ =>
      let (r, w) := DecodeRune l in
      (if (w =? 1)%nat && (r =? RuneError) then "\x" +:+ hex 2 (code b)
       else escapeRune r (take w l))
      +:+ quote_loop f (drop w l)
  | _, _ => EmptyString
  end.

Definition Quote (s : string) : string :=
  str1 DQ +:+ quote_loop (String.length s) (bytes s) +:+ str1 DQ.

(** *** [needsQuoting] *)

(** [strings.EqualFold(s, t)] for a [t] of ASCII bytes.  Besides the two
    cases of an ASCII letter, the runes U+017F and U+212A fold to [s] and
    [k]. *)
Fixpoint EqualFold_bytes (s t : list ascii) : bool :=
  match t with
  | [] => match s with [] => true | _ => false end
  | c :: t' =>
      match s with
      | [] => false
      | d :: s' =>
          if code d <? 128 then
            Ascii.eqb (lower_ascii d) (lower_ascii c) && EqualFold_bytes s' t'
          else
            let (r, w) := DecodeRune s in
            if (r =? 383) && Ascii.eqb (lower_ascii c) "s"
            then EqualFold_bytes (drop w s) t'
            else if (r =? 8490) && Ascii.eqb (lower_ascii c) "k"
            then EqualFold_bytes (drop w s) t'
            else false
      end
  end.

Definition EqualFold (s t : string) : bool :=
  EqualFold_bytes (bytes s) (bytes t).

Definition specialValues : list string :=
  ["true"; "false"; "yes"; "no"; "on"; "off"; "null"; "~"; ".inf"; "-.inf";
   ".nan"].

Definition quoteChars : list ascii :=
  [":"; "#"; "@"; "*"; "&"; "["; "]"; "{"; "}"; "|"; ">"; "'"; DQ; LF; CR;
   TAB]%char.

Definition needsQuoting (s : string) : bool :=
  if String.eqb s "" then true
  else if existsb (EqualFold s) specialValues then true
  else if ContainsAny s quoteChars then true
  else if accepts (ParseFloat s) then true
  else if accepts (ParseInt s 10) then true
  else false.

Definition createStringNode (s : string) : Node :=
  if Contains s nl then
    if Contains s "  " || HasPrefix s " " || HasSuffix s " "
    then Scalar base0 s LiteralStyle
    else Scalar base0 s FoldedStyle
  else if needsQuoting s then Scalar base0 s DoubleQuotedStyle
  else Scalar base0 s PlainStyle.

(** *** Writing nodes *)

(** The lines of a block scalar: every non-empty line, indented. *)
Definition blockLines (e : Encoder) (value : string) : string :=
  foldr (fun line acc =>
           (if nonempty line then writeIndent (indent e) +:+ line +:+ nl
            else "") +:+ acc)
        "" (SplitLF value).

Definition blockHeaderText (indicator value : string) : string :=
  indicator
  +:+ (if nonempty value && negb (HasSuffix value nl) then "-" else "")
  +:+ nl.

Definition encodeScalar (e : Encoder) (value : string) (style : ScalarStyle)
  : string :=
  match style with
  | SingleQuotedStyle => "'" +:+ ReplaceAll1 value "'" "''" +:+ "'"
  | DoubleQuotedStyle => Quote value
  | LiteralStyle => blockHeaderText "|" value +:+ blockLines e value
  | FoldedStyle => blockHeaderText ">" value +:+ blockLines e value
  | _ => value
  end.

(** [# line] for every line of a head, foot or key comment. *)
Definition commentLines (indent : Z) (text : string) : string :=
  foldr (fun line acc => writeIndent indent +:+ "# " +:+ line +:+ nl +:+ acc)
        "" (SplitLF (TrimSpace text)).

(** The texts written by the calls of a loop, in order; the first call that
    does not return normally ends the loop. *)
Fixpoint writeAll (parts : list (result string)) : result string :=
  match parts with
  | [] => Ok ""
  | p :: ps => rbind p (fun a => rbind (writeAll ps) (fun b => Ok (a +:+ b)))
  end.

Definition isCollection (item : option Node) : bool :=
  match item with
  | Some (Mapping _ _ _) | Some (Sequence _ _ _) => true
  | _ => false
  end.

Section Collections.
(** [enc] is [e.encodeNode] on the children. *)
Variable enc : option Node -> Z -> bool -> result string.
Variable e : Encoder.

Definition encodeSequence (Content : list (option Node))
  (Style : CollectionStyle) (indent_ : Z) (inline : bool) : result string :=
  if (List.length Content =? 0)%nat then Ok "[]"
  else if bool_decide (Style = FlowStyle) || inline then
    rbind (writeAll (imap (fun i item =>
                             rbind (enc item 0 true) (fun t =>
                             Ok ((if (0 <? i)%nat then ", " else "") +:+ t)))
                          Content))
          (fun body => Ok ("[" +:+ body +:+ "]"))
  else
    writeAll (imap (fun i item =>
                rbind (if isCollection item
                       then rbind (enc item (wrap64 (indent_ + indent e)) false)
                                  (fun t => Ok (nl +:+ t))
                       else rbind (enc item 0 true)
                                  (fun t => Ok (TrimSpace t)))
                      (fun t =>
                         Ok ((if (0 <? i)%nat then nl else "")
                             +:+ writeIndent indent_ +:+ "- " +:+ t)))
             Content).

Definition encodeMapping (Content : list (option MappingEntry))
  (Style : CollectionStyle) (indent_ : Z) (inline : bool) : result string :=
  if (List.length Content =? 0)%nat then Ok "{}"
  else if bool_decide (Style = FlowStyle) || inline then
    rbind (writeAll (imap (fun i entry =>
                             match entry with
                             | None => nilDeref
                             | Some entry =>
                                 rbind (enc (Key entry) 0 true) (fun k =>
                                 rbind (enc (Value entry) 0 true) (fun v =>
                                 Ok ((if (0 <? i)%nat then ", " else "")
                                     +:+ k +:+ ": " +:+ v)))
                             end)
                          Content))
          (fun body => Ok ("{" +:+ body +:+ "}"))
  else
    writeAll (imap (fun i entry =>
                match entry with
                | None => nilDeref
                | Some entry =>
                    rbind (enc (Key entry) 0 true) (fun k =>
                    rbind (if isCollection (Value entry)
                           then rbind (enc (Value entry)
                                           (wrap64 (indent_ + indent e)) false)
                                      (fun t => Ok (nl +:+ t))
                           else enc (Value entry) 0 true)
                          (fun v =>
                    Ok ((if (0 <? i)%nat then nl else "")
                        +:+ (if nonempty (KeyComment (EComment entry))
                             then commentLines indent_
                                    (KeyComment (EComment entry))
                             else "")
                        +:+ writeIndent indent_ +:+ k +:+ ": " +:+ v)))
                end)
             Content).

End Collections.

Fixpoint encodeNode (fuel : nat) (e : Encoder) (node : option Node)
  (indent_ : Z) (inline : bool) : result string :=
  match fuel with
  | O => OutOfFuel
  | S f =>
      match node with
      | None => Ok "null"
      | Some n =>
          let comment := GetComment n in
          rbind
            (match n with
             | Document _ Content =>
                 writeAll (imap (fun i content =>
                             rbind (encodeNode f e content indent_ false)
                                   (fun t =>
                                      Ok ((if (0 <? i)%nat
                                           then nl +:+ "---" +:+ nl else "")
                                          +:+ t)))
                          Content)
             | Scalar _ value style =>
                 Ok ((if inline then "" else writeIndent indent_)
                     +:+ encodeScalar e value style)
             | Sequence _ Content Style =>
                 encodeSequence (encodeNode f e) e Content Style indent_ inline
             | Mapping _ Content Style =>
                 encodeMapping (encodeNode f e) e Content Style indent_ inline
             | Alias _ Identifier =>
                 Ok ((if inline then "" else writeIndent indent_)
                     +:+ "*" +:+ Identifier)
             end)
            (fun body =>
               Ok ((if nonempty (HeadComment comment) && negb inline
                    then commentLines indent_ (HeadComment comment) else "")
                   +:+ body
                   +:+ (if nonempty (LineComment comment)
                        then " # " +:+ LineComment comment else "")
                   +:+ (if nonempty (FootComment comment) && negb inline
                        then nl +:+ commentLines indent_ (FootComment comment)
                        else "")))
      end
  end.

(** [EncodeNode] writes what [encodeNode] produced at indent 0. *)
Definition EncodeNode (fuel : nat) (e : Encoder) (node : option Node)
  : result string :=
  encodeNode fuel e node 0 false.

(** [MarshalNode] *)
Definition MarshalNode (fuel : nat) (node : option Node) : result string :=
  EncodeNode fuel NewEncoder node.

(** *** Host values

    The values that [nodeToInterface] builds and that a custom merge
    function receives and returns: nil, booleans, integers, floats, strings,
    slices and string-keyed maps.  A map is the list of its entries, sorted
    by key. *)
#[warnings="-register-all"]
Inductive GoValue :=
| VNil
| VBool (b : bool)
| VInt (z : Z)
| VFloat (f : float64)
| VString (s : string)
| VSlice (l : list GoValue)
| VMap (m : list (string * GoValue)).

Definition str_lt (a b : string) : bool :=
  match String.compare a b with Lt => true | _ => false end.

(** [m[k] = v] *)
Fixpoint map_insert {A} (k : string) (v : A) (m : list (string * A))
  : list (string * A) :=
  match m with
  | [] => [(k, v)]
  | (k', v') :: r =>
      if String.eqb k k' then (k, v) :: r
      else if str_lt k k' then (k, v) :: m
      else (k', v') :: map_insert k v r
  end.

Definition FormatBool (b : bool) : string := if b then "true" else "false".

(** [valueToNode] on a host value. *)
Fixpoint valueToNode (v : GoValue) : Node :=
  match v with
  | VNil => NewScalar "null"
  | VBool b => NewScalar (FormatBool b)
  | VInt z => NewScalar (FormatInt z)
  | VFloat f =>
      NewScalar (if IsNaN f then ".nan"
                 else if IsInfPos f then ".inf"
                 else if IsInfNeg f then "-.inf"
                 else FormatFloat f)
  | VString s => createStringNode s
  | VSlice l => Sequence base0 (map (fun x => Some (valueToNode x)) l) BlockStyle
  | VMap m =>
      Mapping base0
        (map (fun kv : string * Node =>
                Some (mkEntry (Some (createStringNode kv.1)) (Some kv.2)
                              noComment))
             (foldr (fun kv acc => map_insert kv.1 kv.2 acc) []
                    (map (fun kv : string * GoValue => (kv.1, valueToNode kv.2))
                         m)))
        BlockStyle
  end.

Definition interfaceToNode (v : GoValue) : Node := valueToNode v.

(** ** Reading a tree as a host value (v1/decoder.go) *)

(** [getNodeStringValue] of package [yaml]: the value of a scalar, the
    empty string for any other node. *)
Definition getNodeStringValue (node : option Node) : string :=
  match node with
  | Some (Scalar _ v _) => v
  | _ => ""
  end.

Definition parseBool (value : string) : option bool :=
  let lower := ToLower value in
  if String.eqb lower "true" || String.eqb lower "yes" || String.eqb lower "on"
  then Some true
  else if String.eqb lower "false" || String.eqb lower "no"
          || String.eqb lower "off"
  then Some false
  else None.

Definition drop2 (s : string) : string :=
  String.substring 2 (String.length s - 2) s.

Definition parseInt (value : string) : option Z :=
  let value := ReplaceAll1 value "_" "" in
  if HasPrefix value "0x" then ParseInt (drop2 value) 16
  else if HasPrefix value "0o" then ParseInt (drop2 value) 8
  else if HasPrefix value "0b" then ParseInt (drop2 value) 2
  else ParseInt value 10.

Definition parseFloat (value : string) : option float64 :=
  let value := ReplaceAll1 value "_" "" in
  if String.eqb value ".inf" || String.eqb value "+.inf" then Some InfPos
  else if String.eqb value "-.inf" then Some InfNeg
  else if String.eqb value ".nan" then Some NaN
  else ParseFloat value.

Definition sniff (value : string) : GoValue :=
  match parseBool value with
  | Some b => VBool b
  | None =>
      match parseInt value with
      | Some i => VInt i
      | None =>
          match parseFloat value with
          | Some f => VFloat f
          | None => VString value
          end
      end
  end.

Definition parseScalarValue (tag_ value : string) : GoValue :=
  if String.eqb tag_ "!!null" || String.eqb value ""
     || String.eqb value "null" || String.eqb value "~" then VNil
  else
    match (if String.eqb tag_ "!!bool" then parseBool value else None) with
    | Some b => VBool b
    | None =>
    match (if String.eqb tag_ "!!int" then parseInt value else None) with
    | Some i => VInt i
    | None =>
    match (if String.eqb tag_ "!!float" then parseFloat value else None) with
    | Some f => VFloat f
    | None => if String.eqb tag_ "!!str" then VString value else sniff value
    end end end.

(** The results of the calls of a loop, in order. *)
Fixpoint collect {A} (parts : list (result A)) : result (list A) :=
  match parts with
  | [] => Ok []
  | p :: ps => rbind p (fun a => rbind (collect ps) (fun r => Ok (a :: r)))
  end.

Fixpoint nodeToInterface (fuel : nat) (node : option Node) : result GoValue :=
  match fuel with
  | O => OutOfFuel
  | S f =>
      match node with
      | None => Ok VNil
      | Some (Scalar b v _) => Ok (parseScalarValue (tag b) v)
      | Some (Mapping _ Content _) =>
          rbind (collect (map (fun entry : option MappingEntry =>
                                 match entry with
                                 | None => nilDeref
                                 | Some entry =>
                                     rbind (nodeToInterface f (Value entry))
                                       (fun v =>
                                          Ok (getNodeStringValue (Key entry),
                                              v))
                                 end) Content))
                (fun kvs =>
                   Ok (VMap (foldl (fun m kv => map_insert kv.1 kv.2 m) []
                                   kvs)))
      | Some (Sequence _ Content _) =>
          rbind (collect (map (nodeToInterface f) Content))
                (fun l => Ok (VSlice l))
      | Some (Document _ Content) =>
          match Content with
          | [] => Ok VNil
          | first :: _ => nodeToInterface f first
          end
      | Some (Alias _ _) => Ok VNil
      end
  end.

(** * The merger (v1/merge.go) *)

Inductive MergeMode := MergeOverride | MergePreserve | MergeDeep | MergeAppend.

Inductive ArrayMergeStrategy :=
| ArrayReplace | ArrayAppend | ArrayMergeByIndex | ArrayMergeByKey
| ArrayUnion.

#[global] Instance MergeMode_eq_dec : EqDecision MergeMode.
Proof. solve_decision. Defined.

(** A custom merge function returns a value and an error ([None] for
    nil). *)
Record MergeOptions := mkOptions {
  Mode : MergeMode;
  ArrayStrategy : ArrayMergeStrategy;
  PreserveComments : bool;
  PreserveOrder : bool;
  AllowTypeMismatch : bool;
  CustomMergeFunc : option (string -> GoValue -> GoValue -> GoValue * option string)
}.

Definition isMode (opts : MergeOptions) (m : MergeMode) : bool :=
  bool_decide (Mode opts = m).

Definition pick (b a : string) : string :=
  if nonempty b then b else if nonempty a then a else "".

Definition mergeComments (a b : Comment) : Comment :=
  {| HeadComment := pick (HeadComment b) (HeadComment a);
     LineComment := pick (LineComment b) (LineComment a);
     FootComment := pick (FootComment b) (FootComment a);
     KeyComment := pick (KeyComment b) (KeyComment a);
     ValueComment := pick (ValueComment b) (ValueComment a) |}.

Definition mergeKeyOrder (aKeys bKeys : list string) : list string :=
  let seen : gset string := list_to_set aKeys in
  aKeys ++ filter (fun key => key ∉ seen) bKeys.

Definition cloneNodes (nodes : list (option Node)) : list (option Node) :=
  map (option_map Clone) nodes.

(** [n.Clone()] on an interface value: a nil receiver panics. *)
Definition CloneOf (n : option Node) : result Node :=
  match n with
  | Some x => Ok (Clone x)
  | None => nilDeref
  end.

(** [cloneEntry] is only called on entries that are not nil. *)
Definition cloneEntry (entry : MappingEntry) : result MappingEntry :=
  rbind (CloneOf (Key entry)) (fun k =>
  rbind (CloneOf (Value entry)) (fun v =>
  Ok (mkEntry (Some k) (Some v) (EComment entry)))).

Definition nodeToString (fuel : nat) (node : option Node) : result string :=
  MarshalNode fuel node.

(** The comment of a freshly allocated merged node. *)
Definition mergedComment (opts : MergeOptions) (a b : Node) : Comment :=
  if PreserveComments opts then mergeComments (GetComment a) (GetComment b)
  else noComment.

Definition mergeScalars (a b : Node) (opts : MergeOptions) : Node :=
  if isMode opts MergeOverride || isMode opts MergeDeep then
    let merged := Clone b in
    if PreserveComments opts
    then SetComment merged (mergeComments (GetComment a) (GetComment b))
    else merged
  else
    let merged := Clone a in
    if (PreserveComments opts && nonempty (HeadComment (GetComment b)))
       || nonempty (LineComment (GetComment b))
    then SetComment merged (mergeComments (GetComment a) (GetComment b))
    else merged.

(** The two maps and key lists that [mergeMappings] builds from the
    entries of a mapping; a nil entry panics. *)
Fixpoint indexEntries (Content : list (option MappingEntry))
  (m : gmap string MappingEntry) (keys : list string)
  : result (gmap string MappingEntry * list string) :=
  match Content with
  | [] => Ok (m, keys)
  | None :: _ => nilDeref
  | Some entry :: rest =>
      let key := getNodeStringValue (Key entry) in
      indexEntries rest (<[key := entry]> m) (keys ++ [key])
  end.

Section Recursive.
(** [rec] is [mergeNodesRecursive] on the children. *)
Variable rec : option Node -> option Node -> string -> result Node.
Variable opts : MergeOptions.
Variable fuel : nat.

Definition mergeDocuments (a b : Node) (ac bc : list (option Node))
  (path : string) : result Node :=
  let base_ := set_comment base0 (mergedComment opts a b) in
  if (List.length ac =? 0)%nat then Ok (Document base_ (cloneNodes bc))
  else if (List.length bc =? 0)%nat then Ok (Document base_ (cloneNodes ac))
  else
    rbind (collect (imap (fun i ab =>
                            rbind (rec ab.1 ab.2
                                       (path +:+ "[" +:+ itoa i +:+ "]"))
                                  (fun n => Ok (Some n)))
                         (zip ac bc)))
          (fun merged =>
    rbind (if (List.length ac <? List.length bc)%nat then
             collect (map (fun n => rbind (CloneOf n) (fun c => Ok (Some c)))
                          (drop (List.length ac) bc))
           else if isMode opts MergePreserve
                   && (List.length bc <? List.length ac)%nat then
             collect (map (fun n => rbind (CloneOf n) (fun c => Ok (Some c)))
                          (drop (List.length bc) ac))
           else Ok [])
          (fun tail => Ok (Document base_ (merged ++ tail)))).

(** The main loop of [mergeMappings] over [keys]. *)
Fixpoint mergeKeys (aMap bMap : gmap string MappingEntry) (path : string)
  (keys : list string) (processedKeys : gset string)
  (merged : list (option MappingEntry))
  : result (gset string * list (option MappingEntry)) :=
  match keys with
  | [] => Ok (processedKeys, merged)
  | key :: rest =>
      if bool_decide (key ∈ processedKeys)
      then mergeKeys aMap bMap path rest processedKeys merged
      else
        let processedKeys := {[key]} ∪ processedKeys in
        rbind
          (match aMap !! key, bMap !! key with
           | None, Some bEntry =>
               rbind (cloneEntry bEntry) (fun e => Ok (merged ++ [Some e]))
           | Some aEntry, None =>
               if negb (isMode opts MergeOverride)
               then rbind (cloneEntry aEntry)
                          (fun e => Ok (merged ++ [Some e]))
               else Ok merged
           | Some aEntry, Some bEntry =>
               rbind (rec (Value aEntry) (Value bEntry)
                          (path +:+ "." +:+ key)) (fun mergedValue =>
               rbind (CloneOf (Key aEntry)) (fun k =>
               Ok (merged ++
                   [Some (mkEntry (Some k) (Some mergedValue)
                            (if PreserveComments opts
                             then mergeComments (EComment aEntry)
                                                (EComment bEntry)
                             else noComment))])))
           | None, None => Ok merged
           end)
          (fun merged => mergeKeys aMap bMap path rest processedKeys merged)
  end.

(** The last loop of [mergeMappings]: entries of [b] not handled so far. *)
Fixpoint appendUnprocessed (bMap : gmap string MappingEntry)
  (bKeys : list string) (processedKeys : gset string)
  (merged : list (option MappingEntry)) : result (list (option MappingEntry)) :=
  match bKeys with
  | [] => Ok merged
  | key :: rest =>
      if bool_decide (key ∈ processedKeys)
      then appendUnprocessed bMap rest processedKeys merged
      else
        match bMap !! key with
        | Some entry =>
            rbind (cloneEntry entry) (fun e =>
            appendUnprocessed bMap rest processedKeys (merged ++ [Some e]))
        | None => nilDeref
        end
  end.

Definition mergeMappings (a b : Node) (ac bc : list (option MappingEntry))
  (aStyle : CollectionStyle) (path : string) : result Node :=
  let base_ := set_comment base0 (mergedComment opts a b) in
  rbind (indexEntries ac ∅ []) (fun '(aMap, aKeys) =>
  rbind (indexEntries bc ∅ []) (fun '(bMap, bKeys) =>
  let keys :=
    if negb (PreserveOrder opts)
    then aKeys ++ filter (fun key => aMap !! key = None) bKeys
    else mergeKeyOrder aKeys bKeys in
  rbind (mergeKeys aMap bMap path keys ∅ []) (fun '(processedKeys, merged) =>
  rbind (if negb (isMode opts MergePreserve)
         then appendUnprocessed bMap bKeys processedKeys merged
         else Ok merged) (fun merged =>
  Ok (Mapping base_ merged aStyle))))).

(** The [ArrayUnion] loops: items not seen so far, by their emitted text. *)
Fixpoint unionItems (items : list (option Node)) (seen : gset string)
  (merged : list (option Node)) : result (gset string * list (option Node)) :=
  match items with
  | [] => Ok (seen, merged)
  | item :: rest =>
      rbind (nodeToString fuel item) (fun key =>
      if bool_decide (key ∈ seen) then unionItems rest seen merged
      else rbind (CloneOf item) (fun c =>
           unionItems rest ({[key]} ∪ seen) (merged ++ [Some c])))
  end.

(** The [ArrayMergeByIndex] loop; [i] counts the pairs merged so far. *)
Fixpoint mergeByIndex (ac bc : list (option Node)) (path : string) (i : nat)
  {struct ac} : result (list (option Node)) :=
  match ac with
  | [] =>
      collect (map (fun y => rbind (CloneOf y) (fun n => Ok (Some n))) bc)
  | x :: ac' =>
      match bc with
      | y :: bc' =>
          rbind (rec x y (path +:+ "[" +:+ itoa i +:+ "]")) (fun n =>
          rbind (mergeByIndex ac' bc' path (S i)) (fun r => Ok (Some n :: r)))
      | [] =>
          rbind (CloneOf x) (fun n =>
          rbind (mergeByIndex ac' [] path (S i)) (fun r => Ok (Some n :: r)))
      end
  end.

Definition mergeSequences (a b : Node) (ac bc : list (option Node))
  (aStyle : CollectionStyle) (path : string) : result Node :=
  let base_ := set_comment base0 (mergedComment opts a b) in
  rbind
    (match ArrayStrategy opts with
     | ArrayReplace => Ok (cloneNodes bc)
     | ArrayAppend => Ok (cloneNodes ac ++ cloneNodes bc)
     | ArrayMergeByIndex => mergeByIndex ac bc path O
     | ArrayUnion =>
         rbind (unionItems ac ∅ []) (fun '(seen, merged) =>
         rbind (unionItems bc seen merged) (fun '(_, merged) => Ok merged))
     | ArrayMergeByKey => Ok (cloneNodes bc)
     end)
    (fun Content => Ok (Sequence base_ Content aStyle)).

End Recursive.

Definition typeMismatch (path : string) (a b : Node) : string :=
  "type mismatch at " +:+ path +:+ ": " +:+ NodeKind_show (Kind a)
  +:+ " vs " +:+ NodeKind_show (Kind b).

Fixpoint mergeNodesRecursive (fuel : nat) (a b : option Node)
  (opts : MergeOptions) (path : string) : result Node :=
  match fuel with
  | O => OutOfFuel
  | S f =>
      rbind
        (match CustomMergeFunc opts with
         | Some custom =>
             rbind (nodeToInterface fuel a) (fun ia =>
             rbind (nodeToInterface fuel b) (fun ib =>
             match custom path ia ib with
             | (VNil, _) | (_, Some _) => Ok None
             | (res, None) => Ok (Some (interfaceToNode res))
             end))
         | None => Ok None
         end)
        (fun custom =>
           match custom with
           | Some n => Ok n
           | None =>
               match a, b with
               | None, _ => CloneOf b
               | _, None => CloneOf a
               | Some na, Some nb =>
                   if negb (bool_decide (Kind na = Kind nb)) then
                     if negb (AllowTypeMismatch opts)
                     then Err (typeMismatch path na nb)
                     else if isMode opts MergeOverride then Ok (Clone nb)
                     else Ok (Clone na)
                   else
                     match na, nb with
                     | Document _ ac, Document _ bc =>
                         mergeDocuments (fun x y => mergeNodesRecursive f x y opts)
                                        opts na nb ac bc path
                     | Mapping _ ac aStyle, Mapping _ bc _ =>
                         mergeMappings (fun x y => mergeNodesRecursive f x y opts)
                                       opts na nb ac bc aStyle path
                     | Sequence _ ac aStyle, Sequence _ bc _ =>
                         mergeSequences (fun x y => mergeNodesRecursive f x y opts)
                                        opts f na nb ac bc aStyle path
                     | Scalar _ _ _, Scalar _ _ _ =>
                         Ok (mergeScalars na nb opts)
                     | _, _ =>
                         if isMode opts MergeOverride then Ok (Clone nb)
                         else Ok (Clone na)
                     end
               end
           end)
  end.

Definition MergeNodes (fuel : nat) (a b : option Node) (opts : MergeOptions)
  : result Node :=
  mergeNodesRecursive fuel a b opts "".

End Package.
End yaml.

(** * The node tree in memory

    A [Node] interface value is a pointer (or nil): [option loc].  The heap
    is the list of the cells allocated so far; a location is an index into
    it.  Every Go operation that creates a node allocates a cell, and every
    assignment to a field stores into one. *)

Module heap.
Import ast.

Definition loc := nat.

Inductive cell :=
| CDocument (b : baseNode) (Content : list (option loc))
| CScalar (b : baseNode) (Value : string) (Style : ScalarStyle)
| CMapping (b : baseNode) (Content : list (option loc))
           (Style : CollectionStyle)
| CSequence (b : baseNode) (Content : list (option loc))
            (Style : CollectionStyle)
| CAlias (b : baseNode) (Identifier : string)
| CEntry (e : Entry loc).

Abbreviation Heap := (list cell).

Definition wrongType {A} : result A := Panic "interface conversion".

Definition alloc (c : cell) : M Heap loc :=
  fun h => (Ok (List.length h), h ++ [c]).

Definition load (l : loc) : M Heap cell :=
  fun h => match h !! l with
           | Some c => (Ok c, h)
           | None => (nilDeref, h)
           end.

Definition store (l : loc) (c : cell) : M Heap unit :=
  fun h => (Ok tt, <[l := c]> h).

(** A method call or field access through an interface value or a pointer:
    nil panics. *)
Definition deref (n : option loc) : M Heap (loc * cell) :=
  match n with
  | Some l => let* c := load l in mret (l, c)
  | None => mfail nilDeref
  end.

Definition cellKind (c : cell) : option NodeKind :=
  match c with
  | CDocument _ _ => Some DocumentNode
  | CScalar _ _ _ => Some ScalarNode
  | CMapping _ _ _ => Some MappingNode
  | CSequence _ _ _ => Some SequenceNode
  | CAlias _ _ => Some AliasNode
  | CEntry _ => None
  end.

Definition cellBase (c : cell) : baseNode :=
  match c with
  | CDocument b _ | CScalar b _ _ | CMapping b _ _ | CSequence b _ _
  | CAlias b _ => b
  | CEntry _ => base0
  end.

Definition withBase (c : cell) (b : baseNode) : cell :=
  match c with
  | CDocument _ x => CDocument b x
  | CScalar _ v s => CScalar b v s
  | CMapping _ x s => CMapping b x s
  | CSequence _ x s => CSequence b x s
  | CAlias _ i => CAlias b i
  | CEntry e => CEntry e
  end.

Definition cellContent (c : cell) : list (option loc) :=
  match c with
  | CDocument _ x | CMapping _ x _ | CSequence _ x _ => x
  | _ => []
  end.

Definition withContent (c : cell) (x : list (option loc)) : cell :=
  match c with
  | CDocument b _ => CDocument b x
  | CMapping b _ s => CMapping b x s
  | CSequence b _ s => CSequence b x s
  | other => other
  end.

(** The pointers that a cell holds. *)
Definition pointers (c : cell) : list loc :=
  match c with
  | CEntry e => omap id [Key e; Value e]
  | _ => omap id (cellContent c)
  end.

Definition GetComment (n : loc) : M Heap Comment :=
  let* c := load n in mret (comment (cellBase c)).

Definition SetComment (n : loc) (cm : Comment) : M Heap unit :=
  let* c := load n in store n (withBase c (set_comment (cellBase c) cm)).

Definition SetTag (n : loc) (t : string) : M Heap unit :=
  let* c := load n in store n (withBase c (set_tag (cellBase c) t)).

Definition SetStyle (n : loc) (s : ScalarStyle) : M Heap unit :=
  let* c := load n in
  match c with
  | CScalar b v _ => store n (CScalar b v s)
  | _ => mfail wrongType
  end.

Definition SetCollectionStyle (n : loc) (s : CollectionStyle) : M Heap unit :=
  let* c := load n in
  match c with
  | CMapping b x _ => store n (CMapping b x s)
  | CSequence b x _ => store n (CSequence b x s)
  | _ => mfail wrongType
  end.

(** [n.Content = append(n.Content, x)] *)
Definition appendContent (n : loc) (x : option loc) : M Heap unit :=
  let* c := load n in store n (withContent c (cellContent c ++ [x])).

(** [n.Content[i] = x] *)
Definition setContent (n : loc) (i : nat) (x : option loc) : M Heap unit :=
  let* c := load n in store n (withContent c (<[i := x]> (cellContent c))).

Definition loadEntry (l : loc) : M Heap (Entry loc) :=
  let* c := load l in
  match c with
  | CEntry e => mret e
  | _ => mfail wrongType
  end.

Definition setKey (l : loc) (k : option loc) : M Heap unit :=
  let* e := loadEntry l in store l (CEntry (mkEntry k (Value e) (EComment e))).

Definition setValue (l : loc) (v : option loc) : M Heap unit :=
  let* e := loadEntry l in store l (CEntry (mkEntry (Key e) v (EComment e))).

Definition NewDocument : M Heap loc := alloc (CDocument base0 []).
Definition NewScalar (value : string) : M Heap loc :=
  alloc (CScalar base0 value PlainStyle).
Definition NewMapping : M Heap loc := alloc (CMapping base0 [] BlockStyle).
Definition NewSequence : M Heap loc := alloc (CSequence base0 [] BlockStyle).

(** [Clone]: the clone is allocated with a [Content] of nils of the same
    length, then every child that is not nil is cloned and stored. *)
Fixpoint Clone (fuel : nat) (n : loc) : M Heap loc :=
  match fuel with
  | O => mfail OutOfFuel
  | S f =>
      let cloneChildren (clone : loc) (Content : list (option loc)) :=
        forEach Content O (fun i node =>
          match node with
          | Some x => let* c := Clone f x in setContent clone i (Some c)
          | None => mret tt
          end) in
      let* c := load n in
      match c with
      | CDocument b Content =>
          let* clone :=
            alloc (CDocument b (replicate (List.length Content) None)) in
          cloneChildren clone Content >> mret clone
      | CScalar b v s => alloc (CScalar b v s)
      | CMapping b Content s =>
          let* clone :=
            alloc (CMapping b (replicate (List.length Content) None) s) in
          forEach Content O (fun i entry =>
            match entry with
            | Some le =>
                let* e := loadEntry le in
                let* cloneEntry :=
                  alloc (CEntry (mkEntry None None (EComment e))) in
                (match Key e with
                 | Some k => let* k' := Clone f k in
                             setKey cloneEntry (Some k')
                 | None => mret tt
                 end) >>
                (match Value e with
                 | Some v => let* v' := Clone f v in
                             setValue cloneEntry (Some v')
                 | None => mret tt
                 end) >>
                setContent clone i (Some cloneEntry)
            | None => mret tt
            end) >> mret clone
      | CSequence b Content s =>
          let* clone :=
            alloc (CSequence b (replicate (List.length Content) None) s) in
          cloneChildren clone Content >> mret clone
      | CAlias b i => alloc (CAlias b i)
      | CEntry _ => mfail wrongType
      end
  end.

(** The tree that a pointer denotes, as a value. *)
Fixpoint snapshot (fuel : nat) (h : Heap) (n : option loc)
  : result (option Node) :=
  match fuel with
  | O => OutOfFuel
  | S f =>
      match n with
      | None => Ok None
      | Some l =>
          match h !! l with
          | None => nilDeref
          | Some (CDocument b Content) =>
              rbind (yaml.collect (map (snapshot f h) Content))
                    (fun c => Ok (Some (Document b c)))
          | Some (CScalar b v s) => Ok (Some (Scalar b v s))
          | Some (CMapping b Content s) =>
              rbind (yaml.collect
                       (map (fun entry : option loc =>
                               match entry with
                               | None => Ok None
                               | Some le =>
                                   match h !! le with
                                   | Some (CEntry e) =>
                                       rbind (snapshot f h (Key e)) (fun k =>
                                       rbind (snapshot f h (Value e)) (fun v =>
                                       Ok (Some (mkEntry k v (EComment e)))))
                                   | _ => wrongType
                                   end
                               end) Content))
                    (fun c => Ok (Some (Mapping b c s)))
          | Some (CSequence b Content s) =>
              rbind (yaml.collect (map (snapshot f h) Content))
                    (fun c => Ok (Some (Sequence b c s)))
          | Some (CAlias b i) => Ok (Some (Alias b i))
          | Some (CEntry _) => wrongType
          end
      end
  end.

End heap.

(** * The merger on trees in memory (v1/merge.go)

    The same functions as in [yaml], on pointers: every [&ast.X{...}] is an
    allocation, every assignment to a field a store.  The statements about
    what a merge does to its inputs are made on this version. *)

Module merge.
Import ast heap.

Section Package.
Context `{GoStd}.

(** A function that only reads the tree: it is run on the value that the
    pointer denotes. *)
Definition reads {A} (f : Heap -> result A) : M Heap A :=
  fun h => (f h, h).

Definition getNodeStringValue (node : option loc) : M Heap string :=
  match node with
  | None => mret ""
  | Some l =>
      let* c := load l in
      match c with
      | CScalar _ v _ => mret v
      | _ => mret ""
      end
  end.

Definition nodeToInterface (fuel : nat) (node : option loc)
  : M Heap yaml.GoValue :=
  reads (fun h => rbind (snapshot fuel h node) (yaml.nodeToInterface fuel)).

Definition nodeToString (fuel : nat) (node : option loc) : M Heap string :=
  reads (fun h => rbind (snapshot fuel h node) (yaml.nodeToString fuel)).

Definition createStringNode (s : string) : M Heap loc :=
  let* node := NewScalar s in
  (if Contains s nl then
     if Contains s "  " || HasPrefix s " " || HasSuffix s " "
     then SetStyle node LiteralStyle
     else SetStyle node FoldedStyle
   else if yaml.needsQuoting s then SetStyle node DoubleQuotedStyle
   else mret tt) >>
  mret node.

(** [valueToNode] on the host values of [GoValue]; the keys of a map are
    visited in sorted order. *)
Fixpoint valueToNode (fuel : nat) (v : yaml.GoValue) : M Heap loc :=
  match fuel with
  | O => mfail OutOfFuel
  | S f =>
      match v with
      | yaml.VNil => NewScalar "null"
      | yaml.VBool b => NewScalar (yaml.FormatBool b)
      | yaml.VInt z => NewScalar (FormatInt z)
      | yaml.VFloat x =>
          NewScalar (if IsNaN x then ".nan"
                     else if IsInfPos x then ".inf"
                     else if IsInfNeg x then "-.inf"
                     else FormatFloat x)
      | yaml.VString s => createStringNode s
      | yaml.VSlice l =>
          let* sequence := NewSequence in
          forEach l O (fun _ x =>
            let* item := valueToNode f x in
            appendContent sequence (Some item)) >>
          mret sequence
      | yaml.VMap m =>
          let* mapping := NewMapping in
          forEach (foldr (fun kv acc => yaml.map_insert kv.1 kv.2 acc) [] m) O
            (fun _ kv =>
               let* keyNode := createStringNode kv.1 in
               let* valueNode := valueToNode f kv.2 in
               let* entry :=
                 alloc (CEntry (mkEntry (Some keyNode) (Some valueNode)
                                        noComment)) in
               appendContent mapping (Some entry)) >>
          mret mapping
      end
  end.

Definition interfaceToNode (fuel : nat) (v : yaml.GoValue) : M Heap loc :=
  valueToNode fuel v.

(** [n.Clone()] on an interface value: a nil receiver panics. *)
Definition CloneOf (fuel : nat) (n : option loc) : M Heap loc :=
  match n with
  | Some l => Clone fuel l
  | None => mfail nilDeref
  end.

Definition cloneNodes (fuel : nat) (nodes : list (option loc))
  : M Heap (list (option loc)) :=
  mapM (fun node : option loc =>
          match node with
          | Some l => let* c := Clone fuel l in mret (Some c)
          | None => mret None
          end) nodes.

Definition cloneEntry (fuel : nat) (entry : option loc) : M Heap (option loc) :=
  match entry with
  | None => mret None
  | Some le =>
      let* e := loadEntry le in
      let* k := CloneOf fuel (Key e) in
      let* v := CloneOf fuel (Value e) in
      let* l := alloc (CEntry (mkEntry (Some k) (Some v) (EComment e))) in
      mret (Some l)
  end.

(** [n.Content] and [n.Content = c] *)
Definition content (n : loc) : M Heap (list (option loc)) :=
  let* c := load n in mret (cellContent c).

Definition assign (n : loc) (c : list (option loc)) : M Heap unit :=
  let* x := load n in store n (withContent x c).

Definition collectionStyle (n : loc) : M Heap CollectionStyle :=
  let* c := load n in
  match c with
  | CMapping _ _ s | CSequence _ _ s => mret s
  | _ => mfail wrongType
  end.

Definition typeMismatch (path : string) (a b : NodeKind) : string :=
  "type mismatch at " +:+ path +:+ ": " +:+ NodeKind_show a
  +:+ " vs " +:+ NodeKind_show b.

Definition Kind (n : loc) : M Heap NodeKind :=
  let* c := load n in
  match cellKind c with
  | Some k => mret k
  | None => mfail wrongType
  end.

Section Recursive.
(** [rec] is [mergeNodesRecursive] on the children, [fuel] bounds the depth
    of the calls of [Clone]. *)
Variable rec : option loc -> option loc -> string -> M Heap loc.
Variable opts : yaml.MergeOptions.
Variable fuel : nat.

(** [if opts.PreserveComments { merged.SetComment(mergeComments(...)) }] *)
Definition setMergedComment (merged a b : loc) : M Heap unit :=
  let* ca := GetComment a in
  let* cb := GetComment b in
  SetComment merged (yaml.mergeComments ca cb).

Definition preserveComments (merged a b : loc) : M Heap unit :=
  if yaml.PreserveComments opts then setMergedComment merged a b
  else mret tt.

Definition appendClones (merged : loc) (nodes : list (option loc))
  : M Heap unit :=
  forEach nodes O (fun _ n =>
    let* c := CloneOf fuel n in appendContent merged (Some c)).

Definition mergeDocuments (a b : loc) (path : string) : M Heap loc :=
  let* merged := alloc (CDocument base0 []) in
  preserveComments merged a b >>
  let* ac := content a in
  let* bc := content b in
  (if (List.length ac =? 0)%nat then
     let* c := cloneNodes fuel bc in assign merged c
   else if (List.length bc =? 0)%nat then
     let* c := cloneNodes fuel ac in assign merged c
   else
     forEach (zip ac bc) O (fun i ab =>
       let* node := rec ab.1 ab.2 (path +:+ "[" +:+ itoa i +:+ "]") in
       appendContent merged (Some node)) >>
     if (List.length ac <? List.length bc)%nat then
       appendClones merged (drop (List.length ac) bc)
     else if yaml.isMode opts yaml.MergePreserve
             && (List.length bc <? List.length ac)%nat then
       appendClones merged (drop (List.length bc) ac)
     else mret tt) >>
  mret merged.

(** The two maps and key lists that [mergeMappings] builds from the
    entries of a mapping; a nil entry panics. *)
Fixpoint indexEntries (Content : list (option loc)) (m : gmap string loc)
  (keys : list string) : M Heap (gmap string loc * list string) :=
  match Content with
  | [] => mret (m, keys)
  | None :: _ => mfail nilDeref
  | Some entry :: rest =>
      let* e := loadEntry entry in
      let* key := getNodeStringValue (Key e) in
      indexEntries rest (<[key := entry]> m) (keys ++ [key])
  end.

(** The entry allocated for a key that both mappings have. *)
Definition mergeEntry (aEntry bEntry : loc) (path key : string)
  : M Heap loc :=
  let* ea := loadEntry aEntry in
  let* eb := loadEntry bEntry in
  let* mergedValue := rec (Value ea) (Value eb) (path +:+ "." +:+ key) in
  let* k := CloneOf fuel (Key ea) in
  let* entry := alloc (CEntry (mkEntry (Some k) (Some mergedValue)
                                       noComment)) in
  (if yaml.PreserveComments opts then
     let* ea := loadEntry aEntry in
     let* eb := loadEntry bEntry in
     store entry (CEntry (mkEntry (Some k) (Some mergedValue)
                            (yaml.mergeComments (EComment ea) (EComment eb))))
   else mret tt) >>
  mret entry.

(** The main loop of [mergeMappings] over [keys]. *)
Fixpoint mergeKeys (merged : loc) (aMap bMap : gmap string loc)
  (path : string) (keys : list string) (processedKeys : gset string)
  : M Heap (gset string) :=
  match keys with
  | [] => mret processedKeys
  | key :: rest =>
      if bool_decide (key ∈ processedKeys)
      then mergeKeys merged aMap bMap path rest processedKeys
      else
        let processedKeys := {[key]} ∪ processedKeys in
        (match aMap !! key, bMap !! key with
         | None, Some bEntry =>
             let* e := cloneEntry fuel (Some bEntry) in
             appendContent merged e
         | Some aEntry, None =>
             if negb (yaml.isMode opts yaml.MergeOverride) then
               let* e := cloneEntry fuel (Some aEntry) in
               appendContent merged e
             else mret tt
         | Some aEntry, Some bEntry =>
             let* entry := mergeEntry aEntry bEntry path key in
             appendContent merged (Some entry)
         | None, None => mret tt
         end) >>
        mergeKeys merged aMap bMap path rest processedKeys
  end.

(** The last loop of [mergeMappings]: entries of [b] not handled so far. *)
Definition appendUnprocessed (merged : loc) (bMap : gmap string loc)
  (bKeys : list string) (processedKeys : gset string) : M Heap unit :=
  forEach bKeys O (fun _ key =>
    if bool_decide (key ∈ processedKeys) then mret tt
    else
      let* e := cloneEntry fuel (bMap !! key) in
      appendContent merged e).

Definition mergeMappings (a b : loc) (path : string) : M Heap loc :=
  let* aStyle := collectionStyle a in
  let* merged := alloc (CMapping base0 [] aStyle) in
  preserveComments merged a b >>
  let* ac := content a in
  let* (aMap, aKeys) := indexEntries ac ∅ [] in
  let* bc := content b in
  let* (bMap, bKeys) := indexEntries bc ∅ [] in
  let keys :=
    if negb (yaml.PreserveOrder opts)
    then aKeys ++ filter (fun key => aMap !! key = None) bKeys
    else yaml.mergeKeyOrder aKeys bKeys in
  let* processedKeys := mergeKeys merged aMap bMap path keys ∅ in
  (if negb (yaml.isMode opts yaml.MergePreserve)
   then appendUnprocessed merged bMap bKeys processedKeys
   else mret tt) >>
  mret merged.

(** The [ArrayUnion] loops: items not seen so far, by their emitted text. *)
Fixpoint unionItems (merged : loc) (items : list (option loc))
  (seen : gset string) : M Heap (gset string) :=
  match items with
  | [] => mret seen
  | item :: rest =>
      let* key := nodeToString fuel item in
      if bool_decide (key ∈ seen) then unionItems merged rest seen
      else
        let* c := CloneOf fuel item in
        appendContent merged (Some c) >>
        unionItems merged rest ({[key]} ∪ seen)
  end.

(** The [ArrayMergeByIndex] loop; [i] counts the items appended so far. *)
Fixpoint mergeByIndex (merged : loc) (ac bc : list (option loc))
  (path : string) (i : nat) {struct ac} : M Heap unit :=
  match ac with
  | [] => appendClones merged bc
  | x :: ac' =>
      match bc with
      | y :: bc' =>
          let* node := rec x y (path +:+ "[" +:+ itoa i +:+ "]") in
          appendContent merged (Some node) >>
          mergeByIndex merged ac' bc' path (S i)
      | [] =>
          let* node := CloneOf fuel x in
          appendContent merged (Some node) >>
          mergeByIndex merged ac' [] path (S i)
      end
  end.

Definition mergeSequences (a b : loc) (path : string) : M Heap loc :=
  let* aStyle := collectionStyle a in
  let* merged := alloc (CSequence base0 [] aStyle) in
  preserveComments merged a b >>
  let* ac := content a in
  let* bc := content b in
  (match yaml.ArrayStrategy opts with
   | yaml.ArrayReplace => let* c := cloneNodes fuel bc in assign merged c
   | yaml.ArrayAppend =>
       let* ca := cloneNodes fuel ac in
       let* cb := cloneNodes fuel bc in
       assign merged (ca ++ cb)
   | yaml.ArrayMergeByIndex => mergeByIndex merged ac bc path O
   | yaml.ArrayUnion =>
       let* seen := unionItems merged ac ∅ in
       unionItems merged bc seen >> mret tt
   | yaml.ArrayMergeByKey => let* c := cloneNodes fuel bc in assign merged c
   end) >>
  mret merged.

Definition mergeScalars (a b : loc) : M Heap loc :=
  if yaml.isMode opts yaml.MergeOverride || yaml.isMode opts yaml.MergeDeep
  then
    let* merged := Clone fuel b in
    preserveComments merged a b >>
    mret merged
  else
    let* merged := Clone fuel a in
    let* cb := GetComment b in
    (if (yaml.PreserveComments opts && nonempty (HeadComment cb))
        || nonempty (LineComment cb)
     then setMergedComment merged a b
     else mret tt) >>
    mret merged.

End Recursive.

Fixpoint mergeNodesRecursive (fuel : nat) (a b : option loc)
  (opts : yaml.MergeOptions) (path : string) : M Heap loc :=
  match fuel with
  | O => mfail OutOfFuel
  | S f =>
      let* custom :=
        match yaml.CustomMergeFunc opts with
        | Some custom =>
            let* ia := nodeToInterface fuel a in
            let* ib := nodeToInterface fuel b in
            match custom path ia ib with
            | (yaml.VNil, _) | (_, Some _) => mret None
            | (res, None) => let* n := interfaceToNode fuel res in
                             mret (Some n)
            end
        | None => mret None
        end in
      match custom with
      | Some n => mret n
      | None =>
          match a, b with
          | None, _ => CloneOf fuel b
          | _, None => CloneOf fuel a
          | Some a, Some b =>
              let* ka := Kind a in
              let* kb := Kind b in
              if negb (bool_decide (ka = kb)) then
                if negb (yaml.AllowTypeMismatch opts)
                then mfail (Err (typeMismatch path ka kb))
                else if yaml.isMode opts yaml.MergeOverride then Clone fuel b
                else Clone fuel a
              else
                let rec x y := mergeNodesRecursive f x y opts in
                match ka with
                | DocumentNode => mergeDocuments rec opts fuel a b path
                | MappingNode => mergeMappings rec opts fuel a b path
                | SequenceNode => mergeSequences rec opts fuel a b path
                | ScalarNode => mergeScalars opts fuel a b
                | _ =>
                    if yaml.isMode opts yaml.MergeOverride then Clone fuel b
                    else Clone fuel a
                end
          end
      end
  end.

Definition MergeNodes (fuel : nat) (a b : option loc)
  (opts : yaml.MergeOptions) : M Heap loc :=
  mergeNodesRecursive fuel a b opts "".

End Package.
End merge.

(** * The parser (v1/parser) *)

Module parser.
Import ast lexer heap.

Section Parser.
Context `{GoStd}.

(** The parser's fields and the memory in which it builds the tree.
    [indentLevel] is never read and is left out. *)
Record Parser := mkParser {
  scanner : Scanner;
  currentToken : Token;
  anchors : gmap string (option loc);
  comments : list Token;
  mem : Heap
}.

Definition set_scanner (p : Parser) (s : Scanner) : Parser :=
  mkParser s (currentToken p) (anchors p) (comments p) (mem p).
Definition set_currentToken (p : Parser) (t : Token) : Parser :=
  mkParser (scanner p) t (anchors p) (comments p) (mem p).
Definition set_anchors (p : Parser) (a : gmap string (option loc)) : Parser :=
  mkParser (scanner p) (currentToken p) a (comments p) (mem p).
Definition set_comments (p : Parser) (c : list Token) : Parser :=
  mkParser (scanner p) (currentToken p) (anchors p) c (mem p).
Definition set_mem (p : Parser) (h : Heap) : Parser :=
  mkParser (scanner p) (currentToken p) (anchors p) (comments p) h.

Definition zeroToken : Token := mkToken TokenEOF "" 0 0 0.

Definition NewParser (r : string) : Parser :=
  mkParser (NewScanner r) zeroToken ∅ [] [].

(** A call on the scanner and a call on the memory, as calls of the
    parser. *)
Definition onScanner {A} (m : St A) : M Parser A :=
  fun p => let (a, s) := m (scanner p) in (Ok a, set_scanner p s).

Definition onMem {A} (m : M Heap A) : M Parser A :=
  fun p => let (r, h) := m (mem p) in (r, set_mem p h).

Definition current : M Parser TokenType := mget (fun p => Type_ (currentToken p)).

Definition currentIs (t : TokenType) : M Parser bool :=
  mget (fun p => is_type (Type_ (currentToken p)) t).

Definition advance : M Parser unit :=
  let* token := onScanner Scan in
  mmodify (fun p => set_currentToken p token).

Fixpoint skipNewlines (fuel : nat) : M Parser unit :=
  match fuel with
  | O => mfail OutOfFuel
  | S f =>
      let* more := currentIs TokenNewLine in
      if more then advance >> skipNewlines f else mret tt
  end.

Fixpoint collectComments (fuel : nat) : M Parser unit :=
  match fuel with
  | O => mfail OutOfFuel
  | S f =>
      let* more := currentIs TokenComment in
      if more then
        mmodify (fun p => set_comments p (comments p ++ [currentToken p])) >>
        advance >>
        let* newline := currentIs TokenNewLine in
        (if newline then skipNewlines f else mret tt) >>
        collectComments f
      else mret tt
  end.

Definition headOf (cs : list Token) : string :=
  foldl (fun acc c => acc +:+ lexer.Value c +:+ nl) "" cs.

Definition attachComments (node : loc) : M Parser unit :=
  let* cs := mget comments in
  if (0 <? List.length cs)%nat then
    onMem (SetComment node (mkComment (headOf cs) "" "" "" "")) >>
    mmodify (fun p => set_comments p [])
  else mret tt.

Definition isMapping : M Parser bool :=
  let* t := current in
  if negb (is_type t TokenString) && negb (is_type t TokenNumber)
     && negb (is_type t TokenBoolean)
  then mret false
  else
    let* nextToken := onScanner Scan in
    onScanner (PushBack nextToken) >>
    mret (is_type (Type_ nextToken) TokenKey).

Definition parseKey : M Parser (option loc) :=
  let* t := current in
  if is_type t TokenString || is_type t TokenNumber || is_type t TokenBoolean
     || is_type t TokenNull
  then
    let* value := mget (fun p => lexer.Value (currentToken p)) in
    let* node := onMem (NewScalar value) in
    attachComments node >> advance >> mret (Some node)
  else mret None.

Definition parseNumber : M Parser loc :=
  let* value := mget (fun p => lexer.Value (currentToken p)) in
  let* node := onMem (NewScalar value) in
  onMem (SetTag node
           (if Contains value "." || Contains value "e" || Contains value "E"
               || String.eqb value ".inf" || String.eqb value "-.inf"
               || String.eqb value ".nan"
            then "!!float" else "!!int")) >>
  mret node.

(** A scalar made of the current token, with a tag and a style. *)
Definition scalarNode (tag_ : string) (style : option ScalarStyle) (value : string)
  : M Parser (option loc) :=
  let* node := onMem (NewScalar value) in
  (match style with
   | Some s => onMem (SetStyle node s)
   | None => mret tt
   end) >>
  onMem (SetTag node tag_) >>
  attachComments node >> advance >> mret (Some node).

Definition currentValue : M Parser string :=
  mget (fun p => lexer.Value (currentToken p)).

Definition unexpectedToken {A} (t : TokenType) : M Parser A :=
  mfail (Err ("unexpected token: " +:+ TokenType_String t)).

Definition undefinedAlias {A} (aliasName : string) : M Parser A :=
  mfail (Err ("undefined alias: " +:+ aliasName)).

Section Recursive.
(** [parseValue] on what follows, with the rest of the fuel [f]. *)
Variable parseValue : M Parser (option loc).
Variable f : nat.

Definition appendIf (node : loc) (value : option loc) : M Parser unit :=
  match value with
  | Some _ => onMem (appendContent node value)
  | None => mret tt
  end.

Fixpoint parseSequenceLoop (fuel : nat) (sequence : loc) : M Parser loc :=
  match fuel with
  | O => mfail OutOfFuel
  | S fuel' =>
      let* more := currentIs TokenSequenceItem in
      if more then
        advance >> skipNewlines f >> collectComments f >>
        let* value := parseValue in
        appendIf sequence value >>
        skipNewlines f >>
        parseSequenceLoop fuel' sequence
      else mret sequence
  end.

Definition parseSequence : M Parser (option loc) :=
  let* sequence := onMem NewSequence in
  attachComments sequence >>
  let* s := parseSequenceLoop f sequence in
  mret (Some s).

Fixpoint parseFlowSequenceLoop (fuel : nat) (sequence : loc) : M Parser unit :=
  match fuel with
  | O => mfail OutOfFuel
  | S fuel' =>
      let* done := currentIs TokenFlowSequenceEnd in
      if done then mret tt else
      skipNewlines f >> collectComments f >>
      let* done := currentIs TokenFlowSequenceEnd in
      if done then mret tt else
      let* value := parseValue in
      appendIf sequence value >>
      skipNewlines f >>
      let* entry := currentIs TokenFlowEntry in
      (if entry then advance >> skipNewlines f else mret tt) >>
      parseFlowSequenceLoop fuel' sequence
  end.

Definition parseFlowSequence : M Parser (option loc) :=
  let* sequence := onMem NewSequence in
  onMem (SetCollectionStyle sequence FlowStyle) >>
  attachComments sequence >>
  advance >>
  parseFlowSequenceLoop f sequence >>
  let* closing := currentIs TokenFlowSequenceEnd in
  (if closing then advance else mret tt) >>
  mret (Some sequence).

(** The inline comment after a value becomes its line comment. *)
Definition inlineComment (value : option loc) : M Parser unit :=
  let* isComment := currentIs TokenComment in
  if isComment then
    (match value with
     | Some v =>
         let* text := currentValue in
         let* c := onMem (GetComment v) in
         onMem (SetComment v
                  (mkComment (HeadComment c) text (FootComment c)
                             (KeyComment c) (ValueComment c)))
     | None => mret tt
     end) >> advance
  else mret tt.

Definition newEntry (mapping : loc) (key value : option loc) : M Parser unit :=
  let* entry := onMem (alloc (CEntry (mkEntry key value noComment))) in
  onMem (appendContent mapping (Some entry)).

Fixpoint parseMappingLoop (fuel : nat) (mapping : loc) (firstKey : bool)
  (startColumn : Z) (isRootMapping : bool) : M Parser unit :=
  match fuel with
  | O => mfail OutOfFuel
  | S fuel' =>
      let* t := current in
      if is_type t TokenEOF || is_type t TokenDocumentEnd then mret tt else
      skipNewlines f >> collectComments f >>
      let* t := current in
      if is_type t TokenEOF || is_type t TokenDocumentEnd then mret tt else
      if is_type t TokenSequenceItem then mret tt else
      let* column := mget (fun p => Column (currentToken p)) in
      let startColumn := if firstKey then column else startColumn in
      let isRootMapping :=
        if firstKey then column =? 1 else isRootMapping in
      if negb firstKey
         && ((negb isRootMapping && negb (column =? startColumn))
             || (isRootMapping && negb (column =? 1)))
      then mret tt else
      let* key := parseKey in
      match key with
      | None => mret tt
      | Some _ =>
          skipNewlines f >>
          let* isKey := currentIs TokenKey in
          if negb isKey then mret tt else
          advance >> skipNewlines f >> collectComments f >>
          let* value := parseValue in
          inlineComment value >>
          newEntry mapping key value >>
          skipNewlines f >>
          parseMappingLoop fuel' mapping false startColumn isRootMapping
      end
  end.

Definition parseMapping : M Parser (option loc) :=
  let* mapping := onMem NewMapping in
  attachComments mapping >>
  parseMappingLoop f mapping true 0 false >>
  mret (Some mapping).

Fixpoint parseFlowMappingLoop (fuel : nat) (mapping : loc) : M Parser unit :=
  match fuel with
  | O => mfail OutOfFuel
  | S fuel' =>
      let* done := currentIs TokenFlowMappingEnd in
      if done then mret tt else
      skipNewlines f >> collectComments f >>
      let* done := currentIs TokenFlowMappingEnd in
      if done then mret tt else
      let* key := parseKey in
      match key with
      | None =>
          let* t := current in
          mfail (Err ("expected key, got " +:+ TokenType_String t))
      | Some _ =>
          skipNewlines f >>
          let* t := current in
          if negb (is_type t TokenKey)
          then mfail (Err ("expected ':', got " +:+ TokenType_String t))
          else
            advance >> skipNewlines f >> collectComments f >>
            let* value := parseValue in
            newEntry mapping key value >>
            skipNewlines f >>
            let* entry := currentIs TokenFlowEntry in
            (if entry then advance >> skipNewlines f else mret tt) >>
            parseFlowMappingLoop fuel' mapping
      end
  end.

Definition parseFlowMapping : M Parser (option loc) :=
  let* mapping := onMem NewMapping in
  onMem (SetCollectionStyle mapping FlowStyle) >>
  attachComments mapping >>
  advance >>
  parseFlowMappingLoop f mapping >>
  let* closing := currentIs TokenFlowMappingEnd in
  (if closing then advance else mret tt) >>
  mret (Some mapping).

(** A primitive token is the key of a mapping when a [TokenKey] follows. *)
Definition orMapping (scalar : M Parser (option loc)) : M Parser (option loc) :=
  let* m := isMapping in
  if m then parseMapping else scalar.

(** The [TokenAlias] case of [parseValue]; [cloneFuel] bounds the depth of
    the anchored tree. *)
Definition parseAlias (cloneFuel : nat) : M Parser (option loc) :=
  let* aliasName := currentValue in
  advance >>
  let* table := mget anchors in
  match table !! aliasName with
  | Some node =>
      let* target := onMem (deref node) in
      let* clone := onMem (Clone cloneFuel (fst target)) in
      mret (Some clone)
  | None => undefinedAlias aliasName
  end.

(** One call of [parseValue]: blank lines and comments are absorbed, then
    the current token decides. *)
Definition parseValueCases : M Parser (option loc) :=
  skipNewlines f >> collectComments f >>
  let* t := current in
  let* value := currentValue in
  match t with
  | TokenEOF | TokenDocumentEnd => mret None
  | TokenNull => scalarNode "!!null" None ""
  | TokenBoolean => orMapping (scalarNode "!!bool" None value)
  | TokenNumber =>
      orMapping
        (let* node := parseNumber in
         attachComments node >> advance >> mret (Some node))
  | TokenString => orMapping (scalarNode "!!str" None value)
  | TokenLiteralBlock => scalarNode "!!str" (Some LiteralStyle) value
  | TokenFoldedBlock => scalarNode "!!str" (Some FoldedStyle) value
  | TokenSequenceItem => parseSequence
  | TokenFlowSequenceStart => parseFlowSequence
  | TokenFlowMappingStart => parseFlowMapping
  | TokenAnchor =>
      advance >>
      let* node := parseValue in
      mmodify (fun p => set_anchors p (<[value := node]> (anchors p))) >>
      mret node
  | TokenAlias => parseAlias f
  | TokenTag =>
      advance >>
      let* node := parseValue in
      (match node with
       | Some n => onMem (SetTag n value)
       | None => mret tt
       end) >>
      mret node
  | _ => unexpectedToken t
  end.

End Recursive.

Fixpoint parseValue (fuel : nat) : M Parser (option loc) :=
  match fuel with
  | O => mfail OutOfFuel
  | S f => parseValueCases (parseValue f) f
  end.

(** The loop of [Parse] over the top-level values. *)
Fixpoint parseDocuments (fuel : nat) (doc : loc) : M Parser unit :=
  match fuel with
  | O => mfail OutOfFuel
  | S f =>
      let* done := currentIs TokenEOF in
      if done then mret tt else
      let* start := currentIs TokenDocumentStart in
      (if start then advance else mret tt) >>
      let* stop := currentIs TokenDocumentEnd in
      if stop then advance >> parseDocuments f doc else
      let* node := parseValue f in
      appendIf doc node >>
      skipNewlines f >>
      parseDocuments f doc
  end.

Definition Parse (fuel : nat) : M Parser loc :=
  advance >>
  let* doc := onMem NewDocument in
  let* m := isMapping in
  let* column := mget (fun p => Column (currentToken p)) in
  (if m && (column =? 1) then
     let* mapping := parseMapping (parseValue fuel) fuel in
     appendIf doc mapping
   else parseDocuments fuel doc) >>
  mret doc.

(** [ParseReader]: a new parser on the input, then [Parse]. *)
Definition ParseReader (fuel : nat) (input : string) : result loc * Parser :=
  Parse fuel (NewParser input).

(** The tree that [ParseReader] returns, as a value. *)
Definition parsed (fuel : nat) (input : string) : result (option Node) :=
  let (r, p) := ParseReader fuel input in
  rbind r (fun doc => snapshot fuel (mem p) (Some doc)).

End Parser.
End parser.

(** * Trees used as examples *)

Module examples.
Import ast yaml.

Definition scalar (v : string) : option Node := Some (NewScalar v).

Definition entry (k : string) (v : option Node) : option MappingEntry :=
  Some (mkEntry (scalar k) v noComment).

Definition mapping (l : list (option MappingEntry)) : option Node :=
  Some (Mapping base0 l BlockStyle).

Definition sequence (l : list (option Node)) : option Node :=
  Some (Sequence base0 l BlockStyle).

(** A plain scalar with a line comment. *)
Definition commented (v c : string) : Node :=
  Scalar (set_comment base0 (mkComment "" c "" "" "")) v PlainStyle.

Definition options `{GoStd} (m : MergeMode) (comments : bool) : MergeOptions :=
  mkOptions m ArrayReplace comments false false None.

(** [{key: value}] and [[item1, item2]] in block style. *)
Definition oneEntry : option Node := mapping [entry "key" (scalar "value")].
Definition twoItems : option Node := sequence [scalar "item1"; scalar "item2"].

(** [{x: 1}] and [{y: 2}]. *)
Definition onlyX : option Node := mapping [entry "x" (scalar "1")].
Definition onlyY : option Node := mapping [entry "y" (scalar "2")].

(** [{k: 1, k: 2}], what the parser builds from a document that repeats a
    key. *)
Definition twice : Node :=
  Mapping base0 [entry "k" (scalar "1"); entry "k" (scalar "2")] BlockStyle.

(** [{a: 1, b: {x: 1}}] *)
Definition nested : Node :=
  Mapping base0
    [entry "a" (scalar "1"); entry "b" (mapping [entry "x" (scalar "1")])]
    BlockStyle.

(** [1] and [2], the second with the line comment [c]. *)
Definition one : option Node := scalar "1".
Definition twoWithComment : option Node := Some (commented "2" "c").

(** The entry [k: v] with the key comment [c]. *)
Definition entryWith (k : string) (v : option Node) (c : string)
  : option MappingEntry :=
  Some (mkEntry (scalar k) v (mkComment "" "" "" c "")).

(** [{x: 1, k: 1}] and [{k: 2 # c, y: 2}], where the entries of [x] and [y]
    and the two entries of [k] have key comments. *)
Definition commentsA : Node :=
  Mapping base0 [entryWith "x" one "about x"; entryWith "k" one "k in a"]
          BlockStyle.
Definition commentsB : Node :=
  Mapping base0
    [entryWith "k" twoWithComment "k in b"; entryWith "y" (scalar "2") "about y"]
    BlockStyle.

(** An anchor on an empty value, the end of the document, then an alias of
    the anchor. *)
Definition emptyAnchor : string := "&x" +:+ nl +:+ "..." +:+ nl +:+ "*x".

(** A sequence marker followed by a comment, a blank line and the end of
    the document. *)
Definition missingItem : string := "- # c" +:+ nl +:+ nl +:+ "...".

(** A marker with nothing on its line, then another item; and a marker
    with nothing on its line under a key, then a key that is not indented. *)
Definition nextItem : string := "- " +:+ nl +:+ "- b".
Definition dedentKey : string := "a:" +:+ nl +:+ "  - " +:+ nl +:+ "k: v".

(** A plain scalar as the parser makes it of a string token. *)
Definition str (v : string) : option Node :=
  Some (Scalar (set_tag base0 "!!str") v PlainStyle).

(** [{x: 1}] at location 0 and [{y: 2}] at location 4, in memory. *)
Definition heapXY : heap.Heap :=
  [heap.CMapping base0 [Some 1%nat] BlockStyle;
   heap.CEntry (mkEntry (Some 2%nat) (Some 3%nat) noComment);
   heap.CScalar base0 "x" PlainStyle;
   heap.CScalar base0 "1" PlainStyle;
   heap.CMapping base0 [Some 5%nat] BlockStyle;
   heap.CEntry (mkEntry (Some 6%nat) (Some 7%nat) noComment);
   heap.CScalar base0 "y" PlainStyle;
   heap.CScalar base0 "2" PlainStyle].

End examples.

(** * Notions used by the statements about the merger *)

Module mergespec.
Import ast yaml.

Definition keyOf (e : MappingEntry) : string := getNodeStringValue (Key e).
#[global] Arguments keyOf : simpl never.

(** The key strings of the entries of a mapping. *)
Definition keysOf (Content : list (option MappingEntry)) : list string :=
  omap (fun o : option MappingEntry => keyOf <$> o) Content.

(** Where a child of a merged document or sequence comes from: it is a child
    of one input, taken over as it is, or the merge of a child of A with a
    child of B.  [rec] is the merge of the children. *)
Definition childFrom
  (rec : option Node -> option Node -> string -> result Node)
  (ac bc : list (option Node)) (x : option Node) : Prop :=
  x ∈ ac \/ x ∈ bc
  \/ exists xa xb path n,
       xa ∈ ac /\ xb ∈ bc /\ rec xa xb path = Ok n /\ x = Some n.

(** Where an entry of a merged mapping comes from: it is an entry of A whose
    key B lacks or an entry of B whose key A lacks, taken over as it is, or
    it is the entry made for a key of both, which has the key node of A,
    the merge of the two values and no comment. *)
Definition entryFrom
  (rec : option Node -> option Node -> string -> result Node)
  (ac bc : list (option MappingEntry)) (path : string)
  (oe : option MappingEntry) : Prop :=
  exists e, oe = Some e
    /\ ((Some e ∈ ac /\ keyOf e ∉ keysOf bc)
        \/ (Some e ∈ bc /\ keyOf e ∉ keysOf ac)
        \/ exists ea eb v,
             Some ea ∈ ac /\ Some eb ∈ bc /\ keyOf ea = keyOf eb
             /\ rec (Value ea) (Value eb) (path +:+ "." +:+ keyOf ea) = Ok v
             /\ e = mkEntry (Key ea) (Some v) noComment).

(** The map that [mergeMappings] builds from the entries [es]. *)
Definition indexed (m : gmap string MappingEntry) (es : list MappingEntry)
  : gmap string MappingEntry :=
  foldl (fun m e => <[keyOf e := e]> m) m es.

(** *** Canonical comparison

    Two trees are canonically equal when they have the same kinds, tags,
    scalar values, alias names and, in order, canonically equal children;
    positions, styles and comments are ignored. *)
Inductive entryRel {N : Type} (R : N -> N -> Prop) : Entry N -> Entry N -> Prop :=
| entryRel_intro (e e' : Entry N) :
    option_Forall2 R (Key e) (Key e') ->
    option_Forall2 R (Value e) (Value e') ->
    entryRel R e e'.

#[warnings="-register-all"]
Inductive canon : Node -> Node -> Prop :=
| canon_Document b b' c c' :
    tag b = tag b' -> Forall2 (option_Forall2 canon) c c' ->
    canon (Document b c) (Document b' c')
| canon_Scalar b b' v s s' :
    tag b = tag b' -> canon (Scalar b v s) (Scalar b' v s')
| canon_Mapping b b' c c' s s' :
    tag b = tag b' -> Forall2 (option_Forall2 (entryRel canon)) c c' ->
    canon (Mapping b c s) (Mapping b' c' s')
| canon_Sequence b b' c c' s s' :
    tag b = tag b' -> Forall2 (option_Forall2 canon) c c' ->
    canon (Sequence b c s) (Sequence b' c' s')
| canon_Alias b b' i :
    tag b = tag b' -> canon (Alias b i) (Alias b' i).

(** *** Trees that merge with themselves

    Documents, mappings and sequences carry no tag; a document has no nil
    content; the entries of a mapping are not nil, have a key and a value,
    and their key strings differ pairwise.  The conditions apply to the
    nodes that merge descends into: the contents of documents and the
    values of mappings. *)
Inductive present {A : Type} (P : A -> Prop) : option A -> Prop :=
| present_intro (a : A) : P a -> present P (Some a).

Inductive fullEntry {N : Type} (P : N -> Prop) : Entry N -> Prop :=
| fullEntry_intro (e : Entry N) (k : N) :
    Key e = Some k -> present P (Value e) -> fullEntry P e.

#[warnings="-register-all"]
Inductive mergeable : Node -> Prop :=
| mergeable_Scalar b v s : mergeable (Scalar b v s)
| mergeable_Alias b i : mergeable (Alias b i)
| mergeable_Sequence b c s : tag b = "" -> mergeable (Sequence b c s)
| mergeable_Document b c :
    tag b = "" -> Forall (present mergeable) c -> mergeable (Document b c)
| mergeable_Mapping b c s :
    tag b = "" -> Forall (present (fullEntry mergeable)) c ->
    NoDup (omap (fun o : option MappingEntry => keyOf <$> o) c) ->
    mergeable (Mapping b c s).

(** [v] merged with itself by [rec] gives, at every path, a tree that is
    canonically equal to [v]. *)
Definition selfMerges
  (rec : option Node -> option Node -> string -> result Node) (v : Node)
  : Prop :=
  forall p, exists r, rec (Some v) (Some v) p = Ok r /\ canon r v.

End mergespec.

(** * Notions used by the statements about the parser *)

Module parserspec.
Import lexer heap parser.

Section Spec.
Context `{GoStd}.

(** The parser after [advance]: the scanner has moved and the scanned
    token is the current one. *)
Definition advanced (p : Parser) : Parser :=
  set_currentToken (set_scanner p (Scan (scanner p)).2) (Scan (scanner p)).1.

(** The parser with [c] as memory; with no pending comments when [clear]
    is set. *)
Definition withMem (p : Parser) (h : Heap) (clear : bool) : Parser :=
  set_comments (set_mem p h) (if clear then [] else comments p).

(** Two parsers at the same place of the input: they may differ in the
    memory, the anchors and the pending comments. *)
Definition alike (p p1 : Parser) : Prop :=
  scanner p1 = scanner p /\ currentToken p1 = currentToken p.

End Spec.
End parserspec.

(** * Notions used by the statements about memory *)

Module framespec.
Import ast heap.

(** A pointer that is nil or points to a cell allocated since the heap had
    [N] cells. *)
Definition freshOpt (N : nat) (x : option loc) : Prop :=
  match x with
  | Some p => (N <= p)%nat
  | None => True
  end.

(** A cell all of whose pointers are. *)
Definition freshCell (N : nat) (c : cell) : Prop :=
  match c with
  | CEntry e => freshOpt N (Key e) /\ freshOpt N (Value e)
  | _ => Forall (freshOpt N) (cellContent c)
  end.

(** The cells allocated since the heap had [N] cells point to such cells
    only. *)
Definition closed (N : nat) (h : Heap) : Prop :=
  forall l c, (N <= l)%nat -> h !! l = Some c -> freshCell N c.

Definition any {A} : A -> Prop := fun _ => True.

(** A call that leaves the first [N] cells as they are and keeps the later
    ones closed, whether it returns or fails, and whose result has [P] when
    it returns. *)
Definition frames {A} (N : nat) (P : A -> Prop) (m : M Heap A) : Prop :=
  forall h r h',
    (N <= List.length h)%nat -> closed N h -> m h = (r, h') ->
    (N <= List.length h')%nat /\ take N h' = take N h /\ closed N h'
    /\ (forall x, r = Ok x -> P x).

(** [reach h n l]: the cell [l] is part of the tree at [n]. *)
Inductive reach (h : Heap) : loc -> loc -> Prop :=
| reach_here l : reach h l l
| reach_child l c p l' :
    h !! l = Some c -> p ∈ pointers c -> reach h p l' -> reach h l l'.

(** Every pointer of every cell points into the heap. *)
Definition wellFormed (h : Heap) : Prop :=
  forall l c p, h !! l = Some c -> p ∈ pointers c -> (p < List.length h)%nat.

(** The result of a call, for a call that is known to return. *)
Definition returned {A} (r : result A) (default : A) : A :=
  match r with
  | Ok x => x
  | _ => default
  end.

End framespec.
(** * Notions used by the proofs about the flow depth

    A scan step either only looks ahead (it moves bytes from the reader to
    the buffer) or consumes bytes. *)

Module flowspec.
Import lexer.

Definition look (s s' : Scanner) : Prop :=
  (List.length (buffer s') + List.length (reader s')
   = List.length (buffer s) + List.length (reader s))%nat
  /\ (List.length (buffer s) <= List.length (buffer s'))%nat
  /\ position s' = position s
  /\ inFlow s' = inFlow s.

Definition adv (s s' : Scanner) : Prop :=
  (List.length (buffer s') + List.length (reader s')
   = List.length (buffer s) + List.length (reader s))%nat
  /\ (position s <= position s')%nat
  /\ ((position s <= List.length (buffer s))%nat ->
      (position s' <= List.length (buffer s'))%nat)
  /\ inFlow s' = inFlow s.

Definition Look {A} (m : St A) : Prop := forall s, look s (m s).2.
Definition Adv {A} (m : St A) : Prop := forall s, adv s (m s).2.

(** Every scan function but the four bracket functions consumes input and
    leaves the depth alone; each returns a token of a fixed type. *)
Definition scans {A} (m : St A) (P : A -> Prop) : Prop :=
  Adv m /\ forall s, P (m s).1.

(** The invariant: the depth is between 0 and the number of consumed
    bytes, which is at most the length [N] of the input. *)
Definition Inv (N : nat) (s : Scanner) : Prop :=
  (position s <= List.length (buffer s))%nat
  /\ (List.length (buffer s) + List.length (reader s) = N)%nat
  /\ 0 <= inFlow s <= Z.of_nat (position s).

Definition avail (s : Scanner) : Prop :=
  (position s < List.length (buffer s))%nat.

Definition Post (N : nat) (f0 : Z) (r : Token * Scanner) : Prop :=
  Inv N r.2 /\ inFlow r.2 = flow_after (Type_ r.1) f0
  /\ (Type_ r.1 = TokenFlowEntry -> 0 < f0).

End flowspec.



(** * Notions used by the further statements about the scanner *)

Module scanspec.
Import lexer.

(** The tokens that [Scan] will return before it reads the input again. *)
Definition pending (s : Scanner) : list Token :=
  drop (tokenIndex s) (tokens s).

(** The bytes that [isNumber] accepts at every place: the digits and
    [.], [e], [E], [_]. *)
Definition numberChar (c : ascii) : bool :=
  in_range 48 57 c || is_char c "." || is_char c "e" || is_char c "E"
  || is_char c "_".

(** The bytes of the input, read or not. *)
Definition input (s : Scanner) : list ascii := buffer s ++ reader s.

(** The position is within the bytes read; a byte read is left there. *)
Definition ok (s : Scanner) : Prop :=
  (position s <= List.length (buffer s))%nat.

Definition ready (s : Scanner) : Prop :=
  (position s < List.length (buffer s))%nat.

(** A step that only looks ahead, and a step that may consume. *)
Definition see (s s' : Scanner) : Prop :=
  input s' = input s /\ position s' = position s /\ inFlow s' = inFlow s
  /\ (List.length (buffer s) <= List.length (buffer s'))%nat
  /\ tokens s' = tokens s /\ tokenIndex s' = tokenIndex s.

Definition went (s s' : Scanner) : Prop :=
  input s' = input s /\ (position s <= position s')%nat
  /\ (ok s -> ok s')
  /\ tokens s' = tokens s /\ tokenIndex s' = tokenIndex s.

Definition See {A} (m : St A) : Prop := forall s, see s (m s).2.
Definition Went {A} (m : St A) : Prop := forall s, went s (m s).2.

(** The value of the test [ch == ':' && (peekAhead(1) == ' ' ||
    peekAhead(1) == '\n' || isEOFAt(1))] at position [p] of the input. *)
Definition keyAhead (l : list ascii) (p : nat) (ch : ascii) : bool :=
  is_char ch ":"
  && (is_char (at_index l (p + 1)) " "
      || (is_char (at_index l (p + 1)) LF
          || (List.length l <=? p + 1)%nat)).

(** A scan that consumes at least one byte. *)
Definition Strict {A} (m : St A) : Prop :=
  forall s, ready s -> (position s < position (m s).2)%nat.

(** The bodies of the loops that the scan functions write in place. *)
Definition skipWhitespace_step (_ : unit) : St (bool * unit) :=
  go <- andM (notM isEOF) (orM (peek_is " ") (peek_is TAB)) ;;
  if go then (advance ;;; ret (true, tt)) else ret (false, tt).

Definition skipToEndOfLine_step (_ : unit) : St (bool * unit) :=
  go <- andM (notM isEOF) (peek_isnt LF) ;;
  if go then (advance ;;; ret (true, tt)) else ret (false, tt).

Definition skipIndent_step (count : Z) (i : Z) : St (bool * Z) :=
  go <- andM (ret (i <? count)) (andM (notM isEOF) (peek_is " ")) ;;
  if go then (advance ;;; ret (true, incr i)) else ret (false, i).

Definition read_while_step (p : ascii -> bool) (buf : string)
  : St (bool * string) :=
  go <- andM (notM isEOF) (ch <- peek ;; ret (p ch)) ;;
  if go then (ch <- peek ;; advance ;;; ret (true, WriteByte buf ch))
  else ret (false, buf).

(** A loop that ends by its condition: more rounds change nothing. *)
Definition settles {A} (step : A -> St (bool * A)) : Prop :=
  forall (a : A) (s : Scanner) (k : nat),
    ok s ->
    whileM (S (remaining s) + k) step a s = whileM (S (remaining s)) step a s.

(** A condition that holds only where a byte is left. *)
Definition Guard (c : St bool) : Prop :=
  forall s, ok s -> see s (c s).2 /\ ((c s).1 = true -> ready (c s).2).

(** A round that consumes a byte whenever it asks for another round;
    [ProgA] is the same for a round that starts where a byte is left. *)
Definition Prog {A} (m : St (bool * A)) : Prop :=
  forall s, ok s ->
    went s (m s).2
    /\ ((m s).1.1 = true -> (position s < position (m s).2)%nat).

Definition ProgA {A} (m : St (bool * A)) : Prop :=
  forall s, ok s -> ready s ->
    went s (m s).2
    /\ ((m s).1.1 = true -> (position s < position (m s).2)%nat).

End scanspec.

(** * Notions used by the further statements about the emitter *)

Module emitspec.

(** A call that does not return an error. *)
Definition noError {A} (r : result A) : Prop := forall msg, r <> Err msg.

End emitspec.

(** * Notions used by the further statements about the merger *)

Module mergecases.
Import ast yaml mergespec.

Section Spec.
Context `{GoStd}.

(** [opts] with another value of [PreserveOrder]. *)
Definition withOrder (opts : MergeOptions) (order : bool) : MergeOptions :=
  mkOptions (Mode opts) (ArrayStrategy opts) (PreserveComments opts) order
            (AllowTypeMismatch opts) (CustomMergeFunc opts).

(** Entries that are not nil and have a key and a value. *)
Definition fullEntries (Content : list (option MappingEntry)) : Prop :=
  Forall (fun o : option MappingEntry =>
            exists e k v, o = Some e /\ ast.Key e = Some k
                          /\ ast.Value e = Some v) Content.

(** [opts] without its custom merge function. *)
Definition withoutCustom (opts : MergeOptions) : MergeOptions :=
  mkOptions (Mode opts) (ArrayStrategy opts) (PreserveComments opts)
            (PreserveOrder opts) (AllowTypeMismatch opts) None.

(** A custom merge function that never decides: it returns nil or an
    error. *)
Definition declines
  (custom : string -> GoValue -> GoValue -> GoValue * option string) : Prop :=
  forall path x y, (custom path x y).1 = VNil \/ (custom path x y).2 <> None.

(** The rules of [mergeNodesRecursive] below the call of the custom
    function. *)
Definition builtin
  (rec : option Node -> option Node -> string -> result Node)
  (opts : MergeOptions) (f : nat) (a b : option Node) (path : string)
  : result Node :=
  match a, b with
  | None, _ => CloneOf b
  | _, None => CloneOf a
  | Some na, Some nb =>
      if negb (bool_decide (ast.Kind na = ast.Kind nb)) then
        if negb (AllowTypeMismatch opts)
        then Err (typeMismatch path na nb)
        else if isMode opts MergeOverride then Ok (ast.Clone nb)
        else Ok (ast.Clone na)
      else
        match na, nb with
        | Document _ ac, Document _ bc =>
            mergeDocuments rec opts na nb ac bc path
        | Mapping _ ac aStyle, Mapping _ bc _ =>
            mergeMappings rec opts na nb ac bc aStyle path
        | Sequence _ ac aStyle, Sequence _ bc _ =>
            mergeSequences rec opts f na nb ac bc aStyle path
        | Scalar _ _ _, Scalar _ _ _ => Ok (mergeScalars na nb opts)
        | _, _ =>
            if isMode opts MergeOverride then Ok (ast.Clone nb)
            else Ok (ast.Clone na)
        end
  end.

(** The entries merged so far: they are full, their keys differ and are
    among the processed keys. *)
Definition keysInv (pk : gset string) (merged : list (option MappingEntry))
  : Prop :=
  fullEntries merged /\ NoDup (keysOf merged)
  /\ forall k, k ∈ keysOf merged -> k ∈ pk.

End Spec.
End mergecases.

(** * Notions used by the further statements about memory *)

Module clonespec.
Import ast heap framespec.

(** The entry that a pointer denotes, as a value. *)
Definition entrySnapshot (f : nat) (h : Heap) (entry : option loc)
  : result (option MappingEntry) :=
  match entry with
  | None => Ok None
  | Some le =>
      match h !! le with
      | Some (CEntry e) =>
          rbind (snapshot f h (Key e)) (fun k =>
          rbind (snapshot f h (Value e)) (fun v =>
          Ok (Some (mkEntry k v (EComment e)))))
      | _ => wrongType
      end
  end.

(** [c] in [h] denotes every tree that [x] denotes in [h0]. *)
Definition copies (h0 h : Heap) (c x : option loc) : Prop :=
  forall k t, snapshot k h0 x = Ok t -> snapshot k h c = Ok t.

Definition copiesEntry (h0 h : Heap) (c x : option loc) : Prop :=
  forall k t, entrySnapshot k h0 x = Ok t -> entrySnapshot k h c = Ok t.

(** The state of the loop of [Clone] over the children of the node at
    [clone], a copy of [cell0] allocated in [h0]: the copy holds the
    copies [cs] made so far and [j] nils. *)
Definition loopInv (h0 : Heap) (clone : loc) (cell0 : cell)
  (h : Heap) (cs : list (option loc)) (j : nat) : Prop :=
  (clone < List.length h)%nat
  /\ closed (S clone) h
  /\ (forall (l : loc) c, h0 !! l = Some c -> h !! l = Some c)
  /\ h !! clone = Some (withContent cell0 (cs ++ replicate j None))
  /\ Forall (freshOpt (S clone)) cs.

(** The bodies of the two loops of [Clone]. *)
Definition cloneChild (f : nat) (clone : loc) (i : nat) (node : option loc)
  : M Heap unit :=
  match node with
  | Some x => let* c := Clone f x in setContent clone i (Some c)
  | None => mret tt
  end.

Definition cloneEntryAt (f : nat) (clone : loc) (i : nat) (entry : option loc)
  : M Heap unit :=
  match entry with
  | Some le =>
      let* e := loadEntry le in
      let* cloneEntry := alloc (CEntry (mkEntry None None (EComment e))) in
      (match Key e with
       | Some k => let* k' := Clone f k in setKey cloneEntry (Some k')
       | None => mret tt
       end) >>
      (match Value e with
       | Some v => let* v' := Clone f v in setValue cloneEntry (Some v')
       | None => mret tt
       end) >>
      setContent clone i (Some cloneEntry)
  | None => mret tt
  end.

Definition updKey (e : Entry loc) (k : option loc) : Entry loc :=
  mkEntry k (Value e) (EComment e).
Definition updValue (e : Entry loc) (v : option loc) : Entry loc :=
  mkEntry (Key e) v (EComment e).

(** The state of [Clone] while it fills the copy at [clone]: the cells of
    [h0] are as they were and the copy exists. *)
Definition filling (h0 : Heap) (clone : loc) (h : Heap) : Prop :=
  (forall (l : loc) c, h0 !! l = Some c -> h !! l = Some c)
  /\ (List.length h0 <= clone < List.length h)%nat.

End clonespec.
(** * Properties of the scanner *)

Lemma wrap64_small z : - 2 ^ 63 <= z < 2 ^ 63 -> wrap64 z = z.
Proof. intros H. unfold wrap64. rewrite Z.mod_small; lia. Qed.


Section While.
Import lexer.
Lemma while_inv {S : Type} (P : S -> Prop) (step : S -> bool * S) :
  (forall s, P s -> P (step s).2) ->
  forall fuel s, P s -> P (while fuel step s).
Proof.
  intros Hstep fuel. induction fuel as [|f IH]; intros s Hs; simpl; auto.
  specialize (Hstep s Hs). destruct (step s) as [go s']. simpl in Hstep.
  destruct go; auto.
Qed.

End While.

(** ** Chomping *)

Lemma append_nil_l (s : string) : "" +:+ s = s.
Proof. reflexivity. Qed.

Lemma append_cons (c : ascii) (s t : string) :
  String c s +:+ t = String c (s +:+ t).
Proof. reflexivity. Qed.

Lemma TrimRight1_split (v : string) :
  exists k, v = TrimRight1 v LF +:+ repeatLF k
            /\ ends_LF (TrimRight1 v LF) = false.
Proof.
  induction v as [|d r IH]; simpl.
  - exists O. split; reflexivity.
  - destruct IH as [k [Hr He]].
    destruct (TrimRight1 r LF) as [|e r'] eqn:Ht.
    + rewrite append_nil_l in Hr. destruct (Ascii.eqb d LF) eqn:Hd.
      * apply Ascii.eqb_eq in Hd. subst d. exists (S k).
        rewrite append_nil_l. simpl. split; [congruence | reflexivity].
      * exists k. unfold str1. rewrite append_cons, append_nil_l.
        split; [congruence |]. unfold ends_LF. simpl. exact Hd.
    + exists k. split.
      * rewrite append_cons. congruence.
      * unfold ends_LF in *. simpl in *. exact He.
Qed.

Section Chomping.
Import lexer.

Lemma scanChompingIndicator_value (s : Scanner) :
  (scanChompingIndicator s).1 =
  let ch := (peek s).1 in
  if is_char ch "+" || is_char ch "-" then str1 ch else "".
Proof.
  unfold scanChompingIndicator, bind. destruct (peek s) as [ch s1]. simpl.
  destruct (is_char ch "+" || is_char ch "-"); [|reflexivity].
  unfold ret. destruct (advance s1). reflexivity.
Qed.

Lemma blockHeader_value (s : Scanner) :
  (blockHeader s).1 = (scanChompingIndicator (advance s).2).1.
Proof.
  unfold blockHeader, bind, ret.
  destruct (advance s) as [u s1]. simpl.
  destruct (scanChompingIndicator s1) as [c s2]. simpl.
  destruct (skipToEndOfLine s2) as [u2 s3].
  destruct (consume_newline s3) as [u3 s4]. reflexivity.
Qed.

(** C5.  For a literal ([folded = false]) or folded block scalar, let [ind]
    be the byte after the [|] or [>] and [content] the text collected from
    the lines of the block.  [content] is a [body] that does not end with a
    newline, followed by [k] newlines.  The value of the token is [body]
    when the indicator is [-] (all trailing newlines stripped), [content]
    when it is [+] (all kept), and [body] with one newline otherwise
    (collapsed to exactly one). *)
Theorem C5_block_scalar_chomping (folded : bool) (s : Scanner) :
  let scanBlock := if folded then scanFoldedBlock else scanLiteralBlock in
  let collect := if folded then foldedContent else literalContent in
  let ind := (peek (advance s).2).1 in
  let content := (collect (blockHeader s).2).1 in
  let value := Value (scanBlock s).1 in
  exists body k,
    content = body +:+ repeatLF k /\ ends_LF body = false /\
    value = if is_char ind "-" then body
            else if is_char ind "+" then content
            else body +:+ nl.
Proof.
  intros scanBlock collect ind content value.
  destruct (TrimRight1_split content) as [k [Hc He]].
  exists (TrimRight1 content LF), k. split; [exact Hc | split; [exact He |]].
  assert (Hv : value = applyChomping content (blockHeader s).1).
  { subst value scanBlock content collect.
    destruct folded; unfold scanFoldedBlock, scanLiteralBlock, bind, ret,
      makeToken; destruct (blockHeader s) as [c s1]; simpl;
      [destruct (foldedContent s1) | destruct (literalContent s1)];
      reflexivity. }
  rewrite Hv, blockHeader_value, scanChompingIndicator_value.
  fold ind. unfold applyChomping.
  destruct (is_char ind "+") eqn:Hp; destruct (is_char ind "-") eqn:Hm;
    simpl.
  - apply Ascii.eqb_eq in Hp, Hm. congruence.
  - apply Ascii.eqb_eq in Hp. subst ind. rewrite Hp. reflexivity.
  - apply Ascii.eqb_eq in Hm. rewrite Hm. reflexivity.
  - reflexivity.
Qed.

End Chomping.

(** ** The flow depth

    A scan step either only looks ahead (it moves bytes from the reader to
    the buffer) or consumes bytes; neither touches [inFlow], which only the
    four bracket functions change. *)

Section Flow.
Import lexer flowspec.


Lemma look_refl s : look s s.
Proof. unfold look. auto. Qed.

Lemma look_trans s1 s2 s3 : look s1 s2 -> look s2 s3 -> look s1 s3.
Proof. unfold look. intros (?&?&?&?) (?&?&?&?). repeat split; lia. Qed.

Lemma adv_refl s : adv s s.
Proof. unfold adv. auto. Qed.

Lemma adv_trans s1 s2 s3 : adv s1 s2 -> adv s2 s3 -> adv s1 s3.
Proof.
  unfold adv. intros (?&?&?&?) (?&?&?&?). repeat split; lia.
Qed.

Lemma look_adv s s' : look s s' -> adv s s'.
Proof. unfold look, adv. intros (?&?&?&?). repeat split; lia. Qed.

Lemma Look_Adv {A} (m : St A) : Look m -> Adv m.
Proof. intros H s. apply look_adv, H. Qed.

Lemma Look_ret {A} (a : A) : Look (ret a).
Proof. intros s. apply look_refl. Qed.

Lemma Look_get {A} (f : Scanner -> A) : Look (get f).
Proof. intros s. apply look_refl. Qed.

Lemma Look_bind {A B} (m : St A) (k : A -> St B) :
  Look m -> (forall a, Look (k a)) -> Look (bind m k).
Proof.
  intros Hm Hk s. unfold bind. specialize (Hm s).
  destruct (m s) as [a s1]. eapply look_trans; [exact Hm | apply Hk].
Qed.

Lemma Adv_ret {A} (a : A) : Adv (ret a).
Proof. intros s. apply adv_refl. Qed.

Lemma Adv_bind {A B} (m : St A) (k : A -> St B) :
  Adv m -> (forall a, Adv (k a)) -> Adv (bind m k).
Proof.
  intros Hm Hk s. unfold bind. specialize (Hm s).
  destruct (m s) as [a s1]. eapply adv_trans; [exact Hm | apply Hk].
Qed.

Lemma Look_fillBuffer : Look fillBuffer.
Proof.
  intros s. unfold fillBuffer. destruct (reader s) as [|b r] eqn:Hr.
  - apply look_refl.
  - unfold look. simpl. rewrite Hr, length_app. simpl. repeat split; lia.
Qed.

Lemma Look_while (step : Scanner -> bool * Scanner) :
  (forall s, look s (step s).2) ->
  forall fuel s, look s (while fuel step s).
Proof.
  intros Hs fuel. induction fuel as [|f IH]; intros s; simpl.
  - apply look_refl.
  - specialize (Hs s). destruct (step s) as [go s1]. simpl in Hs.
    destruct go; [eapply look_trans; [exact Hs | apply IH] | exact Hs].
Qed.

Lemma Look_fill_through off : forall s, look s (fill_through off s).2.
Proof.
  intros s. unfold fill_through.
  destruct (_ <=? _)%nat; [apply Look_fillBuffer | apply look_refl].
Qed.

Lemma Look_peek : Look peek.
Proof.
  intros s. unfold peek. simpl.
  destruct (_ <=? _)%nat; [apply Look_fillBuffer | apply look_refl].
Qed.

Lemma Look_peekAhead off : Look (peekAhead off).
Proof.
  intros s. unfold peekAhead.
  exact (Look_while _ (Look_fill_through off) _ s).
Qed.

Lemma Look_isEOF : Look isEOF.
Proof.
  intros s. unfold isEOF. destruct (_ <=? _)%nat; [|apply look_refl].
  pose proof (Look_fillBuffer s). destruct (fillBuffer s). assumption.
Qed.

Lemma Look_isEOFAt off : Look (isEOFAt off).
Proof.
  intros s. unfold isEOFAt.
  exact (Look_while _ (Look_fill_through off) _ s).
Qed.

Lemma Look_makeToken t v : Look (makeToken t v).
Proof. intros s. apply look_refl. Qed.

Lemma Look_andM (a b : St bool) : Look a -> Look b -> Look (andM a b).
Proof.
  intros Ha Hb. apply Look_bind; [exact Ha |].
  intros [|]; [exact Hb | apply Look_ret].
Qed.

Lemma Look_orM (a b : St bool) : Look a -> Look b -> Look (orM a b).
Proof.
  intros Ha Hb. apply Look_bind; [exact Ha |].
  intros [|]; [apply Look_ret | exact Hb].
Qed.

Lemma Look_notM (a : St bool) : Look a -> Look (notM a).
Proof. intros Ha. apply Look_bind; [exact Ha | intros; apply Look_ret]. Qed.

Lemma Look_peek_is c : Look (peek_is c).
Proof. apply Look_bind; [apply Look_peek | intros; apply Look_ret]. Qed.

Lemma Look_peek_isnt c : Look (peek_isnt c).
Proof. apply Look_notM, Look_peek_is. Qed.

Lemma Look_countIndent : Look countIndent.
Proof. apply Look_get. Qed.

Lemma Look_key_ahead ch : Look (key_ahead ch).
Proof.
  unfold key_ahead.
  repeat first [ apply Look_andM | apply Look_orM | apply Look_ret
               | apply Look_isEOFAt
               | apply Look_bind; [apply Look_peekAhead | intros] ].
Qed.

Lemma Adv_advance : Adv advance.
Proof.
  intros s. unfold advance. destruct (_ <? _)%nat eqn:E; [|apply adv_refl].
  apply Nat.ltb_lt in E. unfold adv. simpl. repeat split; lia.
Qed.

Lemma Adv_newline : Adv newline.
Proof. intros s. unfold adv, newline. simpl. auto. Qed.

Lemma Adv_whileM {A} (step : A -> St (bool * A)) :
  (forall a, Adv (step a)) -> forall fuel a, Adv (whileM fuel step a).
Proof.
  intros Hs fuel. unfold whileM.
  assert (G : forall st : A * Scanner,
    adv st.2 (while fuel
      (fun st : A * Scanner =>
         let '((go, a'), s') := step st.1 st.2 in (go, (a', s'))) st).2).
  { induction fuel as [|f IH]; intros [a s]; simpl.
    - apply adv_refl.
    - specialize (Hs a s). destruct (step a s) as [[go a'] s1]. simpl in Hs.
      destruct go; [|exact Hs].
      eapply adv_trans; [exact Hs | apply (IH (a', s1))]. }
  intros a s. apply (G (a, s)).
Qed.

Lemma Adv_loop {A} (step : A -> St (bool * A)) (fuel : Scanner -> nat) a :
  (forall a, Adv (step a)) -> Adv (fun s => whileM (fuel s) step a s).
Proof. intros Hs s. apply Adv_whileM, Hs. Qed.

End Flow.

Create HintDb look.
Create HintDb adv.

#[local] Hint Resolve Look_ret Look_get Look_fillBuffer Look_peek
  Look_peekAhead Look_isEOF Look_isEOFAt Look_makeToken Look_peek_is
  Look_peek_isnt Look_countIndent Look_key_ahead : look.
#[local] Hint Resolve Adv_ret Adv_advance Adv_newline : adv.

(** Decomposes a goal [Look m] or [Adv m] along the structure of [m]. *)
Ltac look_tac :=
  repeat first
    [ apply Look_andM | apply Look_orM | apply Look_notM
    | apply Look_bind; [|intros ?]
    | solve [auto with look]
    | match goal with
      | |- flowspec.Look (if ?b then _ else _) => destruct b
      end ].

Ltac adv_tac :=
  repeat first
    [ solve [auto with adv]
    | solve [apply Look_Adv; look_tac]
    | apply Adv_bind; [|intros ?]
    | apply Adv_loop; intros ?
    | match goal with
      | |- flowspec.Adv (if ?b then _ else _) => destruct b
      | |- flowspec.Adv (let (_, _) := ?x in _) => destruct x
      end ].

Section FlowScan.
Import lexer flowspec.
Context `{GoStd}.

Lemma Adv_read_line buf : Adv (read_line buf).
Proof. unfold read_line. adv_tac; try (unfold read_line_step; adv_tac). Qed.

Lemma Adv_read_while p buf : Adv (read_while p buf).
Proof. unfold read_while. adv_tac. Qed.

Lemma Adv_skipWhitespace : Adv skipWhitespace.
Proof. unfold skipWhitespace. adv_tac. Qed.

Lemma Adv_skipToEndOfLine : Adv skipToEndOfLine.
Proof. unfold skipToEndOfLine. adv_tac. Qed.

Lemma Adv_skipIndent count : Adv (skipIndent count).
Proof.
  intros s. unfold skipIndent.
  match goal with
  | |- context [whileM ?f ?st ?a s] =>
      assert (G : adv s (whileM f st a s).2);
      [ apply Adv_whileM; intros ?; adv_tac
      | destruct (whileM f st a s); exact G ]
  end.
Qed.

Lemma Adv_consume_newline : Adv consume_newline.
Proof. unfold consume_newline. adv_tac. Qed.

Lemma Adv_scanChompingIndicator : Adv scanChompingIndicator.
Proof. unfold scanChompingIndicator. adv_tac. Qed.

#[local] Hint Resolve Adv_read_line Adv_read_while Adv_skipWhitespace
  Adv_skipToEndOfLine Adv_skipIndent Adv_consume_newline
  Adv_scanChompingIndicator : adv.

Lemma Adv_blockHeader : Adv blockHeader.
Proof. unfold blockHeader. adv_tac. Qed.

Lemma Adv_literalContent : Adv literalContent.
Proof. unfold literalContent. adv_tac. Qed.

Lemma Adv_foldedContent : Adv foldedContent.
Proof.
  unfold foldedContent. adv_tac.
  all: try (unfold folded_step;
            match goal with |- Adv (let (_, _) := ?x in _) => destruct x end;
            adv_tac).
Qed.

#[local] Hint Resolve Adv_blockHeader Adv_literalContent Adv_foldedContent
  : adv.

Ltac type_tac :=
  intros s; unfold bind, ret, makeToken, tokenAt;
  repeat match goal with
         | |- context [let (_, _) := ?x in _] => destruct x
         end; simpl; auto.

Lemma scans_scanComment : scans scanComment (fun t => Type_ t = TokenComment).
Proof. split; unfold scanComment; [adv_tac | type_tac]. Qed.

Lemma scans_scanNewline : scans scanNewline (fun t => Type_ t = TokenNewLine).
Proof. split; unfold scanNewline; [adv_tac | type_tac]. Qed.

Lemma scans_scanDocumentStart :
  scans scanDocumentStart (fun t => Type_ t = TokenDocumentStart).
Proof. split; unfold scanDocumentStart; [adv_tac | type_tac]. Qed.

Lemma scans_scanDocumentEnd :
  scans scanDocumentEnd (fun t => Type_ t = TokenDocumentEnd).
Proof. split; unfold scanDocumentEnd; [adv_tac | type_tac]. Qed.

Lemma scans_scanSequenceItem :
  scans scanSequenceItem (fun t => Type_ t = TokenSequenceItem).
Proof. split; unfold scanSequenceItem; [adv_tac | type_tac]. Qed.

Lemma scans_scanFlowEntry :
  scans scanFlowEntry (fun t => Type_ t = TokenFlowEntry).
Proof. split; unfold scanFlowEntry; [adv_tac | type_tac]. Qed.

Lemma scans_scanKey : scans scanKey (fun t => Type_ t = TokenKey).
Proof. split; unfold scanKey; [adv_tac | type_tac]. Qed.

Lemma scans_scanLiteralBlock :
  scans scanLiteralBlock (fun t => Type_ t = TokenLiteralBlock).
Proof. split; unfold scanLiteralBlock; [adv_tac | type_tac]. Qed.

Lemma scans_scanFoldedBlock :
  scans scanFoldedBlock (fun t => Type_ t = TokenFoldedBlock).
Proof. split; unfold scanFoldedBlock; [adv_tac | type_tac]. Qed.

Lemma scans_scanSingleQuotedString :
  scans scanSingleQuotedString (fun t => Type_ t = TokenString).
Proof.
  split; unfold scanSingleQuotedString; [|type_tac].
  adv_tac; try (unfold single_step; adv_tac).
Qed.

Lemma scans_scanDoubleQuotedString :
  scans scanDoubleQuotedString (fun t => Type_ t = TokenString).
Proof.
  split; unfold scanDoubleQuotedString; [|type_tac].
  adv_tac; try (unfold double_step; adv_tac).
Qed.

Lemma scans_scanAnchor : scans scanAnchor (fun t => Type_ t = TokenAnchor).
Proof. split; unfold scanAnchor; [adv_tac | type_tac]. Qed.

Lemma scans_scanAlias : scans scanAlias (fun t => Type_ t = TokenAlias).
Proof. split; unfold scanAlias; [adv_tac | type_tac]. Qed.

Lemma scans_scanTag : scans scanTag (fun t => Type_ t = TokenTag).
Proof. split; unfold scanTag; [adv_tac | type_tac]. Qed.

Lemma detectScalarType_range value :
  detectScalarType value = TokenNull \/ detectScalarType value = TokenBoolean
  \/ detectScalarType value = TokenNumber
  \/ detectScalarType value = TokenString.
Proof.
  unfold detectScalarType.
  repeat match goal with |- context [if ?b then _ else _] => destruct b end;
    auto.
Qed.

Lemma scans_scanScalar :
  scans scanScalar (fun t => Type_ t = TokenNull \/ Type_ t = TokenBoolean
                             \/ Type_ t = TokenNumber
                             \/ Type_ t = TokenString).
Proof.
  split; unfold scanScalar.
  - adv_tac; try (unfold scalar_step; adv_tac).
  - type_tac. apply detectScalarType_range.
Qed.

Lemma adv_Inv N s s' : adv s s' -> Inv N s -> Inv N s'.
Proof. unfold adv, Inv. intros (?&?&?&?) (?&?&?). repeat split; lia. Qed.

Lemma look_avail s s' : look s s' -> avail s -> avail s'.
Proof. unfold look, avail. intros (?&?&?&?) ?. lia. Qed.

Lemma peek_avail s : (peek s).1 <> NUL -> avail (peek s).2.
Proof.
  unfold peek, avail, at_index. simpl. intros Hne.
  match type of Hne with
  | context [?l !! ?i] => destruct (l !! i) eqn:E; [|congruence];
                         apply lookup_lt_Some in E; exact E
  end.
Qed.

Lemma bind_step {A B} (P : B * Scanner -> Prop) (m : St A) (k : A -> St B) s :
  (forall a s1, m s = (a, s1) -> P (k a s1)) -> P (bind m k s).
Proof. intros Hk. unfold bind. destruct (m s) as [a s1] eqn:E. auto. Qed.

Lemma Post_scans N (m : St Token) (P : Token -> Prop) s0 s1 :
  scans m P ->
  (forall t, P t -> flow_after (Type_ t) (inFlow s0) = inFlow s0
                    /\ Type_ t <> TokenFlowEntry) ->
  adv s0 s1 -> Inv N s0 -> Post N (inFlow s0) (m s1).
Proof.
  intros [Ha Ht] Hp A HI. specialize (Ha s1). specialize (Ht s1).
  destruct (Hp _ Ht) as [Hf Hn]. unfold Post.
  assert (A' : adv s0 (m s1).2) by (eapply adv_trans; eassumption).
  split; [eapply adv_Inv; eassumption |].
  split; [|intros; contradiction].
  rewrite Hf. apply A'.
Qed.

Lemma Post_flow_start N s0 s1 t :
  (Z.of_nat N < 2 ^ 63) -> adv s0 s1 -> avail s1 -> Inv N s0 ->
  (t = TokenFlowSequenceStart \/ t = TokenFlowMappingStart) ->
  forall v, Post N (inFlow s0)
    ((token <- makeToken t v ;; advance ;;;
      modify (fun s => set_inFlow s (incr (inFlow s))) ;;; ret token) s1).
Proof.
  intros HN A V HI Ht v. pose proof (adv_Inv N _ _ A HI) as (I1 & I2 & I3).
  destruct A as (_ & _ & _ & Af).
  unfold bind, makeToken, advance, modify, ret, Post, Inv. unfold avail in V.
  apply Nat.ltb_lt in V. rewrite V. apply Nat.ltb_lt in V. simpl.
  assert (Hi : incr (inFlow s1) = inFlow s1 + 1).
  { unfold incr. apply wrap64_small. lia. }
  rewrite Hi, Af.
  repeat split; try lia; try (destruct Ht; subst t; first [reflexivity | discriminate]).
Qed.

Lemma Post_flow_end N s0 s1 t :
  (Z.of_nat N < 2 ^ 63) -> adv s0 s1 -> Inv N s0 ->
  (t = TokenFlowSequenceEnd \/ t = TokenFlowMappingEnd) ->
  forall v, Post N (inFlow s0)
    ((token <- makeToken t v ;; advance ;;;
      modify (fun s => if 0 <? inFlow s then set_inFlow s (decr (inFlow s))
                       else s) ;;; ret token) s1).
Proof.
  intros HN A HI Ht v. unfold bind, makeToken, modify, ret.
  pose proof (Adv_advance s1) as A2.
  destruct (advance s1) as [u s2]. simpl in A2.
  assert (A' : adv s0 s2) by (eapply adv_trans; eassumption).
  pose proof (adv_Inv N _ _ A' HI) as (I1 & I2 & I3).
  destruct A' as (_ & _ & _ & Af).
  unfold Post, Inv. simpl.
  assert (Hd : decr (inFlow s2) = inFlow s2 - 1).
  { unfold decr. apply wrap64_small. lia. }
  assert (Hty : flow_after t (inFlow s0)
                = if 0 <? inFlow s0 then inFlow s0 - 1 else inFlow s0).
  { destruct Ht; subst t; reflexivity. }
  rewrite Hty, <- Af.
  destruct (0 <? inFlow s2) eqn:E; simpl.
  - apply Z.ltb_lt in E. rewrite Hd.
    repeat split; try lia; try (destruct Ht; subst t; discriminate).
  - repeat split; try lia; try (destruct Ht; subst t; discriminate).
Qed.

Lemma Post_flow_entry N s0 s1 :
  adv s0 s1 -> Inv N s0 -> 0 < inFlow s0 ->
  Post N (inFlow s0) (scanFlowEntry s1).
Proof.
  intros A HI Hpos. destruct scans_scanFlowEntry as [Ha Ht].
  specialize (Ha s1). specialize (Ht s1). simpl in Ht.
  assert (A' : adv s0 (scanFlowEntry s1).2) by (eapply adv_trans; eassumption).
  unfold Post. rewrite Ht. simpl.
  split; [eapply adv_Inv; eassumption | split; [apply A' | auto]].
Qed.

(** One step of symbolic execution through a condition that only looks
    ahead. *)
Ltac look_step :=
  apply bind_step; intros ? ? ?;
  match goal with
  | E : ?m ?s1 = (_, ?s2), A : adv ?s0 ?s1, V : _ -> avail ?s1 |- _ =>
      let L := fresh "L" in
      assert (L : look s1 s2) by
        (let K := fresh in
         assert (K : Look m) by look_tac;
         specialize (K s1); rewrite E in K; exact K);
      let A' := fresh "A" in
      assert (A' : adv s0 s2) by
        (eapply adv_trans; [exact A | apply look_adv; exact L]);
      let V' := fresh "V" in
      pose proof (fun h => look_avail _ _ L (V h)) as V';
      clear A V
  end.

Ltac fixed_type :=
  let t := fresh in let Ht := fresh in
  intros t Ht; simpl in Ht;
  repeat match type of Ht with _ \/ _ => destruct Ht as [Ht|Ht] end;
  rewrite Ht; (split; [reflexivity | discriminate]).

Ltac scan_branch L :=
  refine (Post_scans _ _ _ _ _ L _ _ _);
  [fixed_type | eassumption | eassumption].

Lemma scanNext_spec (N : nat) (s : Scanner) :
  Z.of_nat N < 2 ^ 63 -> Inv N s -> Post N (inFlow s) (scanNext s).
Proof.
  intros HN HI. unfold scanNext.
  apply bind_step. intros u s1 E1.
  assert (A1 : adv s s1).
  { pose proof (Adv_skipWhitespace s) as K. rewrite E1 in K. exact K. }
  apply bind_step. intros eof s2 E2.
  assert (A2 : adv s s2).
  { eapply adv_trans; [exact A1 |]. apply look_adv.
    pose proof (Look_isEOF s1) as K. rewrite E2 in K. exact K. }
  clear A1. destruct eof.
  { unfold makeToken, Post. simpl.
    split; [eapply adv_Inv; eassumption | split; [apply A2 | discriminate]]. }
  apply bind_step. intros ch s3 E3.
  assert (A3 : adv s s3).
  { eapply adv_trans; [exact A2 |]. apply look_adv.
    pose proof (Look_peek s2) as K. rewrite E3 in K. exact K. }
  assert (V3 : ch <> NUL -> avail s3).
  { pose proof (peek_avail s2) as K. rewrite E3 in K. exact K. }
  clear A2.
  destruct (is_char ch "#"); [scan_branch scans_scanComment |].
  destruct (is_char ch LF); [scan_branch scans_scanNewline |].
  look_step. destruct a; [scan_branch scans_scanDocumentStart |].
  look_step. destruct a; [scan_branch scans_scanDocumentEnd |].
  look_step. destruct a; [scan_branch scans_scanSequenceItem |].
  destruct (is_char ch "[") eqn:Hc.
  { apply Ascii.eqb_eq in Hc. subst ch.
    apply Post_flow_start; auto; try (apply V; discriminate). }
  clear Hc. destruct (is_char ch "]").
  { apply Post_flow_end; auto. }
  destruct (is_char ch "{") eqn:Hc.
  { apply Ascii.eqb_eq in Hc. subst ch.
    apply Post_flow_start; auto; try (apply V; discriminate). }
  clear Hc. destruct (is_char ch "}").
  { apply Post_flow_end; auto. }
  look_step. destruct a.
  { apply Post_flow_entry; auto.
    match goal with E : andM _ _ _ = _ |- _ =>
      unfold andM, bind, ret, get in E; destruct (is_char ch ",");
      [|discriminate]; injection E as E _; apply Z.ltb_lt in E end.
    match goal with L : look ?si ?sj, A : adv s ?sj |- _ =>
      destruct A as (_ & _ & _ & Af); destruct L as (_ & _ & _ & Lf) end.
    lia. }
  look_step. destruct a; [scan_branch scans_scanKey |].
  destruct (is_char ch "|"); [scan_branch scans_scanLiteralBlock |].
  destruct (is_char ch ">"); [scan_branch scans_scanFoldedBlock |].
  destruct (is_char ch "'"); [scan_branch scans_scanSingleQuotedString |].
  destruct (is_char ch DQ); [scan_branch scans_scanDoubleQuotedString |].
  destruct (is_char ch "&"); [scan_branch scans_scanAnchor |].
  destruct (is_char ch "*"); [scan_branch scans_scanAlias |].
  destruct (is_char ch "!"); [scan_branch scans_scanTag |].
  scan_branch scans_scanScalar.
Qed.

Lemma Scan_spec (N : nat) (s : Scanner) :
  Z.of_nat N < 2 ^ 63 -> Inv N s -> Inv N (Scan s).2.
Proof.
  intros HN HI. unfold Scan.
  destruct (_ <? _)%nat; [|apply scanNext_spec; assumption].
  destruct (tokens s !! tokenIndex s);
    [exact HI | apply scanNext_spec; assumption].
Qed.

Lemma run_Inv (N : nat) (calls : list call) :
  Z.of_nat N < 2 ^ 63 -> forall s, Inv N s -> Inv N (run calls s).
Proof.
  intros HN. unfold run.
  induction calls as [|c cs IH]; intros s HI; simpl; [exact HI |].
  apply IH. destruct c; simpl; [apply Scan_spec; assumption | exact HI].
Qed.

Lemma NewScanner_Inv (input : string) :
  Inv (String.length input) (NewScanner input).
Proof.
  unfold Inv, NewScanner. simpl. repeat split; try lia.
  induction input; simpl; congruence.
Qed.

(** C10.  On an input shorter than 2^63 bytes, after any sequence of [Scan]
    and [PushBack] calls the flow depth [inFlow] is not negative; a further
    scan increments it on an opening bracket, decrements it on a closing
    bracket only when it is positive and leaves it alone otherwise; and a
    comma is scanned as [TokenFlowEntry] only at positive depth. *)
Theorem C10_inFlow_never_negative (input : string) (calls : list call) :
  Z.of_nat (String.length input) < 2 ^ 63 ->
  let s := run calls (NewScanner input) in
  0 <= inFlow s
  /\ inFlow (scanNext s).2 = flow_after (Type_ (scanNext s).1) (inFlow s)
  /\ 0 <= inFlow (scanNext s).2
  /\ (Type_ (scanNext s).1 = TokenFlowEntry -> 0 < inFlow s).
Proof.
  intros HN s.
  assert (HI : Inv (String.length input) s)
    by (apply run_Inv; [exact HN | apply NewScanner_Inv]).
  destruct (scanNext_spec _ s HN HI) as (HI' & Hf & He).
  split; [apply HI |]. split; [exact Hf |]. split; [apply HI' | exact He].
Qed.

End FlowScan.

Lemma C10_witness :
  Z.of_nat (String.length "[a]],") < 2 ^ 63
  /\ 0 <= lexer.inFlow
            (@lexer.run asciiStd
               [lexer.CallScan; lexer.CallScan; lexer.CallScan;
                lexer.CallScan]
               (lexer.NewScanner "[a]],")).
Proof.
  split; [reflexivity |].
  apply (@C10_inFlow_never_negative asciiStd "[a]],"
           [lexer.CallScan; lexer.CallScan; lexer.CallScan; lexer.CallScan]).
  reflexivity.
Defined.

(** * Properties of the emitter *)

Section EncoderFacts.
Import ast yaml examples.
Context `{GoStd}.

Lemma encodeScalar_plain (e : Encoder) (value : string) :
  encodeScalar e value PlainStyle = value.
Proof. reflexivity. Qed.

Lemma needsQuoting_yes : needsQuoting "yes" = true.
Proof. reflexivity. Qed.

(** C1.  The plain scalar [yes] is ambiguous ([needsQuoting] holds), yet
    [EncodeNode] writes it as it is: the text differs from the one written
    for the double-quoted style.  The repository's test
    [TestEncoder_SpecialStrings] expects the quoted text. *)
Theorem C1_plain_yes_written_unquoted :
  needsQuoting "yes" = true
  /\ EncodeNode 1 NewEncoder (scalar "yes") = Ok "yes"
  /\ EncodeNode 1 NewEncoder (Some (Scalar base0 "yes" DoubleQuotedStyle))
     = Ok (str1 DQ +:+ "yes" +:+ str1 DQ).
Proof. repeat split; reflexivity. Qed.

(** C8.  The text written for the block mapping [{key: value}] is
    [key: value] and the one for the block sequence [[item1, item2]] is two
    lines separated by one newline: neither ends with a newline.  The
    repository's test [TestEncoder_Nodes] expects a final newline. *)
Theorem C8_last_entry_without_newline :
  EncodeNode 2 NewEncoder oneEntry = Ok "key: value"
  /\ ends_LF "key: value" = false
  /\ EncodeNode 2 NewEncoder twoItems = Ok ("- item1" +:+ nl +:+ "- item2")
  /\ ends_LF ("- item1" +:+ nl +:+ "- item2") = false.
Proof. repeat split; reflexivity. Qed.

End EncoderFacts.

(** * Properties of the merger *)

Section MergeFacts.
Import ast yaml examples mergespec.
Context `{GoStd}.

(** C3.  Merging [{x: 1}] and [{y: 2}] under [MergePreserve] keeps the key
    [y] that only the second mapping has: the main loop of [mergeMappings]
    appends the clone of a B-only entry whatever the mode, and the loop
    guarded by [Mode != MergePreserve] finds every key processed. *)
Theorem C3_preserve_keeps_b_only_key :
  MergeNodes 2 onlyX onlyY (options MergePreserve false)
  = Ok (Mapping base0
          [Some (mkEntry (scalar "x") (scalar "1") noComment);
           Some (mkEntry (scalar "y") (scalar "2") noComment)]
          BlockStyle).
Proof. vm_compute. reflexivity. Qed.

(** ** Clones are equal to their originals *)

Lemma Clone_id : forall n : Node, Clone n = n.
Proof.
  fix IH 1. intros [b c | b v s | b c s | b c s | b i]; simpl;
    try reflexivity.
  - f_equal. induction c as [|o c IHc]; simpl; [reflexivity |].
    f_equal; [|exact IHc]. destruct o; simpl; [f_equal; apply IH | reflexivity].
  - f_equal. induction c as [|o c IHc]; simpl; [reflexivity |].
    f_equal; [|exact IHc]. destruct o as [[k v cm]|]; simpl; [|reflexivity].
    f_equal. f_equal.
    + destruct k; simpl; [f_equal; apply IH | reflexivity].
    + destruct v; simpl; [f_equal; apply IH | reflexivity].
  - f_equal. induction c as [|o c IHc]; simpl; [reflexivity |].
    f_equal; [|exact IHc]. destruct o; simpl; [f_equal; apply IH | reflexivity].
Qed.

Lemma cloneNodes_id (l : list (option Node)) : cloneNodes l = l.
Proof.
  unfold cloneNodes. induction l as [|o l IH]; simpl; [reflexivity |].
  f_equal; [|exact IH]. destruct o; simpl; [f_equal; apply Clone_id | reflexivity].
Qed.

Lemma CloneOf_Ok (n : option Node) (c : Node) :
  CloneOf n = Ok c -> n = Some c.
Proof.
  destruct n; simpl; [|discriminate]. rewrite Clone_id. congruence.
Qed.

Lemma cloneEntry_Ok (e e' : MappingEntry) :
  cloneEntry e = Ok e' -> e' = e.
Proof.
  unfold cloneEntry. destruct e as [k v c]. simpl.
  destruct k as [k|]; simpl; [|discriminate].
  destruct v as [v|]; simpl; [|discriminate].
  rewrite !Clone_id. congruence.
Qed.

(** ** What [mergeMappings] builds from the entries *)

Lemma indexEntries_Ok Content m keys m' keys' :
  indexEntries Content m keys = Ok (m', keys') ->
  exists es, Content = map Some es /\ m' = indexed m es
             /\ keys' = keys ++ map keyOf es.
Proof.
  revert m keys. induction Content as [|o c IH]; intros m keys Hi; simpl in Hi.
  - exists []. simpl. rewrite app_nil_r. split; [reflexivity | split; congruence].
  - destruct o as [e|]; [|discriminate].
    destruct (IH _ _ Hi) as (es & -> & -> & ->).
    exists (e :: es). simpl. rewrite <- app_assoc. auto.
Qed.

Lemma indexed_lookup m es k e :
  indexed m es !! k = Some e -> m !! k = Some e \/ e ∈ es.
Proof.
  revert m. induction es as [|x es IH]; intros m Hl; simpl in Hl; [auto |].
  apply IH in Hl. destruct Hl as [Hl | Hl]; [|right; set_solver].
  destruct (decide (keyOf x = k)) as [<- | Hne].
  - rewrite lookup_insert_eq in Hl. right. set_solver.
  - rewrite lookup_insert_ne in Hl by done. auto.
Qed.

(** ** Comments when [PreserveComments] is off *)

Lemma indexed_key (es : list MappingEntry) :
  forall (m : gmap string MappingEntry),
    (forall k e, m !! k = Some e -> keyOf e = k) ->
    forall k e, indexed m es !! k = Some e -> keyOf e = k.
Proof.
  induction es as [|x es IH]; intros m Hm k e Hl; simpl in Hl; [eauto |].
  eapply IH; [|exact Hl]. intros k' e' Hl'.
  apply lookup_insert_Some in Hl' as [[<- <-] | [_ Hl']]; eauto.
Qed.

Lemma indexed_Some (es : list MappingEntry) (k : string) (e : MappingEntry) :
  indexed ∅ es !! k = Some e -> Some e ∈ map Some es /\ keyOf e = k.
Proof.
  intros Hl. split.
  - apply indexed_lookup in Hl as [Hl | Hl];
      [rewrite lookup_empty in Hl; discriminate |].
    apply list_elem_of_fmap. eauto.
  - eapply indexed_key; [|exact Hl]. intros k' e' Hl'.
    rewrite lookup_empty in Hl'. discriminate.
Qed.

Lemma keysOf_Some (es : list MappingEntry) :
  keysOf (map Some es) = map keyOf es.
Proof.
  unfold keysOf. induction es as [|e es IH]; simpl; [reflexivity |].
  f_equal. exact IH.
Qed.

Lemma keysOf_snoc (merged : list (option MappingEntry)) (e : MappingEntry) :
  keysOf (merged ++ [Some e]) = keysOf merged ++ [keyOf e].
Proof. unfold keysOf. rewrite omap_app. reflexivity. Qed.

Lemma indexEntries_keys Content :
  forall (m : gmap string MappingEntry) keys m' keys',
    (forall k, m !! k = None <-> k ∉ keys) ->
    indexEntries Content m keys = Ok (m', keys') ->
    forall k, m' !! k = None <-> k ∉ keys'.
Proof.
  induction Content as [|[entry|] rest IH]; intros m keys m' keys' Hm E;
    simpl in E.
  - injection E as <- <-. exact Hm.
  - eapply IH; [|exact E]. intros k.
    rewrite lookup_insert_None, Hm, not_elem_of_app, not_elem_of_cons.
    rewrite elem_of_nil. intuition congruence.
  - discriminate.
Qed.

Lemma indexEntries_map_Some es m keys :
  indexEntries (map Some es) m keys = Ok (indexed m es, keys ++ map keyOf es).
Proof.
  revert m keys. induction es as [|e es IH]; intros m keys; simpl.
  - rewrite app_nil_r. reflexivity.
  - rewrite IH, <- app_assoc. reflexivity.
Qed.

Lemma indexed_None (es : list MappingEntry) (k : string) :
  indexed ∅ es !! k = None <-> k ∉ keysOf (map Some es).
Proof.
  rewrite keysOf_Some.
  pose proof (indexEntries_keys (map Some es) ∅ [] _ _
                (fun k => conj (fun _ => not_elem_of_nil k)
                               (fun _ => lookup_empty k))
                (indexEntries_map_Some es ∅ []) k) as Hk.
  simpl in Hk. exact Hk.
Qed.

Lemma keys_same (aMap : gmap string MappingEntry) aKeys bKeys :
  (forall k, aMap !! k = None <-> k ∉ aKeys) ->
  aKeys ++ filter (fun key => aMap !! key = None) bKeys
  = mergeKeyOrder aKeys bKeys.
Proof.
  intros Hm. unfold mergeKeyOrder. f_equal.
  apply list_filter_iff. intros k. rewrite Hm, elem_of_list_to_set.
  reflexivity.
Qed.

Lemma appendUnprocessed_done bMap bKeys (pk : gset string) merged :
  (forall k, k ∈ bKeys -> k ∈ pk) ->
  appendUnprocessed bMap bKeys pk merged = Ok merged.
Proof.
  induction bKeys as [|k ks IH]; intros Hall; simpl; [reflexivity |].
  rewrite bool_decide_eq_true_2 by (apply Hall; set_solver).
  apply IH. intros; apply Hall; set_solver.
Qed.

Section Origins.
Variable rec : option Node -> option Node -> string -> result Node.
Variable opts : MergeOptions.
Hypothesis off : PreserveComments opts = false.

Section Children.
Variables ac bc : list (option Node).

Lemma childFrom_clones (l out : list (option Node)) :
  (forall x, x ∈ l -> x ∈ ac \/ x ∈ bc) ->
  collect (map (fun n => rbind (CloneOf n) (fun c => Ok (Some c))) l)
  = Ok out ->
  Forall (childFrom rec ac bc) out.
Proof.
  revert out. induction l as [|n l IH]; intros out Hl E; simpl in E.
  - injection E as <-. constructor.
  - destruct (CloneOf n) as [c| | |] eqn:Ec; try discriminate. simpl in E.
    match type of E with
    | rbind (collect ?x) _ = _ => destruct (collect x) as [r| | |] eqn:Er;
                                  try discriminate
    end.
    injection E as <-. apply CloneOf_Ok in Ec. constructor.
    + rewrite <- Ec. destruct (Hl n) as [Ha | Hb];
        [set_solver | left | right; left]; assumption.
    + apply IH; [intros; apply Hl; set_solver | reflexivity].
Qed.

Lemma childFrom_pairs (g : nat -> string) (l : list (option Node * option Node))
  (out : list (option Node)) :
  (forall ab, ab ∈ l -> ab.1 ∈ ac /\ ab.2 ∈ bc) ->
  collect (imap (fun i ab => rbind (rec ab.1 ab.2 (g i))
                                   (fun n => Ok (Some n))) l)
  = Ok out ->
  Forall (childFrom rec ac bc) out.
Proof.
  revert g out. induction l as [|ab l IH]; intros g out Hl E; simpl in E.
  - injection E as <-. constructor.
  - destruct (rec ab.1 ab.2 (g O)) as [n| | |] eqn:En; try discriminate.
    simpl in E.
    match type of E with
    | rbind (collect ?x) _ = _ => destruct (collect x) as [r| | |] eqn:Er;
                                  try discriminate
    end.
    injection E as <-. constructor.
    + destruct (Hl ab) as [Ha Hb]; [set_solver |].
      right; right. exists ab.1, ab.2, (g O), n. auto.
    + apply (IH (g ∘ S) r); [intros; apply Hl; set_solver | exact Er].
Qed.

Lemma zip_elem (l1 l2 : list (option Node)) (ab : option Node * option Node) :
  ab ∈ zip l1 l2 -> ab.1 ∈ l1 /\ ab.2 ∈ l2.
Proof.
  destruct ab as [x y]. intros Hab. simpl.
  split; [eapply elem_of_zip_l | eapply elem_of_zip_r]; exact Hab.
Qed.

Lemma mergeDocuments_from a b path r :
  mergeDocuments rec opts a b ac bc path = Ok r ->
  exists c, r = Document base0 c /\ Forall (childFrom rec ac bc) c.
Proof.
  unfold mergeDocuments, mergedComment. rewrite off. intros E.
  destruct (length ac =? 0)%nat.
  { injection E as <-. rewrite cloneNodes_id. eexists. split; [reflexivity |].
    apply Forall_forall. intros x Hx. right; left. exact Hx. }
  destruct (length bc =? 0)%nat.
  { injection E as <-. rewrite cloneNodes_id. eexists. split; [reflexivity |].
    apply Forall_forall. intros x Hx. left. exact Hx. }
  match type of E with
  | rbind (collect ?x) _ = _ => destruct (collect x) as [merged| | |] eqn:Em;
                                try discriminate
  end.
  simpl in E.
  match type of E with
  | rbind ?x _ = _ => destruct x as [tail| | |] eqn:Et; try discriminate
  end.
  injection E as <-. eexists. split; [reflexivity |].
  apply Forall_app. split.
  - eapply (childFrom_pairs (fun i => path +:+ "[" +:+ itoa i +:+ "]"));
      [|exact Em].
    intros ab. apply zip_elem.
  - destruct (length ac <? length bc)%nat.
    { eapply childFrom_clones; [|exact Et].
      intros x Hx. right. exact (subseteq_drop _ _ _ Hx). }
    destruct (isMode opts MergePreserve && (length bc <? length ac)%nat).
    { eapply childFrom_clones; [|exact Et].
      intros x Hx. left. exact (subseteq_drop _ _ _ Hx). }
    injection Et as <-. constructor.
Qed.

Lemma mergeByIndex_from (xs : list (option Node)) :
  forall ys path i out,
    (forall x, x ∈ xs -> x ∈ ac) -> (forall y, y ∈ ys -> y ∈ bc) ->
    mergeByIndex rec xs ys path i = Ok out ->
    Forall (childFrom rec ac bc) out.
Proof.
  induction xs as [|x xs IH]; intros ys path i out Hx Hy E; simpl in E.
  - eapply childFrom_clones; [|exact E]. auto.
  - destruct ys as [|y ys].
    + destruct (CloneOf x) as [n| | |] eqn:En; try discriminate.
      simpl in E.
      destruct (mergeByIndex rec xs [] path (S i)) as [r| | |] eqn:Er;
        try discriminate.
      injection E as <-. apply CloneOf_Ok in En. constructor.
      * left. rewrite <- En. apply Hx. set_solver.
      * eapply IH; [| |exact Er]; [intros; apply Hx; set_solver | exact Hy].
    + destruct (rec x y _) as [n| | |] eqn:En; try discriminate.
      simpl in E.
      destruct (mergeByIndex rec xs ys path (S i)) as [r| | |] eqn:Er;
        try discriminate.
      injection E as <-. constructor.
      * right; right. eexists x, y, _, n.
        split; [apply Hx; set_solver |].
        split; [apply Hy; set_solver | split; [exact En | reflexivity]].
      * eapply IH; [| |exact Er]; intros; [apply Hx | apply Hy]; set_solver.
Qed.

Lemma unionItems_from (fuel : nat) (items : list (option Node)) :
  forall seen merged seen' merged',
    (forall x, x ∈ items -> x ∈ ac \/ x ∈ bc) ->
    Forall (childFrom rec ac bc) merged ->
    unionItems fuel items seen merged = Ok (seen', merged') ->
    Forall (childFrom rec ac bc) merged'.
Proof.
  induction items as [|item rest IH]; intros seen merged seen' merged' Hi Hm E;
    simpl in E.
  - injection E as _ <-. exact Hm.
  - destruct (nodeToString fuel item) as [key| | |]; try discriminate.
    simpl in E.
    destruct (bool_decide (key ∈ seen)).
    + eapply IH; [| exact Hm | exact E]. intros; apply Hi; set_solver.
    + destruct (CloneOf item) as [c| | |] eqn:Ec; try discriminate.
      simpl in E. apply CloneOf_Ok in Ec.
      eapply IH; [| | exact E]; [intros; apply Hi; set_solver |].
      apply Forall_app. split; [exact Hm |]. constructor; [|constructor].
      rewrite <- Ec. destruct (Hi item) as [Ha | Hb];
        [set_solver | left | right; left]; assumption.
Qed.

Lemma mergeSequences_from fuel a b st path r :
  mergeSequences rec opts fuel a b ac bc st path = Ok r ->
  exists c, r = Sequence base0 c st /\ Forall (childFrom rec ac bc) c.
Proof.
  unfold mergeSequences, mergedComment. rewrite off. intros E.
  match type of E with
  | rbind ?x _ = _ => destruct x as [c| | |] eqn:Ec; try discriminate
  end.
  injection E as <-. exists c. split; [reflexivity |].
  assert (Ha : Forall (childFrom rec ac bc) ac)
    by (apply Forall_forall; intros x Hx; left; exact Hx).
  assert (Hb : Forall (childFrom rec ac bc) bc)
    by (apply Forall_forall; intros x Hx; right; left; exact Hx).
  destruct (ArrayStrategy opts).
  - injection Ec as <-. rewrite cloneNodes_id. exact Hb.
  - injection Ec as <-. rewrite !cloneNodes_id. apply Forall_app. auto.
  - eapply mergeByIndex_from; [| |exact Ec]; auto.
  - injection Ec as <-. rewrite cloneNodes_id. exact Hb.
  - destruct (unionItems fuel ac ∅ []) as [[seen merged]| | |] eqn:E1;
      try discriminate.
    simpl in Ec.
    destruct (unionItems fuel bc seen merged) as [[seen' merged']| | |] eqn:E2;
      try discriminate.
    injection Ec as <-.
    eapply unionItems_from; [| |exact E2]; [auto |].
    eapply unionItems_from; [| |exact E1]; [auto | constructor].
Qed.

End Children.

Section Entries.
Variables ea eb : list MappingEntry.
Variable path : string.

Lemma entryFrom_snoc merged e :
  Forall (entryFrom rec (map Some ea) (map Some eb) path) merged ->
  entryFrom rec (map Some ea) (map Some eb) path (Some e) ->
  Forall (entryFrom rec (map Some ea) (map Some eb) path) (merged ++ [Some e]).
Proof.
  intros Hm He. apply Forall_app. split; [exact Hm |].
  constructor; [exact He | constructor].
Qed.

Lemma mergeKeys_from keys :
  forall pk merged pk' merged',
    mergeKeys rec opts (indexed ∅ ea) (indexed ∅ eb) path keys pk merged
    = Ok (pk', merged') ->
    Forall (entryFrom rec (map Some ea) (map Some eb) path) merged ->
    Forall (entryFrom rec (map Some ea) (map Some eb) path) merged'
    /\ forall k, k ∈ pk \/ k ∈ keys -> k ∈ pk'.
Proof.
  induction keys as [|key keys IH]; intros pk merged pk' merged' Hm Hc;
    simpl in Hm.
  - injection Hm as <- <-. split; [exact Hc |]. set_solver.
  - destruct (bool_decide (key ∈ pk)) eqn:Hp.
    { apply bool_decide_eq_true in Hp.
      destruct (IH _ _ _ _ Hm Hc) as [Hf Hs]. split; [exact Hf |].
      intros k [Hk | Hk]; [auto |].
      apply elem_of_cons in Hk as [-> | Hk]; auto. }
    match type of Hm with
    | rbind ?x _ = _ => destruct x as [m1| | |] eqn:E1; try discriminate
    end.
    simpl in Hm.
    assert (H1 : Forall (entryFrom rec (map Some ea) (map Some eb) path) m1).
    { destruct (indexed ∅ ea !! key) as [aE|] eqn:Ea;
        destruct (indexed ∅ eb !! key) as [bE|] eqn:Eb.
      - destruct (rec (Value aE) (Value bE) _) as [v| | |] eqn:Ev;
          try discriminate.
        simpl in E1.
        destruct (CloneOf (Key aE)) as [k| | |] eqn:Ek; try discriminate.
        simpl in E1. injection E1 as <-. rewrite off.
        apply CloneOf_Ok in Ek.
        apply indexed_Some in Ea as [Ha Hka].
        apply indexed_Some in Eb as [Hb Hkb].
        apply entryFrom_snoc; [exact Hc |].
        eexists. split; [reflexivity |]. right; right.
        exists aE, bE, v. rewrite Hka, <- Ek.
        split; [exact Ha |]. split; [exact Hb |].
        split; [congruence |]. split; [exact Ev | reflexivity].
      - destruct (negb (isMode opts MergeOverride));
          [|injection E1 as <-; exact Hc].
        destruct (cloneEntry aE) as [e| | |] eqn:Ec; try discriminate.
        injection E1 as <-. apply cloneEntry_Ok in Ec. subst e.
        apply indexed_Some in Ea as [Ha Hka]. apply indexed_None in Eb.
        apply entryFrom_snoc; [exact Hc |].
        exists aE. split; [reflexivity |]. left. rewrite Hka. auto.
      - destruct (cloneEntry bE) as [e| | |] eqn:Ec; try discriminate.
        injection E1 as <-. apply cloneEntry_Ok in Ec. subst e.
        apply indexed_Some in Eb as [Hb Hkb]. apply indexed_None in Ea.
        apply entryFrom_snoc; [exact Hc |].
        exists bE. split; [reflexivity |]. right; left. rewrite Hkb. auto.
      - injection E1 as <-. exact Hc. }
    destruct (IH _ _ _ _ Hm H1) as [Hf Hs]. split; [exact Hf |].
    intros k [Hk | Hk]; [apply Hs; set_solver |].
    apply elem_of_cons in Hk as [-> | Hk]; apply Hs; set_solver.
Qed.

End Entries.

Lemma mergeMappings_from a b ac bc st path r :
  mergeMappings rec opts a b ac bc st path = Ok r ->
  exists merged,
    r = Mapping base0 merged st /\ Forall (entryFrom rec ac bc path) merged.
Proof.
  intros Hm. unfold mergeMappings, mergedComment in Hm. rewrite off in Hm.
  destruct (indexEntries ac ∅ []) as [[aMap aKeys]| | |] eqn:Ea;
    try discriminate. simpl in Hm.
  destruct (indexEntries bc ∅ []) as [[bMap bKeys]| | |] eqn:Eb;
    try discriminate. simpl in Hm.
  assert (Hin : forall k, aMap !! k = None <-> k ∉ aKeys).
  { eapply indexEntries_keys; [|exact Ea]. intros k.
    rewrite lookup_empty, elem_of_nil. tauto. }
  apply indexEntries_Ok in Ea. destruct Ea as (ea & -> & -> & ->).
  apply indexEntries_Ok in Eb. destruct Eb as (eb & -> & -> & ->).
  simpl in Hm, Hin.
  match type of Hm with
  | rbind (mergeKeys _ _ _ _ _ ?ks _ _) _ = _ => set (keys := ks) in *
  end.
  destruct (mergeKeys rec opts (indexed ∅ ea) (indexed ∅ eb) path keys ∅ [])
    as [[pk merged]| | |] eqn:Ek; try discriminate.
  simpl in Hm.
  destruct (mergeKeys_from ea eb path keys _ _ _ _ Ek (Forall_nil_2 _))
    as [Hf Hall].
  assert (Hdone : forall k, k ∈ map keyOf eb -> k ∈ pk).
  { intros k Hk. apply Hall. right. subst keys.
    assert (Hk' : k ∈ map keyOf ea
                      ++ filter (fun key => indexed ∅ ea !! key = None)
                                (map keyOf eb)).
    { apply elem_of_app. destruct (indexed ∅ ea !! k) eqn:El.
      - left. destruct (decide (k ∈ map keyOf ea)) as [|Hn']; [assumption |].
        apply Hin in Hn'. congruence.
      - right. apply list_elem_of_filter. auto. }
    destruct (negb (PreserveOrder opts)); [exact Hk' |].
    rewrite <- (keys_same (indexed ∅ ea)) by exact Hin. exact Hk'. }
  rewrite (appendUnprocessed_done _ _ pk merged Hdone) in Hm.
  destruct (negb (isMode opts MergePreserve)); simpl in Hm;
    injection Hm as <-; eauto.
Qed.

End Origins.


(** ** Merging a tree with itself *)

Lemma canon_refl : forall n : Node, canon n n.
Proof.
  fix IH 1. intros [b c | b v s | b c s | b c s | b i]; constructor;
    try reflexivity.
  - induction c as [|o c IHc]; constructor; [|exact IHc].
    destruct o; constructor. apply IH.
  - induction c as [|o c IHc]; constructor; [|exact IHc].
    destruct o as [[k v cm]|]; constructor. constructor; simpl.
    + destruct k; constructor. apply IH.
    + destruct v; constructor. apply IH.
  - induction c as [|o c IHc]; constructor; [|exact IHc].
    destruct o; constructor. apply IH.
Qed.

Lemma canon_children_refl (c : list (option Node)) :
  Forall2 (option_Forall2 canon) c c.
Proof.
  induction c as [|o c IH]; constructor; [|exact IH].
  destruct o; constructor. apply canon_refl.
Qed.

Lemma indexed_lookup_notin m es k :
  k ∉ map keyOf es -> indexed m es !! k = m !! k.
Proof.
  revert m. induction es as [|x es IH]; intros m Hn; simpl; [reflexivity |].
  rewrite IH by set_solver. apply lookup_insert_ne. set_solver.
Qed.

Lemma indexed_lookup_NoDup m es e :
  NoDup (map keyOf es) -> e ∈ es -> indexed m es !! keyOf e = Some e.
Proof.
  revert m. induction es as [|x es IH]; intros m Hnd He; [set_solver |].
  simpl in *. apply NoDup_cons in Hnd. destruct Hnd as [Hx Hnd].
  apply elem_of_cons in He. destruct He as [-> | He].
  - rewrite indexed_lookup_notin by exact Hx. apply lookup_insert_eq.
  - apply IH; assumption.
Qed.

Section Self.
Variable rec : option Node -> option Node -> string -> result Node.
Variable opts : MergeOptions.
Variable M : gmap string MappingEntry.

Lemma mergeKeys_self path (es : list MappingEntry) :
  Forall (fullEntry (selfMerges rec)) es ->
  (forall e, e ∈ es -> M !! keyOf e = Some e) ->
  NoDup (map keyOf es) ->
  forall (pk : gset string) merged,
    (forall e, e ∈ es -> keyOf e ∉ pk) ->
    exists out,
      mergeKeys rec opts M M path (map keyOf es) pk merged
      = Ok (list_to_set (map keyOf es) ∪ pk, merged ++ out)
      /\ Forall2 (option_Forall2 (entryRel canon)) out (map Some es).
Proof.
  induction es as [|e es IH]; intros Hfull HM Hnd pk merged Hpk; simpl.
  - exists []. rewrite app_nil_r. split; [|constructor].
    f_equal. f_equal. set_solver.
  - apply Forall_cons in Hfull. destruct Hfull as [He Hfull].
    simpl in Hnd. apply NoDup_cons in Hnd. destruct Hnd as [Hk Hnd].
    rewrite bool_decide_eq_false_2 by (apply Hpk, elem_of_cons; auto).
    assert (HMe : M !! keyOf e = Some e) by (apply HM, elem_of_cons; auto).
    rewrite HMe.
    inversion He as [e0 k Hkey Hval]; subst e0.
    inversion Hval as [v Hv Heq]. clear Hval.
    destruct (Hv (path +:+ "." +:+ keyOf e)) as (r & Hr & Hcan).
    rewrite Hr. simpl. rewrite Hkey. simpl.
    match goal with
    | |- context [mergeKeys _ _ _ _ _ _ ?pk' (merged ++ [?x])] =>
        destruct (IH Hfull (fun e' He' => HM e' ltac:(set_solver)) Hnd
                    pk' (merged ++ [x])) as (out & Ho & Hf2)
    end.
    { intros e' He'. apply not_elem_of_union. split; [|apply Hpk; set_solver].
      apply not_elem_of_singleton. intros Hsame. apply Hk. rewrite <- Hsame.
      apply list_elem_of_fmap. eauto. }
    eexists (_ :: out). rewrite Ho. split.
    + f_equal. f_equal; [set_solver | rewrite <- app_assoc; reflexivity].
    + constructor; [|exact Hf2]. constructor. constructor; simpl.
      * rewrite Hkey. constructor. rewrite Clone_id. apply canon_refl.
      * rewrite <- Heq. constructor. exact Hcan.
Qed.

End Self.

Lemma filter_none {A} (P : A -> Prop) `{!forall x, Decision (P x)}
  (l : list A) :
  (forall x, x ∈ l -> ~ P x) -> filter P l = [].
Proof.
  induction l as [|x l IH]; intros Hl; [reflexivity |].
  rewrite filter_cons_False by (apply Hl; set_solver).
  apply IH. intros; apply Hl; set_solver.
Qed.

Lemma present_list {A} (P : A -> Prop) (c : list (option A)) :
  Forall (present P) c -> exists l, c = map Some l /\ Forall P l.
Proof.
  induction c as [|o c IH]; intros Hc.
  - exists []. split; [reflexivity | constructor].
  - apply Forall_cons in Hc. destruct Hc as [Ho Hc].
    destruct (IH Hc) as (l & -> & Hl). destruct Ho as [a Ha].
    exists (a :: l). split; [reflexivity | constructor; assumption].
Qed.

Lemma omap_keys (es : list MappingEntry) :
  omap (fun o : option MappingEntry => keyOf <$> o) (map Some es)
  = map keyOf es.
Proof. induction es as [|e es IH]; simpl; [reflexivity | f_equal; exact IH]. Qed.

Lemma depth_pos (n : Node) : (1 <= depth n)%nat.
Proof. destruct n; simpl; lia. Qed.

Lemma depth_content (c : list (option Node)) (n : Node) :
  Some n ∈ c ->
  (depth n <=
   foldr (fun o m => Nat.max (match o with Some x => depth x | None => O end) m)
         O c)%nat.
Proof.
  induction c as [|o c IH]; intros Hin; [set_solver |].
  apply elem_of_cons in Hin. simpl. destruct Hin as [<- | Hin]; [lia |].
  specialize (IH Hin). lia.
Qed.

Lemma depth_entries (c : list (option MappingEntry)) (e : MappingEntry)
  (v : Node) :
  Some e ∈ c -> Value e = Some v ->
  (depth v <=
   foldr (fun o m =>
            Nat.max
              (match o with
               | Some e =>
                   Nat.max
                     (match Key e with Some x => depth x | None => O end)
                     (match Value e with Some x => depth x | None => O end)
               | None => O
               end) m) O c)%nat.
Proof.
  induction c as [|o c IH]; intros Hin Hv; [set_solver |].
  apply elem_of_cons in Hin. simpl. destruct Hin as [<- | Hin].
  - rewrite Hv. lia.
  - specialize (IH Hin Hv). lia.
Qed.

Lemma collect_imap_self (rec : option Node -> option Node -> string -> result Node)
  (c : list Node) :
  Forall (selfMerges rec) c ->
  forall g : nat -> string,
  exists out,
    collect (imap (fun i (ab : option Node * option Node) =>
                     rbind (rec ab.1 ab.2 (g i)) (fun n => Ok (Some n)))
                  (zip (map Some c) (map Some c)))
    = Ok out
    /\ Forall2 (option_Forall2 canon) out (map Some c).
Proof.
  induction c as [|x c IH]; intros Hc g; simpl.
  - exists []. split; [reflexivity | constructor].
  - apply Forall_cons in Hc. destruct Hc as [Hx Hc].
    destruct (Hx (g O)) as (r & Hr & Hcan). rewrite Hr. simpl.
    destruct (IH Hc (g ∘ S)) as (out & Ho & Hf2).
    unfold compose in *. simpl in *. rewrite Ho. simpl.
    exists (Some r :: out). split; [reflexivity |].
    constructor; [constructor; exact Hcan | exact Hf2].
Qed.

Section SelfMerge.
Variable opts : MergeOptions.
Hypothesis deep : Mode opts = MergeDeep.
Hypothesis replace : ArrayStrategy opts = ArrayReplace.
Hypothesis plain : CustomMergeFunc opts = None.

Lemma merge_self (fuel : nat) :
  forall (a : Node) (path : string),
    mergeable a -> (depth a <= fuel)%nat ->
    exists r, mergeNodesRecursive fuel (Some a) (Some a) opts path = Ok r
              /\ canon r a.
Proof.
  induction fuel as [|f IH]; intros a path Hm Hd.
  { pose proof (depth_pos a). lia. }
  simpl. rewrite plain. simpl.
  rewrite bool_decide_eq_true_2 by reflexivity. simpl.
  assert (HnotO : isMode opts MergeOverride = false)
    by (unfold isMode; rewrite deep; reflexivity).
  assert (HnotP : isMode opts MergePreserve = false)
    by (unfold isMode; rewrite deep; reflexivity).
  assert (Hdeep : isMode opts MergeDeep = true)
    by (unfold isMode; rewrite deep; reflexivity).
  destruct a as [b c | b v s | b c s | b c s | b i].
  - (* Document *)
    inversion Hm as [| | | b0 c0 Htag Hc |]; subst.
    destruct (present_list _ _ Hc) as (l & -> & Hl).
    unfold mergeDocuments.
    destruct l as [|x l]; [simpl; eexists; split; [reflexivity |];
                           constructor; [symmetry; exact Htag | constructor] |].
    assert (Hself : Forall (selfMerges (fun x y => mergeNodesRecursive f x y opts))
                           (x :: l)).
    { apply Forall_forall. intros n Hn p.
      rewrite Forall_forall in Hl. apply IH; [apply Hl, Hn |].
      assert (Hin : Some n ∈ map Some (x :: l))
        by (apply list_elem_of_fmap; eauto).
      pose proof (depth_content _ _ Hin) as Hle. simpl in Hd. simpl in Hle. lia. }
    destruct (collect_imap_self _ _ Hself
                (fun i => path +:+ "[" +:+ itoa i +:+ "]")) as (out & Ho & Hf2).
    change (List.length (map Some (x :: l)) =? 0)%nat with false. cbv iota.
    rewrite Ho. cbn [rbind]. rewrite Nat.ltb_irrefl, HnotP. cbn [andb rbind].
    eexists. split; [reflexivity |].
    constructor; [symmetry; exact Htag | rewrite app_nil_r; exact Hf2].
  - (* Scalar *)
    eexists. split; [reflexivity |]. unfold mergeScalars.
    rewrite HnotO, Hdeep. simpl.
    destruct (PreserveComments opts); simpl; constructor; reflexivity.
  - (* Mapping *)
    inversion Hm as [| | | | b0 c0 s0 Htag Hc Hnd]; subst.
    destruct (present_list _ _ Hc) as (es & -> & Hes).
    rewrite omap_keys in Hnd.
    unfold mergeMappings. rewrite indexEntries_map_Some. cbn [rbind].
    rewrite !app_nil_l.
    assert (Hkeys :
      (if negb (PreserveOrder opts)
       then map keyOf es
            ++ filter (fun key => indexed ∅ es !! key = None) (map keyOf es)
       else mergeKeyOrder (map keyOf es) (map keyOf es)) = map keyOf es).
    { assert (Hall : forall k, k ∈ map keyOf es ->
                               indexed ∅ es !! k <> None).
      { intros k Hk. apply list_elem_of_fmap in Hk. destruct Hk as (e & -> & He).
        rewrite (indexed_lookup_NoDup _ _ _ Hnd He). discriminate. }
      destruct (negb (PreserveOrder opts)).
      - rewrite filter_none; [apply app_nil_r |].
        intros k Hk Hn. exact (Hall k Hk Hn).
      - unfold mergeKeyOrder.
        rewrite filter_none; [apply app_nil_r |].
        intros k Hk Hn. apply Hn. apply elem_of_list_to_set. exact Hk. }
    rewrite Hkeys.
    assert (Hself : Forall (fullEntry
                              (selfMerges (fun x y => mergeNodesRecursive f x y opts)))
                           es).
    { apply Forall_forall. intros e He. rewrite Forall_forall in Hes.
      destruct (Hes e He) as [e k Hkey Hval].
      inversion Hval as [v Hv Heq]. econstructor; [exact Hkey |].
      rewrite <- Heq. constructor. intros p. apply IH; [exact Hv |].
      assert (Hin : Some e ∈ map Some es) by (apply list_elem_of_fmap; eauto).
      pose proof (depth_entries _ _ v Hin (eq_sym Heq)) as Hle.
      simpl in Hd. lia. }
    destruct (mergeKeys_self _ opts (indexed ∅ es) path es Hself
                (fun e He => indexed_lookup_NoDup ∅ es e Hnd He) Hnd ∅ [])
      as (out & Ho & Hf2); [set_solver |].
    rewrite Ho. cbn [rbind]. rewrite HnotP. cbn [negb].
    rewrite appendUnprocessed_done by set_solver. cbn [rbind app].
    eexists. split; [reflexivity |].
    constructor; [symmetry; exact Htag | exact Hf2].
  - (* Sequence *)
    inversion Hm as [| | b0 c0 s0 Htag | |]; subst.
    unfold mergeSequences. rewrite replace. cbn [rbind].
    eexists. split; [reflexivity |].
    constructor; [symmetry; exact Htag |].
    rewrite cloneNodes_id. apply canon_children_refl.
  - (* Alias *)
    rewrite HnotO. eexists. split; [reflexivity |]. apply canon_refl.
Qed.

End SelfMerge.

(** C4, as amended.  Let [a] be a tree whose documents, mappings and
    sequences carry no tag, whose documents have no nil content and whose
    mappings have entries with a key, a value and pairwise distinct key
    strings ([mergeable]).  Merging [a] with itself under [MergeDeep] and
    [ArrayReplace], without a custom function and with a recursion bound
    of at least the depth of [a], returns a tree that is canonically equal
    to [a]. *)
Theorem C4_merge_self_canonical (a : Node) (opts : MergeOptions)
  (fuel : nat) :
  mergeable a ->
  Mode opts = MergeDeep ->
  ArrayStrategy opts = ArrayReplace ->
  CustomMergeFunc opts = None ->
  (depth a <= fuel)%nat ->
  exists r, MergeNodes fuel (Some a) (Some a) opts = Ok r /\ canon r a.
Proof.
  intros Hm Hd Hr Hc Hf. unfold MergeNodes. apply merge_self; assumption.
Qed.

End MergeFacts.

(** C4, as stated, fails on a mapping that repeats a key: merging
    [{k: 1, k: 2}] with itself gives [{k: 2}], which has one entry where
    the input has two. *)
Lemma C4_counterexample :
  @yaml.MergeNodes asciiStd 2 (Some examples.twice) (Some examples.twice)
    (examples.options yaml.MergeDeep false)
  = Ok (ast.Mapping ast.base0
          [examples.entry "k" (examples.scalar "2")] ast.BlockStyle)
  /\ ~ mergespec.canon
        (ast.Mapping ast.base0
           [examples.entry "k" (examples.scalar "2")] ast.BlockStyle)
        examples.twice.
Proof.
  split; [vm_compute; reflexivity |].
  intros Hc. inversion Hc as [| | b b' c c' s s' Ht Hf2 | |]; subst.
  apply Forall2_length in Hf2. discriminate.
Qed.

Lemma nodup_keys (l : list string) : bool_decide (NoDup l) = true -> NoDup l.
Proof. intros Hb. apply bool_decide_eq_true in Hb. exact Hb. Qed.

Lemma scalar_entry_ok (k v : string) :
  mergespec.present (mergespec.fullEntry mergespec.mergeable)
    (examples.entry k (examples.scalar v)).
Proof.
  apply mergespec.present_intro.
  apply (mergespec.fullEntry_intro _ _ (ast.NewScalar k)); [reflexivity |].
  apply mergespec.present_intro, mergespec.mergeable_Scalar.
Qed.

Lemma nested_mergeable : mergespec.mergeable examples.nested.
Proof.
  apply mergespec.mergeable_Mapping; [reflexivity | |].
  { apply Forall_cons. split; [apply scalar_entry_ok |].
    apply Forall_cons. split; [|constructor].
    apply mergespec.present_intro.
    apply (mergespec.fullEntry_intro _ _ (ast.NewScalar "b")); [reflexivity |].
    apply mergespec.present_intro.
    apply mergespec.mergeable_Mapping; [reflexivity | |].
    { apply Forall_cons. split; [apply scalar_entry_ok | constructor]. }
    apply nodup_keys. vm_compute. reflexivity. }
  apply nodup_keys. vm_compute. reflexivity.
Qed.

Lemma C4_witness :
  exists r,
    @yaml.MergeNodes asciiStd 3 (Some examples.nested) (Some examples.nested)
      (examples.options yaml.MergeDeep true) = Ok r
    /\ mergespec.canon r examples.nested.
Proof.
  apply (@C4_merge_self_canonical asciiStd examples.nested
           (examples.options yaml.MergeDeep true) 3).
  - exact nested_mergeable.
  - reflexivity.
  - reflexivity.
  - reflexivity.
  - vm_compute. lia.
Defined.


(** * Properties of the parser *)

Lemma mbind_Ok {T A B} (m : M T A) (k : A -> M T B) (s s' : T) (a : A) :
  m s = (Ok a, s') -> mbind m k s = k a s'.
Proof. intros E. unfold mbind. rewrite E. reflexivity. Qed.

(** A sequence of two calls that returns: the first call has returned. *)
Lemma mbind_returns {T A B} (m : M T A) (k : A -> M T B) (s s' : T) (b : B) :
  mbind m k s = (Ok b, s') ->
  exists a s1, m s = (Ok a, s1) /\ k a s1 = (Ok b, s').
Proof.
  unfold mbind. destruct (m s) as [[a| | |] s1]; try discriminate. eauto.
Qed.

Section ParserFacts.
Import ast lexer heap parser parserspec.
Context `{GoStd}.

Lemma currentIs_eq (t : TokenType) (p : Parser) :
  currentIs t p = (Ok (is_type (Type_ (currentToken p)) t), p).
Proof. reflexivity. Qed.

Lemma skipNewlines_skip (f : nat) (p : Parser) :
  Type_ (currentToken p) <> TokenNewLine ->
  skipNewlines (S f) p = (Ok tt, p).
Proof.
  intros Hne. simpl. rewrite (mbind_Ok _ _ _ _ _ (currentIs_eq _ p)).
  unfold is_type. rewrite bool_decide_eq_false_2 by exact Hne. reflexivity.
Qed.

Lemma collectComments_skip (f : nat) (p : Parser) :
  Type_ (currentToken p) <> TokenComment ->
  collectComments (S f) p = (Ok tt, p).
Proof.
  intros Hne. simpl. rewrite (mbind_Ok _ _ _ _ _ (currentIs_eq _ p)).
  unfold is_type. rewrite bool_decide_eq_false_2 by exact Hne. reflexivity.
Qed.

(** At the end of the input or of a document [parseValue] returns nil and
    leaves the parser as it is. *)
Lemma parseValue_end (g : nat) (p : Parser) :
  Type_ (currentToken p) = TokenEOF
  \/ Type_ (currentToken p) = TokenDocumentEnd ->
  parseValue (S (S g)) p = (Ok None, p).
Proof.
  intros Ht. change (parseValue (S (S g)))
    with (parseValueCases (parseValue (S g)) (S g)).
  unfold parseValueCases.
  assert (Hnl : Type_ (currentToken p) <> TokenNewLine)
    by (destruct Ht as [Ht | Ht]; rewrite Ht; discriminate).
  assert (Hcm : Type_ (currentToken p) <> TokenComment)
    by (destruct Ht as [Ht | Ht]; rewrite Ht; discriminate).
  rewrite (mbind_Ok _ _ _ _ _ (skipNewlines_skip g p Hnl)).
  rewrite (mbind_Ok _ _ _ _ _ (collectComments_skip g p Hcm)).
  unfold mbind, current, currentValue, mget.
  destruct Ht as [-> | ->]; reflexivity.
Qed.

Lemma advance_eq (p : Parser) : advance p = (Ok tt, advanced p).
Proof.
  unfold advance, mbind, onScanner, mmodify, advanced.
  destruct (Scan (scanner p)) as [t s]. reflexivity.
Qed.

(** *** Blank lines and comments

    Skipping them depends on the scanner and the current token only, and
    leaves the memory as it is. *)
Lemma alike_refl (p : Parser) : alike p p.
Proof. split; reflexivity. Qed.

Lemma advanced_alike (p p1 : Parser) :
  alike p p1 ->
  alike (advanced p) (advanced p1) /\ mem (advanced p1) = mem p1.
Proof.
  intros [Hs Ht]. unfold alike, advanced. simpl. rewrite Hs. auto.
Qed.

Lemma skipNewlines_alike (g : nat) : forall p p1 q,
  alike p p1 -> skipNewlines g p = (Ok tt, q) ->
  exists q1, skipNewlines g p1 = (Ok tt, q1) /\ alike q q1
             /\ mem q1 = mem p1.
Proof.
  induction g as [|g IH]; intros p p1 q Ha E; [discriminate |].
  simpl in *. rewrite (mbind_Ok _ _ _ _ _ (currentIs_eq _ p)) in E.
  rewrite (mbind_Ok _ _ _ _ _ (currentIs_eq _ p1)).
  rewrite (proj2 Ha).
  destruct (is_type (Type_ (currentToken p)) TokenNewLine).
  - rewrite (mbind_Ok _ _ _ _ _ (advance_eq p)) in E.
    rewrite (mbind_Ok _ _ _ _ _ (advance_eq p1)).
    destruct (advanced_alike p p1 Ha) as [Ha' Hm].
    destruct (IH _ _ _ Ha' E) as (q1 & E1 & Hq & Hm1).
    exists q1. split; [exact E1 | split; [exact Hq | congruence]].
  - injection E as <-. exists p1. auto.
Qed.

Lemma collectComments_alike (g : nat) : forall p p1 q,
  alike p p1 -> collectComments g p = (Ok tt, q) ->
  exists q1, collectComments g p1 = (Ok tt, q1) /\ alike q q1
             /\ mem q1 = mem p1.
Proof.
  induction g as [|g IH]; intros p p1 q Ha E; [discriminate |].
  simpl in *. rewrite (mbind_Ok _ _ _ _ _ (currentIs_eq _ p)) in E.
  rewrite (mbind_Ok _ _ _ _ _ (currentIs_eq _ p1)).
  rewrite (proj2 Ha).
  destruct (is_type (Type_ (currentToken p)) TokenComment);
    [|injection E as <-; exists p1; auto].
  set (c := fun p : Parser => set_comments p (comments p ++ [currentToken p])).
  assert (Hc : alike (c p) (c p1) /\ mem (c p1) = mem p1)
    by (destruct Ha; split; [split|]; simpl; auto).
  destruct Hc as [Hc Hcm].
  rewrite (mbind_Ok _ _ p (c p) tt (eq_refl : mmodify c p = (Ok tt, c p))) in E.
  rewrite (mbind_Ok _ _ p1 (c p1) tt (eq_refl : mmodify c p1 = (Ok tt, c p1))).
  rewrite (mbind_Ok _ _ _ _ _ (advance_eq (c p))) in E.
  rewrite (mbind_Ok _ _ _ _ _ (advance_eq (c p1))).
  destruct (advanced_alike _ _ Hc) as [Ha' Hm].
  rewrite (mbind_Ok _ _ _ _ _ (currentIs_eq _ (advanced (c p)))) in E.
  rewrite (mbind_Ok _ _ _ _ _ (currentIs_eq _ (advanced (c p1)))).
  rewrite (proj2 Ha').
  apply mbind_returns in E. destruct E as ([] & p2 & E2 & E).
  assert (S2 : exists q2,
             (if is_type (Type_ (currentToken (advanced (c p)))) TokenNewLine
              then skipNewlines g else mret tt) (advanced (c p1))
             = (Ok tt, q2)
             /\ alike p2 q2 /\ mem q2 = mem p1).
  { destruct (is_type _ TokenNewLine).
    - destruct (skipNewlines_alike g _ _ _ Ha' E2) as (q2 & ? & ? & ?).
      exists q2. split; [assumption | split; [assumption | congruence]].
    - injection E2 as <-. exists (advanced (c p1)).
      split; [reflexivity | split; [exact Ha' | congruence]]. }
  destruct S2 as (q2 & E2' & Ha2 & Hm2).
  rewrite (mbind_Ok _ _ _ _ _ E2').
  destruct (IH _ _ _ Ha2 E) as (q1 & E1 & Hq & Hm1).
  exists q1. split; [exact E1 | split; [exact Hq | congruence]].
Qed.

(** More fuel does not change a call that returned. *)
Lemma skipNewlines_more (g : nat) : forall p q,
  skipNewlines g p = (Ok tt, q) -> skipNewlines (S g) p = (Ok tt, q).
Proof.
  induction g as [|g IH]; intros p q E; [discriminate |].
  change (skipNewlines (S (S g))) with
    (let* more := currentIs TokenNewLine in
     if more then advance >> skipNewlines (S g) else mret tt).
  change (skipNewlines (S g)) with
    (let* more := currentIs TokenNewLine in
     if more then advance >> skipNewlines g else mret tt) in E.
  rewrite (mbind_Ok _ _ _ _ _ (currentIs_eq _ p)) in E.
  rewrite (mbind_Ok _ _ _ _ _ (currentIs_eq _ p)).
  destruct (is_type (Type_ (currentToken p)) TokenNewLine); [|exact E].
  rewrite (mbind_Ok _ _ _ _ _ (advance_eq p)) in E.
  rewrite (mbind_Ok _ _ _ _ _ (advance_eq p)). apply IH, E.
Qed.

Lemma collectComments_more (g : nat) : forall p q,
  collectComments g p = (Ok tt, q) -> collectComments (S g) p = (Ok tt, q).
Proof.
  induction g as [|g IH]; intros p q E; [discriminate |].
  change (collectComments (S (S g))) with
    (let* more := currentIs TokenComment in
     if more then
       mmodify (fun p => set_comments p (comments p ++ [currentToken p])) >>
       advance >>
       let* newline := currentIs TokenNewLine in
       (if newline then skipNewlines (S g) else mret tt) >>
       collectComments (S g)
     else mret tt).
  change (collectComments (S g)) with
    (let* more := currentIs TokenComment in
     if more then
       mmodify (fun p => set_comments p (comments p ++ [currentToken p])) >>
       advance >>
       let* newline := currentIs TokenNewLine in
       (if newline then skipNewlines g else mret tt) >>
       collectComments g
     else mret tt) in E.
  rewrite (mbind_Ok _ _ _ _ _ (currentIs_eq _ p)) in E.
  rewrite (mbind_Ok _ _ _ _ _ (currentIs_eq _ p)).
  destruct (is_type (Type_ (currentToken p)) TokenComment); [|exact E].
  set (c := fun p : Parser => set_comments p (comments p ++ [currentToken p]))
    in *.
  rewrite (mbind_Ok _ _ p (c p) tt (eq_refl : mmodify c p = (Ok tt, c p))) in E.
  rewrite (mbind_Ok _ _ p (c p) tt (eq_refl : mmodify c p = (Ok tt, c p))).
  rewrite (mbind_Ok _ _ _ _ _ (advance_eq (c p))) in E.
  rewrite (mbind_Ok _ _ _ _ _ (advance_eq (c p))).
  rewrite (mbind_Ok _ _ _ _ _ (currentIs_eq _ (advanced (c p)))) in E.
  rewrite (mbind_Ok _ _ _ _ _ (currentIs_eq _ (advanced (c p)))).
  apply mbind_returns in E. destruct E as ([] & p2 & E2 & E).
  assert (E2' : (if is_type (Type_ (currentToken (advanced (c p))))
                      TokenNewLine
                 then skipNewlines (S g) else mret tt) (advanced (c p))
                = (Ok tt, p2)).
  { destruct (is_type _ TokenNewLine); [apply skipNewlines_more|]; exact E2. }
  rewrite (mbind_Ok _ _ _ _ _ E2'). apply IH, E.
Qed.

(** [parseSequence] between a marker and its value: the marker is
    consumed, blank lines are skipped and comments collected. *)
Lemma afterMarker_inv (g : nat) (p q : Parser) :
  (advance >> skipNewlines g >> collectComments g) p = (Ok tt, q) ->
  exists p2, skipNewlines g (advanced p) = (Ok tt, p2)
             /\ collectComments g p2 = (Ok tt, q).
Proof.
  intros E. rewrite (mbind_Ok _ _ _ _ _ (advance_eq p)) in E.
  apply mbind_returns in E. destruct E as ([] & p2 & E2 & E). eauto.
Qed.

Lemma afterMarker_alike (g : nat) (p p1 q : Parser) :
  alike p p1 ->
  (advance >> skipNewlines g >> collectComments g) p = (Ok tt, q) ->
  exists q1,
    (advance >> skipNewlines g >> collectComments g) p1 = (Ok tt, q1)
    /\ alike q q1 /\ mem q1 = mem p1.
Proof.
  intros Ha E. apply afterMarker_inv in E. destruct E as (p2 & E2 & E).
  destruct (advanced_alike p p1 Ha) as [Ha' Hm].
  destruct (skipNewlines_alike g _ _ _ Ha' E2) as (q2 & E2' & Ha2 & Hm2).
  destruct (collectComments_alike g _ _ _ Ha2 E) as (q1 & E1 & Hq & Hm1).
  exists q1. rewrite (mbind_Ok _ _ _ _ _ (advance_eq p1)).
  rewrite (mbind_Ok _ _ _ _ _ E2'). split; [exact E1 |].
  split; [exact Hq | congruence].
Qed.

(** A sequence marker with nothing but blank lines and comments between it
    and the end of the input or of the document: the loop of
    [parseSequence] consumes them, appends nothing and stops. *)
Lemma parseSequenceLoop_missing (g fuel : nat) (sequence : loc)
  (p q : Parser) :
  Type_ (currentToken p) = TokenSequenceItem ->
  (advance >> skipNewlines g >> collectComments g) p = (Ok tt, q) ->
  Type_ (currentToken q) = TokenEOF
  \/ Type_ (currentToken q) = TokenDocumentEnd ->
  parseSequenceLoop (parseValue (S (S g))) (S (S g)) (S (S fuel)) sequence p
  = (Ok sequence, q).
Proof.
  intros Hc E Ht. apply afterMarker_inv in E. destruct E as (p2 & E2 & E).
  apply skipNewlines_more, skipNewlines_more in E2.
  apply collectComments_more, collectComments_more in E.
  assert (Hnl : Type_ (currentToken q) <> TokenNewLine)
    by (destruct Ht as [-> | ->]; discriminate).
  cbn [parseSequenceLoop].
  rewrite (mbind_Ok _ _ _ _ _ (currentIs_eq _ p)).
  unfold is_type at 1. rewrite bool_decide_eq_true_2 by exact Hc.
  rewrite (mbind_Ok _ _ _ _ _ (advance_eq p)).
  rewrite (mbind_Ok _ _ _ _ _ E2).
  rewrite (mbind_Ok _ _ _ _ _ E).
  rewrite (mbind_Ok _ _ _ _ _ (parseValue_end _ _ Ht)).
  unfold appendIf. rewrite (mbind_Ok (mret tt) _ q q tt eq_refl).
  rewrite (mbind_Ok _ _ _ _ _ (skipNewlines_skip _ _ Hnl)).
  rewrite (mbind_Ok _ _ _ _ _ (currentIs_eq _ _)).
  unfold is_type. rewrite bool_decide_eq_false_2; [reflexivity |].
  destruct Ht as [-> | ->]; discriminate.
Qed.

Lemma load_last (h : Heap) (c : cell) :
  load (List.length h) (h ++ [c]) = (Ok c, h ++ [c]).
Proof.
  unfold load. rewrite lookup_app_r by lia.
  rewrite Nat.sub_diag. reflexivity.
Qed.

Lemma store_last (h : Heap) (c c' : cell) :
  store (List.length h) c' (h ++ [c]) = (Ok tt, h ++ [c']).
Proof.
  unfold store. f_equal.
  rewrite insert_app_r_alt by lia. rewrite Nat.sub_diag. reflexivity.
Qed.

(** [attachComments] on the node allocated last: the memory holds the
    same cell, with the pending comments as head comment. *)
Lemma attachComments_last (p : Parser) (h : Heap) (c : cell) :
  mem p = h ++ [c] ->
  exists b,
    attachComments (List.length h) p
    = (Ok tt, set_comments (set_mem p (h ++ [withBase c b]))
                (if (0 <? List.length (comments p))%nat then []
                 else comments p))
    /\ (comments p = [] -> b = cellBase c).
Proof.
  intros Hm. unfold attachComments.
  rewrite (mbind_Ok (mget comments) _ p p (comments p) eq_refl).
  destruct (comments p) as [|t ts] eqn:Hcs; simpl.
  - exists (cellBase c). split; [|reflexivity]. unfold mret. f_equal.
    destruct p as [s ct an cs m]. simpl in *. subst.
    destruct c; reflexivity.
  - eexists. split; [|discriminate].
    unfold mbind, onMem, SetComment, mbind. rewrite Hm, load_last, store_last.
    unfold mmodify. reflexivity.
Qed.

(** C7, as amended.  The current token is a sequence marker, and after it
    [parseSequence] finds, past blank lines and comments, the end of the
    input or a document-end marker.  Then the loop of [parseSequence]
    ends there with the sequence and the memory as they were, for every
    sequence node: nothing is appended.  In particular [parseValue], at
    the first marker of a sequence, returns a new Sequence node without
    items. *)
Theorem C7_missing_value_yields_no_item (g : nat) (p q : Parser) :
  Type_ (currentToken p) = TokenSequenceItem ->
  (advance >> skipNewlines g >> collectComments g) p = (Ok tt, q) ->
  Type_ (currentToken q) = TokenEOF
  \/ Type_ (currentToken q) = TokenDocumentEnd ->
  (forall (fuel : nat) (sequence : loc),
      parseSequenceLoop (parseValue (S (S g))) (S (S g)) (S (S fuel))
        sequence p
      = (Ok sequence, q)
      /\ mem q = mem p)
  /\ (exists b p',
        parseValue (S (S (S g))) p = (Ok (Some (List.length (mem p))), p')
        /\ mem p' = mem p ++ [CSequence b [] BlockStyle]
        /\ scanner p' = scanner q
        /\ currentToken p' = currentToken q).
Proof.
  intros Hc E Hn. split.
  - intros fuel sequence.
    split; [apply parseSequenceLoop_missing; assumption |].
    destruct (afterMarker_alike g p p q (alike_refl p) E) as (q1 & E1 & _ & Hm).
    congruence.
  - change (parseValue (S (S (S g))))
      with (parseValueCases (parseValue (S (S g))) (S (S g))).
    unfold parseValueCases.
    assert (Hnl : Type_ (currentToken p) <> TokenNewLine)
      by (rewrite Hc; discriminate).
    assert (Hcm : Type_ (currentToken p) <> TokenComment)
      by (rewrite Hc; discriminate).
    assert (Hcur : current p = (Ok TokenSequenceItem, p))
      by (unfold current, mget; rewrite Hc; reflexivity).
    rewrite (mbind_Ok _ _ _ _ _ (skipNewlines_skip _ p Hnl)).
    rewrite (mbind_Ok _ _ _ _ _ (collectComments_skip _ p Hcm)).
    rewrite (mbind_Ok _ _ _ _ _ Hcur).
    rewrite (mbind_Ok currentValue _ p p _ eq_refl).
    unfold parseSequence.
    rewrite (mbind_Ok _ _ _ _ _
               (eq_refl : onMem NewSequence p
                          = (Ok (List.length (mem p)),
                             set_mem p (mem p
                                        ++ [CSequence base0 [] BlockStyle])))).
    destruct (attachComments_last
                (set_mem p (mem p ++ [CSequence base0 [] BlockStyle]))
                (mem p) _ eq_refl) as (b & Ha & _).
    rewrite (mbind_Ok _ _ _ _ _ Ha).
    match type of Ha with
    | _ = (_, ?p1) =>
        destruct (afterMarker_alike g p p1 q (conj eq_refl eq_refl) E)
          as (q1 & E1 & [Hs Ht] & Hm);
        erewrite mbind_Ok;
          [|apply parseSequenceLoop_missing;
            [exact Hc | exact E1 | rewrite Ht; exact Hn]]
    end.
    exists b, q1. split; [reflexivity |]. auto.
Qed.

End ParserFacts.

(** C7, as stated, fails: the input [- ] parses to a document whose
    sequence has no item, where the claim expects a null scalar. *)
Lemma C7_counterexample :
  @parser.parsed asciiStd 4 "- "
  = Ok (Some (ast.Document ast.base0
                [Some (ast.Sequence ast.base0 [] ast.BlockStyle)])).
Proof. vm_compute. reflexivity. Qed.

Lemma C7_witness :
  let p := @parserspec.advanced asciiStd (parser.NewParser examples.missingItem) in
  exists b p',
    @parser.parseValue asciiStd 7 p = (Ok (Some 0%nat), p')
    /\ parser.mem p' = [] ++ [heap.CSequence b [] ast.BlockStyle]
    /\ lexer.Type_ (parser.currentToken p') = lexer.TokenDocumentEnd.
Proof.
  intros p.
  destruct (@C7_missing_value_yields_no_item asciiStd 4 p
              ((@parser.advance asciiStd >> @parser.skipNewlines asciiStd 4
                >> @parser.collectComments asciiStd 4) p).2)
    as [_ (b & p' & Hp & Hm & _ & Ht)].
  - reflexivity.
  - vm_compute. reflexivity.
  - right. vm_compute. reflexivity.
  - exists b, p'. split; [exact Hp |]. split; [exact Hm |].
    rewrite Ht. vm_compute. reflexivity.
Defined.

(** C6.  On the input [&x], [...], [*x] (an anchor whose value is missing,
    then an alias of it) the anchor table holds nil for [x]; the alias is a
    hit, [node.Clone()] is called on nil and the parser panics instead of
    returning a clone or the undefined-alias error. *)
Theorem C6_alias_of_missing_value_panics :
  (@parser.ParseReader asciiStd 6 examples.emptyAnchor).1
  = Panic "invalid memory address or nil pointer dereference".
Proof. vm_compute. reflexivity. Qed.

(** * The merger and its inputs *)

Section Frame.
Import ast heap framespec.
Context `{GoStd}.
Variable N : nat.

Lemma frames_ret {A} (P : A -> Prop) (x : A) : P x -> frames N P (mret x).
Proof.
  intros Hx h r h' Hl Hc E. injection E as <- <-.
  repeat split; auto. intros y [= <-]. exact Hx.
Qed.

(** A call that fails where it stands. *)
Lemma frames_fail {A} (P : A -> Prop) (r : result A) :
  (forall x, r <> Ok x) -> frames N P (mfail r).
Proof.
  intros Hr h r' h' Hl Hc E. injection E as <- <-.
  repeat split; auto. intros x Hx. destruct (Hr x Hx).
Qed.

Lemma frames_bind {A B} (P : A -> Prop) (Q : B -> Prop) (m : M Heap A)
  (k : A -> M Heap B) :
  frames N P m -> (forall x, P x -> frames N Q (k x)) ->
  frames N Q (mbind m k).
Proof.
  intros Hm Hk h r h' Hl Hc E. unfold mbind in E.
  destruct (m h) as [r1 h1] eqn:E1.
  destruct (Hm _ _ _ Hl Hc E1) as (Hl1 & Ht1 & Hc1 & Hx).
  destruct r1 as [x| | |];
    try (injection E as <- <-; repeat split; auto; intros; discriminate).
  destruct (Hk x (Hx x eq_refl) _ _ _ Hl1 Hc1 E) as (Hl2 & Ht2 & Hc2 & Hy).
  repeat split; auto. congruence.
Qed.

Lemma frames_weaken {A} (P Q : A -> Prop) (m : M Heap A) :
  frames N P m -> (forall x, P x -> Q x) -> frames N Q m.
Proof.
  intros Hm HPQ h r h' Hl Hc E.
  destruct (Hm _ _ _ Hl Hc E) as (? & ? & ? & ?). auto 6.
Qed.

Lemma frames_alloc (c : cell) :
  freshCell N c -> frames N (le N) (alloc c).
Proof.
  intros Hf h r h' Hl Hc E. injection E as <- <-.
  rewrite length_app. simpl. repeat split; try lia.
  - rewrite take_app_le by lia. reflexivity.
  - intros l c' Hle Hlk.
    apply lookup_app_Some in Hlk as [Hlk | [_ Hlk]].
    + eauto.
    + destruct (l - length h)%nat; simpl in Hlk; [|discriminate].
      injection Hlk as <-. exact Hf.
  - intros x [= <-]. exact Hl.
Qed.

Lemma frames_load (l : loc) :
  frames N (fun c => (N <= l)%nat -> freshCell N c) (load l).
Proof.
  intros h r h' Hl Hc E. unfold load in E.
  destruct (h !! l) eqn:Hlk; injection E as <- <-; repeat split; auto.
  - intros x [= <-] Hle. eauto.
  - intros x Hx. discriminate Hx.
Qed.

Lemma frames_store (l : loc) (c : cell) :
  (N <= l)%nat -> freshCell N c -> frames N any (store l c).
Proof.
  intros Hle Hf h r h' Hl Hc E. injection E as <- <-.
  rewrite length_insert. repeat split; auto.
  - rewrite take_insert. destruct (decide (l < N)%nat); [lia | reflexivity].
  - intros l' c' Hle' Hlk.
    apply list_lookup_insert_Some in Hlk as [(-> & -> & _) | (_ & Hlk)];
      eauto.
Qed.

Lemma frames_reads {A} (f : Heap -> result A) : frames N any (merge.reads f).
Proof.
  intros h r h' Hl Hc E. injection E as <- <-. repeat split; auto.
Qed.

Lemma freshCell_withBase (c : cell) (b : baseNode) :
  freshCell N c -> freshCell N (withBase c b).
Proof. destruct c; exact id. Qed.

Lemma freshCell_content (c : cell) :
  freshCell N c -> Forall (freshOpt N) (cellContent c).
Proof. destruct c; simpl; auto. Qed.

Lemma freshCell_withContent (c : cell) (l : list (option loc)) :
  freshCell N c -> Forall (freshOpt N) l -> freshCell N (withContent c l).
Proof. destruct c; simpl; auto. Qed.

Ltac fr_fail := apply frames_fail; intros ? ?; discriminate.

Ltac fr_step :=
  lazymatch goal with
  | |- frames _ _ (mbind _ _) => eapply frames_bind
  | |- frames _ _ (mret _) => apply frames_ret
  | |- frames _ _ (mfail _) => fr_fail
  | |- frames _ _ (if ?b then _ else _) => destruct b
  | |- forall _, _ => intro
  end.

Lemma frames_GetComment (n : loc) : frames N any (GetComment n).
Proof.
  unfold GetComment. eapply frames_bind; [apply frames_load |].
  intros c _. apply frames_ret. exact I.
Qed.

Lemma frames_SetComment (n : loc) (cm : Comment) :
  (N <= n)%nat -> frames N any (SetComment n cm).
Proof.
  intros Hn. unfold SetComment. eapply frames_bind; [apply frames_load |].
  intros c Hc. apply frames_store; [exact Hn |].
  apply freshCell_withBase. auto.
Qed.

Lemma frames_SetStyle (n : loc) (s : ScalarStyle) :
  (N <= n)%nat -> frames N any (SetStyle n s).
Proof.
  intros Hn. unfold SetStyle. eapply frames_bind; [apply frames_load |].
  intros c Hc. destruct c; try fr_fail.
  apply frames_store; [exact Hn | constructor].
Qed.

Lemma frames_appendContent (n : loc) (x : option loc) :
  (N <= n)%nat -> freshOpt N x -> frames N any (appendContent n x).
Proof.
  intros Hn Hx. unfold appendContent.
  eapply frames_bind; [apply frames_load |].
  intros c Hc. apply frames_store; [exact Hn |].
  apply freshCell_withContent; [auto |].
  apply Forall_app. split; [apply freshCell_content; auto |].
  constructor; [exact Hx | constructor].
Qed.

Lemma frames_setContent (n : loc) (i : nat) (x : option loc) :
  (N <= n)%nat -> freshOpt N x -> frames N any (setContent n i x).
Proof.
  intros Hn Hx. unfold setContent.
  eapply frames_bind; [apply frames_load |].
  intros c Hc. apply frames_store; [exact Hn |].
  apply freshCell_withContent; [auto |].
  apply Forall_insert; [apply freshCell_content; auto | exact Hx].
Qed.

Lemma frames_assign (n : loc) (l : list (option loc)) :
  (N <= n)%nat -> Forall (freshOpt N) l -> frames N any (merge.assign n l).
Proof.
  intros Hn Hx. unfold merge.assign.
  eapply frames_bind; [apply frames_load |].
  intros c Hc. apply frames_store; [exact Hn |].
  apply freshCell_withContent; auto.
Qed.

Lemma frames_loadEntry (l : loc) :
  frames N (fun e => (N <= l)%nat ->
                     freshOpt N (Key e) /\ freshOpt N (Value e))
         (loadEntry l).
Proof.
  unfold loadEntry. eapply frames_bind; [apply frames_load |].
  intros c Hc. destruct c; try fr_fail.
  apply frames_ret. exact Hc.
Qed.

Lemma frames_setKey (l : loc) (k : option loc) :
  (N <= l)%nat -> freshOpt N k -> frames N any (setKey l k).
Proof.
  intros Hl Hk. unfold setKey.
  eapply frames_bind; [apply frames_loadEntry |].
  intros e He. apply frames_store; [exact Hl |].
  split; [exact Hk | apply He, Hl].
Qed.

Lemma frames_setValue (l : loc) (v : option loc) :
  (N <= l)%nat -> freshOpt N v -> frames N any (setValue l v).
Proof.
  intros Hl Hv. unfold setValue.
  eapply frames_bind; [apply frames_loadEntry |].
  intros e He. apply frames_store; [exact Hl |].
  split; [apply He, Hl | exact Hv].
Qed.

Lemma frames_forEach {A} (body : nat -> A -> M Heap unit) (l : list A) :
  (forall i x, frames N any (body i x)) ->
  forall i, frames N any (forEach l i body).
Proof.
  intros Hb. induction l as [|x l IH]; intros i; simpl.
  - apply frames_ret. exact I.
  - eapply frames_bind; [apply Hb |]. intros _ _. apply IH.
Qed.

Lemma frames_mapM {A B} (P : B -> Prop) (f : A -> M Heap B) (l : list A) :
  (forall x, frames N P (f x)) -> frames N (Forall P) (mapM f l).
Proof.
  intros Hf. induction l as [|x l IH]; simpl.
  - apply frames_ret. constructor.
  - eapply frames_bind; [apply Hf |]. intros y Hy.
    eapply frames_bind; [apply IH |]. intros ys Hys.
    apply frames_ret. constructor; assumption.
Qed.

(** [Clone] writes to the cells it allocates only, and its result is one of
    them. *)
Lemma frames_Clone (fuel : nat) (n : loc) : frames N (le N) (Clone fuel n).
Proof.
  revert n. induction fuel as [|f IH]; intros n; [fr_fail |].
  simpl. eapply frames_bind; [apply frames_load |].
  intros c _.
  assert (Hchildren : forall clone Content,
             (N <= clone)%nat ->
             frames N any
               (forEach Content O (fun i node =>
                  match node with
                  | Some x => let* c := Clone f x in
                              setContent clone i (Some c)
                  | None => mret tt
                  end))).
  { intros clone Content Hcl. apply frames_forEach. intros i [x|].
    - eapply frames_bind; [apply IH |]. intros y Hy.
      apply frames_setContent; assumption.
    - apply frames_ret. exact I. }
  assert (Hnil : forall k, Forall (freshOpt N) (replicate k None)).
  { intros k. apply Forall_replicate. exact I. }
  destruct c as [b Content|b v s|b Content s|b Content s|b i|e].
  - eapply frames_bind; [apply frames_alloc, Hnil |].
    intros clone Hcl. eapply frames_bind; [apply Hchildren, Hcl |].
    intros _ _. apply frames_ret. exact Hcl.
  - apply frames_alloc. constructor.
  - eapply frames_bind; [apply frames_alloc, Hnil |].
    intros clone Hcl. eapply frames_bind.
    + apply frames_forEach. intros i [le|]; [|apply frames_ret; exact I].
      eapply frames_bind; [apply frames_loadEntry |]. intros e _.
      eapply frames_bind; [apply frames_alloc; split; exact I |].
      intros ce Hce. eapply (frames_bind any).
      { destruct (Key e) as [k|]; [|apply frames_ret; exact I].
        eapply frames_bind; [apply IH |]. intros k' Hk'.
        apply frames_setKey; assumption. }
      intros _ _. eapply (frames_bind any).
      { destruct (Value e) as [v|]; [|apply frames_ret; exact I].
        eapply frames_bind; [apply IH |]. intros v' Hv'.
        apply frames_setValue; assumption. }
      intros _ _. apply frames_setContent; assumption.
    + intros _ _. apply frames_ret. exact Hcl.
  - eapply frames_bind; [apply frames_alloc, Hnil |].
    intros clone Hcl. eapply frames_bind; [apply Hchildren, Hcl |].
    intros _ _. apply frames_ret. exact Hcl.
  - apply frames_alloc. constructor.
  - fr_fail.
Qed.


Lemma frames_CloneOf (fuel : nat) (n : option loc) :
  frames N (le N) (merge.CloneOf fuel n).
Proof. destruct n; [apply frames_Clone | fr_fail]. Qed.

Lemma frames_cloneNodes (fuel : nat) (nodes : list (option loc)) :
  frames N (Forall (freshOpt N)) (merge.cloneNodes fuel nodes).
Proof.
  apply frames_mapM. intros [l|]; [|apply frames_ret; exact I].
  eapply frames_bind; [apply frames_Clone |].
  intros c Hc. apply frames_ret. exact Hc.
Qed.

Lemma frames_cloneEntry (fuel : nat) (entry : option loc) :
  frames N (freshOpt N) (merge.cloneEntry fuel entry).
Proof.
  destruct entry as [le|]; [|apply frames_ret; exact I]. simpl.
  eapply frames_bind; [apply frames_loadEntry |]. intros e _.
  eapply frames_bind; [apply frames_CloneOf |]. intros k Hk.
  eapply frames_bind; [apply frames_CloneOf |]. intros v Hv.
  eapply frames_bind; [apply frames_alloc; split; assumption |].
  intros l Hl. apply frames_ret. exact Hl.
Qed.

Lemma frames_content (n : loc) : frames N any (merge.content n).
Proof.
  unfold merge.content. eapply frames_bind; [apply frames_load |].
  intros c _. apply frames_ret. exact I.
Qed.

Lemma frames_collectionStyle (n : loc) :
  frames N any (merge.collectionStyle n).
Proof.
  unfold merge.collectionStyle. eapply frames_bind; [apply frames_load |].
  intros c _. destruct c; first [fr_fail | apply frames_ret; exact I].
Qed.

Lemma frames_Kind (n : loc) : frames N any (merge.Kind n).
Proof.
  unfold merge.Kind. eapply frames_bind; [apply frames_load |].
  intros c _. destruct (cellKind c); [apply frames_ret; exact I | fr_fail].
Qed.

Lemma frames_getNodeStringValue (node : option loc) :
  frames N any (merge.getNodeStringValue node).
Proof.
  destruct node as [l|]; [|apply frames_ret; exact I]. simpl.
  eapply frames_bind; [apply frames_load |].
  intros c _. destruct c; apply frames_ret; exact I.
Qed.

Lemma frames_createStringNode (s : string) :
  frames N (le N) (merge.createStringNode s).
Proof.
  unfold merge.createStringNode.
  eapply frames_bind; [apply frames_alloc; constructor |].
  intros node Hn. apply (frames_bind any).
  - repeat match goal with
           | |- frames _ _ (if ?b then _ else _) => destruct b
           end;
      first [apply frames_SetStyle; exact Hn | apply frames_ret; exact I].
  - intros _ _. apply frames_ret. exact Hn.
Qed.

Lemma frames_valueToNode (fuel : nat) (v : yaml.GoValue) :
  frames N (le N) (merge.valueToNode fuel v).
Proof.
  revert v. induction fuel as [|f IH]; intros v; [fr_fail |].
  destruct v; simpl;
    try (apply frames_alloc; constructor).
  - apply frames_createStringNode.
  - eapply frames_bind; [apply frames_alloc; constructor |].
    intros sequence Hs. apply (frames_bind any).
    + apply frames_forEach. intros _ x.
      eapply frames_bind; [apply IH |]. intros item Hi.
      apply frames_appendContent; assumption.
    + intros _ _. apply frames_ret. exact Hs.
  - eapply frames_bind; [apply frames_alloc; constructor |].
    intros mapping Hm. apply (frames_bind any).
    + apply frames_forEach. intros _ kv.
      eapply frames_bind; [apply frames_createStringNode |]. intros k Hk.
      eapply frames_bind; [apply IH |]. intros v Hv.
      eapply frames_bind; [apply frames_alloc; split; assumption |].
      intros entry He. apply frames_appendContent; assumption.
    + intros _ _. apply frames_ret. exact Hm.
Qed.

Section Recursive.
Variable rec : option loc -> option loc -> string -> M Heap loc.
Variable opts : yaml.MergeOptions.
Variable fuel : nat.
Hypothesis frames_rec : forall x y path, frames N (le N) (rec x y path).

Lemma frames_setMergedComment (merged a b : loc) :
  (N <= merged)%nat -> frames N any (merge.setMergedComment merged a b).
Proof.
  intros Hm. unfold merge.setMergedComment.
  eapply frames_bind; [apply frames_GetComment |]. intros ca _.
  eapply frames_bind; [apply frames_GetComment |]. intros cb _.
  apply frames_SetComment. exact Hm.
Qed.

Lemma frames_preserveComments (merged a b : loc) :
  (N <= merged)%nat -> frames N any (merge.preserveComments opts merged a b).
Proof.
  intros Hm. unfold merge.preserveComments.
  destruct (yaml.PreserveComments opts);
    [apply frames_setMergedComment; exact Hm | apply frames_ret; exact I].
Qed.

Lemma frames_appendClones (merged : loc) (nodes : list (option loc)) :
  (N <= merged)%nat -> frames N any (merge.appendClones fuel merged nodes).
Proof.
  intros Hm. apply frames_forEach. intros _ n.
  eapply frames_bind; [apply frames_CloneOf |]. intros c Hc.
  apply frames_appendContent; assumption.
Qed.

Lemma frames_mergeDocuments (a b : loc) (path : string) :
  frames N (le N) (merge.mergeDocuments rec opts fuel a b path).
Proof.
  unfold merge.mergeDocuments.
  eapply frames_bind; [apply frames_alloc; constructor |]. intros merged Hm.
  apply (frames_bind any); [apply frames_preserveComments, Hm |]. intros _ _.
  eapply frames_bind; [apply frames_content |]. intros ac _.
  eapply frames_bind; [apply frames_content |]. intros bc _.
  apply (frames_bind any); [|intros _ _; apply frames_ret; exact Hm].
  destruct (length ac =? 0)%nat.
  { eapply frames_bind; [apply frames_cloneNodes |]. intros c Hc.
    apply frames_assign; assumption. }
  destruct (length bc =? 0)%nat.
  { eapply frames_bind; [apply frames_cloneNodes |]. intros c Hc.
    apply frames_assign; assumption. }
  apply (frames_bind any).
  { apply frames_forEach. intros i ab.
    eapply frames_bind; [apply frames_rec |]. intros node Hn.
    apply frames_appendContent; assumption. }
  intros _ _.
  destruct (length ac <? length bc)%nat;
    [apply frames_appendClones, Hm |].
  destruct (yaml.isMode opts yaml.MergePreserve
            && (length bc <? length ac)%nat);
    [apply frames_appendClones, Hm | apply frames_ret; exact I].
Qed.

Lemma frames_indexEntries (Content : list (option loc)) :
  forall m keys, frames N any (merge.indexEntries Content m keys).
Proof.
  induction Content as [|[entry|] rest IH]; intros m keys; simpl.
  - apply frames_ret. exact I.
  - eapply frames_bind; [apply frames_loadEntry |]. intros e _.
    eapply frames_bind; [apply frames_getNodeStringValue |]. intros key _.
    apply IH.
  - fr_fail.
Qed.

Lemma frames_mergeEntry (aEntry bEntry : loc) (path key : string) :
  frames N (le N) (merge.mergeEntry rec opts fuel aEntry bEntry path key).
Proof.
  unfold merge.mergeEntry.
  eapply frames_bind; [apply frames_loadEntry |]. intros ea _.
  eapply frames_bind; [apply frames_loadEntry |]. intros eb _.
  eapply frames_bind; [apply frames_rec |]. intros mergedValue Hv.
  eapply frames_bind; [apply frames_CloneOf |]. intros k Hk.
  eapply frames_bind; [apply frames_alloc; split; assumption |].
  intros entry He.
  apply (frames_bind any); [|intros _ _; apply frames_ret; exact He].
  destruct (yaml.PreserveComments opts); [|apply frames_ret; exact I].
  eapply frames_bind; [apply frames_loadEntry |]. intros ea' _.
  eapply frames_bind; [apply frames_loadEntry |]. intros eb' _.
  apply frames_store; [exact He | split; assumption].
Qed.

Lemma frames_mergeKeys (merged : loc) (aMap bMap : gmap string loc)
  (path : string) (keys : list string) :
  (N <= merged)%nat ->
  forall processedKeys,
    frames N any
      (merge.mergeKeys rec opts fuel merged aMap bMap path keys processedKeys).
Proof.
  intros Hm. induction keys as [|key rest IH]; intros processedKeys; simpl.
  - apply frames_ret. exact I.
  - destruct (bool_decide (key ∈ processedKeys)); [apply IH |].
    apply (frames_bind any); [|intros _ _; apply IH].
    destruct (aMap !! key) as [aEntry|], (bMap !! key) as [bEntry|].
    + eapply frames_bind; [apply frames_mergeEntry |]. intros entry He.
      apply frames_appendContent; assumption.
    + destruct (negb (yaml.isMode opts yaml.MergeOverride));
        [|apply frames_ret; exact I].
      eapply frames_bind; [apply (frames_cloneEntry fuel (Some aEntry)) |].
      intros e He. apply frames_appendContent; assumption.
    + eapply frames_bind; [apply (frames_cloneEntry fuel (Some bEntry)) |].
      intros e He. apply frames_appendContent; assumption.
    + apply frames_ret. exact I.
Qed.

Lemma frames_appendUnprocessed (merged : loc) (bMap : gmap string loc)
  (bKeys : list string) (processedKeys : gset string) :
  (N <= merged)%nat ->
  frames N any
    (merge.appendUnprocessed fuel merged bMap bKeys processedKeys).
Proof.
  intros Hm. apply frames_forEach. intros _ key.
  destruct (bool_decide (key ∈ processedKeys)); [apply frames_ret; exact I |].
  eapply frames_bind; [apply frames_cloneEntry |]. intros e He.
  apply frames_appendContent; assumption.
Qed.

Lemma frames_mergeMappings (a b : loc) (path : string) :
  frames N (le N) (merge.mergeMappings rec opts fuel a b path).
Proof.
  unfold merge.mergeMappings.
  eapply frames_bind; [apply frames_collectionStyle |]. intros aStyle _.
  eapply frames_bind; [apply frames_alloc; constructor |]. intros merged Hm.
  apply (frames_bind any); [apply frames_preserveComments, Hm |]. intros _ _.
  eapply frames_bind; [apply frames_content |]. intros ac _.
  eapply frames_bind; [apply frames_indexEntries |]. intros [aMap aKeys] _.
  eapply frames_bind; [apply frames_content |]. intros bc _.
  eapply frames_bind; [apply frames_indexEntries |]. intros [bMap bKeys] _.
  eapply frames_bind; [apply frames_mergeKeys, Hm |]. intros processedKeys _.
  apply (frames_bind any); [|intros _ _; apply frames_ret; exact Hm].
  destruct (negb (yaml.isMode opts yaml.MergePreserve));
    [apply frames_appendUnprocessed, Hm | apply frames_ret; exact I].
Qed.

Lemma frames_unionItems (merged : loc) (items : list (option loc)) :
  (N <= merged)%nat ->
  forall seen, frames N any (merge.unionItems fuel merged items seen).
Proof.
  intros Hm. induction items as [|item rest IH]; intros seen; simpl.
  - apply frames_ret. exact I.
  - eapply frames_bind; [apply frames_reads |]. intros key _.
    destruct (bool_decide (key ∈ seen)); [apply IH |].
    eapply frames_bind; [apply frames_CloneOf |]. intros c Hc.
    apply (frames_bind any); [apply frames_appendContent; assumption |].
    intros _ _. apply IH.
Qed.

Lemma frames_mergeByIndex (merged : loc) (ac : list (option loc)) :
  (N <= merged)%nat ->
  forall bc path i,
    frames N any (merge.mergeByIndex rec fuel merged ac bc path i).
Proof.
  intros Hm. induction ac as [|x ac IH]; intros bc path i; simpl.
  - apply frames_appendClones, Hm.
  - destruct bc as [|y bc].
    + eapply frames_bind; [apply frames_CloneOf |]. intros node Hn.
      apply (frames_bind any); [apply frames_appendContent; assumption |].
      intros _ _. apply IH.
    + eapply frames_bind; [apply frames_rec |]. intros node Hn.
      apply (frames_bind any); [apply frames_appendContent; assumption |].
      intros _ _. apply IH.
Qed.

Lemma frames_mergeSequences (a b : loc) (path : string) :
  frames N (le N) (merge.mergeSequences rec opts fuel a b path).
Proof.
  unfold merge.mergeSequences.
  eapply frames_bind; [apply frames_collectionStyle |]. intros aStyle _.
  eapply frames_bind; [apply frames_alloc; constructor |]. intros merged Hm.
  apply (frames_bind any); [apply frames_preserveComments, Hm |]. intros _ _.
  eapply frames_bind; [apply frames_content |]. intros ac _.
  eapply frames_bind; [apply frames_content |]. intros bc _.
  apply (frames_bind any); [|intros _ _; apply frames_ret; exact Hm].
  destruct (yaml.ArrayStrategy opts).
  - eapply frames_bind; [apply frames_cloneNodes |]. intros c Hc.
    apply frames_assign; assumption.
  - eapply frames_bind; [apply frames_cloneNodes |]. intros ca Hca.
    eapply frames_bind; [apply frames_cloneNodes |]. intros cb Hcb.
    apply frames_assign; [exact Hm | apply Forall_app; split; assumption].
  - apply frames_mergeByIndex, Hm.
  - eapply frames_bind; [apply frames_cloneNodes |]. intros c Hc.
    apply frames_assign; assumption.
  - eapply frames_bind; [apply frames_unionItems, Hm |]. intros seen _.
    apply (frames_bind any); [apply frames_unionItems, Hm |].
    intros _ _. apply frames_ret. exact I.
Qed.

Lemma frames_mergeScalars (a b : loc) :
  frames N (le N) (merge.mergeScalars opts fuel a b).
Proof.
  unfold merge.mergeScalars.
  destruct (yaml.isMode opts yaml.MergeOverride
            || yaml.isMode opts yaml.MergeDeep).
  - eapply frames_bind; [apply frames_Clone |]. intros merged Hm.
    apply (frames_bind any); [apply frames_preserveComments, Hm |].
    intros _ _. apply frames_ret. exact Hm.
  - eapply frames_bind; [apply frames_Clone |]. intros merged Hm.
    eapply frames_bind; [apply frames_GetComment |]. intros cb _.
    apply (frames_bind any); [|intros _ _; apply frames_ret; exact Hm].
    destruct (yaml.PreserveComments opts && nonempty (HeadComment cb)
              || nonempty (LineComment cb));
      [apply frames_setMergedComment, Hm | apply frames_ret; exact I].
Qed.

End Recursive.

Lemma frames_mergeNodesRecursive (fuel : nat) (opts : yaml.MergeOptions) :
  forall a b path,
    frames N (le N) (merge.mergeNodesRecursive fuel a b opts path).
Proof.
  induction fuel as [|f IH]; intros a b path; [fr_fail |].
  change (merge.mergeNodesRecursive (S f) a b opts path) with
    (let* custom :=
       match yaml.CustomMergeFunc opts with
       | Some custom =>
           let* ia := merge.nodeToInterface (S f) a in
           let* ib := merge.nodeToInterface (S f) b in
           match custom path ia ib with
           | (yaml.VNil, _) | (_, Some _) => mret None
           | (res, None) => let* n := merge.interfaceToNode (S f) res in
                            mret (Some n)
           end
       | None => mret None
       end in
     match custom with
     | Some n => mret n
     | None =>
         match a, b with
         | None, _ => merge.CloneOf (S f) b
         | _, None => merge.CloneOf (S f) a
         | Some a, Some b =>
             let* ka := merge.Kind a in
             let* kb := merge.Kind b in
             if negb (bool_decide (ka = kb)) then
               if negb (yaml.AllowTypeMismatch opts)
               then mfail (Err (merge.typeMismatch path ka kb))
               else if yaml.isMode opts yaml.MergeOverride
                    then Clone (S f) b
                    else Clone (S f) a
             else
               let rec x y := merge.mergeNodesRecursive f x y opts in
               match ka with
               | DocumentNode => merge.mergeDocuments rec opts (S f) a b path
               | MappingNode => merge.mergeMappings rec opts (S f) a b path
               | SequenceNode => merge.mergeSequences rec opts (S f) a b path
               | ScalarNode => merge.mergeScalars opts (S f) a b
               | _ =>
                   if yaml.isMode opts yaml.MergeOverride then Clone (S f) b
                   else Clone (S f) a
               end
         end
     end).
  apply (frames_bind (fun c : option loc => freshOpt N c)).
  { destruct (yaml.CustomMergeFunc opts) as [custom|];
      [|apply frames_ret; exact I].
    eapply frames_bind; [apply frames_reads |]. intros ia _.
    eapply frames_bind; [apply frames_reads |]. intros ib _.
    assert (Hn : forall res,
               frames N (freshOpt N)
                 (let* n := merge.interfaceToNode (S f) res in
                  mret (Some n))).
    { intros res. eapply frames_bind; [apply frames_valueToNode |].
      intros n Hn. apply frames_ret. exact Hn. }
    destruct (custom path ia ib) as [[] []];
      first [apply frames_ret; exact I | apply Hn]. }
  intros [n|] Hn; [apply frames_ret; exact Hn |].
  destruct a as [a|]; [|apply frames_CloneOf].
  destruct b as [b|]; [|apply frames_CloneOf].
  eapply frames_bind; [apply frames_Kind |]. intros ka _.
  eapply frames_bind; [apply frames_Kind |]. intros kb _.
  destruct (negb (bool_decide (ka = kb))).
  { destruct (negb (yaml.AllowTypeMismatch opts)); [fr_fail |].
    destruct (yaml.isMode opts yaml.MergeOverride); apply frames_Clone. }
  cbv zeta.
  destruct ka.
  - apply frames_mergeDocuments. intros; apply IH.
  - apply frames_mergeScalars.
  - apply frames_mergeMappings. intros; apply IH.
  - apply frames_mergeSequences. intros; apply IH.
  - destruct (yaml.isMode opts yaml.MergeOverride); apply frames_Clone.
Qed.


Lemma closed_init (h : Heap) : closed (List.length h) h.
Proof.
  intros l c Hl Hlk. apply lookup_lt_Some in Hlk. lia.
Qed.

Lemma freshCell_pointers (c : cell) (p : loc) :
  freshCell N c -> p ∈ pointers c -> (N <= p)%nat.
Proof.
  intros Hc Hp.
  assert (Hl : forall l, Forall (freshOpt N) l -> p ∈ omap id l ->
                         (N <= p)%nat).
  { intros l Hl Hin. apply list_elem_of_omap in Hin as (x & Hx & Hid).
    simpl in Hid. subst x.
    exact (proj1 (Forall_forall _ _) Hl _ Hx). }
  destruct c; simpl in Hc, Hp; try (eapply Hl; eassumption).
  destruct Hc as [Hk Hv]. apply (Hl [Key e; Value e]); [|exact Hp].
  repeat constructor; assumption.
Qed.

Lemma reach_closed (h : Heap) (r l : loc) :
  closed N h -> (N <= r)%nat -> reach h r l -> (N <= l)%nat.
Proof.
  intros Hc Hr Hreach. induction Hreach as [|l c p l' Hlk Hp _ IH];
    [exact Hr |].
  apply IH. eapply freshCell_pointers; [|exact Hp]. eauto.
Qed.

End Frame.

(** C2.  However a merge ends (with a tree, with an error such as a type
    mismatch, or with a panic), every cell that existed before the call is
    as it was: the trees of [a] and [b] are made of such cells.  When it
    returns a tree, the tree is made of cells allocated during the call
    only, so a store into any cell of the result leaves the earlier cells
    as they were. *)
Theorem C2_merge_leaves_inputs_alone `{GoStd} (fuel : nat)
  (a b : option heap.loc) (opts : yaml.MergeOptions) (h h' : heap.Heap)
  (r : result heap.loc) :
  merge.MergeNodes fuel a b opts h = (r, h') ->
  take (List.length h) h' = h
  /\ (forall res, r = Ok res ->
        (forall l, framespec.reach h' res l -> (List.length h <= l)%nat)
        /\ (forall l c, framespec.reach h' res l ->
                        take (List.length h) (<[l := c]> h') = h)).
Proof.
  intros E.
  destruct (frames_mergeNodesRecursive (List.length h) fuel opts a b ""
              h r h' (le_n _) (closed_init h) E) as (Hl & Ht & Hc & Hr).
  rewrite firstn_all in Ht. split; [exact Ht |].
  intros res Hres.
  assert (Hreach : forall l, framespec.reach h' res l ->
                             (List.length h <= l)%nat).
  { intros l. apply reach_closed; [exact Hc | exact (Hr res Hres)]. }
  split; [exact Hreach |].
  intros l c Hrl. rewrite take_insert.
  destruct (decide (l < List.length h)%nat) as [Hlt|_]; [|exact Ht].
  specialize (Hreach l Hrl). lia.
Qed.

Lemma C2_witness :
  let h := examples.heapXY in
  let opts := @examples.options asciiStd yaml.MergeDeep true in
  let merged := @merge.MergeNodes asciiStd 3 (Some 0%nat) (Some 4%nat) opts h in
  let failed := @merge.MergeNodes asciiStd 3 (Some 0%nat) (Some 2%nat) opts h in
  (merged.1 = Ok 8%nat
   /\ take (List.length h) merged.2 = h
   /\ (forall l, framespec.reach merged.2 8%nat l -> (List.length h <= l)%nat))
  /\ (failed.1 = Err "type mismatch at : 2 vs 1"
      /\ take (List.length h) failed.2 = h).
Proof.
  intros h opts merged failed. split.
  - split; [vm_compute; reflexivity |].
    destruct (@C2_merge_leaves_inputs_alone asciiStd 3 (Some 0%nat)
                (Some 4%nat) opts h merged.2 merged.1) as [Ht Hr];
      [vm_compute; reflexivity |].
    split; [exact Ht |]. apply (Hr 8%nat). vm_compute. reflexivity.
  - split; [vm_compute; reflexivity |].
    apply (@C2_merge_leaves_inputs_alone asciiStd 3 (Some 0%nat)
             (Some 2%nat) opts h failed.2 failed.1).
    vm_compute. reflexivity.
Defined.

(** * Further properties of the merger *)

Section MergeMore.
Import ast yaml mergespec mergecases.
Context `{GoStd}.

Lemma nonempty_false (s : string) : nonempty s = false -> s = "".
Proof.
  unfold nonempty. intros E. apply negb_false_iff in E.
  apply String.eqb_eq in E. exact E.
Qed.

Lemma pick_assoc (a b c : string) : pick c (pick b a) = pick (pick c b) a.
Proof.
  unfold pick.
  destruct (nonempty c) eqn:Ec, (nonempty b) eqn:Eb, (nonempty a) eqn:Ea;
    simpl; rewrite ?Ec, ?Eb, ?Ea; reflexivity.
Qed.

Lemma pick_empty_l (a : string) : pick "" a = a.
Proof.
  unfold pick. simpl. destruct (nonempty a) eqn:Ea; [reflexivity |].
  symmetry. apply nonempty_false, Ea.
Qed.

Lemma pick_empty_r (b : string) : pick b "" = b.
Proof.
  unfold pick. simpl. destruct (nonempty b) eqn:Eb; [reflexivity |].
  symmetry. apply nonempty_false, Eb.
Qed.

(** Merging comments is associative and the empty comment is neutral on
    both sides: the comment of a chain of merges does not depend on the
    order in which the merges are made. *)
Theorem mergeComments_monoid (a b c : Comment) :
  mergeComments (mergeComments a b) c = mergeComments a (mergeComments b c)
  /\ mergeComments a noComment = a
  /\ mergeComments noComment a = a.
Proof.
  destruct a, b, c. unfold mergeComments, noComment. simpl.
  rewrite !pick_assoc, !pick_empty_l, !pick_empty_r. auto.
Qed.


(** ** The option [PreserveOrder] *)

Section Ext.
Variables rec1 rec2 : option Node -> option Node -> string -> result Node.
Hypothesis rec_ext : forall x y path, rec1 x y path = rec2 x y path.
Variable opts : MergeOptions.

Lemma mergeDocuments_ext a b ac bc path :
  mergeDocuments rec1 opts a b ac bc path
  = mergeDocuments rec2 opts a b ac bc path.
Proof.
  unfold mergeDocuments.
  rewrite (imap_ext _ (fun i ab =>
                         rbind (rec2 ab.1 ab.2
                                     (path +:+ "[" +:+ itoa i +:+ "]"))
                               (fun n => Ok (Some n))) (zip ac bc));
    [reflexivity |].
  intros i ab _. simpl. rewrite rec_ext. reflexivity.
Qed.

Lemma mergeKeys_ext aMap bMap path keys :
  forall processedKeys merged,
    mergeKeys rec1 opts aMap bMap path keys processedKeys merged
    = mergeKeys rec2 opts aMap bMap path keys processedKeys merged.
Proof.
  induction keys as [|key rest IH]; intros pk merged; simpl; [reflexivity |].
  destruct (bool_decide (key ∈ pk)); [apply IH |].
  destruct (aMap !! key), (bMap !! key); simpl; rewrite ?rec_ext;
    first [ apply IH
          | match goal with
            | |- rbind ?x _ = rbind ?x _ => destruct x; simpl; auto
            end ].
Qed.

Lemma mergeByIndex_ext ac :
  forall bc path i,
    mergeByIndex rec1 ac bc path i = mergeByIndex rec2 ac bc path i.
Proof.
  induction ac as [|x ac IH]; intros bc path i; simpl; [reflexivity |].
  destruct bc as [|y bc]; rewrite ?rec_ext, IH; reflexivity.
Qed.

Lemma mergeSequences_ext fuel a b ac bc st path :
  mergeSequences rec1 opts fuel a b ac bc st path
  = mergeSequences rec2 opts fuel a b ac bc st path.
Proof.
  unfold mergeSequences. rewrite mergeByIndex_ext. reflexivity.
Qed.

End Ext.

Lemma mergeMappings_order rec opts a b ac bc st path :
  mergeMappings rec (withOrder opts true) a b ac bc st path
  = mergeMappings rec (withOrder opts false) a b ac bc st path.
Proof.
  unfold mergeMappings.
  destruct (indexEntries ac ∅ []) as [[aMap aKeys]| | |] eqn:Ea;
    simpl; try reflexivity.
  destruct (indexEntries bc ∅ []) as [[bMap bKeys]| | |] eqn:Eb;
    simpl; try reflexivity.
  rewrite (keys_same aMap aKeys bKeys).
  - reflexivity.
  - eapply indexEntries_keys; [|exact Ea]. intros k.
    rewrite lookup_empty, elem_of_nil. tauto.
Qed.

(** The option [PreserveOrder] has no effect: the key order that
    [mergeKeyOrder] computes when it is set is the order that
    [mergeMappings] uses anyway (the keys of A, then the keys that only B
    has). *)
Theorem PreserveOrder_has_no_effect (fuel : nat) (opts : MergeOptions) :
  forall a b path,
    mergeNodesRecursive fuel a b (withOrder opts true) path
    = mergeNodesRecursive fuel a b (withOrder opts false) path.
Proof.
  induction fuel as [|f IH]; intros a b path; [reflexivity |].
  simpl.
  match goal with
  | |- rbind ?x _ = rbind ?x _ => destruct x as [[n|]| | |]; simpl; auto
  end.
  destruct a as [na|]; [|reflexivity].
  destruct b as [nb|]; [|reflexivity].
  destruct (negb (bool_decide (Kind na = Kind nb))); [reflexivity |].
  destruct na, nb; try reflexivity.
  - etransitivity;
      [apply (mergeDocuments_ext _ _ (fun x y path => IH x y path)
                (withOrder opts true)) | reflexivity].
  - rewrite mergeMappings_order.
    unfold mergeMappings.
    destruct (indexEntries Content ∅ []) as [[aMap aKeys]| | |];
      simpl; try reflexivity.
    destruct (indexEntries Content0 ∅ []) as [[bMap bKeys]| | |];
      simpl; try reflexivity.
    rewrite (mergeKeys_ext _ (fun x y => mergeNodesRecursive f x y
                                           (withOrder opts false)));
      [reflexivity |].
    intros; apply IH.
  - etransitivity;
      [apply (mergeSequences_ext _ _ (fun x y path => IH x y path)
                (withOrder opts true)) | reflexivity].
Qed.


(** ** Inputs that are nil or of different kinds *)

(** With no custom function, a merge with one nil input returns the other
    input's tree, and a merge of two nil inputs panics (it calls [Clone] on
    the nil [b]). *)
Theorem merge_with_nil (f : nat) (n : Node) (opts : MergeOptions)
  (path : string) :
  CustomMergeFunc opts = None ->
  mergeNodesRecursive (S f) None (Some n) opts path = Ok n
  /\ mergeNodesRecursive (S f) (Some n) None opts path = Ok n
  /\ mergeNodesRecursive (S f) None None opts path
     = Panic "invalid memory address or nil pointer dereference".
Proof.
  intros Hc. simpl. rewrite Hc. simpl. rewrite Clone_id. auto.
Qed.

(** With no custom function, two nodes of different kinds give the error
    [type mismatch at <path>: <kind> vs <kind>] unless [AllowTypeMismatch]
    is set; then B's tree wins under Override and A's under every other
    mode. *)
Theorem merge_kind_mismatch (f : nat) (a b : Node) (opts : MergeOptions)
  (path : string) :
  CustomMergeFunc opts = None -> Kind a <> Kind b ->
  mergeNodesRecursive (S f) (Some a) (Some b) opts path
  = if AllowTypeMismatch opts
    then Ok (if isMode opts MergeOverride then b else a)
    else Err ("type mismatch at " +:+ path +:+ ": "
              +:+ NodeKind_show (Kind a) +:+ " vs "
              +:+ NodeKind_show (Kind b)).
Proof.
  intros Hc Hk. simpl. rewrite Hc. simpl.
  rewrite (bool_decide_eq_false_2 _ Hk). simpl.
  destruct (AllowTypeMismatch opts); simpl; [|reflexivity].
  destruct (isMode opts MergeOverride); rewrite Clone_id; reflexivity.
Qed.

(** ** Scalars *)

(** Two scalars merge into a copy of B under Override and Deep and into a
    copy of A under Preserve and Append; only the comment can differ from
    the copied scalar.  Under Preserve and Append the comments of A and B
    are merged as soon as B has a line comment, whether [PreserveComments]
    is set or not. *)
Theorem merge_scalars (f : nat) (ba bb : baseNode) (va vb : string)
  (sa sb : ScalarStyle) (opts : MergeOptions) (path : string) :
  CustomMergeFunc opts = None ->
  exists c,
    mergeNodesRecursive (S f) (Some (Scalar ba va sa)) (Some (Scalar bb vb sb))
                        opts path
    = Ok (if isMode opts MergeOverride || isMode opts MergeDeep
          then Scalar (set_comment bb c) vb sb
          else Scalar (set_comment ba c) va sa)
    /\ (isMode opts MergeOverride || isMode opts MergeDeep = false ->
        nonempty (LineComment (comment bb)) = true ->
        c = mergeComments (comment ba) (comment bb)).
Proof.
  intros Hc. simpl. rewrite Hc. simpl.
  unfold mergeScalars, GetComment, SetComment. simpl.
  assert (Hb : forall b : baseNode, set_comment b (comment b) = b)
    by (intros []; reflexivity).
  destruct (isMode opts MergeOverride || isMode opts MergeDeep).
  - destruct (PreserveComments opts).
    + exists (mergeComments (comment ba) (comment bb)).
      split; [reflexivity | discriminate].
    + exists (comment bb). rewrite Hb. split; [reflexivity | discriminate].
  - destruct (nonempty (LineComment (comment bb))).
    + rewrite orb_true_r. exists (mergeComments (comment ba) (comment bb)).
      split; [reflexivity | auto].
    + rewrite orb_false_r.
      destruct (PreserveComments opts && nonempty (HeadComment (comment bb))).
      * exists (mergeComments (comment ba) (comment bb)).
        split; [reflexivity | discriminate].
      * exists (comment ba). rewrite Hb. split; [reflexivity | discriminate].
Qed.


(** ** The keys of a merged mapping *)

Lemma indexEntries_key Content m keys k e :
  indexEntries Content ∅ [] = Ok (m, keys) -> m !! k = Some e -> keyOf e = k.
Proof.
  intros Hi. apply indexEntries_Ok in Hi as (es & _ & -> & _).
  apply indexed_key. intros k' e' Hl. rewrite lookup_empty in Hl.
  discriminate.
Qed.

Section Keys.
Variable rec : option Node -> option Node -> string -> result Node.
Variable opts : MergeOptions.
Variables aMap bMap : gmap string MappingEntry.
Hypothesis aKey : forall k e, aMap !! k = Some e -> keyOf e = k.
Hypothesis bKey : forall k e, bMap !! k = Some e -> keyOf e = k.

Lemma keysInv_app (pk : gset string) merged (e : MappingEntry) k v :
  keysInv pk merged -> keyOf e ∉ pk ->
  Key e = Some k -> Value e = Some v ->
  keysInv ({[keyOf e]} ∪ pk) (merged ++ [Some e]).
Proof.
  intros (Hf & Hn & Hs) Hnew Hk Hv. split; [|split].
  - apply Forall_app. split; [exact Hf |]. constructor; [|constructor].
    exists e, k, v. auto.
  - rewrite keysOf_snoc. apply NoDup_app. split; [exact Hn |].
    split; [|apply NoDup_singleton].
    intros x Hx Hx'. apply list_elem_of_singleton in Hx'. subst x.
    apply Hnew, Hs, Hx.
  - intros x. rewrite keysOf_snoc, elem_of_app, list_elem_of_singleton.
    intros [Hx | ->]; set_solver.
Qed.

Lemma keysInv_mono (pk pk' : gset string) merged :
  keysInv pk merged -> pk ⊆ pk' -> keysInv pk' merged.
Proof. intros (Hf & Hn & Hs) Hsub. split; [|split]; auto. Qed.

Lemma cloneEntry_full (e e' : MappingEntry) :
  cloneEntry e = Ok e' ->
  e' = e /\ exists k v, Key e = Some k /\ Value e = Some v.
Proof.
  intros Hc. split; [apply cloneEntry_Ok, Hc |].
  unfold cloneEntry in Hc.
  destruct (Key e) as [k|]; [|discriminate].
  destruct (Value e) as [v|]; [|discriminate]. eauto.
Qed.

Lemma mergeKeys_keys path keys :
  forall pk merged pk' merged',
    keysInv pk merged ->
    mergeKeys rec opts aMap bMap path keys pk merged = Ok (pk', merged') ->
    keysInv pk' merged' /\ forall k, k ∈ pk \/ k ∈ keys -> k ∈ pk'.
Proof.
  induction keys as [|key rest IH]; intros pk merged pk' merged' Hinv E;
    simpl in E.
  - injection E as <- <-. split; [exact Hinv |]. set_solver.
  - destruct (bool_decide (key ∈ pk)) eqn:Hp.
    + apply bool_decide_eq_true in Hp.
      destruct (IH _ _ _ _ Hinv E) as [Hi Hs]. split; [exact Hi |].
      intros k [Hk | Hk]; [auto |].
      apply elem_of_cons in Hk as [-> | Hk]; auto.
    + apply bool_decide_eq_false in Hp.
      match type of E with
      | rbind ?x _ = _ => destruct x as [m1| | |] eqn:E1; try discriminate
      end.
      simpl in E.
      assert (Hinv1 : keysInv ({[key]} ∪ pk) m1).
      { destruct (aMap !! key) as [aEntry|] eqn:Ea,
                 (bMap !! key) as [bEntry|] eqn:Eb.
        - destruct (rec _ _ _) as [mv| | |]; try discriminate. simpl in E1.
          destruct (CloneOf (Key aEntry)) as [k| | |] eqn:Ek;
            try discriminate.
          apply CloneOf_Ok in Ek. injection E1 as <-.
          match goal with
          | |- keysInv _ (_ ++ [Some ?e]) =>
              assert (Hkey : keyOf e = key)
                by (rewrite <- (aKey _ _ Ea); unfold keyOf; simpl;
                    rewrite Ek; reflexivity);
              rewrite <- Hkey at 1;
              eapply keysInv_app;
                [exact Hinv | rewrite Hkey; exact Hp
                | reflexivity | reflexivity]
          end.
        - destruct (negb (isMode opts MergeOverride)).
          + destruct (cloneEntry aEntry) as [e'| | |] eqn:Ec;
              try discriminate.
            injection E1 as <-.
            apply cloneEntry_full in Ec as (-> & k & v & Hk & Hv).
            rewrite <- (aKey _ _ Ea) at 1.
            eapply keysInv_app; eauto. rewrite (aKey _ _ Ea). exact Hp.
          + injection E1 as <-. eapply keysInv_mono; [exact Hinv |].
            set_solver.
        - destruct (cloneEntry bEntry) as [e'| | |] eqn:Ec;
            try discriminate.
          injection E1 as <-.
          apply cloneEntry_full in Ec as (-> & k & v & Hk & Hv).
          rewrite <- (bKey _ _ Eb) at 1.
          eapply keysInv_app; eauto. rewrite (bKey _ _ Eb). exact Hp.
        - injection E1 as <-. eapply keysInv_mono; [exact Hinv |].
          set_solver. }
      destruct (IH _ _ _ _ Hinv1 E) as [Hi Hs]. split; [exact Hi |].
      intros k [Hk | Hk]; [apply Hs; set_solver |].
      apply elem_of_cons in Hk as [-> | Hk]; apply Hs; set_solver.
Qed.

End Keys.

(** Whatever the options and whatever the merge of the values does, the
    mapping that [mergeMappings] returns has no nil entry, every entry has
    a key and a value, and no two entries have the same key string: keys
    repeated in an input are collapsed. *)
Theorem merged_mapping_has_distinct_keys
  (rec : option Node -> option Node -> string -> result Node)
  (opts : MergeOptions) (a b : Node) (ac bc : list (option MappingEntry))
  (st : CollectionStyle) (path : string) (r : Node) :
  mergeMappings rec opts a b ac bc st path = Ok r ->
  exists base_ merged,
    r = Mapping base_ merged st
    /\ fullEntries merged /\ NoDup (keysOf merged).
Proof.
  unfold mergeMappings. intros E.
  destruct (indexEntries ac ∅ []) as [[aMap aKeys]| | |] eqn:Ea;
    try discriminate.
  destruct (indexEntries bc ∅ []) as [[bMap bKeys]| | |] eqn:Eb;
    try discriminate.
  simpl in E.
  match type of E with
  | rbind (mergeKeys _ _ _ _ _ ?ks _ _) _ = _ => set (keys := ks) in *
  end.
  destruct (mergeKeys rec opts aMap bMap path keys ∅ [])
    as [[pk merged]| | |] eqn:Em; try discriminate.
  simpl in E.
  assert (Hinv0 : keysInv ∅ []).
  { split; [constructor | split; [constructor |]].
    intros k Hk. apply elem_of_nil in Hk. contradiction. }
  destruct (mergeKeys_keys rec opts aMap bMap
              (fun k e => indexEntries_key _ _ _ k e Ea)
              (fun k e => indexEntries_key _ _ _ k e Eb)
              path keys _ _ _ _ Hinv0 Em) as [(Hf & Hn & _) Hall].
  assert (Hdone : forall k, k ∈ bKeys -> k ∈ pk).
  { intros k Hk. apply Hall. right. subst keys.
    assert (Hin : forall k', aMap !! k' = None <-> k' ∉ aKeys).
    { eapply indexEntries_keys; [|exact Ea]. intros k'.
      rewrite lookup_empty, elem_of_nil. tauto. }
    assert (Hk' : k ∈ aKeys ++ filter (fun key => aMap !! key = None) bKeys).
    { apply elem_of_app. destruct (aMap !! k) eqn:El.
      - left. destruct (decide (k ∈ aKeys)) as [|Hn']; [assumption |].
        apply Hin in Hn'. congruence.
      - right. apply list_elem_of_filter. auto. }
    destruct (negb (PreserveOrder opts)); [exact Hk' |].
    rewrite <- (keys_same aMap) by exact Hin. exact Hk'. }
  rewrite (appendUnprocessed_done bMap bKeys pk merged Hdone) in E.
  destruct (negb (isMode opts MergePreserve)); simpl in E;
    injection E as <-; eauto.
Qed.


(** ** Sequences *)

Lemma collect_clones (l : list (option Node)) (r : list (option Node)) :
  collect (map (fun y => rbind (CloneOf y) (fun n => Ok (Some n))) l) = Ok r ->
  r = l /\ Forall is_Some l.
Proof.
  revert r. induction l as [|y l IH]; intros r E; simpl in E.
  - injection E as <-. auto.
  - destruct y as [y|]; [|discriminate]. simpl in E. rewrite Clone_id in E.
    destruct (collect _) as [r'| | |]; try discriminate.
    injection E as <-. destruct (IH _ eq_refl) as [-> Hl].
    split; [reflexivity |]. constructor; [eauto | exact Hl].
Qed.

(** Merging by index gives as many items as the longer input has, none of
    them nil: the pairs are merged, the items beyond the shorter input are
    copied. *)
Theorem sequence_by_index
  (rec : option Node -> option Node -> string -> result Node)
  (ac : list (option Node)) :
  forall (bc : list (option Node)) (path : string) (i : nat)
         (r : list (option Node)),
    mergeByIndex rec ac bc path i = Ok r ->
    List.length r = Nat.max (List.length ac) (List.length bc)
    /\ Forall is_Some r
    /\ drop (List.length bc) r = drop (List.length bc) ac
    /\ drop (List.length ac) r = drop (List.length ac) bc.
Proof.
  induction ac as [|x ac IH]; intros bc path i r E; simpl in E.
  - apply collect_clones in E as [-> Hs]. simpl.
    rewrite drop_all, drop_nil. auto.
  - destruct bc as [|y bc].
    + destruct x as [x|]; [|discriminate]. simpl in E.
      rewrite Clone_id in E.
      destruct (mergeByIndex rec ac [] path (S i)) as [r'| | |] eqn:E';
        try discriminate.
      injection E as <-. destruct (IH _ _ _ _ E') as (Hl & Hs & Ha & Hb).
      simpl in *. rewrite ?drop_0 in Ha. subst r'.
      split; [reflexivity |].
      split; [constructor; eauto |].
      split; [reflexivity |]. rewrite drop_all. reflexivity.
    + destruct (rec x y _) as [n| | |]; try discriminate. simpl in E.
      destruct (mergeByIndex rec ac bc path (S i)) as [r'| | |] eqn:E';
        try discriminate.
      injection E as <-. destruct (IH _ _ _ _ E') as (Hl & Hs & Ha & Hb).
      simpl. rewrite Hl. split; [reflexivity |].
      split; [constructor; eauto |]. auto.
Qed.

(** The texts under which the items of a sequence are compared. *)
Lemma unionItems_texts (f : nat) (items : list (option Node)) :
  forall (seen : gset string) (merged : list (option Node))
         (keys : list string) seen' merged',
    Forall2 (fun item key => nodeToString f item = Ok key) merged keys ->
    NoDup keys -> (forall k, k ∈ keys <-> k ∈ seen) ->
    unionItems f items seen merged = Ok (seen', merged') ->
    exists keys',
      Forall2 (fun item key => nodeToString f item = Ok key) merged' keys'
      /\ NoDup keys' /\ (forall k, k ∈ keys' <-> k ∈ seen')
      /\ (forall k, k ∈ keys -> k ∈ keys')
      /\ Forall (fun item => exists key, nodeToString f item = Ok key
                                         /\ key ∈ keys') items.
Proof.
  induction items as [|item rest IH];
    intros seen merged keys seen' merged' Hm Hn Hs E; simpl in E.
  - injection E as <- <-. exists keys. repeat split; auto; apply Hs.
  - destruct (nodeToString f item) as [key| | |] eqn:Ek; try discriminate.
    simpl in E. destruct (bool_decide (key ∈ seen)) eqn:Hd.
    + apply bool_decide_eq_true in Hd.
      destruct (IH _ _ _ _ _ Hm Hn Hs E) as (keys' & H1 & H2 & H3 & H4 & H5).
      exists keys'. repeat split; auto; try apply H3.
      constructor; [|exact H5]. exists key. split; [exact Ek |].
      apply H4, Hs, Hd.
    + apply bool_decide_eq_false in Hd.
      destruct item as [n|]; [|discriminate]. simpl in E.
      rewrite Clone_id in E.
      destruct (IH ({[key]} ∪ seen) (merged ++ [Some n]) (keys ++ [key])
                  seen' merged') as (keys' & H1 & H2 & H3 & H4 & H5).
      * apply Forall2_app; [exact Hm |]. constructor; [exact Ek | constructor].
      * apply NoDup_app. split; [exact Hn |].
        split; [|apply NoDup_singleton].
        intros x Hx Hx'. apply list_elem_of_singleton in Hx'. subst x.
        apply Hd, Hs, Hx.
      * intros k. rewrite elem_of_app, list_elem_of_singleton, Hs.
        set_solver.
      * exact E.
      * exists keys'. repeat split; auto; try apply H3.
        -- intros k Hk. apply H4. set_solver.
        -- constructor; [|exact H5]. exists key. split; [exact Ek |].
           apply H4. set_solver.
Qed.

(** Under Union the merged sequence holds one item for every distinct
    emitted text of the items of A and B: no two of its items are emitted
    as the same text, and the text of every item of A and B is the text of
    one of them. *)
Theorem sequence_union
  (rec : option Node -> option Node -> string -> result Node)
  (opts : MergeOptions) (f : nat) (a b : Node) (ac bc : list (option Node))
  (st : CollectionStyle) (path : string) (r : Node) :
  ArrayStrategy opts = ArrayUnion ->
  mergeSequences rec opts f a b ac bc st path = Ok r ->
  exists base_ merged keys,
    r = Sequence base_ merged st
    /\ Forall2 (fun item key => nodeToString f item = Ok key) merged keys
    /\ NoDup keys
    /\ Forall (fun item => exists key, nodeToString f item = Ok key
                                       /\ key ∈ keys) (ac ++ bc).
Proof.
  intros Hu E. unfold mergeSequences in E. rewrite Hu in E.
  destruct (unionItems f ac ∅ []) as [[seen1 m1]| | |] eqn:E1;
    try discriminate.
  simpl in E.
  destruct (unionItems f bc seen1 m1) as [[seen2 m2]| | |] eqn:E2;
    try discriminate.
  simpl in E. injection E as <-.
  assert (H0 : forall k : string, k ∈ @nil string <-> k ∈ (∅ : gset string)).
  { intros x. rewrite elem_of_nil. set_solver. }
  destruct (unionItems_texts f ac ∅ [] [] seen1 m1
              (Forall2_nil_2 _ _ _) (NoDup_nil_2) H0 E1)
    as (k1 & H1 & H2 & H3 & _ & H5).
  destruct (unionItems_texts f bc seen1 m1 k1 seen2 m2 H1 H2 H3 E2)
    as (k2 & G1 & G2 & G3 & G4 & G5).
  exists (set_comment base0 (mergedComment opts a b)), m2, k2.
  repeat split; auto.
  apply Forall_app. split; [|exact G5].
  eapply Forall_impl; [exact H5 |]. simpl.
  intros item (key & Hk & Hin). eauto.
Qed.


(** ** Custom merge functions *)

(** The built-in rules, applied when no custom function has decided. *)
Lemma mergeNodesRecursive_S (f : nat) (a b : option Node)
  (opts : MergeOptions) (path : string) :
  mergeNodesRecursive (S f) a b opts path
  = rbind
      (match CustomMergeFunc opts with
       | Some custom =>
           rbind (nodeToInterface (S f) a) (fun ia =>
           rbind (nodeToInterface (S f) b) (fun ib =>
           match custom path ia ib with
           | (VNil, _) | (_, Some _) => Ok None
           | (res, None) => Ok (Some (interfaceToNode res))
           end))
       | None => Ok None
       end)
      (fun custom =>
         match custom with
         | Some n => Ok n
         | None => builtin (fun x y => mergeNodesRecursive f x y opts)
                           opts f a b path
         end).
Proof. reflexivity. Qed.

Lemma collect_imap_refine {A B} (l : list A) :
  forall (F1 F2 : nat -> A -> result B),
    (forall i x r, F1 i x = Ok r -> F2 i x = Ok r) ->
    forall r, collect (imap F1 l) = Ok r -> collect (imap F2 l) = Ok r.
Proof.
  induction l as [|x l IH]; intros F1 F2 HF r E; simpl in *; [exact E |].
  destruct (F1 O x) as [y| | |] eqn:E1; try discriminate.
  rewrite (HF _ _ _ E1). simpl in *.
  destruct (collect (imap (F1 ∘ S) l)) as [r'| | |] eqn:E2;
    try discriminate.
  rewrite (IH (F1 ∘ S) (F2 ∘ S) (fun i => HF (S i)) r' E2). exact E.
Qed.

Section Refine.
Variables rec1 rec2 : option Node -> option Node -> string -> result Node.
Hypothesis rec_ok : forall x y path r,
    rec1 x y path = Ok r -> rec2 x y path = Ok r.
Variable opts : MergeOptions.

Lemma collect_pairs_refine (l : list (option Node * option Node)) :
  forall (g : nat -> string) r,
    collect (imap (fun i ab => rbind (rec1 ab.1 ab.2 (g i))
                                     (fun n => Ok (Some n))) l) = Ok r ->
    collect (imap (fun i ab => rbind (rec2 ab.1 ab.2 (g i))
                                     (fun n => Ok (Some n))) l) = Ok r.
Proof.
  intros g. apply collect_imap_refine. intros i ab r E.
  destruct (rec1 ab.1 ab.2 (g i)) as [n| | |] eqn:E1; try discriminate.
  rewrite (rec_ok _ _ _ _ E1). exact E.
Qed.

Lemma mergeDocuments_refine a b ac bc path r :
  mergeDocuments rec1 opts a b ac bc path = Ok r ->
  mergeDocuments rec2 opts a b ac bc path = Ok r.
Proof.
  unfold mergeDocuments. intros E.
  destruct (length ac =? 0)%nat; [exact E |].
  destruct (length bc =? 0)%nat; [exact E |].
  match type of E with
  | rbind ?c _ = _ => destruct c as [r'| | |] eqn:E1; try discriminate
  end.
  rewrite (collect_pairs_refine (zip ac bc)
             (fun i => path +:+ "[" +:+ itoa i +:+ "]") r' E1).
  exact E.
Qed.

Lemma mergeKeys_refine aMap bMap path keys :
  forall processedKeys merged r,
    mergeKeys rec1 opts aMap bMap path keys processedKeys merged = Ok r ->
    mergeKeys rec2 opts aMap bMap path keys processedKeys merged = Ok r.
Proof.
  induction keys as [|key rest IH]; intros pk merged r E; simpl in *;
    [exact E |].
  destruct (bool_decide (key ∈ pk)); [apply IH, E |].
  destruct (aMap !! key) as [aEntry|], (bMap !! key) as [bEntry|];
    simpl in *;
    try (match type of E with
         | rbind ?c _ = _ => destruct c as [m1| | |]; try discriminate
         end; simpl in *; apply IH, E).
  - destruct (rec1 _ _ _) as [n| | |] eqn:E1; try discriminate.
    rewrite (rec_ok _ _ _ _ E1). simpl in *.
    destruct (CloneOf (Key aEntry)); try discriminate.
    simpl in *. apply IH, E.
  - apply IH, E.
Qed.

Lemma mergeByIndex_refine ac :
  forall bc path i r,
    mergeByIndex rec1 ac bc path i = Ok r ->
    mergeByIndex rec2 ac bc path i = Ok r.
Proof.
  induction ac as [|x ac IH]; intros bc path i r E; simpl in *; [exact E |].
  destruct bc as [|y bc].
  - destruct (CloneOf x); try discriminate. simpl in *.
    destruct (mergeByIndex rec1 ac [] path (S i)) as [r'| | |] eqn:E1;
      try discriminate.
    rewrite (IH _ _ _ _ E1). exact E.
  - destruct (rec1 x y _) as [n| | |] eqn:E0; try discriminate.
    rewrite (rec_ok _ _ _ _ E0). simpl in *.
    destruct (mergeByIndex rec1 ac bc path (S i)) as [r'| | |] eqn:E1;
      try discriminate.
    rewrite (IH _ _ _ _ E1). exact E.
Qed.

Lemma mergeSequences_refine fuel a b ac bc st path r :
  mergeSequences rec1 opts fuel a b ac bc st path = Ok r ->
  mergeSequences rec2 opts fuel a b ac bc st path = Ok r.
Proof.
  unfold mergeSequences. intros E.
  destruct (ArrayStrategy opts); try exact E.
  destruct (mergeByIndex rec1 ac bc path 0) as [r'| | |] eqn:E1;
    try discriminate.
  rewrite (mergeByIndex_refine _ _ _ _ _ E1). exact E.
Qed.

Lemma mergeMappings_refine a b ac bc st path r :
  mergeMappings rec1 opts a b ac bc st path = Ok r ->
  mergeMappings rec2 opts a b ac bc st path = Ok r.
Proof.
  unfold mergeMappings. intros E.
  destruct (indexEntries ac ∅ []) as [[aMap aKeys]| | |];
    try discriminate.
  destruct (indexEntries bc ∅ []) as [[bMap bKeys]| | |];
    try discriminate.
  simpl in *.
  match type of E with
  | rbind ?c _ = _ => destruct c as [r'| | |] eqn:E1; try discriminate
  end.
  rewrite (mergeKeys_refine _ _ _ _ _ _ _ E1). exact E.
Qed.

End Refine.


End MergeMore.

(** ** Instances *)

Lemma merge_with_nil_witness :
  let opts := @examples.options asciiStd yaml.MergeDeep false in
  @yaml.mergeNodesRecursive asciiStd 1 None (Some (ast.NewScalar "1")) opts ""
  = Ok (ast.NewScalar "1")
  /\ @yaml.mergeNodesRecursive asciiStd 1 (Some (ast.NewScalar "1")) None
       opts ""
     = Ok (ast.NewScalar "1")
  /\ @yaml.mergeNodesRecursive asciiStd 1 None None opts ""
     = Panic "invalid memory address or nil pointer dereference".
Proof.
  intros opts.
  apply (@merge_with_nil asciiStd 0 (ast.NewScalar "1") opts "").
  reflexivity.
Defined.

Lemma merge_kind_mismatch_witness :
  @yaml.mergeNodesRecursive asciiStd 1 (Some (ast.NewScalar "1"))
    (Some examples.twice) (examples.options yaml.MergeDeep false) "a.b"
  = Err "type mismatch at a.b: 1 vs 2".
Proof.
  apply (@merge_kind_mismatch asciiStd 0 (ast.NewScalar "1") examples.twice
           (examples.options yaml.MergeDeep false) "a.b").
  - reflexivity.
  - vm_compute. discriminate.
Defined.

Lemma merge_scalars_witness :
  let opts := @examples.options asciiStd yaml.MergePreserve false in
  let lineC := ast.mkComment "" "c" "" "" "" in
  exists c,
    @yaml.mergeNodesRecursive asciiStd 1 (Some (ast.NewScalar "1"))
      (Some (examples.commented "2" "c")) opts ""
    = Ok (ast.Scalar (ast.set_comment ast.base0 c) "1" ast.PlainStyle)
    /\ c = yaml.mergeComments ast.noComment lineC.
Proof.
  intros opts lineC.
  destruct (@merge_scalars asciiStd 0 ast.base0
              (ast.set_comment ast.base0 lineC) "1" "2"
              ast.PlainStyle ast.PlainStyle opts "")
    as (c & Hm & Hc).
  - reflexivity.
  - exists c. split; [exact Hm |]. apply Hc; reflexivity.
Defined.

Lemma merged_mapping_has_distinct_keys_witness :
  exists base_ merged,
    ast.Mapping ast.base0
      [Some (ast.mkEntry (examples.scalar "k") (examples.scalar "2")
               ast.noComment)] ast.BlockStyle
    = ast.Mapping base_ merged ast.BlockStyle
    /\ mergecases.fullEntries merged /\ NoDup (mergespec.keysOf merged).
Proof.
  apply (@merged_mapping_has_distinct_keys asciiStd
           (fun x y =>
              @yaml.mergeNodesRecursive asciiStd 1 x y
                (examples.options yaml.MergeDeep false))
           (examples.options yaml.MergeDeep false)
           examples.twice examples.twice
           [examples.entry "k" (examples.scalar "1");
            examples.entry "k" (examples.scalar "2")]
           [examples.entry "k" (examples.scalar "1");
            examples.entry "k" (examples.scalar "2")]
           ast.BlockStyle "").
  vm_compute. reflexivity.
Defined.

Lemma sequence_by_index_witness :
  let r := [examples.scalar "2"; examples.scalar "3"] in
  List.length r = Nat.max 1 2
  /\ Forall is_Some r
  /\ drop 2 r = drop 2 [examples.one]
  /\ drop 1 r = drop 1 [examples.scalar "2"; examples.scalar "3"].
Proof.
  intros r.
  apply (sequence_by_index
           (fun x y =>
              @yaml.mergeNodesRecursive asciiStd 1 x y
                (examples.options yaml.MergeDeep false))
           [examples.one] [examples.scalar "2"; examples.scalar "3"] "" O).
  vm_compute. reflexivity.
Defined.

Lemma sequence_union_witness :
  let opts :=
    @yaml.mkOptions asciiStd yaml.MergeDeep yaml.ArrayUnion false false false
      None in
  exists base_ merged keys,
    ast.Sequence ast.base0 [examples.one; examples.scalar "2"] ast.BlockStyle
    = ast.Sequence base_ merged ast.BlockStyle
    /\ Forall2 (fun item key => @yaml.nodeToString asciiStd 2 item = Ok key)
               merged keys
    /\ NoDup keys
    /\ Forall (fun item => exists key,
                   @yaml.nodeToString asciiStd 2 item = Ok key /\ key ∈ keys)
              ([examples.one; examples.one]
               ++ [examples.one; examples.scalar "2"]).
Proof.
  intros opts.
  apply (@sequence_union asciiStd
           (fun x y => @yaml.mergeNodesRecursive asciiStd 1 x y opts)
           opts 2 examples.twice examples.twice
           [examples.one; examples.one] [examples.one; examples.scalar "2"]
           ast.BlockStyle "").
  - reflexivity.
  - vm_compute. reflexivity.
Defined.


(** * Further properties of the encoder and of the reading of scalars *)

Section EncoderMore.
Import ast yaml emitspec.
Context `{GoStd}.

Lemma writeAll_noError (parts : list (result string)) :
  Forall noError parts -> noError (writeAll parts).
Proof.
  induction 1 as [|p ps Hp _ IH]; intros msg; simpl; [discriminate |].
  destruct p as [a| m | |]; simpl; try discriminate.
  - destruct (writeAll ps) as [b| m | |] eqn:E; simpl; try discriminate.
    exfalso. exact (IH m eq_refl).
  - exfalso. exact (Hp m eq_refl).
Qed.

Lemma imap_noError {A} (f : nat -> A -> result string) (l : list A) :
  (forall i x, noError (f i x)) -> Forall noError (imap f l).
Proof.
  revert f. induction l as [|x l IH]; intros f Hf; simpl; constructor.
  - apply Hf.
  - apply IH. intros i y. apply Hf.
Qed.

Lemma rbind_noError {A B} (r : result A) (k : A -> result B) :
  noError r -> (forall a, noError (k a)) -> noError (rbind r k).
Proof.
  intros Hr Hk msg. destruct r as [a| m | |]; simpl; try discriminate.
  - apply Hk.
  - exfalso. exact (Hr m eq_refl).
Qed.

Lemma Ok_noError {A} (a : A) : noError (Ok a).
Proof. intros msg. discriminate. Qed.


(** *** Words that read as nil or as a boolean *)

Lemma lower_ascii_idem (c : ascii) : lower_ascii (lower_ascii c) = lower_ascii c.
Proof.
  destruct c as [[] [] [] [] [] [] [] []]; vm_compute; reflexivity.
Qed.

Lemma lower_ascii_code (c : ascii) :
  (code (lower_ascii c) <? 128) = true -> (code c <? 128) = true.
Proof.
  destruct c as [[] [] [] [] [] [] [] []]; vm_compute; auto.
Qed.

Lemma EqualFold_ToLower (s : string) :
  forallb (fun c => code c <? 128) (bytes (ToLower s)) = true ->
  EqualFold s (ToLower s) = true.
Proof.
  unfold EqualFold. induction s as [|d s IH]; simpl; [reflexivity |].
  intros Ha. apply andb_true_iff in Ha as [Hd Hs].
  rewrite (lower_ascii_code _ Hd), lower_ascii_idem, Ascii.eqb_refl.
  simpl. apply IH, Hs.
Qed.

Lemma Contains_nl (s : string) : Contains s nl = true -> In LF (bytes s).
Proof.
  induction s as [|d s IH]; [discriminate |].
  intros Hc.
  change (String.prefix nl (String d s) || Contains s nl = true) in Hc.
  change (d = LF \/ In LF (bytes s)).
  apply orb_true_iff in Hc as [Hc | Hc]; [|right; apply IH, Hc].
  left. apply String.prefix_correct in Hc. unfold nl, str1 in Hc.
  simpl in Hc. injection Hc as Hd. exact Hd.
Qed.

Lemma ToLower_LF (s : string) : In LF (bytes s) -> In LF (bytes (ToLower s)).
Proof.
  induction s as [|d s IH]; simpl; [auto |].
  intros [-> | Hin]; [left; reflexivity | right; apply IH, Hin].
Qed.

Lemma parseBool_word (s : string) (b : bool) :
  parseBool s = Some b ->
  In (ToLower s) ["true"; "yes"; "on"; "false"; "no"; "off"].
Proof.
  unfold parseBool.
  destruct (String.eqb_spec (ToLower s) "true") as [->|_]; [simpl; auto |].
  destruct (String.eqb_spec (ToLower s) "yes") as [->|_]; [simpl; auto |].
  destruct (String.eqb_spec (ToLower s) "on") as [->|_]; [simpl; auto |].
  destruct (String.eqb_spec (ToLower s) "false") as [->|_];
    [simpl; auto 6 |].
  destruct (String.eqb_spec (ToLower s) "no") as [->|_]; [simpl; auto 6 |].
  destruct (String.eqb_spec (ToLower s) "off") as [->|_]; [simpl; auto 7 |].
  discriminate.
Qed.

Lemma bool_word_needsQuoting (s : string) (b : bool) :
  parseBool s = Some b -> needsQuoting s = true /\ Contains s nl = false.
Proof.
  intros Hb. apply parseBool_word in Hb.
  assert (Hf : EqualFold s (ToLower s) = true).
  { apply EqualFold_ToLower.
    simpl in Hb. intuition; match goal with
                           | E : _ = ToLower s |- _ => rewrite <- E
                           end; reflexivity. }
  split.
  - unfold needsQuoting. destruct (String.eqb s ""); [reflexivity |].
    replace (existsb (EqualFold s) specialValues) with true; [reflexivity |].
    symmetry. apply existsb_exists. exists (ToLower s).
    split; [|exact Hf]. simpl in Hb. simpl. intuition.
  - destruct (Contains s nl) eqn:Hc; [|reflexivity]. exfalso.
    apply Contains_nl, ToLower_LF in Hc.
    simpl in Hb. intuition; match goal with
                           | E : _ = ToLower s |- _ => rewrite <- E in Hc
                           end; simpl in Hc; intuition discriminate.
Qed.

(** A string that the reader takes for nil or for a boolean ([null], [~],
    the empty string, and [true], [yes], [on], [false], [no], [off] in any
    letter case) is never left plain by [createStringNode]: it is written
    in double quotes. *)
Theorem nil_and_bool_words_are_quoted (s : string) :
  (parseScalarValue "" s = VNil \/ exists b, parseScalarValue "" s = VBool b) ->
  createStringNode s = Scalar base0 s DoubleQuotedStyle.
Proof.
  unfold parseScalarValue, sniff. simpl.
  destruct (String.eqb_spec s "") as [-> | _]; [reflexivity |].
  destruct (String.eqb_spec s "null") as [-> | _]; [reflexivity |].
  destruct (String.eqb_spec s "~") as [-> | _]; [reflexivity |].
  simpl. destruct (parseBool s) as [b|] eqn:Hb.
  - intros _. destruct (bool_word_needsQuoting s b Hb) as [Hq Hn].
    unfold createStringNode. rewrite Hn, Hq. reflexivity.
  - intros [Hv | [b Hv]]; exfalso;
      destruct (parseInt s); try discriminate;
      destruct (parseFloat s); discriminate.
Qed.

(** A host string that spells a boolean does not survive the way through a
    node: [valueToNode] makes a double-quoted scalar without a tag of it,
    and [nodeToInterface], which looks at the tag and the value only, reads
    a boolean back. *)
Theorem bool_word_round_trip (f : nat) (s : string) (b : bool) :
  parseBool s = Some b ->
  valueToNode (VString s) = Scalar base0 s DoubleQuotedStyle
  /\ nodeToInterface (S f) (Some (valueToNode (VString s))) = Ok (VBool b).
Proof.
  intros Hb. destruct (bool_word_needsQuoting s b Hb) as [Hq Hn].
  assert (Hv : valueToNode (VString s) = Scalar base0 s DoubleQuotedStyle).
  { simpl. unfold createStringNode. rewrite Hn, Hq. reflexivity. }
  split; [exact Hv |]. rewrite Hv. simpl. unfold parseScalarValue. simpl.
  destruct (String.eqb_spec s "") as [-> | _]; [discriminate |].
  destruct (String.eqb_spec s "null") as [-> | _]; [discriminate |].
  destruct (String.eqb_spec s "~") as [-> | _]; [discriminate |].
  simpl. unfold sniff. rewrite Hb. reflexivity.
Qed.

End EncoderMore.

Lemma nil_and_bool_words_are_quoted_witness :
  @yaml.createStringNode asciiStd "Yes"
  = ast.Scalar ast.base0 "Yes" ast.DoubleQuotedStyle.
Proof.
  apply (@nil_and_bool_words_are_quoted asciiStd "Yes").
  right. exists true. vm_compute. reflexivity.
Defined.

Lemma bool_word_round_trip_witness :
  @yaml.valueToNode asciiStd (yaml.VString "no")
  = ast.Scalar ast.base0 "no" ast.DoubleQuotedStyle
  /\ @yaml.nodeToInterface asciiStd 1
       (Some (@yaml.valueToNode asciiStd (yaml.VString "no")))
     = Ok (yaml.VBool false).
Proof.
  apply (@bool_word_round_trip asciiStd 0 "no" false).
  vm_compute. reflexivity.
Defined.

(** * Further properties of the scanner *)

Section ScannerMore.
Import lexer scanspec.
Context `{GoStd}.

(** ** Chomping *)

Lemma TrimRight1_app_LF (x : string) (k : nat) :
  TrimRight1 (x +:+ repeatLF k) LF = TrimRight1 x LF.
Proof.
  induction x as [|d x IH].
  - rewrite append_nil_l. induction k as [|k IHk]; [reflexivity |].
    simpl. rewrite IHk. reflexivity.
  - rewrite append_cons. simpl. rewrite IH. reflexivity.
Qed.

Lemma TrimRight1_idem (v : string) :
  TrimRight1 (TrimRight1 v LF) LF = TrimRight1 v LF.
Proof.
  destruct (TrimRight1_split v) as (k & Hv & _).
  rewrite Hv at 2. rewrite TrimRight1_app_LF. reflexivity.
Qed.

(** Chomping a value that was chomped with the same indicator changes
    nothing. *)
Theorem applyChomping_idempotent (value chomping : string) :
  applyChomping (applyChomping value chomping) chomping
  = applyChomping value chomping.
Proof.
  unfold applyChomping.
  destruct (String.eqb chomping "-"); [apply TrimRight1_idem |].
  destruct (negb (String.eqb chomping "+")); [|reflexivity].
  change nl with (repeatLF 1).
  rewrite TrimRight1_app_LF, TrimRight1_idem. reflexivity.
Qed.

(** ** Tokens pushed back *)

Lemma Scan_pending (s : Scanner) (t : Token) (ts : list Token) :
  pending s = t :: ts ->
  Scan s = (t, set_tokens s (tokens s) (S (tokenIndex s)))
  /\ pending (Scan s).2 = ts.
Proof.
  unfold pending, Scan. intros Hp.
  assert (Hl : tokens s !! tokenIndex s = Some t).
  { rewrite <- (Nat.add_0_r (tokenIndex s)), <- lookup_drop, Hp.
    reflexivity. }
  pose proof (lookup_lt_Some _ _ _ Hl) as Hlt.
  apply Nat.ltb_lt in Hlt. rewrite Hlt, Hl. split; [reflexivity |].
  simpl. rewrite <- (Nat.add_1_r (tokenIndex s)), <- drop_drop, Hp.
  reflexivity.
Qed.

(** Tokens pushed back come out again last in, first out, before anything
    else: after [PushBack t1] and [PushBack t2], [Scan] returns [t2], then
    [t1], and the scanner then continues as it would have without them (the
    same pending tokens, the same position in the input). *)
Theorem PushBack_is_a_stack (t1 t2 : Token) (s : Scanner) :
  let s2 := (PushBack t2 (PushBack t1 s).2).2 in
  let s3 := (Scan s2).2 in
  let s4 := (Scan s3).2 in
  (Scan s2).1 = t2 /\ (Scan s3).1 = t1
  /\ pending s4 = pending s
  /\ set_tokens s4 [] O = set_tokens s [] O.
Proof.
  intros s2 s3 s4.
  assert (H2 : pending s2 = t2 :: t1 :: pending s) by reflexivity.
  destruct (Scan_pending s2 t2 _ H2) as [E2 H3]. fold s3 in H3.
  destruct (Scan_pending s3 t1 _ H3) as [E3 H4]. fold s4 in H4.
  split; [exact (f_equal fst E2) |]. split; [exact (f_equal fst E3) |].
  split; [exact H4 |].
  transitivity (set_tokens s3 [] O).
  - unfold s4. exact (f_equal (fun r => set_tokens r.2 [] O) E3).
  - unfold s3. exact (f_equal (fun r => set_tokens r.2 [] O) E2).
Qed.

(** ** The end of the input *)

(** At the end of the input, with no token pushed back, [Scan] returns an
    EOF token at the current position and leaves the scanner as it is: every
    later [Scan] returns the same token. *)
Theorem Scan_at_end (s : Scanner) :
  pending s = [] -> reader s = [] ->
  (List.length (buffer s) <= position s)%nat ->
  Scan s = (mkToken TokenEOF "" (line s) (column s) (offset s), s).
Proof.
  intros Hp Hr Hb. unfold Scan.
  assert (Hi : (tokenIndex s <? List.length (tokens s))%nat = false).
  { apply Nat.ltb_ge. unfold pending in Hp.
    apply (f_equal (@List.length Token)) in Hp. rewrite length_drop in Hp.
    simpl in Hp. lia. }
  rewrite Hi.
  assert (He : isEOF s = (true, s)).
  { unfold isEOF, fillBuffer. apply Nat.leb_le in Hb. rewrite Hb, Hr.
    reflexivity. }
  assert (Hw : skipWhitespace s = (tt, s)).
  { unfold skipWhitespace, remaining, whileM.
    replace (List.length (buffer s) - position s + List.length (reader s))%nat
      with O by (rewrite Hr; simpl; lia).
    simpl. unfold andM, notM, bind. rewrite He. reflexivity. }
  unfold scanNext, bind. rewrite Hw, He. reflexivity.
Qed.


(** ** Numbers *)

Lemma isNumber_loop_step (c : ascii) (r : list ascii) (f : nat)
  (first : bool) (prev : ascii) :
  numberChar c = true ->
  isNumber_loop (S f) first prev (c :: r) = isNumber_loop f false c r.
Proof.
  destruct c as [[] [] [] [] [] [] [] []]; intros Hc;
    try discriminate Hc; reflexivity.
Qed.

Lemma isNumber_loop_chars (l : list ascii) :
  forall f first prev,
    forallb numberChar l = true -> isNumber_loop f first prev l = true.
Proof.
  induction l as [|c l IH]; intros f first prev Hl.
  - destruct f; reflexivity.
  - destruct f as [|f]; [reflexivity |].
    simpl in Hl. apply andb_true_iff in Hl as [Hc Hl].
    rewrite (isNumber_loop_step c l f first prev Hc). apply IH, Hl.
Qed.

Lemma numberChar_not_word (c : ascii) (r : string) :
  numberChar c = true ->
  String.eqb (String c r) "null" = false
  /\ String.eqb (String c r) "~" = false
  /\ (let lower := ToLower (String c r) in
      String.eqb lower "true" || String.eqb lower "false"
      || String.eqb lower "yes" || String.eqb lower "no"
      || String.eqb lower "on" || String.eqb lower "off") = false.
Proof.
  destruct c as [[] [] [] [] [] [] [] []]; intros Hc;
    try discriminate Hc; repeat split; reflexivity.
Qed.

(** [isNumber] checks the alphabet only: every non-empty scalar made of
    digits and of the bytes [.], [e], [E] and [_] is scanned as a number,
    whether it is the text of a number ([12], [1.5e3]) or not ([e],
    [1.2.3], [__]). *)
Theorem number_alphabet_is_a_number (value : string) :
  value <> "" -> forallb numberChar (bytes value) = true ->
  detectScalarType value = TokenNumber.
Proof.
  intros Hne Hc. destruct value as [|c r]; [congruence |].
  assert (Hn : isNumber (String c r) = true).
  { unfold isNumber. cbn [String.length Nat.eqb].
    repeat match goal with
           | |- (if ?b then true else _) = true => destruct b; [reflexivity |]
           end.
    apply isNumber_loop_chars, Hc. }
  simpl in Hc. apply andb_true_iff in Hc as [Hc _].
  destruct (numberChar_not_word c r Hc) as (H1 & H2 & H3).
  unfold detectScalarType. rewrite H1, H2. cbn [String.eqb orb].
  cbv zeta in H3. rewrite H3, Hn. reflexivity.
Qed.

End ScannerMore.


(** ** Progress

    Every scan that does not return EOF consumes at least one byte, so the
    tokens of an input are finitely many. *)

Section Progress.
Import lexer scanspec.
Context `{GoStd}.

Lemma see_refl s : see s s.
Proof. unfold see. auto 10. Qed.

Lemma see_trans s1 s2 s3 : see s1 s2 -> see s2 s3 -> see s1 s3.
Proof.
  unfold see. intros (?&?&?&?&?&?) (?&?&?&?&?&?).
  repeat split; try congruence; lia.
Qed.

Lemma went_refl s : went s s.
Proof. unfold went. auto 10. Qed.

Lemma went_trans s1 s2 s3 : went s1 s2 -> went s2 s3 -> went s1 s3.
Proof.
  unfold went. intros (?&?&?&?&?) (?&?&?&?&?).
  repeat split; try congruence; try lia. auto.
Qed.

Lemma see_went s s' : see s s' -> went s s'.
Proof.
  unfold see, went, ok. intros (?&?&?&?&?&?). repeat split; auto; lia.
Qed.

Lemma See_Went {A} (m : St A) : See m -> Went m.
Proof. intros Hm s. apply see_went, Hm. Qed.

Lemma See_ret {A} (a : A) : See (ret a).
Proof. intros s. apply see_refl. Qed.

Lemma See_get {A} (f : Scanner -> A) : See (get f).
Proof. intros s. apply see_refl. Qed.

Lemma See_bind {A B} (m : St A) (k : A -> St B) :
  See m -> (forall a, See (k a)) -> See (bind m k).
Proof.
  intros Hm Hk s. unfold bind. specialize (Hm s).
  destruct (m s) as [a s1]. eapply see_trans; [exact Hm | apply Hk].
Qed.

Lemma Went_ret {A} (a : A) : Went (ret a).
Proof. intros s. apply went_refl. Qed.

Lemma Went_bind {A B} (m : St A) (k : A -> St B) :
  Went m -> (forall a, Went (k a)) -> Went (bind m k).
Proof.
  intros Hm Hk s. unfold bind. specialize (Hm s).
  destruct (m s) as [a s1]. eapply went_trans; [exact Hm | apply Hk].
Qed.

Lemma See_fillBuffer : See fillBuffer.
Proof.
  intros s. unfold fillBuffer. destruct (reader s) as [|b r] eqn:Hr.
  - apply see_refl.
  - unfold see, input. simpl. rewrite Hr, length_app, <- app_assoc. simpl.
    repeat split; auto; lia.
Qed.

Lemma See_while (step : Scanner -> bool * Scanner) :
  (forall s, see s (step s).2) ->
  forall fuel s, see s (while fuel step s).
Proof.
  intros Hs fuel. induction fuel as [|f IH]; intros s; simpl.
  - apply see_refl.
  - specialize (Hs s). destruct (step s) as [more s1]. simpl in Hs.
    destruct more; [eapply see_trans; [exact Hs | apply IH] | exact Hs].
Qed.

Lemma See_fill_through off : forall s, see s (fill_through off s).2.
Proof.
  intros s. unfold fill_through.
  destruct (_ <=? _)%nat; [apply See_fillBuffer | apply see_refl].
Qed.

Lemma See_peek : See peek.
Proof.
  intros s. unfold peek. simpl.
  destruct (_ <=? _)%nat; [apply See_fillBuffer | apply see_refl].
Qed.

Lemma See_peekAhead off : See (peekAhead off).
Proof.
  intros s. unfold peekAhead.
  exact (See_while _ (See_fill_through off) _ s).
Qed.

Lemma See_isEOF : See isEOF.
Proof.
  intros s. unfold isEOF. destruct (_ <=? _)%nat; [|apply see_refl].
  pose proof (See_fillBuffer s). destruct (fillBuffer s). assumption.
Qed.

Lemma See_isEOFAt off : See (isEOFAt off).
Proof.
  intros s. unfold isEOFAt.
  exact (See_while _ (See_fill_through off) _ s).
Qed.

Lemma See_makeToken t v : See (makeToken t v).
Proof. intros s. apply see_refl. Qed.

Lemma See_andM (a b : St bool) : See a -> See b -> See (andM a b).
Proof.
  intros Ha Hb. apply See_bind; [exact Ha |].
  intros [|]; [exact Hb | apply See_ret].
Qed.

Lemma See_orM (a b : St bool) : See a -> See b -> See (orM a b).
Proof.
  intros Ha Hb. apply See_bind; [exact Ha |].
  intros [|]; [apply See_ret | exact Hb].
Qed.

Lemma See_notM (a : St bool) : See a -> See (notM a).
Proof. intros Ha. apply See_bind; [exact Ha | intros; apply See_ret]. Qed.

Lemma See_peek_is c : See (peek_is c).
Proof. apply See_bind; [apply See_peek | intros; apply See_ret]. Qed.

Lemma See_peek_isnt c : See (peek_isnt c).
Proof. apply See_notM, See_peek_is. Qed.

Lemma See_countIndent : See countIndent.
Proof. apply See_get. Qed.

Lemma See_key_ahead ch : See (key_ahead ch).
Proof.
  unfold key_ahead.
  repeat first [ apply See_andM | apply See_orM | apply See_ret
               | apply See_isEOFAt
               | apply See_bind; [apply See_peekAhead | intros] ].
Qed.

Lemma Went_advance : Went advance.
Proof.
  intros s. unfold advance. destruct (_ <? _)%nat eqn:E; [|apply went_refl].
  apply Nat.ltb_lt in E. unfold went, ok, input. simpl.
  repeat split; auto; lia.
Qed.

Lemma Went_newline : Went newline.
Proof. intros s. unfold went, newline, ok, input. simpl. auto 10. Qed.

Lemma Went_modify_flow (f : Scanner -> Z) :
  Went (modify (fun s => set_inFlow s (f s))).
Proof. intros s. unfold went, modify, ok, input. simpl. auto 10. Qed.

Lemma Went_modify_flow_if (c : Scanner -> bool) (f : Scanner -> Z) :
  Went (modify (fun s => if c s then set_inFlow s (f s) else s)).
Proof.
  intros s. unfold modify. simpl. destruct (c s); [|apply went_refl].
  unfold went, ok, input. simpl. auto 10.
Qed.

Lemma Went_whileM {A} (step : A -> St (bool * A)) :
  (forall a, Went (step a)) -> forall fuel a, Went (whileM fuel step a).
Proof.
  intros Hs fuel. unfold whileM.
  assert (G : forall st : A * Scanner,
    went st.2 (while fuel
      (fun st : A * Scanner =>
         let '((more, a'), s') := step st.1 st.2 in (more, (a', s'))) st).2).
  { induction fuel as [|f IH]; intros [a s]; simpl.
    - apply went_refl.
    - specialize (Hs a s). destruct (step a s) as [[more a'] s1].
      simpl in Hs. destruct more; [|exact Hs].
      eapply went_trans; [exact Hs | apply (IH (a', s1))]. }
  intros a s. apply (G (a, s)).
Qed.

Lemma Went_loop {A} (step : A -> St (bool * A)) (fuel : Scanner -> nat) a :
  (forall a, Went (step a)) -> Went (fun s => whileM (fuel s) step a s).
Proof. intros Hs s. apply Went_whileM, Hs. Qed.

End Progress.

Create HintDb see.
Create HintDb went.

#[local] Hint Resolve See_ret See_get See_fillBuffer See_peek
  See_peekAhead See_isEOF See_isEOFAt See_makeToken See_peek_is
  See_peek_isnt See_countIndent See_key_ahead : see.
#[local] Hint Resolve Went_ret Went_advance Went_newline Went_modify_flow
  Went_modify_flow_if : went.

Ltac see_tac :=
  repeat first
    [ apply See_andM | apply See_orM | apply See_notM
    | apply See_bind; [|intros ?]
    | solve [auto with see]
    | match goal with
      | |- scanspec.See (if ?b then _ else _) => destruct b
      end ].

Ltac went_tac :=
  repeat first
    [ solve [auto with went]
    | solve [apply See_Went; see_tac]
    | apply Went_bind; [|intros ?]
    | apply Went_loop; intros ?
    | match goal with
      | |- scanspec.Went (if ?b then _ else _) => destruct b
      | |- scanspec.Went (let (_, _) := ?x in _) => destruct x
      end ].

Section ProgressScan.
Import lexer scanspec.
Context `{GoStd}.

Lemma Went_read_line buf : Went (read_line buf).
Proof. unfold read_line. went_tac; try (unfold read_line_step; went_tac). Qed.

Lemma Went_read_while p buf : Went (read_while p buf).
Proof. unfold read_while. went_tac. Qed.

Lemma Went_skipWhitespace : Went skipWhitespace.
Proof. unfold skipWhitespace. went_tac. Qed.

Lemma Went_skipToEndOfLine : Went skipToEndOfLine.
Proof. unfold skipToEndOfLine. went_tac. Qed.

Lemma Went_skipIndent count : Went (skipIndent count).
Proof.
  intros s. unfold skipIndent.
  match goal with
  | |- context [whileM ?f ?st ?a s] =>
      assert (G : went s (whileM f st a s).2);
      [ apply Went_whileM; intros ?; went_tac
      | destruct (whileM f st a s); exact G ]
  end.
Qed.

Lemma Went_consume_newline : Went consume_newline.
Proof. unfold consume_newline. went_tac. Qed.

Lemma Went_scanChompingIndicator : Went scanChompingIndicator.
Proof. unfold scanChompingIndicator. went_tac. Qed.

#[local] Hint Resolve Went_read_line Went_read_while Went_skipWhitespace
  Went_skipToEndOfLine Went_skipIndent Went_consume_newline
  Went_scanChompingIndicator : went.

Lemma Went_blockHeader : Went blockHeader.
Proof. unfold blockHeader. went_tac. Qed.

Lemma Went_literalContent : Went literalContent.
Proof. unfold literalContent. went_tac. Qed.

Lemma Went_foldedContent : Went foldedContent.
Proof.
  unfold foldedContent. went_tac.
  all: try (unfold folded_step;
            match goal with |- Went (let (_, _) := ?x in _) => destruct x end;
            went_tac).
Qed.

#[local] Hint Resolve Went_blockHeader Went_literalContent Went_foldedContent
  : went.

Lemma Went_scalar_loop : forall fuel a, Went (whileM fuel scalar_step a).
Proof. apply Went_whileM. intros a. unfold scalar_step. went_tac. Qed.

Lemma Went_scanNext : Went scanNext.
Proof.
  unfold scanNext, scanComment, scanNewline, scanDocumentStart,
    scanDocumentEnd, scanSequenceItem, scanFlowSequenceStart,
    scanFlowSequenceEnd, scanFlowMappingStart, scanFlowMappingEnd,
    scanFlowEntry, scanKey, scanLiteralBlock, scanFoldedBlock,
    scanSingleQuotedString, scanDoubleQuotedString, scanAnchor, scanAlias,
    scanTag, scanScalar.
  went_tac;
    try (unfold single_step; went_tac);
    try (unfold double_step; went_tac);
    try (unfold scalar_step; went_tac).
Qed.

End ProgressScan.

#[local] Hint Resolve Went_read_line Went_read_while Went_skipWhitespace
  Went_skipToEndOfLine Went_skipIndent Went_consume_newline
  Went_scanChompingIndicator Went_blockHeader Went_literalContent
  Went_foldedContent : went.

Section Observe.
Import lexer scanspec.
Context `{GoStd}.

Lemma see_ok s s' : see s s' -> ok s -> ok s'.
Proof. intros Hs. apply (see_went _ _ Hs). Qed.

Lemma see_avail s s' : see s s' -> ready s -> ready s'.
Proof. unfold see, ready. intros (?&?&?&?&?&?) ?. lia. Qed.

Lemma at_index_input (s : Scanner) (i : nat) :
  (i < List.length (buffer s))%nat \/ reader s = [] ->
  at_index (buffer s) i = at_index (input s) i.
Proof.
  unfold at_index, input. intros [Hi | Hr].
  - rewrite lookup_app_l by exact Hi. reflexivity.
  - rewrite Hr, app_nil_r. reflexivity.
Qed.

(** What the conditions of the scanner see depends on the input and the
    position only, not on how much of the input is in the buffer. *)
Lemma peek_value (s : Scanner) :
  ok s -> (peek s).1 = at_index (input s) (position s).
Proof.
  unfold ok, peek. intros Hok. simpl.
  destruct (_ <=? _)%nat eqn:E.
  - apply Nat.leb_le in E. unfold fillBuffer.
    destruct (reader s) as [|b r] eqn:Hr; simpl.
    + apply at_index_input. right. exact Hr.
    + unfold at_index, input. rewrite Hr.
      assert (Hp : position s = List.length (buffer s)) by lia.
      rewrite Hp, !lookup_app_r by lia.
      rewrite Nat.sub_diag. reflexivity.
  - apply Nat.leb_gt in E. apply at_index_input. left. exact E.
Qed.

Lemma isEOF_value (s : Scanner) :
  ok s -> (isEOF s).1 = (List.length (input s) <=? position s)%nat.
Proof.
  unfold ok, isEOF, input. intros Hok. rewrite length_app.
  destruct (_ <=? _)%nat eqn:E.
  - apply Nat.leb_le in E. unfold fillBuffer.
    destruct (reader s) as [|b r] eqn:Hr; simpl; symmetry.
    + apply Nat.leb_le. lia.
    + apply Nat.leb_gt. lia.
  - apply Nat.leb_gt in E. simpl. symmetry. apply Nat.leb_gt. lia.
Qed.

Lemma isEOF_avail (s : Scanner) :
  ok s -> (isEOF s).1 = false -> ready (isEOF s).2.
Proof.
  unfold ok, isEOF, ready. intros Hok.
  destruct (_ <=? _)%nat eqn:E.
  - apply Nat.leb_le in E. unfold fillBuffer.
    destruct (reader s) as [|b r] eqn:Hr; simpl; [discriminate |].
    intros _. rewrite length_app. simpl. lia.
  - apply Nat.leb_gt in E. simpl. intros _. exact E.
Qed.

Lemma fill_loop (off : nat) : forall (fuel : nat) (s : Scanner),
  (List.length (reader s) < fuel)%nat ->
  (position (while fuel (fill_through off) s) + off
   < List.length (buffer (while fuel (fill_through off) s)))%nat
  \/ reader (while fuel (fill_through off) s) = [].
Proof.
  induction fuel as [|f IH]; intros s Hf; [lia |].
  simpl. destruct (fill_through off s) as [more s1] eqn:Es.
  unfold fill_through in Es.
  destruct (_ <=? _)%nat eqn:E.
  - unfold fillBuffer in Es. destruct (reader s) as [|b r] eqn:Hr.
    + injection Es as <- <-. right. exact Hr.
    + injection Es as <- <-. apply IH. simpl in *. lia.
  - apply Nat.leb_gt in E. injection Es as <- <-. left. exact E.
Qed.

Lemma peekAhead_value (off : nat) (s : Scanner) :
  (peekAhead off s).1 = at_index (input s) (position s + off).
Proof.
  pose proof (See_peekAhead off s) as (Hi & Hp & _).
  unfold peekAhead in *. cbn [fst snd] in *.
  rewrite <- Hi, <- Hp. apply at_index_input.
  apply fill_loop. lia.
Qed.

Lemma isEOFAt_value (off : nat) (s : Scanner) :
  (isEOFAt off s).1 = (List.length (input s) <=? position s + off)%nat.
Proof.
  pose proof (See_isEOFAt off s) as (Hi & Hp & _).
  unfold isEOFAt in *. cbn [fst snd] in *. rewrite <- Hi, <- Hp.
  destruct (fill_loop off (S (List.length (reader s))) s) as [Hl | Hr];
    [lia | |].
  - unfold input. rewrite length_app.
    transitivity false; [apply Nat.leb_gt | symmetry; apply Nat.leb_gt]; lia.
  - unfold input. rewrite Hr, app_nil_r. reflexivity.
Qed.

End Observe.

Section Strict.
Import lexer scanspec.
Context `{GoStd}.

Lemma key_ahead_value (ch : ascii) (s : Scanner) :
  (key_ahead ch s).1 = keyAhead (input s) (position s) ch.
Proof.
  unfold key_ahead, keyAhead, andM, orM, bind, ret.
  destruct (is_char ch ":"); [|reflexivity]. cbn [andb].
  pose proof (peekAhead_value 1 s) as V1.
  pose proof (See_peekAhead 1 s) as (I1 & P1 & _).
  destruct (peekAhead 1 s) as [nx s1]. cbn [fst snd] in *. rewrite V1.
  destruct (is_char _ " "); [reflexivity |]. cbn [orb].
  pose proof (peekAhead_value 1 s1) as V2.
  pose proof (See_peekAhead 1 s1) as (I2 & P2 & _).
  destruct (peekAhead 1 s1) as [nx2 s2]. cbn [fst snd] in *.
  rewrite V2, I1, P1.
  destruct (is_char _ LF); [reflexivity |]. cbn [orb].
  rewrite isEOFAt_value, I2, I1, P2, P1. reflexivity.
Qed.

Lemma isEOF_of_avail (s : Scanner) : ready s -> isEOF s = (false, s).
Proof.
  unfold ready, isEOF. intros Hv.
  destruct (_ <=? _)%nat eqn:E; [apply Nat.leb_le in E; lia | reflexivity].
Qed.

Lemma peek_of_avail (s : Scanner) :
  ready s -> peek s = (at_index (input s) (position s), s).
Proof.
  unfold ready, peek. intros Hv.
  destruct (_ <=? _)%nat eqn:E; [apply Nat.leb_le in E; lia |].
  rewrite at_index_input by (left; exact Hv). reflexivity.
Qed.

Lemma advance_of_avail (s : Scanner) :
  ready s -> position (advance s).2 = S (position s).
Proof.
  unfold ready, advance. intros Hv.
  destruct (_ <? _)%nat eqn:E; [reflexivity | apply Nat.ltb_ge in E; lia].
Qed.

Lemma Strict_advance {A} (k : St A) : Went k -> Strict (advance ;;; k).
Proof.
  intros Hk s Hv. unfold bind.
  pose proof (advance_of_avail s Hv) as Ha.
  destruct (advance s) as [u s1]. cbn [snd] in Ha.
  destruct (Hk s1) as (_ & Hp & _). lia.
Qed.

Lemma Strict_token {A} t v (k : Token -> St A) :
  (forall tok, Strict (k tok)) -> Strict (tok <- makeToken t v ;; k tok).
Proof. intros Hk s Hv. unfold bind, makeToken. apply Hk, Hv. Qed.

Lemma Strict_then {A B} (m : St A) (k : A -> St B) :
  Strict m -> (forall a, Went (k a)) -> Strict (bind m k).
Proof.
  intros Hm Hk s Hv. unfold bind. specialize (Hm s Hv).
  destruct (m s) as [a s1]. cbn [snd] in Hm.
  destruct (Hk a s1) as (_ & Hp & _). lia.
Qed.


Ltac strict_tac :=
  apply Strict_token; intros ?; apply Strict_advance; went_tac.

Lemma Strict_scanComment : Strict scanComment.
Proof. unfold scanComment. strict_tac. Qed.

Lemma Strict_scanNewline : Strict scanNewline.
Proof. unfold scanNewline. strict_tac. Qed.

Lemma Strict_scanDocumentStart : Strict scanDocumentStart.
Proof. unfold scanDocumentStart. strict_tac. Qed.

Lemma Strict_scanDocumentEnd : Strict scanDocumentEnd.
Proof. unfold scanDocumentEnd. strict_tac. Qed.

Lemma Strict_scanSequenceItem : Strict scanSequenceItem.
Proof. unfold scanSequenceItem. strict_tac. Qed.

Lemma Strict_scanFlowSequenceStart : Strict scanFlowSequenceStart.
Proof. unfold scanFlowSequenceStart. strict_tac. Qed.

Lemma Strict_scanFlowSequenceEnd : Strict scanFlowSequenceEnd.
Proof. unfold scanFlowSequenceEnd. strict_tac. Qed.

Lemma Strict_scanFlowMappingStart : Strict scanFlowMappingStart.
Proof. unfold scanFlowMappingStart. strict_tac. Qed.

Lemma Strict_scanFlowMappingEnd : Strict scanFlowMappingEnd.
Proof. unfold scanFlowMappingEnd. strict_tac. Qed.

Lemma Strict_scanFlowEntry : Strict scanFlowEntry.
Proof. unfold scanFlowEntry. strict_tac. Qed.

Lemma Strict_scanKey : Strict scanKey.
Proof. unfold scanKey. strict_tac. Qed.

Lemma Strict_blockHeader : Strict blockHeader.
Proof. unfold blockHeader. apply Strict_advance. went_tac. Qed.

Lemma Strict_scanLiteralBlock : Strict scanLiteralBlock.
Proof.
  unfold scanLiteralBlock. apply Strict_token. intros tok.
  apply Strict_then; [apply Strict_blockHeader | intros; went_tac].
Qed.

Lemma Strict_scanFoldedBlock : Strict scanFoldedBlock.
Proof.
  unfold scanFoldedBlock. apply Strict_token. intros tok.
  apply Strict_then; [apply Strict_blockHeader | intros; went_tac].
Qed.

Lemma Strict_scanSingleQuotedString : Strict scanSingleQuotedString.
Proof.
  unfold scanSingleQuotedString. strict_tac; unfold single_step; went_tac.
Qed.

Lemma Strict_scanDoubleQuotedString : Strict scanDoubleQuotedString.
Proof.
  unfold scanDoubleQuotedString. strict_tac; unfold double_step; went_tac.
Qed.

Lemma Strict_scanAnchor : Strict scanAnchor.
Proof. unfold scanAnchor. strict_tac. Qed.

Lemma Strict_scanAlias : Strict scanAlias.
Proof. unfold scanAlias. strict_tac. Qed.

Lemma Strict_scanTag : Strict scanTag.
Proof. unfold scanTag. strict_tac. Qed.

End Strict.

Section Termination.
Import lexer scanspec.
Context `{GoStd}.

Lemma whileM_S {A} (fuel : nat) (step : A -> St (bool * A)) (a : A)
  (s : Scanner) :
  whileM (S fuel) step a s
  = let '((more, a'), s') := step a s in
    if more then whileM fuel step a' s' else (a', s').
Proof.
  unfold whileM. simpl. destruct (step a s) as [[more a'] s'].
  reflexivity.
Qed.

(** The first round of the loop of [scanScalar] consumes the byte at the
    position, if none of the conditions that end the loop holds there. *)
Lemma scalar_step_first (scalar : string) (s : Scanner) :
  let ch := at_index (input s) (position s) in
  ready s ->
  keyAhead (input s) (position s) ch = false ->
  is_char ch LF = false -> is_char ch "#" = false ->
  (0 <? inFlow s) && (is_char ch "," || is_char ch "}" || is_char ch "]")
  = false ->
  exists a s', scalar_step scalar s = ((true, a), s')
               /\ (position s < position s')%nat.
Proof.
  intros ch Hv Hk Hnl Hc Hf.
  unfold scalar_step, notM, bind, ret, get.
  rewrite (isEOF_of_avail s Hv). cbn [negb].
  rewrite (peek_of_avail s Hv). fold ch.
  pose proof (key_ahead_value ch s) as Kv.
  pose proof (See_key_ahead ch s) as L.
  destruct (key_ahead ch s) as [stop s1]. cbn [fst snd] in *.
  fold ch in Hk. rewrite Hk in Kv. subst stop.
  rewrite Hnl, Hc. cbn [orb].
  pose proof (see_avail _ _ L Hv) as Hv1.
  destruct L as (_ & Hp & Hfl & _). rewrite Hfl, Hf.
  pose proof (advance_of_avail s1 Hv1) as Ha.
  destruct (advance s1) as [u s2]. cbn [snd] in Ha.
  eexists _, s2. split; [reflexivity | lia].
Qed.

Lemma scanScalar_first (s : Scanner) :
  let ch := at_index (input s) (position s) in
  ready s ->
  keyAhead (input s) (position s) ch = false ->
  is_char ch LF = false -> is_char ch "#" = false ->
  (0 <? inFlow s) && (is_char ch "," || is_char ch "}" || is_char ch "]")
  = false ->
  (position s < position (scanScalar s).2)%nat.
Proof.
  intros ch Hv Hk Hnl Hc Hf.
  destruct (scalar_step_first "" s Hv Hk Hnl Hc Hf) as (a & s' & E & Hp).
  unfold scanScalar, bind, makeToken, ret.
  rewrite whileM_S, E.
  pose proof (Went_scalar_loop (remaining s) a s') as (_ & Hq & _).
  destruct (whileM (remaining s) scalar_step a s') as [scalar s2].
  cbn [snd] in *. lia.
Qed.

Lemma Strict_after {A} (m : St A) (s s3 sk : Scanner) :
  Strict m -> went s s3 -> see s3 sk -> ready s3 ->
  (position s < position (m sk).2)%nat.
Proof.
  intros Hm (_ & Hp & _) L Hv.
  pose proof (Hm sk (see_avail _ _ L Hv)) as Hs.
  destruct L as (_ & Hq & _). lia.
Qed.


Ltac see_step :=
  apply bind_step; intros ? ? ?;
  match goal with
  | E : ?m ?s1 = (_, ?s2), L : see ?s0 ?s1 |- _ =>
      let L' := fresh "L" in
      assert (L' : see s0 s2) by
        (eapply see_trans; [exact L |];
         let K := fresh in
         assert (K : See m) by see_tac;
         specialize (K s1); rewrite E in K; exact K);
      clear L
  end.

Ltac strict_branch L := eapply (Strict_after _ _ _ _ L); eassumption.

(** [scanNext] consumes at least one byte, unless it returns EOF. *)
Lemma scanNext_progress (s : Scanner) :
  ok s -> Type_ (scanNext s).1 <> TokenEOF ->
  (position s < position (scanNext s).2)%nat.
Proof.
  intros Hok. unfold scanNext.
  apply bind_step. intros u s1 E1.
  assert (W1 : went s s1).
  { pose proof (Went_skipWhitespace s) as K. rewrite E1 in K. exact K. }
  assert (O1 : ok s1) by (apply W1, Hok).
  apply bind_step. intros eof s2 E2.
  assert (L2 : see s1 s2).
  { pose proof (See_isEOF s1) as K. rewrite E2 in K. exact K. }
  assert (V2 : eof = false -> ready s2).
  { pose proof (isEOF_avail s1 O1) as K. rewrite E2 in K. exact K. }
  destruct eof.
  { unfold makeToken. simpl. congruence. }
  specialize (V2 eq_refl). intros _.
  assert (W2 : went s s2).
  { eapply went_trans; [exact W1 | apply see_went, L2]. }
  clear W1 L2 E1 E2 O1 s1 u.
  apply bind_step. intros ch s3 E3.
  rewrite (peek_of_avail s2 V2) in E3. injection E3 as Hch <-.
  assert (L : see s2 s2) by apply see_refl.
  destruct (is_char ch "#") eqn:C1; [strict_branch Strict_scanComment |].
  destruct (is_char ch LF) eqn:C2; [strict_branch Strict_scanNewline |].
  see_step. destruct a; [strict_branch Strict_scanDocumentStart |].
  see_step. destruct a; [strict_branch Strict_scanDocumentEnd |].
  see_step. destruct a; [strict_branch Strict_scanSequenceItem |].
  destruct (is_char ch "[");
    [strict_branch Strict_scanFlowSequenceStart |].
  destruct (is_char ch "]") eqn:C3;
    [strict_branch Strict_scanFlowSequenceEnd |].
  destruct (is_char ch "{");
    [strict_branch Strict_scanFlowMappingStart |].
  destruct (is_char ch "}") eqn:C4;
    [strict_branch Strict_scanFlowMappingEnd |].
  match goal with L' : see s2 _ |- _ => rename L' into Lc end.
  apply bind_step. intros fe s4 E4.
  assert (F4 : fe = is_char ch "," && (0 <? inFlow s2) /\ see s2 s4).
  { unfold andM, bind, ret, get in E4. pose proof Lc as (_ & _ & LF & _).
    destruct (is_char ch ","); injection E4 as <- <-;
      (split; [rewrite ?LF; reflexivity | exact Lc]). }
  destruct F4 as [F4 L4]. clear Lc E4.
  destruct fe; [strict_branch Strict_scanFlowEntry |].
  apply bind_step. intros k s5 E5.
  assert (K5 : k = keyAhead (input s2) (position s2) ch /\ see s2 s5).
  { pose proof (key_ahead_value ch s4) as Kv.
    pose proof (See_key_ahead ch s4) as Ks. rewrite E5 in Kv, Ks.
    cbn [fst snd] in *. split; [|eapply see_trans; eassumption].
    destruct L4 as (LI & LP & _). rewrite Kv, LI, LP. reflexivity. }
  destruct K5 as [K5 L5]. clear L4 E5.
  destruct k; [strict_branch Strict_scanKey |].
  destruct (is_char ch "|"); [strict_branch Strict_scanLiteralBlock |].
  destruct (is_char ch ">"); [strict_branch Strict_scanFoldedBlock |].
  destruct (is_char ch "'");
    [strict_branch Strict_scanSingleQuotedString |].
  destruct (is_char ch DQ);
    [strict_branch Strict_scanDoubleQuotedString |].
  destruct (is_char ch "&"); [strict_branch Strict_scanAnchor |].
  destruct (is_char ch "*"); [strict_branch Strict_scanAlias |].
  destruct (is_char ch "!"); [strict_branch Strict_scanTag |].
  pose proof (see_avail _ _ L5 V2) as V5.
  destruct L5 as (LI & LP & LF & _). destruct W2 as (_ & WP & _).
  assert (G : (position s5 < position (scanScalar s5).2)%nat).
  { apply scanScalar_first; rewrite ?LI, ?LP, ?LF, ?Hch; auto.
    destruct (is_char ch ","), (0 <? inFlow s2);
      simpl in *; rewrite ?C3, ?C4; auto; discriminate. }
  lia.
Qed.

Lemma Scan_fresh (s : Scanner) : pending s = [] -> Scan s = scanNext s.
Proof.
  unfold pending, Scan. intros Hp.
  destruct (_ <? _)%nat eqn:E; [|reflexivity].
  apply Nat.ltb_lt in E. apply (f_equal (@List.length Token)) in Hp.
  rewrite length_drop in Hp. simpl in Hp. lia.
Qed.

Lemma Scan_step (s : Scanner) :
  ok s -> pending s = [] ->
  ok (Scan s).2 /\ pending (Scan s).2 = [] /\ input (Scan s).2 = input s
  /\ (position (Scan s).2 <= List.length (input s))%nat
  /\ (Type_ (Scan s).1 <> TokenEOF ->
      (position s < position (Scan s).2)%nat).
Proof.
  intros Hok Hp. rewrite (Scan_fresh s Hp).
  pose proof (Went_scanNext s) as (Hi & Hq & Ho & Ht & Hx).
  specialize (Ho Hok).
  split; [exact Ho |]. split; [unfold pending in *; congruence |].
  split; [exact Hi |]. split.
  - rewrite <- Hi. unfold ok in Ho. unfold input. rewrite length_app. lia.
  - apply scanNext_progress, Hok.
Qed.

Lemma Scan_until_EOF : forall (k : nat) (s : Scanner),
  ok s -> pending s = [] ->
  (List.length (input s) - position s <= k)%nat ->
  exists n, (n <= k)%nat
    /\ Type_ (Scan (run (replicate n CallScan) s)).1 = TokenEOF.
Proof.
  induction k as [|k IH]; intros s Hok Hp Hk;
    destruct (decide (Type_ (Scan s).1 = TokenEOF)) as [He | He];
    try (exists O; split; [lia | exact He]);
    destruct (Scan_step s Hok Hp) as (Ho & Hq & Hi & Hl & Hs);
    specialize (Hs He).
  - lia.
  - destruct (IH (Scan s).2 Ho Hq) as (n & Hn & Ht); [rewrite Hi; lia |].
    exists (S n). split; [lia | exact Ht].
Qed.

(** Every call of [Scan] that does not answer from the pushed-back tokens
    and does not return EOF consumes at least one byte of the input. *)
Theorem Scan_consumes_input (s : Scanner) :
  ok s -> pending s = [] -> Type_ (Scan s).1 <> TokenEOF ->
  (position s < position (Scan s).2 <= List.length (input s))%nat
  /\ input (Scan s).2 = input s.
Proof.
  intros Hok Hp He.
  destruct (Scan_step s Hok Hp) as (_ & _ & Hi & Hl & Hs). auto.
Qed.

(** The tokens of an input are finitely many: calling [Scan] again and
    again returns EOF after at most as many tokens as bytes are left. *)
Theorem Scan_reaches_EOF (s : Scanner) :
  ok s -> pending s = [] ->
  exists n, (n <= List.length (input s) - position s)%nat
    /\ Type_ (Scan (run (replicate n CallScan) s)).1 = TokenEOF.
Proof. intros Hok Hp. apply Scan_until_EOF; auto. Qed.

End Termination.

Lemma Scan_at_end_witness :
  let s := @lexer.run asciiStd [lexer.CallScan] (lexer.NewScanner "a") in
  @lexer.Scan asciiStd s
  = (lexer.mkToken lexer.TokenEOF "" (lexer.line s) (lexer.column s)
       (lexer.offset s), s).
Proof.
  intros s. apply (@Scan_at_end asciiStd s).
  - vm_compute. reflexivity.
  - vm_compute. reflexivity.
  - vm_compute. lia.
Defined.

Lemma number_alphabet_is_a_number_witness :
  @lexer.detectScalarType asciiStd "1.2.3" = lexer.TokenNumber.
Proof.
  apply (@number_alphabet_is_a_number asciiStd "1.2.3").
  - discriminate.
  - vm_compute. reflexivity.
Defined.

Lemma Scan_consumes_input_witness :
  (lexer.position (lexer.NewScanner "a: 1")
   < lexer.position (@lexer.Scan asciiStd (lexer.NewScanner "a: 1")).2
   <= List.length (scanspec.input (lexer.NewScanner "a: 1")))%nat
  /\ scanspec.input (@lexer.Scan asciiStd (lexer.NewScanner "a: 1")).2
     = scanspec.input (lexer.NewScanner "a: 1").
Proof.
  apply (@Scan_consumes_input asciiStd (lexer.NewScanner "a: 1")).
  - unfold scanspec.ok. simpl. lia.
  - reflexivity.
  - vm_compute. discriminate.
Defined.

Lemma Scan_reaches_EOF_witness :
  exists n, (n <= 4)%nat
    /\ lexer.Type_
         (@lexer.Scan asciiStd
            (@lexer.run asciiStd (replicate n lexer.CallScan)
               (lexer.NewScanner "a: 1"))).1
       = lexer.TokenEOF.
Proof.
  apply (@Scan_reaches_EOF asciiStd (lexer.NewScanner "a: 1")).
  - unfold scanspec.ok. simpl. lia.
  - reflexivity.
Defined.

Section Loops.
Import lexer scanspec.
Context `{GoStd}.

Lemma remaining_ok (s : Scanner) :
  ok s -> remaining s = (List.length (input s) - position s)%nat.
Proof. unfold ok, remaining, input. rewrite length_app. lia. Qed.

Lemma ok_position (s : Scanner) :
  ok s -> (position s <= List.length (input s))%nat.
Proof. unfold ok, input. rewrite length_app. lia. Qed.

Lemma settles_Prog {A} (step : A -> St (bool * A)) :
  (forall a, Prog (step a)) -> settles step.
Proof.
  intros Hs.
  assert (G : forall fuel a s k, ok s ->
            (List.length (input s) - position s < fuel)%nat ->
            whileM (fuel + k) step a s = whileM fuel step a s).
  { induction fuel as [|f IH]; intros a s k Hok Hf; [lia |].
    change (S f + k)%nat with (S (f + k)). rewrite !whileM_S.
    destruct (Hs a s Hok) as [Hw Hp].
    destruct (step a s) as [[more a'] s']. cbn [fst snd] in *.
    destruct more; [|reflexivity].
    specialize (Hp eq_refl). destruct Hw as (Hi & _ & Ho & _).
    specialize (Ho Hok). pose proof (ok_position s' Ho) as Hl.
    apply IH; [exact Ho |]. rewrite Hi in *. lia. }
  intros a s k Hok. apply G; [exact Hok |].
  rewrite (remaining_ok s Hok). lia.
Qed.

Lemma Guard_notEOF : Guard (notM isEOF).
Proof.
  intros s Hok. unfold notM, bind, ret.
  pose proof (See_isEOF s) as L. pose proof (isEOF_avail s Hok) as V.
  destruct (isEOF s) as [e s1]. cbn [fst snd] in *.
  split; [exact L |]. destruct e; [discriminate | auto].
Qed.

Lemma Guard_andM_l (c d : St bool) : Guard c -> See d -> Guard (andM c d).
Proof.
  intros Hc Hd s Hok. unfold andM, bind, ret.
  destruct (Hc s Hok) as [L V]. destruct (c s) as [x s1].
  cbn [fst snd] in *. destruct x.
  - specialize (V eq_refl). pose proof (Hd s1) as L1.
    destruct (d s1) as [y s2]. cbn [fst snd] in *.
    split; [eapply see_trans; eassumption |].
    intros _. eapply see_avail; eassumption.
  - split; [exact L | discriminate].
Qed.

Lemma Guard_andM_r (c d : St bool) : See c -> Guard d -> Guard (andM c d).
Proof.
  intros Hc Hd s Hok. unfold andM, bind, ret.
  pose proof (Hc s) as L. destruct (c s) as [x s1].
  cbn [fst snd] in *. destruct x.
  - destruct (Hd s1 (see_ok _ _ L Hok)) as [L1 V].
    destruct (d s1) as [y s2]. cbn [fst snd] in *.
    split; [eapply see_trans; eassumption | exact V].
  - split; [exact L | discriminate].
Qed.

Lemma ProgA_Strict {A} (m : St (bool * A)) : Strict m -> Went m -> ProgA m.
Proof. intros Hs Hw s Hok Hv. split; [apply Hw | intros _; apply Hs, Hv]. Qed.

Lemma ProgA_final {A} (a : A) : ProgA (ret (false, a)).
Proof. intros s _ _. split; [apply went_refl | discriminate]. Qed.

Lemma Prog_final {A} (a : A) : Prog (ret (false, a)).
Proof. intros s _. split; [apply went_refl | discriminate]. Qed.

Lemma ProgA_bind {A B} (m : St A) (k : A -> St (bool * B)) :
  See m -> (forall x, ProgA (k x)) -> ProgA (bind m k).
Proof.
  intros Hm Hk s Hok Hv. unfold bind. pose proof (Hm s) as L.
  destruct (m s) as [x s1]. cbn [fst snd] in *.
  destruct (Hk x s1 (see_ok _ _ L Hok) (see_avail _ _ L Hv)) as [W P].
  split; [eapply went_trans; [apply see_went; exact L | exact W] |].
  intros Ht. specialize (P Ht). destruct L as (_ & Hp & _). lia.
Qed.

Lemma Prog_guard {A} (c : St bool) (m1 m2 : St (bool * A)) :
  Guard c -> ProgA m1 -> Prog m2 ->
  Prog (go <- c ;; if go then m1 else m2).
Proof.
  intros Hc H1 H2 s Hok. unfold bind. destruct (Hc s Hok) as [L V].
  destruct (c s) as [go s1]. cbn [fst snd] in *.
  pose proof (see_ok _ _ L Hok) as Hok1.
  assert (T : forall m : St (bool * A),
            went s1 (m s1).2
            /\ ((m s1).1.1 = true -> (position s1 < position (m s1).2)%nat) ->
            went s (m s1).2
            /\ ((m s1).1.1 = true -> (position s < position (m s1).2)%nat)).
  { intros m [W P].
    split; [eapply went_trans; [apply see_went; exact L | exact W] |].
    intros Ht. specialize (P Ht). destruct L as (_ & Hp & _). lia. }
  destruct go; apply T; [apply H1; auto | apply H2; auto].
Qed.

(** The rounds that start with [if s.isEOF() { break }]. *)
Lemma Prog_unlessEOF {A} (a : A) (m : St (bool * A)) :
  ProgA m ->
  Prog (more <- notM isEOF ;; if negb more then ret (false, a) else m).
Proof.
  intros Hm s Hok. unfold bind. destruct (Guard_notEOF s Hok) as [L V].
  destruct (notM isEOF s) as [more s1]. cbn [fst snd] in *.
  destruct more; cbn [negb].
  - destruct (Hm s1 (see_ok _ _ L Hok) (V eq_refl)) as [W P].
    split; [eapply went_trans; [apply see_went; exact L | exact W] |].
    intros Ht. specialize (P Ht). destruct L as (_ & Hp & _). lia.
  - split; [apply see_went; exact L | discriminate].
Qed.


Ltac prog_tac :=
  repeat first
    [ apply ProgA_final
    | apply Prog_final
    | apply ProgA_bind; [solve [see_tac] | intros ?]
    | apply ProgA_Strict; [apply Strict_advance; went_tac | went_tac]
    | match goal with
      | |- ProgA (if ?b then _ else _) => destruct b
      end ].

Lemma Prog_read_line_step buf : Prog (read_line_step buf).
Proof.
  unfold read_line_step. apply Prog_guard; [| prog_tac | prog_tac].
  apply Guard_andM_l; [apply Guard_notEOF | see_tac].
Qed.

Lemma Prog_skipWhitespace_step u : Prog (skipWhitespace_step u).
Proof.
  unfold skipWhitespace_step. apply Prog_guard; [| prog_tac | prog_tac].
  apply Guard_andM_l; [apply Guard_notEOF | see_tac].
Qed.

Lemma Prog_skipToEndOfLine_step u : Prog (skipToEndOfLine_step u).
Proof.
  unfold skipToEndOfLine_step. apply Prog_guard; [| prog_tac | prog_tac].
  apply Guard_andM_l; [apply Guard_notEOF | see_tac].
Qed.

Lemma Prog_skipIndent_step count i : Prog (skipIndent_step count i).
Proof.
  unfold skipIndent_step. apply Prog_guard; [| prog_tac | prog_tac].
  apply Guard_andM_r; [see_tac |].
  apply Guard_andM_l; [apply Guard_notEOF | see_tac].
Qed.

Lemma Prog_read_while_step p buf : Prog (read_while_step p buf).
Proof.
  unfold read_while_step. apply Prog_guard; [| prog_tac | prog_tac].
  apply Guard_andM_l; [apply Guard_notEOF | see_tac].
Qed.

Lemma Prog_single_step str : Prog (single_step str).
Proof. unfold single_step. apply Prog_unlessEOF. prog_tac. Qed.

Lemma Prog_double_step str : Prog (double_step str).
Proof. unfold double_step. apply Prog_unlessEOF. prog_tac. Qed.

Lemma Prog_scalar_step scalar : Prog (scalar_step scalar).
Proof. unfold scalar_step. apply Prog_unlessEOF. prog_tac. Qed.

Lemma bind_run {A B} (m : St A) (k : A -> St B) s a s1 :
  m s = (a, s1) -> bind m k s = k a s1.
Proof. unfold bind. intros ->. reflexivity. Qed.

(** A round that runs to the end of the line, and then consumes the
    newline or is at the end of the input. *)
Lemma toEOF {A} (k1 k2 : St (bool * A)) (s0 s : Scanner) :
  ready s0 -> went s0 s -> ok s ->
  Strict k1 -> Went k1 -> Went k2 ->
  went s0 ((more <- notM isEOF ;; if more then k1 else k2) s).2
  /\ (position s0
      < position ((more <- notM isEOF ;; if more then k1 else k2) s).2)%nat.
Proof.
  intros Hv W Hok S1 W1 W2. unfold notM, bind, ret.
  pose proof (See_isEOF s) as L. pose proof (isEOF_avail s Hok) as V.
  pose proof (isEOF_value s Hok) as E.
  destruct (isEOF s) as [e s1]. cbn [fst snd] in *.
  assert (W' : went s0 s1).
  { eapply went_trans; [exact W | apply see_went, L]. }
  destruct e; cbn [negb].
  - split; [eapply went_trans; [exact W' | apply W2] |].
    symmetry in E. apply Nat.leb_le in E.
    destruct (W2 s1) as (_ & Hp & _). destruct L as (_ & Hq & _).
    destruct W as (Hi & _). unfold ready in Hv.
    assert (List.length (buffer s0) <= List.length (input s0))%nat
      by (unfold input; rewrite length_app; lia).
    rewrite Hi in E. lia.
  - split; [eapply went_trans; [exact W' | apply W1] |].
    pose proof (S1 s1 (V eq_refl)). destruct W' as (_ & Hp & _). lia.
Qed.

Lemma Prog_literal_step baseIndent content :
  Prog (literal_step baseIndent content).
Proof.
  unfold literal_step. apply Prog_unlessEOF.
  apply ProgA_bind; [see_tac | intros indent].
  apply ProgA_bind; [see_tac | intros brk].
  destruct brk; [apply ProgA_final |].
  intros s Hok Hv.
  pose proof (Went_skipIndent indent s) as W1.
  destruct (skipIndent indent s) as [u s1] eqn:E1. cbn [snd] in W1.
  rewrite (bind_run _ _ _ _ _ E1).
  pose proof (Went_read_line content s1) as W2.
  destruct (read_line content s1) as [c s2] eqn:E2. cbn [snd] in W2.
  rewrite (bind_run _ _ _ _ _ E2).
  assert (W : went s s2) by (eapply went_trans; eassumption).
  destruct (toEOF (advance ;;; newline ;;; ret (true, WriteByte c LF))
              (ret (true, c)) s s2 Hv W) as [Wf Pf];
    [apply W, Hok | apply Strict_advance; went_tac | went_tac | went_tac |].
  split; [exact Wf | intros _; exact Pf].
Qed.

Lemma line_guard_value (s : Scanner) :
  ok s ->
  (andM (notM isEOF) (peek_is LF) s).1
  = negb (List.length (input s) <=? position s)%nat
    && is_char (at_index (input s) (position s)) LF
  /\ (andM (notM isEOF) (peek_isnt LF) s).1
     = negb (List.length (input s) <=? position s)%nat
       && negb (is_char (at_index (input s) (position s)) LF).
Proof.
  intros Hok. unfold andM, peek_isnt, peek_is, notM, bind, ret.
  pose proof (See_isEOF s) as L. pose proof (isEOF_value s Hok) as E.
  destruct (isEOF s) as [e s1]. cbn [fst snd] in *. rewrite <- E.
  pose proof (peek_value s1 (see_ok _ _ L Hok)) as P.
  destruct L as (Hi & Hp & _). rewrite Hi, Hp in P.
  destruct e; cbn [negb andb]; [split; reflexivity |].
  destruct (peek s1) as [ch s2]. cbn [fst snd] in *. rewrite P.
  split; reflexivity.
Qed.

Lemma is_LF_inside (s : Scanner) :
  is_char (at_index (input s) (position s)) LF = true ->
  (position s < List.length (input s))%nat.
Proof.
  unfold at_index. intros E.
  destruct (input s !! position s) eqn:El; [|discriminate].
  apply lookup_lt_Some in El. exact El.
Qed.

Lemma consume_newline_strict (s : Scanner) :
  ok s -> is_char (at_index (input s) (position s)) LF = true ->
  (position s < position (consume_newline s).2)%nat.
Proof.
  intros Hok E. pose proof (is_LF_inside s E) as Hl.
  unfold consume_newline, bind.
  destruct (line_guard_value s Hok) as [Hg _].
  assert (G : Guard (andM (notM isEOF) (peek_is LF)))
    by (apply Guard_andM_l; [apply Guard_notEOF | see_tac]).
  destruct (G s Hok) as [L V].
  destruct (andM (notM isEOF) (peek_is LF) s) as [go s1].
  cbn [fst snd] in *. rewrite E, andb_true_r in Hg.
  assert (Hgo : go = true)
    by (rewrite Hg; apply negb_true_iff, Nat.leb_gt; lia).
  clear Hg. subst go. pose proof (advance_of_avail s1 (V eq_refl)) as Ha.
  destruct (advance s1) as [u s2]. cbn [snd] in *.
  destruct L as (_ & Hp & _). unfold newline. simpl. lia.
Qed.

Lemma read_line_first (buf : string) (s : Scanner) :
  ok s -> (position s < List.length (input s))%nat ->
  is_char (at_index (input s) (position s)) LF = false ->
  (position s < position (read_line buf s).2)%nat.
Proof.
  intros Hok Hl E. unfold read_line. rewrite whileM_S.
  unfold read_line_step at 1. unfold bind at 1.
  destruct (line_guard_value s Hok) as [_ Hg].
  assert (G : Guard (andM (notM isEOF) (peek_isnt LF)))
    by (apply Guard_andM_l; [apply Guard_notEOF | see_tac]).
  destruct (G s Hok) as [L V].
  destruct (andM (notM isEOF) (peek_isnt LF) s) as [go s1].
  cbn [fst snd] in *. rewrite E, andb_true_r in Hg.
  assert (Hgo : go = true)
    by (rewrite Hg; apply negb_true_iff, Nat.leb_gt; lia).
  clear Hg. subst go. unfold bind.
  pose proof (See_peek s1) as L1.
  pose proof (see_avail _ _ L1 (V eq_refl)) as V1.
  destruct (peek s1) as [ch s2]. cbn [snd] in *.
  pose proof (advance_of_avail s2 V1) as Ha.
  destruct (advance s2) as [u s3]. cbn [snd] in *. unfold ret.
  assert (Wl : forall a, Went (read_line_step a))
    by (intros a; unfold read_line_step; went_tac).
  pose proof (Went_whileM read_line_step Wl
                (remaining s) (WriteByte buf ch) s3) as (_ & Hq & _).
  destruct L as (_ & Hp & _). destruct L1 as (_ & Hp1 & _).
  destruct (whileM (remaining s) read_line_step (WriteByte buf ch) s3).
  cbn [snd] in *. lia.
Qed.

Lemma Prog_folded_step baseIndent st : Prog (folded_step baseIndent st).
Proof.
  unfold folded_step. destruct st as [content lastWasEmpty].
  apply Prog_unlessEOF.
  apply ProgA_bind; [see_tac | intros indent].
  apply ProgA_bind; [see_tac | intros brk].
  destruct brk; [apply ProgA_final |].
  intros s Hok Hv.
  pose proof (Went_skipIndent indent s) as W1.
  destruct (skipIndent indent s) as [u s1] eqn:E1. cbn [snd] in W1.
  rewrite (bind_run _ _ _ _ _ E1).
  assert (Hok1 : ok s1) by (apply W1, Hok).
  pose proof (See_peek_is LF s1) as L2.
  assert (V2 : (peek_is LF s1).1
               = is_char (at_index (input s1) (position s1)) LF).
  { unfold peek_is, bind, ret. pose proof (peek_value s1 Hok1) as P.
    destruct (peek s1). cbn [fst] in *. rewrite P. reflexivity. }
  destruct (peek_is LF s1) as [lineEmpty s2] eqn:E2. cbn [fst snd] in *.
  rewrite (bind_run _ _ _ _ _ E2).
  pose proof (see_ok _ _ L2 Hok1) as Hok2.
  assert (W2 : went s s2).
  { eapply went_trans; [exact W1 | apply see_went, L2]. }
  destruct L2 as (Hi2 & Hp2 & _). rewrite <- Hi2, <- Hp2 in V2.
  assert (Hs : (position s < List.length (input s2))%nat).
  { destruct W2 as (Hi & _). rewrite Hi. unfold ready in Hv.
    unfold input. rewrite length_app. lia. }
  destruct lineEmpty; cbn [negb].
  - unfold bind at 1, ret at 1. unfold bind, ret.
    pose proof (Went_consume_newline s2) as W3.
    pose proof (consume_newline_strict s2 Hok2 (eq_sym V2)) as P3.
    destruct (consume_newline s2) as [u3 s3]. cbn [fst snd] in *.
    split; [eapply went_trans; eassumption |].
    intros _. destruct W2 as (_ & Hq & _). lia.
  - unfold bind, ret.
    match goal with
    | |- context [read_line ?b s2] =>
        pose proof (Went_read_line b s2) as W3;
        pose proof (read_line_first b s2 Hok2) as P3;
        destruct (read_line b s2) as [c s3]
    end.
    pose proof (Went_consume_newline s3) as W4.
    destruct (consume_newline s3) as [u4 s4]. cbn [fst snd] in *.
    split; [eapply went_trans; [exact W2 |];
            eapply went_trans; eassumption |].
    intros _. destruct W2 as (_ & Hq & _). destruct W3 as (_ & Hq3 & _).
    destruct W4 as (_ & Hq4 & _).
    destruct (Nat.lt_ge_cases (position s2) (List.length (input s2)))
      as [Hlt | Hge]; [|lia].
    specialize (P3 Hlt (eq_sym V2)). lia.
Qed.

Lemma skipWhitespace_loop (s : Scanner) :
  skipWhitespace s = whileM (S (remaining s)) skipWhitespace_step tt s.
Proof. reflexivity. Qed.

Lemma skipToEndOfLine_loop (s : Scanner) :
  skipToEndOfLine s = whileM (S (remaining s)) skipToEndOfLine_step tt s.
Proof. reflexivity. Qed.

Lemma skipIndent_loop (count : Z) (s : Scanner) :
  skipIndent count s
  = (tt, (whileM (S (remaining s)) (skipIndent_step count) 0 s).2).
Proof.
  unfold skipIndent. fold (skipIndent_step count).
  destruct (whileM _ _ _ _). reflexivity.
Qed.

Lemma read_while_loop (p : ascii -> bool) (buf : string) (s : Scanner) :
  read_while p buf s = whileM (S (remaining s)) (read_while_step p) buf s.
Proof. reflexivity. Qed.


End Loops.

(** * Further properties of trees in memory *)

Section HeapMore.
Import ast heap framespec clonespec.
Context `{GoStd}.

Lemma collect_map_ext {A B} (f g : A -> result B) (l : list A) (r : list B) :
  (forall x y, x ∈ l -> f x = Ok y -> g x = Ok y) ->
  yaml.collect (map f l) = Ok r -> yaml.collect (map g l) = Ok r.
Proof.
  revert r. induction l as [|x l IH]; intros r Hfg E; simpl in *; [exact E |].
  destruct (f x) as [y| | |] eqn:Ef; try discriminate.
  rewrite (Hfg x y (list_elem_of_here _ _) Ef). simpl in *.
  destruct (yaml.collect (map f l)) as [r'| | |] eqn:Ec; try discriminate.
  rewrite (IH r'); [exact E | | reflexivity].
  intros x' y' Hx'. apply Hfg. apply list_elem_of_further, Hx'.
Qed.

Lemma snapshot_S (f : nat) (h : Heap) (l : loc) :
  snapshot (S f) h (Some l)
  = match h !! l with
    | None => nilDeref
    | Some (CDocument b Content) =>
        rbind (yaml.collect (map (snapshot f h) Content))
              (fun c => Ok (Some (Document b c)))
    | Some (CScalar b v s) => Ok (Some (Scalar b v s))
    | Some (CMapping b Content s) =>
        rbind (yaml.collect (map (entrySnapshot f h) Content))
              (fun c => Ok (Some (Mapping b c s)))
    | Some (CSequence b Content s) =>
        rbind (yaml.collect (map (snapshot f h) Content))
              (fun c => Ok (Some (Sequence b c s)))
    | Some (CAlias b i) => Ok (Some (Alias b i))
    | Some (CEntry _) => wrongType
    end.
Proof. reflexivity. Qed.

(** A tree that can be read in [h] reads the same in every heap that
    agrees with [h] on the cells of [h]. *)
Lemma snapshot_prefix (h h' : Heap) :
  (forall (l : loc) c, h !! l = Some c -> h' !! l = Some c) ->
  forall fuel n t, snapshot fuel h n = Ok t -> snapshot fuel h' n = Ok t.
Proof.
  intros Hh. induction fuel as [|f IH]; intros n t E; [discriminate |].
  destruct n as [l|]; [|exact E].
  rewrite snapshot_S in E. rewrite snapshot_S.
  destruct (h !! l) as [c|] eqn:Hl; [|discriminate].
  rewrite (Hh _ _ Hl).
  destruct c as [b Content|b v s|b Content s|b Content s|b i|e];
    try exact E.
  - destruct (yaml.collect (map (snapshot f h) Content)) as [r| | |] eqn:Ec;
      try discriminate.
    rewrite (collect_map_ext (snapshot f h) (snapshot f h') _ r);
      [exact E | | exact Ec].
    intros x y _. apply IH.
  - destruct (yaml.collect (map (entrySnapshot f h) Content))
      as [r| | |] eqn:Ec; try discriminate.
    rewrite (collect_map_ext (entrySnapshot f h) (entrySnapshot f h') _ r);
      [exact E | | exact Ec].
    intros [le|] y _ Ey; [|exact Ey]. unfold entrySnapshot in *.
    destruct (h !! le) as [ce|] eqn:Hle; [|discriminate].
    rewrite (Hh _ _ Hle). destruct ce; try discriminate.
    destruct (snapshot f h (Key e)) as [k| | |] eqn:Ek; try discriminate.
    rewrite (IH _ _ Ek).
    destruct (snapshot f h (Value e)) as [v| | |] eqn:Ev; try discriminate.
    rewrite (IH _ _ Ev). exact Ey.
  - destruct (yaml.collect (map (snapshot f h) Content)) as [r| | |] eqn:Ec;
      try discriminate.
    rewrite (collect_map_ext (snapshot f h) (snapshot f h') _ r);
      [exact E | | exact Ec].
    intros x y _. apply IH.
Qed.

Lemma prefix_lookup (h h' : Heap) :
  take (List.length h) h' = h ->
  forall (l : loc) c, h !! l = Some c -> h' !! l = Some c.
Proof.
  intros Ht l c Hl. rewrite <- Ht in Hl.
  apply lookup_take_Some in Hl. tauto.
Qed.

(** What [Clone] does to the memory, however it ends. *)
Lemma Clone_frame (fuel : nat) (n : loc) (h h' : Heap) (r : result loc) :
  Clone fuel n h = (r, h') ->
  take (List.length h) h' = h
  /\ forall c, r = Ok c -> forall l, reach h' c l -> (List.length h <= l)%nat.
Proof.
  intros E.
  destruct (frames_Clone (List.length h) fuel n h r h'
              (le_n _) (closed_init h) E) as (Hl & Ht & Hc & Hr).
  rewrite firstn_all in Ht. split; [exact Ht |].
  intros c Hrc l. apply reach_closed; [exact Hc | exact (Hr c Hrc)].
Qed.

(** [Clone] writes to fresh cells only, however it ends, and the copy it
    returns is made of fresh cells only: the copy shares nothing with the
    original. *)
Theorem Clone_shares_nothing (fuel : nat) (n : loc) (h h' : Heap)
  (r : result loc) :
  Clone fuel n h = (r, h') ->
  take (List.length h) h' = h
  /\ forall c, r = Ok c -> forall l, reach h' c l -> (List.length h <= l)%nat.
Proof. apply Clone_frame. Qed.

(** However a merge ends, it changes no tree that could be read before it:
    whatever [snapshot] gave for a pointer before the call, it gives
    after. *)
Theorem merge_preserves_trees (fuel : nat) (a b : option loc)
  (opts : yaml.MergeOptions) (h h' : Heap) (r : result loc)
  (k : nat) (n : option loc) (t : option Node) :
  merge.MergeNodes fuel a b opts h = (r, h') ->
  snapshot k h n = Ok t -> snapshot k h' n = Ok t.
Proof.
  intros E.
  destruct (frames_mergeNodesRecursive (List.length h) fuel opts a b ""
              h r h' (le_n _) (closed_init h) E) as (_ & Ht & _ & _).
  rewrite firstn_all in Ht.
  apply snapshot_prefix, prefix_lookup, Ht.
Qed.

End HeapMore.


(** ** The copy that [Clone] returns *)

Section CloneCopies.
Import ast heap framespec clonespec.
Context `{GoStd}.

Lemma map_ext_fresh {A B} (P : A -> Prop) (f g : A -> B) (l : list A) :
  Forall P l -> (forall x, P x -> f x = g x) -> map f l = map g l.
Proof.
  induction 1 as [|x l Hx _ IH]; intros Hfg; simpl; [reflexivity |].
  rewrite (Hfg x Hx), IH; auto.
Qed.

(** A tree made of cells at or above [M] reads the same in two heaps that
    agree at and above [M]. *)
Lemma snapshot_region (M : nat) (h h2 : Heap) :
  closed M h -> (forall l : loc, (M <= l)%nat -> h2 !! l = h !! l) ->
  forall k n, freshOpt M n -> snapshot k h2 n = snapshot k h n.
Proof.
  intros Hc Ha. induction k as [|k IH]; intros n Hn; [reflexivity |].
  destruct n as [l|]; [|reflexivity]. simpl in Hn.
  rewrite !snapshot_S, (Ha l Hn).
  destruct (h !! l) as [c|] eqn:Hl; [|reflexivity].
  pose proof (Hc l c Hn Hl) as Hf.
  destruct c as [b Content|b v s|b Content s|b Content s|b i|e];
    try reflexivity; simpl in Hf.
  - rewrite (map_ext_fresh _ (snapshot k h2) (snapshot k h) Content Hf IH).
    reflexivity.
  - rewrite (map_ext_fresh _ (entrySnapshot k h2) (entrySnapshot k h)
               Content Hf); [reflexivity |].
    intros [le|] Hle; [|reflexivity]. simpl in *. rewrite (Ha le Hle).
    destruct (h !! le) as [ce|] eqn:Hce; [|reflexivity].
    destruct ce; try reflexivity.
    destruct (Hc le _ Hle Hce) as [Hk Hv].
    rewrite (IH _ Hk), (IH _ Hv). reflexivity.
  - rewrite (map_ext_fresh _ (snapshot k h2) (snapshot k h) Content Hf IH).
    reflexivity.
Qed.

Lemma collect_Forall2 {A B C} (f : A -> result C) (g : B -> result C)
  (xs : list A) (cs : list B) (ts : list C) :
  Forall2 (fun c x => forall t, f x = Ok t -> g c = Ok t) cs xs ->
  yaml.collect (map f xs) = Ok ts -> yaml.collect (map g cs) = Ok ts.
Proof.
  intros HF. revert ts. induction HF as [|c x cs xs Hcx _ IH]; intros ts E;
    simpl in *; [exact E |].
  destruct (f x) as [t| | |] eqn:Ef; try discriminate.
  rewrite (Hcx t eq_refl). simpl in *.
  destruct (yaml.collect (map f xs)) as [ts'| | |]; try discriminate.
  rewrite (IH ts' eq_refl). exact E.
Qed.

Lemma closed_store_below (M : nat) (h : Heap) (l : loc) (c : cell) :
  (l < M)%nat -> closed M h -> closed M (<[l := c]> h).
Proof.
  intros Hl Hc l' c' Hl' Hlk.
  rewrite list_lookup_insert_ne in Hlk by lia. eauto.
Qed.

Lemma closed_weaken_store (M : nat) (h : Heap) (l : loc) :
  forall c, (l < M)%nat -> forall l' : loc, (M <= l')%nat ->
            <[l := c]> h !! l' = h !! l'.
Proof. intros c Hl l' Hl'. apply list_lookup_insert_ne. lia. Qed.

(** What a run of [m] from [h] keeps: the cells of [h], and the closure of
    the cells above any bound below the length of [h]. *)
Lemma frames_run {A} (m : M Heap A) (h h' : Heap) (x : A)
  (P : nat -> A -> Prop) :
  (forall N, frames N (P N) m) -> m h = (Ok x, h') ->
  (forall (l : loc) c, h !! l = Some c -> h' !! l = Some c)
  /\ (List.length h <= List.length h')%nat
  /\ (forall M, (M <= List.length h)%nat -> closed M h -> closed M h')
  /\ P (List.length h) x.
Proof.
  intros Hm E.
  destruct (Hm (List.length h) h (Ok x) h' (le_n _) (closed_init h) E)
    as (Hl & Ht & _ & Hx).
  rewrite firstn_all in Ht.
  split; [apply prefix_lookup, Ht |]. split; [exact Hl |].
  split; [|exact (Hx x eq_refl)].
  intros M HM Hc. destruct (Hm M h (Ok x) h' HM Hc E) as (_ & _ & Hc' & _).
  exact Hc'.
Qed.

Section Loop.
Variables (h0 : Heap) (clone : loc) (cell0 : cell).
Hypothesis above : (List.length h0 <= clone)%nat.
Hypothesis cell0_content : forall X, cellContent (withContent cell0 X) = X.
Hypothesis cell0_with :
  forall X Y, withContent (withContent cell0 X) Y = withContent cell0 Y.

Variable R : Heap -> option loc -> option loc -> Prop.
Variable body : nat -> option loc -> M Heap unit.
Hypothesis body_spec : forall x h cs j hn,
    loopInv h0 clone cell0 h cs (S j) ->
    body (List.length cs) x h = (Ok tt, hn) ->
    exists c, loopInv h0 clone cell0 hn (cs ++ [c]) j /\ R hn c x
              /\ forall c' x', freshOpt (S clone) c' -> R h c' x' ->
                               R hn c' x'.

Lemma loop_spec (todo : list (option loc)) :
  forall done cs h hfin,
    loopInv h0 clone cell0 h cs (List.length todo) -> Forall2 (R h) cs done ->
    forEach todo (List.length cs) body h = (Ok tt, hfin) ->
    exists cs', loopInv h0 clone cell0 hfin cs' O
                /\ Forall2 (R hfin) cs' (done ++ todo).
Proof.
  induction todo as [|x todo IH]; intros done cs h hfin Hinv HR E; simpl in E.
  - injection E as <-. exists cs. rewrite app_nil_r. auto.
  - apply mbind_returns in E as ([] & h1 & Eb & E).
    destruct (body_spec x h cs _ h1 Hinv Eb) as (c & Hinv1 & Hc & Hst).
    destruct (IH (done ++ [x]) (cs ++ [c]) h1 hfin Hinv1) as (cs' & Hi & HF).
    + apply Forall2_app; [|constructor; [exact Hc | constructor]].
      destruct Hinv as (_ & _ & _ & _ & Hfr).
      clear -HR Hfr Hst. induction HR as [|c' x' cs done Hcx HR IHR];
        constructor.
      * apply Hst; [|exact Hcx]. inversion Hfr; assumption.
      * apply IHR. inversion Hfr; assumption.
    + rewrite length_app, Nat.add_1_r. exact E.
    + exists cs'. rewrite <- app_assoc in HF. auto.
Qed.

(** The step of the loop that stores the copy [c] of the current child. *)
Lemma loopInv_store (h : Heap) (cs : list (option loc)) (j : nat)
  (c : option loc) (hn : Heap) :
  (clone < List.length h)%nat -> closed (S clone) h ->
  (forall (l : loc) x, h0 !! l = Some x -> h !! l = Some x) ->
  h !! clone = Some (withContent cell0 (cs ++ replicate (S j) None)) ->
  Forall (freshOpt (S clone)) cs -> freshOpt (S clone) c ->
  setContent clone (List.length cs) c h = (Ok tt, hn) ->
  loopInv h0 clone cell0 hn (cs ++ [c]) j
  /\ forall l : loc, (S clone <= l)%nat -> hn !! l = h !! l.
Proof.
  intros Hlt Hc H0 Hcl Hfr Hfc E. unfold setContent, mbind, load, store in E.
  rewrite Hcl in E. injection E as <-.
  rewrite cell0_content, cell0_with.
  split; [|intros l Hl; apply list_lookup_insert_ne; lia].
  split; [rewrite length_insert; exact Hlt |].
  split; [apply closed_store_below; [lia | exact Hc] |].
  split.
  { intros l x Hl. rewrite list_lookup_insert_ne; [auto |].
    apply lookup_lt_Some in Hl. lia. }
  split.
  { rewrite list_lookup_insert_eq by exact Hlt. f_equal. f_equal.
    rewrite insert_app_r_alt by lia. rewrite Nat.sub_diag. simpl.
    rewrite <- app_assoc. reflexivity. }
  apply Forall_app. split; [exact Hfr | constructor; [exact Hfc | constructor]].
Qed.

Lemma loopInv_skip (h : Heap) (cs : list (option loc)) (j : nat) :
  loopInv h0 clone cell0 h cs (S j) ->
  loopInv h0 clone cell0 h (cs ++ [None]) j.
Proof.
  intros (H1 & H2 & H3 & H4 & H5). repeat split; auto.
  - rewrite <- app_assoc. exact H4.
  - apply Forall_app. split; [exact H5 | constructor; [exact I | constructor]].
Qed.

End Loop.


Lemma copies_nil (h0 h : Heap) : copies h0 h None None.
Proof. intros [|k] t E; exact E. Qed.

Lemma copies_prefix (h0 h h' : Heap) (c x : option loc) :
  (forall (l : loc) y, h !! l = Some y -> h' !! l = Some y) ->
  copies h0 h c x -> copies h0 h' c x.
Proof. intros Hp Hc k t E. eapply snapshot_prefix; eauto. Qed.

Lemma copies_region (M : nat) (h0 h h' : Heap) (c x : option loc) :
  closed M h -> (forall l : loc, (M <= l)%nat -> h' !! l = h !! l) ->
  freshOpt M c -> copies h0 h c x -> copies h0 h' c x.
Proof.
  intros Hcl Ha Hf Hc k t E.
  rewrite (snapshot_region M h h' Hcl Ha k c Hf). auto.
Qed.

Section Children.
Variables (f : nat) (h0 : Heap) (clone : loc) (cell0 : cell).
Hypothesis IHf : forall n h c h',
    Clone f n h = (Ok c, h') -> copies h h' (Some c) (Some n).
Hypothesis above : (List.length h0 <= clone)%nat.
Hypothesis cell0_content : forall X, cellContent (withContent cell0 X) = X.
Hypothesis cell0_with :
  forall X Y, withContent (withContent cell0 X) Y = withContent cell0 Y.

Lemma cloneChild_spec x h cs j hn :
  loopInv h0 clone cell0 h cs (S j) ->
  cloneChild f clone (List.length cs) x h = (Ok tt, hn) ->
  exists c, loopInv h0 clone cell0 hn (cs ++ [c]) j /\ copies h0 hn c x
            /\ forall c' x', freshOpt (S clone) c' -> copies h0 h c' x' ->
                             copies h0 hn c' x'.
Proof.
  intros Hinv E. destruct x as [y|]; simpl in E.
  - apply mbind_returns in E as (c & h1 & Ec & Es).
    destruct Hinv as (Hlt & Hcl & H0 & Hcell & Hfr).
    destruct (frames_run _ _ _ _ (fun N => le N)
                (fun N => frames_Clone N f y) Ec) as (Hp & Hlen & Hcl1 & Hc).
    assert (Hfc : freshOpt (S clone) (Some c)) by (simpl; lia).
    assert (Hcl1' : closed (S clone) h1) by (apply Hcl1; [lia | exact Hcl]).
    assert (Hlt1 : (clone < List.length h1)%nat) by lia.
    assert (H01 : forall (l : loc) x, h0 !! l = Some x -> h1 !! l = Some x)
      by (intros l x Hl; apply Hp, H0, Hl).
    destruct (loopInv_store h0 clone cell0 above cell0_content cell0_with
                h1 cs j (Some c) hn Hlt1 Hcl1' H01 (Hp _ _ Hcell) Hfr Hfc Es)
      as [Hinv' Hagree].
    exists (Some c). split; [exact Hinv' |].
    split.
    + apply (copies_region (S clone) h0 h1 hn _ _ Hcl1' Hagree Hfc).
      intros k t E. apply (IHf _ _ _ _ Ec).
      apply (snapshot_prefix h0 h H0 _ _ _ E).
    + intros c' x' Hf' Hc'.
      apply (copies_region (S clone) h0 h1 hn _ _ Hcl1' Hagree Hf').
      apply (copies_prefix h0 h h1 c' x' Hp Hc').
  - injection E as <-. exists None.
    split; [apply loopInv_skip, Hinv |]. split; [apply copies_nil | auto].
Qed.

End Children.


(** *** The entries of a mapping *)

Lemma entrySnapshot_prefix (h h' : Heap) :
  (forall (l : loc) c, h !! l = Some c -> h' !! l = Some c) ->
  forall k entry t,
    entrySnapshot k h entry = Ok t -> entrySnapshot k h' entry = Ok t.
Proof.
  intros Hh k [le|] t E; [|exact E]. unfold entrySnapshot in *.
  destruct (h !! le) as [ce|] eqn:Hle; [|discriminate].
  rewrite (Hh _ _ Hle). destruct ce; try discriminate.
  destruct (snapshot k h (Key e)) as [tk| | |] eqn:Ek; try discriminate.
  rewrite (snapshot_prefix h h' Hh _ _ _ Ek).
  destruct (snapshot k h (Value e)) as [tv| | |] eqn:Ev; try discriminate.
  rewrite (snapshot_prefix h h' Hh _ _ _ Ev). exact E.
Qed.

Lemma entrySnapshot_region (M : nat) (h h2 : Heap) :
  closed M h -> (forall l : loc, (M <= l)%nat -> h2 !! l = h !! l) ->
  forall k entry, freshOpt M entry ->
                  entrySnapshot k h2 entry = entrySnapshot k h entry.
Proof.
  intros Hc Ha k [le|] Hle; [|reflexivity]. simpl in *. rewrite (Ha le Hle).
  destruct (h !! le) as [ce|] eqn:Hce; [|reflexivity].
  destruct ce; try reflexivity.
  destruct (Hc le _ Hle Hce) as [Hk Hv].
  rewrite (snapshot_region M h h2 Hc Ha k _ Hk),
          (snapshot_region M h h2 Hc Ha k _ Hv).
  reflexivity.
Qed.

Section Field.
Variables (f : nat) (clone ce : loc).
Hypothesis IHf : forall n h c h',
    Clone f n h = (Ok c, h') -> copies h h' (Some c) (Some n).
Hypothesis below : (clone < ce)%nat.
Variable set : loc -> option loc -> M Heap unit.
Variable upd : Entry loc -> option loc -> Entry loc.
Hypothesis set_spec : forall v h e,
    h !! ce = Some (CEntry e) ->
    set ce v h = (Ok tt, <[ce := CEntry (upd e v)]> h).
Hypothesis upd_fresh : forall M e v,
    freshCell M (CEntry e) -> freshOpt M v -> freshCell M (CEntry (upd e v)).

Lemma field_step (x : option loc) (ha hb : Heap) (e1 : Entry loc) :
  (match x with
   | Some y => let* c := Clone f y in set ce (Some c)
   | None => mret tt
   end) ha = (Ok tt, hb) ->
  upd e1 None = e1 -> freshCell (S clone) (CEntry e1) ->
  ha !! ce = Some (CEntry e1) ->
  closed (S ce) ha -> closed (S clone) ha ->
  exists X,
    hb !! ce = Some (CEntry (upd e1 X))
    /\ freshOpt (S ce) X /\ copies ha hb X x
    /\ closed (S ce) hb /\ closed (S clone) hb
    /\ (forall (l : loc) c, (l < ce)%nat -> ha !! l = Some c ->
                            hb !! l = Some c)
    /\ (forall c', freshOpt (S ce) c' -> copies ha hb c' c').
Proof.
  intros E Hnone Hf1 Hce Hcl Hcl'.
  pose proof (lookup_lt_Some _ _ _ Hce) as Hlt.
  destruct x as [y|].
  - apply mbind_returns in E as (c & h1 & Ec & Es).
    destruct (frames_run _ _ _ _ (fun N => le N)
                (fun N => frames_Clone N f y) Ec) as (Hp & Hlen & Hcl1 & Hc).
    rewrite (set_spec _ _ _ (Hp _ _ Hce)) in Es. injection Es as <-.
    assert (Hc1 : closed (S ce) h1) by (apply Hcl1; [lia | exact Hcl]).
    assert (Hc1' : closed (S clone) h1) by (apply Hcl1; [lia | exact Hcl']).
    assert (Hagree : forall l : loc, (S ce <= l)%nat ->
                                     <[ce := CEntry (upd e1 (Some c))]> h1 !! l
                                     = h1 !! l)
      by (intros l Hl; apply list_lookup_insert_ne; lia).
    exists (Some c). split; [apply list_lookup_insert_eq; lia |].
    split; [simpl; lia |]. split.
    { apply (copies_region (S ce) ha h1 _ _ _ Hc1 Hagree); [simpl; lia |].
      apply (IHf _ _ _ _ Ec). }
    split; [apply closed_store_below; [lia | exact Hc1] |].
    split.
    { intros l c' Hl Hlk.
      apply list_lookup_insert_Some in Hlk
        as [(-> & <- & _) | (Hne & Hlk)]; [|eauto].
      apply upd_fresh; [exact Hf1 | simpl; lia]. }
    split.
    { intros l c' Hl Hlk. rewrite list_lookup_insert_ne by lia. auto. }
    intros c' Hf' k t Es.
    rewrite (snapshot_region (S ce) h1 _ Hc1 Hagree k c' Hf').
    apply (snapshot_prefix ha h1 Hp _ _ _ Es).
  - injection E as <-. exists None. rewrite Hnone.
    split; [exact Hce |]. split; [exact I |].
    split; [intros k t E; exact E |].
    split; [exact Hcl |]. split; [exact Hcl' |].
    split; [auto |]. intros c' _ k t E. exact E.
Qed.

End Field.


Lemma freshOpt_mono (M M' : nat) (x : option loc) :
  (M <= M')%nat -> freshOpt M' x -> freshOpt M x.
Proof. destruct x; simpl; [lia | auto]. Qed.

Lemma setKey_spec (ce : loc) (v : option loc) (h : Heap) (e : Entry loc) :
  h !! ce = Some (CEntry e) ->
  setKey ce v h = (Ok tt, <[ce := CEntry (updKey e v)]> h).
Proof.
  intros Hl. unfold setKey, loadEntry, load, mbind, store. rewrite Hl.
  reflexivity.
Qed.

Lemma setValue_spec (ce : loc) (v : option loc) (h : Heap) (e : Entry loc) :
  h !! ce = Some (CEntry e) ->
  setValue ce v h = (Ok tt, <[ce := CEntry (updValue e v)]> h).
Proof.
  intros Hl. unfold setValue, loadEntry, load, mbind, store. rewrite Hl.
  reflexivity.
Qed.

Lemma loadEntry_inv (le : loc) (h h' : Heap) (e : Entry loc) :
  loadEntry le h = (Ok e, h') -> h' = h /\ h !! le = Some (CEntry e).
Proof.
  unfold loadEntry, load, mbind. intros E.
  destruct (h !! le) as [c|]; [|discriminate].
  destruct c; try discriminate. injection E as <- <-. auto.
Qed.

Section Entries.
Variables (f : nat) (h0 : Heap) (clone : loc) (cell0 : cell).
Hypothesis IHf : forall n h c h',
    Clone f n h = (Ok c, h') -> copies h h' (Some c) (Some n).
Hypothesis above : (List.length h0 <= clone)%nat.
Hypothesis cell0_content : forall X, cellContent (withContent cell0 X) = X.
Hypothesis cell0_with :
  forall X Y, withContent (withContent cell0 X) Y = withContent cell0 Y.

Lemma cloneEntryAt_spec x h cs j hn :
  loopInv h0 clone cell0 h cs (S j) ->
  cloneEntryAt f clone (List.length cs) x h = (Ok tt, hn) ->
  exists c, loopInv h0 clone cell0 hn (cs ++ [c]) j /\ copiesEntry h0 hn c x
            /\ forall c' x', freshOpt (S clone) c' ->
                             copiesEntry h0 h c' x' -> copiesEntry h0 hn c' x'.
Proof.
  intros Hinv E. destruct x as [le|]; simpl in E.
  2:{ injection E as <-. exists None.
      split; [apply loopInv_skip, Hinv |].
      split; [intros k t E; exact E | auto]. }
  destruct Hinv as (Hlt & Hcl & H0 & Hcell & Hfr).
  apply mbind_returns in E as (e & h_ & El & E).
  apply loadEntry_inv in El as [-> Hle].
  apply mbind_returns in E as (ce & ha & Ea & E).
  injection Ea as <- <-.
  set (ce := List.length h) in *.
  set (e0 := mkEntry None None (EComment e)) in *.
  set (ha := h ++ [CEntry e0]) in *.
  apply mbind_returns in E as ([] & hb & Ek & E).
  apply mbind_returns in E as ([] & hc & Ev & Es).
  assert (Hha : forall (l : loc) c, h !! l = Some c -> ha !! l = Some c)
    by (intros l c Hl; apply lookup_app_l_Some, Hl).
  assert (Hce : ha !! ce = Some (CEntry e0))
    by (subst ha ce; rewrite lookup_app_r by lia;
        rewrite Nat.sub_diag; reflexivity).
  assert (Hcla : closed (S ce) ha).
  { replace (S ce) with (List.length ha)
      by (subst ha ce; rewrite length_app; simpl; lia).
    apply closed_init. }
  assert (Hcla' : closed (S clone) ha).
  { intros l c Hl Hlk. apply lookup_app_Some in Hlk as [Hlk | [_ Hlk]];
      [eauto |].
    destruct (l - List.length h)%nat; [|discriminate].
    injection Hlk as <-. split; exact I. }
  assert (Hbelow : (clone < ce)%nat) by (subst ce; lia).
  destruct (field_step f clone ce IHf Hbelow setKey updKey
              (setKey_spec ce)
              (fun M e v He Hv => conj Hv (proj2 He))
              (Key e) ha hb e0 Ek eq_refl (conj I I) Hce Hcla Hcla')
    as (K & HbK & HfK & HcK & Hclb & Hclb' & Hpb & _).
  destruct (field_step f clone ce IHf Hbelow setValue updValue
              (setValue_spec ce)
              (fun M e v He Hv => conj (proj1 He) Hv)
              (Value e) hb hc (updKey e0 K) Ev eq_refl
              (conj (freshOpt_mono (S clone) (S ce) K ltac:(lia) HfK) I)
              HbK Hclb Hclb')
    as (V & HcV & HfV & HcVv & Hclc & Hclc' & Hpc & Hst).
  assert (Hhc : forall (l : loc) c, h !! l = Some c -> hc !! l = Some c).
  { intros l c Hl. apply Hpc; [|apply Hpb; [|apply Hha, Hl]];
      apply lookup_lt_Some in Hl; subst ce; lia. }
  assert (Hltc : (clone < List.length hc)%nat).
  { apply lookup_lt_Some in HcV. lia. }
  assert (Hfce : freshOpt (S clone) (Some ce)) by (simpl; lia).
  destruct (loopInv_store h0 clone cell0 above cell0_content cell0_with
              hc cs j (Some ce) hn Hltc Hclc'
              (fun l x Hl => Hhc l x (H0 l x Hl)) (Hhc _ _ Hcell) Hfr Hfce Es)
    as [Hinv' Hagree].
  exists (Some ce). split; [exact Hinv' |]. split.
  - intros k t E. unfold entrySnapshot in E |- *.
    destruct (h0 !! le) as [c0|] eqn:Hle0; [|discriminate].
    rewrite (H0 _ _ Hle0) in Hle. injection Hle as ->.
    rewrite (Hagree ce ltac:(lia)), HcV. simpl.
    destruct (snapshot k h0 (Key e)) as [tk| | |] eqn:Etk; try discriminate.
    destruct (snapshot k h0 (Value e)) as [tv| | |] eqn:Etv;
      try discriminate.
    assert (Hk : snapshot k hn K = Ok tk).
    { rewrite (snapshot_region (S clone) hc hn Hclc' Hagree k K
                 (freshOpt_mono (S clone) (S ce) K ltac:(lia) HfK)).
      apply (Hst K HfK), HcK.
      apply (snapshot_prefix h ha Hha), (snapshot_prefix h0 h H0), Etk. }
    assert (Hhb : forall (l : loc) c, h !! l = Some c -> hb !! l = Some c).
    { intros l c Hl. apply Hpb; [|apply Hha, Hl].
      apply lookup_lt_Some in Hl. subst ce. lia. }
    assert (Hv : snapshot k hn V = Ok tv).
    { rewrite (snapshot_region (S clone) hc hn Hclc' Hagree k V
                 (freshOpt_mono (S clone) (S ce) V ltac:(lia) HfV)).
      apply HcVv.
      apply (snapshot_prefix h hb Hhb), (snapshot_prefix h0 h H0), Etv. }
    rewrite Hk, Hv. exact E.
  - intros c' x' Hf' Hc' k t E.
    rewrite (entrySnapshot_region (S clone) hc hn Hclc' Hagree k c' Hf').
    apply (entrySnapshot_prefix h hc Hhc), Hc', E.
Qed.

End Entries.


Lemma Clone_S (f : nat) (n : loc) :
  Clone (S f) n
  = let* c := load n in
    match c with
    | CDocument b Content =>
        let* clone :=
          alloc (CDocument b (replicate (List.length Content) None)) in
        forEach Content O (cloneChild f clone) >> mret clone
    | CScalar b v s => alloc (CScalar b v s)
    | CMapping b Content s =>
        let* clone :=
          alloc (CMapping b (replicate (List.length Content) None) s) in
        forEach Content O (cloneEntryAt f clone) >> mret clone
    | CSequence b Content s =>
        let* clone :=
          alloc (CSequence b (replicate (List.length Content) None) s) in
        forEach Content O (cloneChild f clone) >> mret clone
    | CAlias b i => alloc (CAlias b i)
    | CEntry _ => mfail wrongType
    end.
Proof. reflexivity. Qed.

Lemma loopInv_init (h : Heap) (cell0 : cell) (j : nat) :
  loopInv h (List.length h) cell0
          (h ++ [withContent cell0 (replicate j None)]) [] j.
Proof.
  split; [rewrite length_app; simpl; lia |].
  split.
  { replace (S (List.length h))
      with (List.length (h ++ [withContent cell0 (replicate j None)]))
      by (rewrite length_app; simpl; lia).
    apply closed_init. }
  split; [intros l c Hl; apply lookup_app_l_Some, Hl |].
  split; [|constructor].
  rewrite lookup_app_r by lia. rewrite Nat.sub_diag. reflexivity.
Qed.

(** The children of the copy read as the children of the original. *)
Lemma children_copied (f : nat) (h hfin : Heap) (cell0 : cell)
  (R : Heap -> option loc -> option loc -> Prop)
  (body : nat -> option loc -> M Heap unit) (Content : list (option loc)) :
  (forall X, cellContent (withContent cell0 X) = X) ->
  (forall X Y, withContent (withContent cell0 X) Y = withContent cell0 Y) ->
  (forall x h1 cs j hn,
      loopInv h (List.length h) cell0 h1 cs (S j) ->
      body (List.length cs) x h1 = (Ok tt, hn) ->
      exists c, loopInv h (List.length h) cell0 hn (cs ++ [c]) j /\ R hn c x
                /\ forall c' x', freshOpt (S (List.length h)) c' ->
                                 R h1 c' x' -> R hn c' x') ->
  forEach Content O body
          (h ++ [withContent cell0 (replicate (List.length Content) None)])
  = (Ok tt, hfin) ->
  exists cs', hfin !! (List.length h : loc) = Some (withContent cell0 cs')
              /\ Forall2 (R hfin) cs' Content.
Proof.
  intros Hc1 Hc2 Hbody E.
  destruct (loop_spec h (List.length h) cell0 R body Hbody Content [] []
              _ hfin (loopInv_init h cell0 _) (Forall2_nil_2 _ _ _) E)
    as (cs' & (_ & _ & _ & Hcell & _) & HF).
  exists cs'. rewrite app_nil_r in Hcell. auto.
Qed.

Lemma Clone_copies_all (f : nat) :
  forall n h c h', Clone f n h = (Ok c, h') -> copies h h' (Some c) (Some n).
Proof.
  induction f as [|f IH]; intros n h c h' E; [discriminate |].
  rewrite Clone_S in E. apply mbind_returns in E as (cell & h_ & El & E).
  unfold load in El. destruct (h !! n) as [cell'|] eqn:Hn; [|discriminate].
  injection El as Hc' Hh. subst cell' h_.
  destruct cell as [b Content|b v s|b Content s|b Content s|b i|e].
  - apply mbind_returns in E as (clone & h1 & Ea & E). injection Ea as <- <-.
    apply mbind_returns in E as ([] & hfin & Ef & E). injection E as <- <-.
    destruct (children_copied f h hfin (CDocument b []) (copies h)
                (cloneChild f (List.length h)) Content
                (fun X => eq_refl) (fun X Y => eq_refl)
                (cloneChild_spec f h (List.length h) (CDocument b []) IH
                   (le_n _) (fun X => eq_refl) (fun X Y => eq_refl)) Ef)
      as (cs' & Hcell & HF).
    intros [|k] t Es; [discriminate |]. rewrite snapshot_S in Es |- *.
    rewrite Hn in Es. rewrite Hcell. simpl.
    destruct (yaml.collect (map (snapshot k h) Content)) as [ts| | |] eqn:Ec;
      try discriminate.
    rewrite (collect_Forall2 (snapshot k h) (snapshot k hfin) Content cs' ts);
      [exact Es | | exact Ec].
    eapply Forall2_impl; [exact HF |]. intros c' x' Hc' t'. apply Hc'.
  - injection E as <- <-. intros [|k] t Es; [discriminate |].
    rewrite snapshot_S in Es |- *. rewrite Hn in Es.
    rewrite lookup_app_r by lia. rewrite Nat.sub_diag. exact Es.
  - apply mbind_returns in E as (clone & h1 & Ea & E). injection Ea as <- <-.
    apply mbind_returns in E as ([] & hfin & Ef & E). injection E as <- <-.
    destruct (children_copied f h hfin (CMapping b [] s) (copiesEntry h)
                (cloneEntryAt f (List.length h)) Content
                (fun X => eq_refl) (fun X Y => eq_refl)
                (cloneEntryAt_spec f h (List.length h) (CMapping b [] s) IH
                   (le_n _) (fun X => eq_refl) (fun X Y => eq_refl)) Ef)
      as (cs' & Hcell & HF).
    intros [|k] t Es; [discriminate |]. rewrite snapshot_S in Es |- *.
    rewrite Hn in Es. rewrite Hcell. simpl.
    destruct (yaml.collect (map (entrySnapshot k h) Content))
      as [ts| | |] eqn:Ec; try discriminate.
    rewrite (collect_Forall2 (entrySnapshot k h) (entrySnapshot k hfin)
               Content cs' ts); [exact Es | | exact Ec].
    eapply Forall2_impl; [exact HF |]. intros c' x' Hc' t'. apply Hc'.
  - apply mbind_returns in E as (clone & h1 & Ea & E). injection Ea as <- <-.
    apply mbind_returns in E as ([] & hfin & Ef & E). injection E as <- <-.
    destruct (children_copied f h hfin (CSequence b [] s) (copies h)
                (cloneChild f (List.length h)) Content
                (fun X => eq_refl) (fun X Y => eq_refl)
                (cloneChild_spec f h (List.length h) (CSequence b [] s) IH
                   (le_n _) (fun X => eq_refl) (fun X Y => eq_refl)) Ef)
      as (cs' & Hcell & HF).
    intros [|k] t Es; [discriminate |]. rewrite snapshot_S in Es |- *.
    rewrite Hn in Es. rewrite Hcell. simpl.
    destruct (yaml.collect (map (snapshot k h) Content)) as [ts| | |] eqn:Ec;
      try discriminate.
    rewrite (collect_Forall2 (snapshot k h) (snapshot k hfin) Content cs' ts);
      [exact Es | | exact Ec].
    eapply Forall2_impl; [exact HF |]. intros c' x' Hc' t'. apply Hc'.
  - injection E as <- <-. intros [|k] t Es; [discriminate |].
    rewrite snapshot_S in Es |- *. rewrite Hn in Es.
    rewrite lookup_app_r by lia. rewrite Nat.sub_diag. exact Es.
  - discriminate.
Qed.

(** The copy that [Clone] returns reads as the original: whatever tree the
    original pointer denotes before the call, the returned pointer denotes
    after it. *)
Theorem Clone_copies (fuel : nat) (n c : loc) (h h' : Heap) (k : nat)
  (t : option Node) :
  Clone fuel n h = (Ok c, h') ->
  snapshot k h (Some n) = Ok t ->
  snapshot k h' (Some c) = Ok t /\ snapshot k h' (Some n) = Ok t.
Proof.
  intros E Es. split; [exact (Clone_copies_all fuel n h c h' E k t Es) |].
  destruct (Clone_frame fuel n h h' (Ok c) E) as [Ht _].
  exact (snapshot_prefix h h' (prefix_lookup h h' Ht) k _ t Es).
Qed.

End CloneCopies.


(** ** [Clone] returns *)

Section CloneReturns.
Import ast heap framespec clonespec.

(** A loop returns when every round returns in the states the rounds reach. *)
Lemma forEach_returns {A} (I : Heap -> Prop) (ok : A -> Prop)
  (body : nat -> A -> M Heap unit) :
  (forall i x h, ok x -> I h -> exists h', body i x h = (Ok tt, h') /\ I h') ->
  forall (l : list A) (i : nat) (h : Heap),
    Forall ok l -> I h -> exists h', forEach l i body h = (Ok tt, h') /\ I h'.
Proof.
  intros Hbody. induction l as [|x l IH]; intros i h Hl Hh; simpl.
  - exists h. split; [reflexivity | exact Hh].
  - inversion Hl as [|? ? Hx Hl']; subst.
    destruct (Hbody i x h Hx Hh) as (h1 & E1 & H1).
    rewrite (mbind_Ok _ _ _ _ _ E1). apply IH; assumption.
Qed.

(** The elements of a list that [collect] reads are readable. *)
Lemma collect_Forall {A B} (f : A -> result B) (l : list A) (r : list B) :
  yaml.collect (map f l) = Ok r -> Forall (fun x => exists y, f x = Ok y) l.
Proof.
  revert r. induction l as [|x l IH]; intros r E; [constructor |].
  simpl in E. destruct (f x) as [y| | |] eqn:Ef; try discriminate.
  simpl in E.
  destruct (yaml.collect (map f l)) as [r'| | |] eqn:Ec; try discriminate.
  constructor; [eauto | exact (IH r' eq_refl)].
Qed.

Lemma setContent_returns (h0 : Heap) (clone : loc) (i : nat)
  (x : option loc) (h : Heap) :
  filling h0 clone h ->
  exists h', setContent clone i x h = (Ok tt, h') /\ filling h0 clone h'.
Proof.
  intros [Hk Hl]. unfold setContent, mbind, load, store.
  destruct (h !! clone) as [c|] eqn:Hc;
    [|apply lookup_ge_None in Hc; lia].
  eexists. split; [reflexivity |]. split.
  - intros l c' Hl'. rewrite list_lookup_insert_ne; [apply Hk, Hl' |].
    apply lookup_lt_Some in Hl'. lia.
  - rewrite length_insert. exact Hl.
Qed.

Lemma Clone_filling (f : nat) (x : loc) (h0 h h' : Heap) (clone : loc)
  (r : result loc) :
  filling h0 clone h -> Clone f x h = (r, h') -> filling h0 clone h'
  /\ (forall (l : loc) c, h !! l = Some c -> h' !! l = Some c).
Proof.
  intros [Hk Hl] E. destruct (Clone_frame f x h h' r E) as [Ht _].
  pose proof (prefix_lookup h h' Ht) as Hp.
  split; [|exact Hp]. split; [intros l c Hc; apply Hp, Hk, Hc |].
  assert (List.length h <= List.length h')%nat.
  { rewrite <- Ht at 1. rewrite length_take. lia. }
  lia.
Qed.

Section Rounds.
Variable f : nat.
Hypothesis IH : forall n h t, snapshot f h (Some n) = Ok t ->
                              exists c h', Clone f n h = (Ok c, h').

Lemma cloneChild_returns (h0 : Heap) (clone : loc) (i : nat)
  (x : option loc) (h : Heap) :
  (exists t, snapshot f h0 x = Ok t) -> filling h0 clone h ->
  exists h', cloneChild f clone i x h = (Ok tt, h') /\ filling h0 clone h'.
Proof.
  intros [t Ht] Hf. destruct x as [x|]; simpl.
  - destruct (IH x h t (snapshot_prefix h0 h (proj1 Hf) f _ t Ht))
      as (c & h1 & Ec).
    rewrite (mbind_Ok _ _ _ _ _ Ec).
    apply setContent_returns.
    exact (proj1 (Clone_filling f x h0 h h1 clone _ Hf Ec)).
  - exists h. split; [reflexivity | exact Hf].
Qed.

(** A field of the copy of an entry is filled with the copy of a tree. *)
Lemma field_returns (set : loc -> option loc -> M Heap unit)
  (upd : Entry loc -> option loc -> Entry loc)
  (h0 : Heap) (clone ce : loc) (x : option loc) (h : Heap) :
  (forall v h1 e, h1 !! ce = Some (CEntry e) ->
                  set ce v h1 = (Ok tt, <[ce := CEntry (upd e v)]> h1)) ->
  (exists t, snapshot f h0 x = Ok t) -> filling h0 clone h ->
  (List.length h0 <= ce)%nat -> (exists e, h !! ce = Some (CEntry e)) ->
  exists h',
    match x with
    | Some k => let* k' := Clone f k in set ce (Some k')
    | None => mret tt
    end h = (Ok tt, h')
    /\ filling h0 clone h' /\ exists e, h' !! ce = Some (CEntry e).
Proof.
  intros Hset [t Ht] Hf Hce [e He]. destruct x as [x|].
  - destruct (IH x h t (snapshot_prefix h0 h (proj1 Hf) f _ t Ht))
      as (c & h1 & Ec).
    rewrite (mbind_Ok _ _ _ _ _ Ec).
    destruct (Clone_filling f x h0 h h1 clone _ Hf Ec) as [[Hk Hl] Hp].
    rewrite (Hset _ _ e (Hp _ _ He)). eexists. split; [reflexivity |].
    split; [split |].
    + intros l c' Hl'. rewrite list_lookup_insert_ne; [apply Hk, Hl' |].
      apply lookup_lt_Some in Hl'. lia.
    + rewrite length_insert. exact Hl.
    + eexists. apply list_lookup_insert_eq.
      apply lookup_lt_Some with (x := CEntry e), Hp, He.
  - exists h. split; [reflexivity |]. split; [exact Hf | eauto].
Qed.

Lemma cloneEntryAt_returns (h0 : Heap) (clone : loc) (i : nat)
  (x : option loc) (h : Heap) :
  (exists t, entrySnapshot f h0 x = Ok t) -> filling h0 clone h ->
  exists h', cloneEntryAt f clone i x h = (Ok tt, h') /\ filling h0 clone h'.
Proof.
  intros [t Ht] Hf. destruct x as [le|]; simpl.
  2: { exists h. split; [reflexivity | exact Hf]. }
  unfold entrySnapshot in Ht.
  destruct (h0 !! le) as [ce|] eqn:Hle; [|discriminate].
  destruct ce as [| | | | |e]; try discriminate.
  destruct (snapshot f h0 (Key e)) as [k| | |] eqn:Ek; try discriminate.
  destruct (snapshot f h0 (Value e)) as [v| | |] eqn:Ev; try discriminate.
  assert (El : loadEntry le h = (Ok e, h)).
  { unfold loadEntry, load, mbind. rewrite (proj1 Hf _ _ Hle). reflexivity. }
  rewrite (mbind_Ok _ _ _ _ _ El).
  set (e1 := mkEntry None None (EComment e)).
  rewrite (mbind_Ok (alloc (CEntry e1)) _ h (h ++ [CEntry e1])
             (List.length h) eq_refl).
  assert (Hf1 : filling h0 clone (h ++ [CEntry e1])).
  { destruct Hf as [Hk Hl]. split.
    - intros l c Hl'. apply lookup_app_l_Some, Hk, Hl'.
    - rewrite length_app. simpl. lia. }
  assert (Hce : (List.length h0 <= List.length h)%nat)
    by (destruct Hf as [_ Hl]; lia).
  assert (He1 : exists e', (h ++ [CEntry e1]) !! (List.length h : loc)
                           = Some (CEntry e'))
    by (exists e1; rewrite lookup_app_r by lia; rewrite Nat.sub_diag;
        reflexivity).
  destruct (field_returns setKey updKey h0 clone (List.length h) (Key e) _
              (fun v h1 e' => setKey_spec _ v h1 e') (ex_intro _ k Ek)
              Hf1 Hce He1) as (h2 & E2 & Hf2 & He2).
  rewrite (mbind_Ok _ _ _ _ _ E2).
  destruct (field_returns setValue updValue h0 clone (List.length h)
              (Value e) _
              (fun v h1 e' => setValue_spec _ v h1 e') (ex_intro _ v Ev)
              Hf2 Hce He2) as (h3 & E3 & Hf3 & He3).
  rewrite (mbind_Ok _ _ _ _ _ E3).
  apply setContent_returns, Hf3.
Qed.

End Rounds.

Lemma filling_init (h : Heap) (c : cell) :
  filling h (List.length h) (h ++ [c]).
Proof.
  split; [intros l c' Hl; apply lookup_app_l_Some, Hl |].
  rewrite length_app. simpl. lia.
Qed.

(** [Clone] returns on every tree that can be read, with the fuel that
    reads it. *)
Lemma Clone_total (k : nat) :
  forall n h t, snapshot k h (Some n) = Ok t ->
                exists c h', Clone k n h = (Ok c, h').
Proof.
  induction k as [|f IH]; intros n h t Es; [discriminate |].
  rewrite snapshot_S in Es. rewrite Clone_S.
  destruct (h !! n) as [cell|] eqn:Hn; [|discriminate].
  assert (El : load n h = (Ok cell, h)) by (unfold load; rewrite Hn; reflexivity).
  rewrite (mbind_Ok _ _ _ _ _ El).
  destruct cell as [b Content|b v s|b Content s|b Content s|b i|e];
    try discriminate.
  - destruct (yaml.collect (map (snapshot f h) Content)) as [ts| | |] eqn:Ec;
      try discriminate.
    set (c0 := CDocument b (replicate (List.length Content) None)).
    rewrite (mbind_Ok (alloc c0) _ h (h ++ [c0]) (List.length h) eq_refl).
    destruct (forEach_returns (filling h (List.length h))
                (fun x => exists y, snapshot f h x = Ok y)
                (cloneChild f (List.length h))
                (fun i x h1 => cloneChild_returns f IH h (List.length h) i x h1)
                Content O (h ++ [c0]) (collect_Forall _ _ _ Ec)
                (filling_init h c0)) as (h1 & E1 & _).
    rewrite (mbind_Ok _ _ _ _ _ E1). eexists _, _. reflexivity.
  - eexists _, _. reflexivity.
  - destruct (yaml.collect (map (entrySnapshot f h) Content))
      as [ts| | |] eqn:Ec; try discriminate.
    set (c0 := CMapping b (replicate (List.length Content) None) s).
    rewrite (mbind_Ok (alloc c0) _ h (h ++ [c0]) (List.length h) eq_refl).
    destruct (forEach_returns (filling h (List.length h))
                (fun x => exists y, entrySnapshot f h x = Ok y)
                (cloneEntryAt f (List.length h))
                (fun i x h1 =>
                   cloneEntryAt_returns f IH h (List.length h) i x h1)
                Content O (h ++ [c0]) (collect_Forall _ _ _ Ec)
                (filling_init h c0)) as (h1 & E1 & _).
    rewrite (mbind_Ok _ _ _ _ _ E1). eexists _, _. reflexivity.
  - destruct (yaml.collect (map (snapshot f h) Content)) as [ts| | |] eqn:Ec;
      try discriminate.
    set (c0 := CSequence b (replicate (List.length Content) None) s).
    rewrite (mbind_Ok (alloc c0) _ h (h ++ [c0]) (List.length h) eq_refl).
    destruct (forEach_returns (filling h (List.length h))
                (fun x => exists y, snapshot f h x = Ok y)
                (cloneChild f (List.length h))
                (fun i x h1 => cloneChild_returns f IH h (List.length h) i x h1)
                Content O (h ++ [c0]) (collect_Forall _ _ _ Ec)
                (filling_init h c0)) as (h1 & E1 & _).
    rewrite (mbind_Ok _ _ _ _ _ E1). eexists _, _. reflexivity.
  - eexists _, _. reflexivity.
Qed.

(** [Clone] returns a copy of every tree that can be read: the copy reads
    as the same tree, is made of new cells only, and the cells that
    existed are as they were. *)
Theorem Clone_returns_a_copy (k : nat) (n : loc) (h : Heap)
  (t : option Node) :
  snapshot k h (Some n) = Ok t ->
  exists c h',
    Clone k n h = (Ok c, h')
    /\ snapshot k h' (Some c) = Ok t
    /\ take (List.length h) h' = h
    /\ (forall l, reach h' c l -> (List.length h <= l)%nat).
Proof.
  intros Es. destruct (Clone_total k n h t Es) as (c & h' & E).
  exists c, h'. split; [exact E |].
  split; [exact (Clone_copies_all k n h c h' E k t Es) |].
  destruct (Clone_frame k n h h' (Ok c) E) as [Ht Hr].
  split; [exact Ht | exact (Hr c eq_refl)].
Qed.

End CloneReturns.

Lemma Clone_shares_nothing_witness :
  let h := examples.heapXY in
  let res := heap.Clone 3 0%nat h in
  take (List.length h) res.2 = h
  /\ forall c, res.1 = Ok c ->
               forall l, framespec.reach res.2 c l -> (List.length h <= l)%nat.
Proof.
  intros h res.
  apply (Clone_shares_nothing 3 0%nat h res.2 res.1).
  vm_compute. reflexivity.
Defined.

Lemma merge_preserves_trees_witness :
  let h := examples.heapXY in
  let res :=
    @merge.MergeNodes asciiStd 3 (Some 0%nat) (Some 4%nat)
      (@examples.options asciiStd yaml.MergeDeep true) h in
  heap.snapshot 3 res.2 (Some 0%nat) = Ok examples.onlyX.
Proof.
  intros h res.
  apply (@merge_preserves_trees asciiStd 3 (Some 0%nat) (Some 4%nat)
           (@examples.options asciiStd yaml.MergeDeep true) h res.2 res.1).
  - vm_compute. reflexivity.
  - vm_compute. reflexivity.
Defined.

Lemma Clone_copies_witness :
  let h := examples.heapXY in
  let h' := (heap.Clone 3 0%nat h).2 in
  heap.snapshot 3 h' (Some 8%nat) = Ok examples.onlyX
  /\ heap.snapshot 3 h' (Some 0%nat) = Ok examples.onlyX.
Proof.
  intros h h'.
  apply (Clone_copies 3 0%nat 8%nat h h' 3 examples.onlyX).
  - vm_compute. reflexivity.
  - vm_compute. reflexivity.
Defined.


Lemma Clone_returns_a_copy_witness :
  exists c h',
    heap.Clone 3 0%nat examples.heapXY = (Ok c, h')
    /\ heap.snapshot 3 h' (Some c) = Ok examples.onlyX
    /\ take (List.length examples.heapXY) h' = examples.heapXY
    /\ (forall l, framespec.reach h' c l
                  -> (List.length examples.heapXY <= l)%nat).
Proof.
  apply (Clone_returns_a_copy 3 0%nat examples.heapXY examples.onlyX).
  vm_compute. reflexivity.
Defined.

(** * Further properties of the parser *)

Section ParserMore.
Import ast lexer heap parser parserspec framespec clonespec.
Context `{GoStd}.

Lemma parseValue_S (f : nat) :
  parseValue (S f) = parseValueCases (parseValue f) f.
Proof. reflexivity. Qed.

(** The start of [parseValue] on a token that is neither a newline nor a
    comment. *)
Lemma parseValue_token (g : nat) (p : Parser) :
  Type_ (currentToken p) <> TokenNewLine ->
  Type_ (currentToken p) <> TokenComment ->
  parseValue (S (S g)) p
  = (let value := lexer.Value (currentToken p) in
     match Type_ (currentToken p) with
     | TokenEOF | TokenDocumentEnd => mret None
     | TokenNull => scalarNode "!!null" None ""
     | TokenBoolean => orMapping (parseValue (S g)) (S g)
                                 (scalarNode "!!bool" None value)
     | TokenNumber =>
         orMapping (parseValue (S g)) (S g)
           (let* node := parseNumber in
            attachComments node >> advance >> mret (Some node))
     | TokenString => orMapping (parseValue (S g)) (S g)
                                (scalarNode "!!str" None value)
     | TokenLiteralBlock => scalarNode "!!str" (Some LiteralStyle) value
     | TokenFoldedBlock => scalarNode "!!str" (Some FoldedStyle) value
     | TokenSequenceItem => parseSequence (parseValue (S g)) (S g)
     | TokenFlowSequenceStart => parseFlowSequence (parseValue (S g)) (S g)
     | TokenFlowMappingStart => parseFlowMapping (parseValue (S g)) (S g)
     | TokenAnchor =>
         advance >>
         let* node := parseValue (S g) in
         mmodify (fun p => set_anchors p (<[value := node]> (anchors p))) >>
         mret node
     | TokenAlias => parseAlias (S g)
     | TokenTag =>
         advance >>
         let* node := parseValue (S g) in
         (match node with
          | Some n => onMem (SetTag n value)
          | None => mret tt
          end) >>
         mret node
     | t => unexpectedToken t
     end) p.
Proof.
  intros Hnl Hcm. rewrite parseValue_S. unfold parseValueCases.
  rewrite (mbind_Ok _ _ _ _ _ (skipNewlines_skip g p Hnl)).
  rewrite (mbind_Ok _ _ _ _ _ (collectComments_skip g p Hcm)).
  rewrite (mbind_Ok current _ p p (Type_ (currentToken p)) eq_refl).
  rewrite (mbind_Ok currentValue _ p p (lexer.Value (currentToken p)) eq_refl).
  destruct (Type_ (currentToken p)); reflexivity.
Qed.

Lemma onMem_inv {A} (m : M Heap A) (p p' : Parser) (a : A) :
  onMem m p = (Ok a, p') ->
  exists h', m (mem p) = (Ok a, h') /\ p' = set_mem p h'.
Proof.
  unfold onMem. destruct (m (mem p)) as [r h']. intros E.
  injection E as -> <-. eauto.
Qed.

(** An alias whose name is not in the anchor table: [parseValue] returns
    the error [undefined alias: <name>]. *)
Theorem undefined_alias_is_an_error (g : nat) (p : Parser) :
  Type_ (currentToken p) = TokenAlias ->
  anchors p !! lexer.Value (currentToken p) = None ->
  parseValue (S (S g)) p
  = (Err ("undefined alias: " +:+ lexer.Value (currentToken p)), advanced p).
Proof.
  intros Ht Hn.
  rewrite parseValue_token by (rewrite Ht; discriminate). rewrite Ht.
  cbv beta iota zeta.
  unfold parseAlias.
  rewrite (mbind_Ok currentValue _ p p _ eq_refl).
  rewrite (mbind_Ok _ _ _ _ _ (advance_eq p)).
  rewrite (mbind_Ok (mget anchors) _ (advanced p) (advanced p) _ eq_refl).
  change (anchors (advanced p)) with (anchors p). rewrite Hn. reflexivity.
Qed.

(** An alias of an anchored node that can be read: [parseValue] returns a
    copy of the node.  The copy is made of new cells only, the memory that
    existed is left as it was, the copy reads as the anchored node, and the
    anchor table is unchanged. *)
Theorem alias_gets_a_copy (g : nat) (p : Parser) (n : loc)
  (t0 : option Node) :
  Type_ (currentToken p) = TokenAlias ->
  anchors p !! lexer.Value (currentToken p) = Some (Some n) ->
  snapshot (S g) (mem p) (Some n) = Ok t0 ->
  exists c p',
    parseValue (S (S g)) p = (Ok (Some c), p')
    /\ take (List.length (mem p)) (mem p') = mem p
    /\ (forall l, reach (mem p') c l -> (List.length (mem p) <= l)%nat)
    /\ (forall k t, snapshot k (mem p) (Some n) = Ok t ->
                    snapshot k (mem p') (Some c) = Ok t)
    /\ anchors p' = anchors p
    /\ scanner p' = scanner (advanced p)
    /\ currentToken p' = currentToken (advanced p).
Proof.
  intros Ht Hn Hs.
  rewrite parseValue_token by (rewrite Ht; discriminate).
  rewrite Ht. cbv beta iota zeta. unfold parseAlias.
  rewrite (mbind_Ok currentValue _ p p _ eq_refl).
  rewrite (mbind_Ok _ _ _ _ _ (advance_eq p)).
  rewrite (mbind_Ok (mget anchors) _ (advanced p) (advanced p) _ eq_refl).
  change (anchors (advanced p)) with (anchors p). rewrite Hn.
  destruct (mem p !! n) as [cell|] eqn:Hc;
    [|destruct g; simpl in Hs; rewrite Hc in Hs; discriminate].
  assert (Ed : onMem (deref (Some n)) (advanced p)
               = (Ok (n, cell), advanced p)).
  { unfold onMem, deref, mbind, load, mret.
    change (mem (advanced p)) with (mem p). rewrite Hc.
    destruct p; reflexivity. }
  rewrite (mbind_Ok _ _ _ _ _ Ed). cbn [fst].
  destruct (Clone_total (S g) n (mem p) t0 Hs) as (c & h' & Ec).
  assert (Eo : onMem (Clone (S g) n) (advanced p)
               = (Ok c, set_mem (advanced p) h')).
  { unfold onMem. change (mem (advanced p)) with (mem p). rewrite Ec.
    reflexivity. }
  rewrite (mbind_Ok _ _ _ _ _ Eo).
  exists c, (set_mem (advanced p) h').
  destruct (Clone_frame _ _ _ _ _ Ec) as [Hp Hr].
  split; [reflexivity |]. split; [exact Hp |].
  split; [exact (Hr c eq_refl) |].
  split; [|repeat split].
  intros k t Es. exact (Clone_copies_all _ _ _ _ _ Ec k t Es).
Qed.

(** The node parsed after an anchor is entered in the anchor table under
    the anchor's name, also when there is no node (nil). *)
Theorem anchor_is_registered (g : nat) (p p' : Parser) (r : option loc) :
  Type_ (currentToken p) = TokenAnchor ->
  parseValue (S (S g)) p = (Ok r, p') ->
  anchors p' !! lexer.Value (currentToken p) = Some r.
Proof.
  intros Ht E.
  rewrite parseValue_token in E by (rewrite Ht; discriminate).
  rewrite Ht in E. cbv beta iota zeta in E.
  rewrite (mbind_Ok _ _ _ _ _ (advance_eq p)) in E.
  unfold mbind at 1 in E.
  destruct (parseValue (S g) (advanced p)) as [[node| | |] p1];
    try discriminate.
  unfold mbind, mmodify, mret in E. injection E as <- <-.
  simpl. apply lookup_insert_eq.
Qed.

(** [attachComments] changes the comment of the node only. *)
Lemma attachComments_tag (p : Parser) (h : Heap) (c : cell) :
  mem p = h ++ [c] ->
  exists b,
    attachComments (List.length h) p
    = (Ok tt, set_comments (set_mem p (h ++ [withBase c b]))
                (if (0 <? List.length (comments p))%nat then []
                 else comments p))
    /\ tag b = tag (cellBase c).
Proof.
  intros Hm. unfold attachComments.
  rewrite (mbind_Ok (mget comments) _ p p _ eq_refl).
  destruct (comments p) as [|t ts] eqn:Hcs; cbn [List.length Nat.ltb Nat.leb].
  - exists (cellBase c). split; [|reflexivity]. unfold mret. f_equal.
    destruct p as [s ct an cs m]. simpl in *. subst.
    destruct c; reflexivity.
  - eexists. split.
    + unfold mbind, onMem, SetComment, mbind.
      rewrite Hm, load_last, store_last. unfold mmodify. reflexivity.
    + reflexivity.
Qed.

(** A null token ([null], [~] or nothing) becomes a plain scalar with the
    tag [!!null] and an empty value: the text of the token is not kept. *)
Theorem null_token_text_is_dropped (g : nat) (p : Parser) :
  Type_ (currentToken p) = TokenNull ->
  exists b p',
    parseValue (S (S g)) p = (Ok (Some (List.length (mem p))), p')
    /\ mem p' = mem p ++ [CScalar b "" PlainStyle]
    /\ tag b = "!!null".
Proof.
  intros Ht.
  rewrite parseValue_token by (rewrite Ht; discriminate). rewrite Ht.
  cbv beta iota zeta.
  cbv beta iota zeta. unfold scalarNode.
  set (p1 := set_mem p (mem p ++ [CScalar base0 "" PlainStyle])).
  rewrite (mbind_Ok (onMem (NewScalar "")) _ p p1 (List.length (mem p))
             eq_refl).
  rewrite (mbind_Ok (mret tt) _ p1 p1 tt eq_refl).
  set (p2 := set_mem p (mem p ++ [CScalar (set_tag base0 "!!null") ""
                                          PlainStyle])).
  assert (Etag : onMem (SetTag (List.length (mem p)) "!!null") p1
                 = (Ok tt, p2)).
  { unfold onMem, SetTag, mbind. subst p1. cbn [mem set_mem].
    rewrite load_last, store_last. reflexivity. }
  rewrite (mbind_Ok _ _ _ _ _ Etag).
  destruct (attachComments_tag p2 (mem p) _ eq_refl) as (b & Ha & Hb).
  rewrite (mbind_Ok _ _ _ _ _ Ha).
  rewrite (mbind_Ok _ _ _ _ _ (advance_eq _)).
  eexists _, _. split; [reflexivity |]. split; [reflexivity |].
  exact Hb.
Qed.

End ParserMore.

Lemma undefined_alias_is_an_error_witness :
  let p := @parserspec.advanced asciiStd (parser.NewParser "*x") in
  @parser.parseValue asciiStd 2 p
  = (Err "undefined alias: x", @parserspec.advanced asciiStd p).
Proof.
  intros p. apply (@undefined_alias_is_an_error asciiStd 0 p).
  - reflexivity.
  - vm_compute. reflexivity.
Defined.

Lemma alias_gets_a_copy_witness :
  let h := [heap.CScalar ast.base0 "1" ast.PlainStyle] in
  let p :=
    parser.set_mem
      (parser.set_anchors
         (@parserspec.advanced asciiStd (parser.NewParser "*x"))
         (<["x" := Some 0%nat]> ∅)) h in
  exists c p',
    @parser.parseValue asciiStd 2 p = (Ok (Some c), p')
    /\ take (List.length h) (parser.mem p') = h
    /\ (forall l, framespec.reach (parser.mem p') c l ->
                  (List.length h <= l)%nat)
    /\ (forall k t, heap.snapshot k h (Some 0%nat) = Ok t ->
                    heap.snapshot k (parser.mem p') (Some c) = Ok t)
    /\ parser.anchors p' = parser.anchors p
    /\ parser.scanner p' = parser.scanner (@parserspec.advanced asciiStd p)
    /\ parser.currentToken p'
       = parser.currentToken (@parserspec.advanced asciiStd p).
Proof.
  intros h p.
  apply (@alias_gets_a_copy asciiStd 0 p 0%nat
           (Some (ast.Scalar ast.base0 "1" ast.PlainStyle))).
  - reflexivity.
  - vm_compute. reflexivity.
  - vm_compute. reflexivity.
Defined.

Lemma anchor_is_registered_witness :
  let p := @parserspec.advanced asciiStd (parser.NewParser "&x 1") in
  parser.anchors (@parser.parseValue asciiStd 3 p).2 !! "x"
  = Some (Some 0%nat).
Proof.
  intros p.
  apply (@anchor_is_registered asciiStd 1 p
           (@parser.parseValue asciiStd 3 p).2 (Some 0%nat)).
  - reflexivity.
  - vm_compute. reflexivity.
Defined.

Lemma null_token_text_is_dropped_witness :
  let p := @parserspec.advanced asciiStd (parser.NewParser "~") in
  exists b p',
    @parser.parseValue asciiStd 2 p = (Ok (Some 0%nat), p')
    /\ parser.mem p' = [] ++ [heap.CScalar b "" ast.PlainStyle]
    /\ ast.tag b = "!!null".
Proof.
  intros p. apply (@null_token_text_is_dropped asciiStd 0 p). reflexivity.
Defined.

